(** * CasOC transcription: variable/constraint bookkeeping of the Moco CasADi solver

    A shallow embedding of [CasOCTranscription.h], [CasOCTrapezoidal.h],
    [CasOCLegendreGauss.cpp] and [CasOCLegendreGaussRadau.cpp].

    - C++ [int] values are integers in [Z]; a loop [for (int i = 0; i < n; ++i)]
      visits [seqZ 0 n].
    - [double] is the binary64 type [float] of the kernel.  Functions that only
      move numbers around are polymorphic in the entry type; functions that
      compute take the arithmetic from the class [Scalar], which has two
      instances: [float] (what the program runs on) and [Qc] (exact rationals,
      the arithmetic the algebraic identities are stated in).
    - A dense CasADi matrix is a row count and the list of its columns.
    - [std::unordered_map<Var, T>] is a [gmap Var T].
    - A C++ exception is the [Throw] branch of [result]. *)

From Stdlib Require Import ZArith QArith Qcanon Floats String DecimalString.
From stdpp Require Import base tactics option list sorting gmap.

Local Open Scope Z_scope.

(** ** Exceptions *)

Inductive Exception : Type :=
  | OpenSimException (msg : string)   (* OPENSIM_THROW_IF(..., OpenSim::Exception, msg) *)
  | CasadiException                   (* index out of bounds / dimension mismatch *)
  | OutOfRange.                       (* std::unordered_map::at on a missing key *)

Inductive result (T : Type) : Type :=
  | Ok (x : T)
  | Throw (e : Exception).
Arguments Ok {T} x.
Arguments Throw {T} e.

#[global] Instance result_ret : MRet result := @Ok.
#[global] Instance result_bind : MBind result :=
  fun A B f r => match r with Ok x => f x | Throw e => Throw e end.

Definition is_Ok {T} (r : result T) : Prop := exists x, r = Ok x.

(** [OPENSIM_THROW_IF(cond, OpenSim::Exception, msg)] *)
Definition OPENSIM_THROW_IF (cond : bool) (msg : string) : result unit :=
  if cond then Throw (OpenSimException msg) else Ok tt.

(** [for (int i = 0; i < n; ++i) body] threading the loop's state. *)
Fixpoint forM {S : Type} (l : list Z) (body : Z -> S -> result S) (s : S) : result S :=
  match l with
  | [] => Ok s
  | i :: l' => s' ← body i s; forM l' body s'
  end.

Definition for_range {S : Type} (first last : Z) (body : Z -> S -> result S) (s : S)
    : result S :=
  forM (seqZ first (last - first)) body s.

(** [for (auto& x : xs) body] over a [std::vector]. *)
Fixpoint for_each {S T : Type} (xs : list T) (body : T -> S -> result S) (s : S)
    : result S :=
  match xs with
  | [] => Ok s
  | x :: xs' => s' ← body x s; for_each xs' body s'
  end.

(** ** Scalars *)

Class Scalar (A : Type) := {
  zero : A;
  one : A;
  add : A -> A -> A;
  sub : A -> A -> A;
  mul : A -> A -> A;
  div : A -> A -> A;
}.

#[global] Instance float_Scalar : Scalar float := {
  zero := 0%float;
  one := 1%float;
  add := PrimFloat.add;
  sub := PrimFloat.sub;
  mul := PrimFloat.mul;
  div := PrimFloat.div;
}.

#[global] Instance Qc_Scalar : Scalar Qc := {
  zero := 0%Qc;
  one := 1%Qc;
  add := Qcplus;
  sub := Qcminus;
  mul := Qcmult;
  div := Qcdiv;
}.

(** ** Dense matrices ([casadi::DM], and the shape of a [casadi::MX]) *)

Record DM (A : Type) : Type := mkDM {
  rows : nat;
  cols : list (list A);
}.
Arguments mkDM {A} rows cols.
Arguments rows {A} d.
Arguments cols {A} d.

Section Matrix.
Context {A : Type}.

Definition columns (m : DM A) : nat := length (cols m).
Definition numel (m : DM A) : nat := (rows m * columns m)%nat.

(** Every column has [rows m] entries. *)
Definition wf_DM (m : DM A) : Prop :=
  Forall (fun c => length c = rows m) (cols m).

(** Entry [(i, j)], for stating properties. *)
Definition entry (m : DM A) (i j : nat) : option A :=
  c ← cols m !! j; c !! i.

(** [DM()]: the empty 0-by-0 matrix. *)
Definition DM_empty : DM A := mkDM 0 [].

(** A matrix with every entry [x]: [DM::zeros(r, c)], [DM::ones(r, c)],
    and [T(Sparsity::dense(r, c))], which CasADi fills with ones. *)
Definition DM_fill (r c : nat) (x : A) : DM A :=
  mkDM r (replicate c (replicate r x)).

(** A negative index counts from the end. *)
Definition wrap (len : nat) (i : Z) : Z :=
  if decide (i < 0) then i + Z.of_nat len else i.

(** A single index into a dimension of length [len]. *)
Definition scalar_index (len : nat) (i : Z) : result nat :=
  let k := wrap len i in
  if decide (0 <= k < Z.of_nat len) then Ok (Z.to_nat k) else Throw CasadiException.

(** [Slice(start, stop)] on a dimension of length [len]: the first index and
    the number of indices. *)
Definition slice_index (len : nat) (start stop : Z) : result (nat * nat) :=
  let a := wrap len start in
  let b := wrap len stop in
  if decide (0 <= a /\ b <= Z.of_nat len)
  then Ok (Z.to_nat a, Z.to_nat (b - a))
  else Throw CasadiException.

(** [Slice::is_scalar(len)]: start and stop are cut down to the length, and
    the slice is a scalar when one index is left between them. *)
Definition slice_is_scalar (len : nat) (start stop : Z) : bool :=
  bool_decide (Z.min stop (Z.of_nat len) - Z.min start (Z.of_nat len) = 1).

(** [x(Slice(start, stop))] on a column vector.  CasADi reads a slice that
    [is_scalar] as the one entry [Slice::scalar(len)], also when its stop lies
    past the end; every other slice is resolved by [Slice::all]. *)
Definition vec_slice (x : list A) (start stop : Z) : result (list A) :=
  if slice_is_scalar (length x) start stop then
    k ← scalar_index (length x) start;
    match x !! k with
    | Some a => Ok [a]
    | None => Throw CasadiException
    end
  else
    '(a, n) ← slice_index (length x) start stop;
    Ok (take n (drop a x)).

(** What an assignment stores at the [k]-th of [n] addressed places: the
    right-hand side has [n] entries, or one entry that is repeated. *)
Definition rhs_fits (n : nat) (v : list A) : bool :=
  bool_decide (length v = n \/ length v = 1%nat).

Definition rhs_at (v : list A) (k : nat) : option A :=
  match v with
  | [x] => Some x
  | _ => v !! k
  end.

(** Overwrite [n] places of [l] from position [a] on with the right-hand side. *)
Definition write_at (l : list A) (a n : nat) (v : list A) : list A :=
  imap (fun k y =>
          if decide (a <= k < a + n)%nat
          then default y (rhs_at v (k - a)) else y) l.

(** [x(Slice(start, stop)) = v] on a column vector. *)
Definition vec_set_slice (x : list A) (start stop : Z) (v : list A)
    : result (list A) :=
  '(a, n) ← slice_index (length x) start stop;
  if rhs_fits n v then Ok (write_at x a n v) else Throw CasadiException.

(** [m(Slice(), j)]: column [j]. *)
Definition DM_col (m : DM A) (j : Z) : result (list A) :=
  k ← scalar_index (columns m) j;
  match cols m !! k with
  | Some c => Ok c
  | None => Throw CasadiException
  end.

(** [m(Slice(), Slice(start, stop))]: a block of whole columns. *)
Definition DM_cols (m : DM A) (start stop : Z) : result (DM A) :=
  '(a, n) ← slice_index (columns m) start stop;
  Ok (mkDM (rows m) (take n (drop a (cols m)))).

(** [m(Slice(start, stop), j) = v]. *)
Definition DM_set_rows (m : DM A) (start stop : Z) (j : Z) (v : list A)
    : result (DM A) :=
  '(a, n) ← slice_index (rows m) start stop;
  k ← scalar_index (columns m) j;
  if rhs_fits n v
  then Ok (mkDM (rows m) (alter (fun c => write_at c a n v) k (cols m)))
  else Throw CasadiException.

(** [m(Slice(), j) = v]. *)
Definition DM_set_col (m : DM A) (j : Z) (v : list A) : result (DM A) :=
  DM_set_rows m 0 (Z.of_nat (rows m)) j v.

(** [m(i)]: linear (column-major) indexing. *)
Definition DM_at (m : DM A) (i : Z) : result A :=
  k ← scalar_index (numel m) i;
  match entry m (k mod rows m) (k / rows m) with
  | Some x => Ok x
  | None => Throw CasadiException
  end.

(** [m(i) = x]. *)
Definition DM_set_at (m : DM A) (i : Z) (x : A) : result (DM A) :=
  k ← scalar_index (numel m) i;
  Ok (mkDM (rows m)
        (alter (fun c => <[(k mod rows m)%nat := x]> c) (k / rows m)%nat (cols m))).

(** [x(i)] and [x(i) = a] on a column vector. *)
Definition vec_at (x : list A) (i : Z) : result A :=
  k ← scalar_index (length x) i;
  match x !! k with
  | Some a => Ok a
  | None => Throw CasadiException
  end.

Definition vec_set (x : list A) (i : Z) (a : A) : result (list A) :=
  k ← scalar_index (length x) i;
  Ok (<[k := a]> x).

(** [DM::veccat]: the columns of all the matrices, one after the other. *)
Definition veccat (ms : list (list A)) : list A := concat ms.

(** Cut a list into [c] consecutive pieces of [r] entries. *)
Fixpoint chunks (r c : nat) (l : list A) : list (list A) :=
  match c with
  | O => []
  | S c' => take r l :: chunks r c' (drop r l)
  end.

(** [DM::reshape(x, r, c)] of a column vector. *)
Definition reshape (x : list A) (r c : nat) : result (DM A) :=
  if decide (length x = (r * c)%nat)
  then Ok (mkDM r (chunks r c x))
  else Throw CasadiException.

(** [DM::repmat(m, 1, n)]: [n] copies side by side. *)
Definition repmat (m : DM A) (n : nat) : DM A :=
  mkDM (rows m) (concat (replicate n (cols m))).
End Matrix.

(** The two index forms the callers pass for [TRow] and [TColumn], and
    [Slice()] for a whole dimension. *)
Inductive Index : Type :=
  | Int (i : Z)
  | Slice (start stop : Z)
  | SliceAll.

Section MatrixArith.
Context {A : Type}.

(** First addressed position and number of addressed positions. *)
Definition index_range (len : nat) (ix : Index) : result (nat * nat) :=
  match ix with
  | Int i => k ← scalar_index len i; Ok (k, 1%nat)
  | Slice start stop => slice_index len start stop
  | SliceAll => Ok (0%nat, len)
  end.

(** [m(rowIndices, columnIndices) = x] for a number [x]. *)
Definition DM_set_block (m : DM A) (rowIndices columnIndices : Index) (x : A)
    : result (DM A) :=
  '(r0, rn) ← index_range (rows m) rowIndices;
  '(c0, cn) ← index_range (columns m) columnIndices;
  Ok (mkDM (rows m)
        (imap (fun j c => if decide (c0 <= j < c0 + cn)%nat
                          then write_at c r0 rn [x] else c) (cols m))).

Definition DM_map (f : A -> A) (m : DM A) : DM A :=
  mkDM (rows m) (map (map f) (cols m)).

(** The value of a 1-by-1 matrix. *)
Definition as_scalar (m : DM A) : option A :=
  match rows m, cols m with
  | 1%nat, [[a]] => Some a
  | _, _ => None
  end.

Definition same_shape (x y : DM A) : bool :=
  bool_decide (rows x = rows y /\ columns x = columns y).

(** An elementwise operation: a 1-by-1 operand is applied to every entry of
    the other one, otherwise the shapes have to agree. *)
Definition DM_binary (op : A -> A -> A) (x y : DM A) : result (DM A) :=
  match as_scalar x, as_scalar y with
  | Some a, _ => Ok (DM_map (op a) y)
  | None, Some b => Ok (DM_map (fun v => op v b) x)
  | None, None =>
      if same_shape x y
      then Ok (mkDM (rows x) (zip_with (zip_with op) (cols x) (cols y)))
      else Throw CasadiException
  end.

Context {SA : Scalar A}.

Definition sum_list (l : list A) : A := foldr add zero l.

(** Row [i] of a matrix (entries missing from a ragged column are skipped). *)
Definition DM_row (m : DM A) (i : nat) : list A :=
  omap (fun c => c !! i) (cols m).

Definition dot (u v : list A) : A := sum_list (zip_with mul u v).

(** [mtimes(x, y)]. *)
Definition mtimes (x y : DM A) : result (DM A) :=
  if decide (columns x = rows y)
  then Ok (mkDM (rows x)
             (map (fun c => map (fun i => dot (DM_row x i) c) (seq 0 (rows x)))
                  (cols y)))
  else Throw CasadiException.

(** [T(casadi::Sparsity::dense(numRows, numColumns))]. *)
Definition dense (numRows numColumns : Z) : result (DM A) :=
  if decide (0 <= numRows /\ 0 <= numColumns)
  then Ok (DM_fill (Z.to_nat numRows) (Z.to_nat numColumns) one)
  else Throw CasadiException.

(** [DM::zeros(numRows, numColumns)] and the all-zero [DM(numRows, numColumns)]. *)
Definition zeros (numRows numColumns : Z) : result (DM A) :=
  if decide (0 <= numRows /\ 0 <= numColumns)
  then Ok (DM_fill (Z.to_nat numRows) (Z.to_nat numColumns) zero)
  else Throw CasadiException.
End MatrixArith.

(** ** The problem's data *)

(** Modelled from the spec: the enum [Var] of CasOCProblem.h is not among the
    sources; these are the nine variable kinds the specification lists. *)
Inductive Var : Type :=
  | initial_time
  | final_time
  | states
  | controls
  | multipliers
  | derivatives
  | parameters
  | projection_states
  | slacks.

#[global] Instance Var_eq_dec : EqDecision Var.
Proof. solve_decision. Defined.

Definition Var_to_nat (v : Var) : nat :=
  match v with
  | initial_time => 0 | final_time => 1 | states => 2 | controls => 3
  | multipliers => 4 | derivatives => 5 | parameters => 6
  | projection_states => 7 | slacks => 8
  end%nat.

Definition Var_of_nat (n : nat) : option Var :=
  match n with
  | 0 => Some initial_time | 1 => Some final_time | 2 => Some states
  | 3 => Some controls | 4 => Some multipliers | 5 => Some derivatives
  | 6 => Some parameters | 7 => Some projection_states | 8 => Some slacks
  | _ => None
  end%nat.

#[global] Instance Var_countable : Countable Var.
Proof.
  refine (inj_countable Var_to_nat Var_of_nat _).
  intros []; reflexivity.
Defined.

(** Modelled from the spec: [struct Bounds] of CasOCProblem.h is not among the
    sources; a bounds value is a (lower, upper) pair that answers [isSet()]. *)
Record Bounds : Type := mkBounds {
  lower : float;
  upper : float;
  isSet : bool;
}.

(** The shape of a symbolic matrix ([casadi::MX]); the functions below read
    nothing else of one. *)
Record Shape : Type := mkShape {
  shape_rows : nat;
  shape_columns : nat;
}.

Definition shape_numel (s : Shape) : nat := (shape_rows s * shape_columns s)%nat.

(** [template <typename T> struct Constraints] *)
Record Constraints (T : Type) : Type := mkConstraints {
  con_initial_time : T;
  con_final_time : T;
  con_parameters : T;
  con_defects : T;
  con_multibody_residuals : T;
  con_auxiliary_residuals : T;
  con_kinematic : T;
  con_endpoint : list T;
  con_path : list T;
  con_interp_controls : T;
}.
Arguments mkConstraints {T}.
Arguments con_initial_time {T} c.
Arguments con_final_time {T} c.
Arguments con_parameters {T} c.
Arguments con_defects {T} c.
Arguments con_multibody_residuals {T} c.
Arguments con_auxiliary_residuals {T} c.
Arguments con_kinematic {T} c.
Arguments con_endpoint {T} c.
Arguments con_path {T} c.
Arguments con_interp_controls {T} c.

(** What the transcription reads of [CasOC::Solver]. *)
Record Solver (A : Type) : Type := mkSolver {
  getMesh : list A;
  getScaleVariablesUsingBounds : bool;
  getEnforcePathConstraintMidpoints : bool;
  getInterpolateControlMeshInteriorPoints : bool;
  getInterpolateControlMidpoints : bool;
}.
Arguments mkSolver {A}.
Arguments getMesh {A} s.
Arguments getScaleVariablesUsingBounds {A} s.
Arguments getEnforcePathConstraintMidpoints {A} s.
Arguments getInterpolateControlMeshInteriorPoints {A} s.
Arguments getInterpolateControlMidpoints {A} s.

(** What the transcription reads of [CasOC::Problem]; of a constraint info
    only its number of outputs. *)
Record Problem : Type := mkProblem {
  getNumStates : Z;
  getNumControls : Z;
  getNumParameters : Z;
  getNumKinematicConstraintEquations : Z;
  getEnforceConstraintDerivatives : bool;
  getEndpointConstraintInfos : list Z;
  getPathConstraintInfos : list Z;
}.

(** The data members of [class Transcription] that the functions below use. *)
Record Transcription (A : Type) : Type := mkTranscription {
  m_solver : Solver A;
  m_problem : Problem;
  m_numGridPoints : Z;
  m_numMeshPoints : Z;
  m_numMeshIntervals : Z;
  m_numMeshInteriorPoints : Z;
  m_numDefectsPerMeshInterval : Z;
  m_numPointsPerMeshInterval : Z;
  m_numMultibodyResiduals : Z;
  m_numAuxiliaryResiduals : Z;
  m_numParameterConstraints : Z;
  m_numConstraints : Z;
  m_numPathConstraintPoints : Z;
  m_grid : list A;
  m_pointsForInterpControls : list A;
  m_times : list A;
  m_scaledVars : gmap Var Shape;
  m_lowerBounds : gmap Var (DM A);
  m_upperBounds : gmap Var (DM A);
  m_shift : gmap Var (DM A);
  m_scale : gmap Var (DM A);
  m_constraints : Constraints Shape;
}.
Arguments mkTranscription {A}.
Arguments m_solver {A} t.
Arguments m_problem {A} t.
Arguments m_numGridPoints {A} t.
Arguments m_numMeshPoints {A} t.
Arguments m_numMeshIntervals {A} t.
Arguments m_numMeshInteriorPoints {A} t.
Arguments m_numDefectsPerMeshInterval {A} t.
Arguments m_numPointsPerMeshInterval {A} t.
Arguments m_numMultibodyResiduals {A} t.
Arguments m_numAuxiliaryResiduals {A} t.
Arguments m_numParameterConstraints {A} t.
Arguments m_numConstraints {A} t.
Arguments m_numPathConstraintPoints {A} t.
Arguments m_grid {A} t.
Arguments m_pointsForInterpControls {A} t.
Arguments m_times {A} t.
Arguments m_scaledVars {A} t.
Arguments m_lowerBounds {A} t.
Arguments m_upperBounds {A} t.
Arguments m_shift {A} t.
Arguments m_scale {A} t.
Arguments m_constraints {A} t.

(** [vars.at(key)] *)
Definition at_key {T : Type} (vars : gmap Var T) (key : Var) : result T :=
  match vars !! key with
  | Some x => Ok x
  | None => Throw OutOfRange
  end.

(** [vars[key]] as an lvalue: a missing key is first inserted with an empty
    matrix. *)
Definition subscript {A : Type} (vars : gmap Var (DM A)) (key : Var) : DM A :=
  default DM_empty (vars !! key).

(** ** class Transcription (CasOCTranscription.h) *)

Definition internal_error_constraints : string :=
  "Internal error: final value of the index into the flattened constraints should be equal to the number of constraints.".

Definition internal_error_mesh_shape : string :=
  "createMeshIndicesImpl() must return a row vector of shape length [1, {}], but a matrix of shape [{}, {}] was returned.".

Definition internal_error_mesh_sum : string :=
  "Internal error: sum of mesh indices should be the number of mesh points.".

(** [getSortedVarKeys]; its argument is not read. *)
Definition getSortedVarKeys : list Var :=
  [initial_time; final_time; parameters; states; controls; multipliers;
   derivatives].

(** The running state of [flattenConstraints]: the flat vector, the index into
    it and the column counters. *)
Record FlattenState (A : Type) : Type := mkFlattenState {
  fs_flat : list A;
  fs_iflat : Z;
  fs_icon : Z;
  fs_itime_i : Z;
  fs_itime_f : Z;
  fs_iparam : Z;
}.
Arguments mkFlattenState {A}.
Arguments fs_flat {A} f.
Arguments fs_iflat {A} f.
Arguments fs_icon {A} f.
Arguments fs_itime_i {A} f.
Arguments fs_itime_f {A} f.
Arguments fs_iparam {A} f.

(** The running state of [expandConstraints]. *)
Record ExpandState (A : Type) : Type := mkExpandState {
  es_out : Constraints (DM A);
  es_iflat : Z;
  es_icon : Z;
  es_itime_i : Z;
  es_itime_f : Z;
  es_iparam : Z;
}.
Arguments mkExpandState {A}.
Arguments es_out {A} e.
Arguments es_iflat {A} e.
Arguments es_icon {A} e.
Arguments es_itime_i {A} e.
Arguments es_itime_f {A} e.
Arguments es_iparam {A} e.

Section TranscriptionFunctions.
Context {A : Type} {SA : Scalar A}.

(** [stdvec.push_back(vars.at(key)(Slice(), column))] *)
Definition push_back_column (vars : gmap Var (DM A)) (key : Var) (column : Z)
    (stdvec : list (list A)) : result (list (list A)) :=
  m ← at_key vars key;
  c ← DM_col m column;
  Ok (stdvec ++ [c]).

Definition flattenVariablesDM (t : Transcription A) (vars : gmap Var (DM A))
    : result (list A) :=
  let N := m_numPointsPerMeshInterval t - 1 in
  stdvec ← for_range 0 (m_numMeshIntervals t) (fun imesh stdvec =>
    let igrid := imesh * N in
    stdvec ← for_range 0 N (fun i => push_back_column vars initial_time (igrid + i)) stdvec;
    stdvec ← for_range 0 N (fun i => push_back_column vars final_time (igrid + i)) stdvec;
    stdvec ← for_range 0 N (fun i => push_back_column vars states (igrid + i)) stdvec;
    for_range 0 N (fun i => push_back_column vars controls (igrid + i)) stdvec) [];
  stdvec ← push_back_column vars initial_time (m_numGridPoints t - 1) stdvec;
  stdvec ← push_back_column vars final_time (m_numGridPoints t - 1) stdvec;
  stdvec ← push_back_column vars states (m_numGridPoints t - 1) stdvec;
  stdvec ← push_back_column vars controls (m_numGridPoints t - 1) stdvec;
  Ok (veccat stdvec).

(** The loop body of [expandVariables]; the state is [(out, offset)]. *)
Definition expandVariables_step (t : Transcription A) (x : list A) (key : Var)
    (s : gmap Var (DM A) * Z) : result (gmap Var (DM A) * Z) :=
  let '(out, offset) := s in
  value ← at_key (m_scaledVars t) key;
  part ← vec_slice x offset (offset + Z.of_nat (shape_numel value));
  m ← reshape part (shape_rows value) (shape_columns value);
  Ok (<[key := m]> out, offset + Z.of_nat (shape_numel value)).

Definition expandVariables (t : Transcription A) (x : list A)
    : result (gmap Var (DM A)) :=
  s ← for_each getSortedVarKeys (expandVariables_step t x) (∅, 0);
  Ok (fst s).

(** The loop body of [unscaleVariables] for one kind:
    [scaled * scale + shift]. *)
Definition unscale_kind (t : Transcription A) (key : Var) (scaled : DM A)
    : result (DM A) :=
  let numCols := columns scaled in
  shift0 ← at_key (m_shift t) key;
  let shift := repmat shift0 numCols in
  scale0 ← at_key (m_scale t) key;
  let scale := repmat scale0 numCols in
  prod ← DM_binary mul scaled scale;
  DM_binary add prod shift.

(** [for (const auto& kv : scaledVars) out[key] = ...] *)
Definition unscaleVariables (t : Transcription A) (scaledVars : gmap Var (DM A))
    : result (gmap Var (DM A)) :=
  map_fold (fun key scaled acc =>
              out ← acc;
              value ← unscale_kind t key scaled;
              Ok (<[key := value]> out))
    (Ok ∅) scaledVars.

(** The loop body of [scaleVariables] for one kind:
    [(unscaled - shift) / scale]. *)
Definition scale_kind (t : Transcription A) (key : Var) (unscaled : DM A)
    : result (DM A) :=
  let numCols := columns unscaled in
  shift0 ← at_key (m_shift t) key;
  let shift := repmat shift0 numCols in
  scale0 ← at_key (m_scale t) key;
  let scale := repmat scale0 numCols in
  diff ← DM_binary sub unscaled shift;
  DM_binary div diff scale.

Definition scaleVariables (t : Transcription A) (unscaledVars : gmap Var (DM A))
    : result (gmap Var (DM A)) :=
  map_fold (fun key unscaled acc =>
              out ← acc;
              value ← scale_kind t key unscaled;
              Ok (<[key := value]> out))
    (Ok ∅) unscaledVars.

(** *** flattenConstraints *)

(** The lambda [copyColumn] of [flattenConstraints]. *)
Definition copyColumn (flat : list A) (iflat : Z) (matrix : DM A) (columnIndex : Z)
    : result (list A * Z) :=
  if decide (rows matrix <> 0%nat) then
    c ← DM_col matrix columnIndex;
    flat ← vec_set_slice flat iflat (iflat + Z.of_nat (rows matrix)) c;
    Ok (flat, iflat + Z.of_nat (rows matrix))
  else Ok (flat, iflat).

Definition fs_copy (matrix : DM A) (columnIndex : Z) (s : FlattenState A)
    : result (FlattenState A) :=
  '(flat, iflat) ← copyColumn (fs_flat s) (fs_iflat s) matrix columnIndex;
  Ok (mkFlattenState flat iflat (fs_icon s) (fs_itime_i s) (fs_itime_f s)
        (fs_iparam s)).

(** [copyColumn(constraints.initial_time, itime_i++)] and its siblings. *)
Definition fs_copy_itime_i (matrix : DM A) (s : FlattenState A) :=
  s ← fs_copy matrix (fs_itime_i s) s;
  Ok (mkFlattenState (fs_flat s) (fs_iflat s) (fs_icon s) (fs_itime_i s + 1)
        (fs_itime_f s) (fs_iparam s)).
Definition fs_copy_itime_f (matrix : DM A) (s : FlattenState A) :=
  s ← fs_copy matrix (fs_itime_f s) s;
  Ok (mkFlattenState (fs_flat s) (fs_iflat s) (fs_icon s) (fs_itime_i s)
        (fs_itime_f s + 1) (fs_iparam s)).
Definition fs_copy_iparam (matrix : DM A) (s : FlattenState A) :=
  s ← fs_copy matrix (fs_iparam s) s;
  Ok (mkFlattenState (fs_flat s) (fs_iflat s) (fs_icon s) (fs_itime_i s)
        (fs_itime_f s) (fs_iparam s + 1)).
Definition fs_copy_icon (matrix : DM A) (s : FlattenState A) :=
  s ← fs_copy matrix (fs_icon s) s;
  Ok (mkFlattenState (fs_flat s) (fs_iflat s) (fs_icon s + 1) (fs_itime_i s)
        (fs_itime_f s) (fs_iparam s)).

(** One pass of the loop over the mesh intervals. *)
Definition flattenConstraints_interval (t : Transcription A)
    (constraints : Constraints (DM A)) (imesh : Z) (s : FlattenState A)
    : result (FlattenState A) :=
  let N := m_numPointsPerMeshInterval t - 1 in
  let igrid := imesh * N in
  (* Time constraints. *)
  s ← for_range 0 N (fun _ => fs_copy_itime_i (con_initial_time constraints)) s;
  s ← for_range 0 N (fun _ => fs_copy_itime_f (con_final_time constraints)) s;
  (* Parameter constraints. *)
  s ← for_range 0 N (fun _ => fs_copy_iparam (con_parameters constraints)) s;
  (* Defect constraints. *)
  s ← fs_copy (con_defects constraints) imesh s;
  (* Multibody and auxiliary residuals. *)
  s ← for_range 0 N (fun i s =>
        s ← fs_copy (con_multibody_residuals constraints) (igrid + i) s;
        fs_copy (con_auxiliary_residuals constraints) (igrid + i) s) s;
  (* Kinematic constraints. *)
  s ← fs_copy (con_kinematic constraints) imesh s;
  (* Path constraints. *)
  s ← (if getEnforcePathConstraintMidpoints (m_solver t)
       then for_range 0 N (fun i =>
              for_each (con_path constraints) (fun path => fs_copy path (igrid + i))) s
       else for_each (con_path constraints) (fun path => fs_copy path imesh) s);
  (* Interpolating controls. *)
  if decide (length (m_pointsForInterpControls t) <> 0%nat)
  then for_range 0 (N - 1) (fun _ => fs_copy_icon (con_interp_controls constraints)) s
  else Ok s.

(** The traversal of [flattenConstraints], up to the final check. *)
Definition flattenConstraints_traverse (t : Transcription A)
    (constraints : Constraints (DM A)) (s : FlattenState A)
    : result (FlattenState A) :=
  s ← for_each (con_endpoint constraints) (fun endpoint => fs_copy endpoint 0) s;
  (* Constraints for each mesh interval. *)
  s ← for_range 0 (m_numMeshIntervals t) (flattenConstraints_interval t constraints) s;
  (* Final grid point. *)
  s ← fs_copy (con_multibody_residuals constraints) (m_numGridPoints t - 1) s;
  s ← fs_copy (con_auxiliary_residuals constraints) (m_numGridPoints t - 1) s;
  s ← fs_copy (con_kinematic constraints) (m_numMeshPoints t - 1) s;
  if getEnforcePathConstraintMidpoints (m_solver t)
  then for_each (con_path constraints)
         (fun path => fs_copy path (m_numGridPoints t - 1)) s
  else for_each (con_path constraints)
         (fun path => fs_copy path (m_numMeshPoints t - 1)) s.

Definition flattenConstraints (t : Transcription A) (constraints : Constraints (DM A))
    : result (list A) :=
  flat ← dense (m_numConstraints t) 1;
  s ← flattenConstraints_traverse t constraints
        (mkFlattenState (concat (cols flat)) 0 0 0 0 0);
  _ ← OPENSIM_THROW_IF (bool_decide (fs_iflat s <> m_numConstraints t))
        internal_error_constraints;
  Ok (fs_flat s).
End TranscriptionFunctions.

Section ExpandConstraints.
Context {A : Type} {SA : Scalar A}.

(** The lambda [copyColumn] of [expandConstraints]. *)
Definition copyColumn_expand (flat : list A) (iflat : Z) (matrix : DM A)
    (columnIndex : Z) : result (DM A * Z) :=
  if decide (rows matrix <> 0%nat) then
    part ← vec_slice flat iflat (iflat + Z.of_nat (rows matrix));
    matrix ← DM_set_col matrix columnIndex part;
    Ok (matrix, iflat + Z.of_nat (rows matrix))
  else Ok (matrix, iflat).

(** [copyColumn] on one slot of [out], read with [get] and stored with [set]. *)
Definition es_copy (flat : list A) (get : Constraints (DM A) -> DM A)
    (set : DM A -> Constraints (DM A) -> Constraints (DM A)) (columnIndex : Z)
    (s : ExpandState A) : result (ExpandState A) :=
  '(matrix, iflat) ← copyColumn_expand flat (es_iflat s) (get (es_out s)) columnIndex;
  Ok (mkExpandState (set matrix (es_out s)) iflat (es_icon s) (es_itime_i s)
        (es_itime_f s) (es_iparam s)).

(** [for (auto& m : ms) copyColumn(m, columnIndex)] *)
Fixpoint copyColumn_each (flat : list A) (iflat : Z) (ms : list (DM A))
    (columnIndex : Z) : result (list (DM A) * Z) :=
  match ms with
  | [] => Ok ([], iflat)
  | m :: ms' =>
      '(m, iflat) ← copyColumn_expand flat iflat m columnIndex;
      '(ms', iflat) ← copyColumn_each flat iflat ms' columnIndex;
      Ok (m :: ms', iflat)
  end.

Definition es_copy_each (flat : list A) (get : Constraints (DM A) -> list (DM A))
    (set : list (DM A) -> Constraints (DM A) -> Constraints (DM A))
    (columnIndex : Z) (s : ExpandState A) : result (ExpandState A) :=
  '(ms, iflat) ← copyColumn_each flat (es_iflat s) (get (es_out s)) columnIndex;
  Ok (mkExpandState (set ms (es_out s)) iflat (es_icon s) (es_itime_i s)
        (es_itime_f s) (es_iparam s)).

Definition set_initial_time (m : DM A) (c : Constraints (DM A)) :=
  mkConstraints m (con_final_time c) (con_parameters c) (con_defects c)
    (con_multibody_residuals c) (con_auxiliary_residuals c) (con_kinematic c)
    (con_endpoint c) (con_path c) (con_interp_controls c).
Definition set_final_time (m : DM A) (c : Constraints (DM A)) :=
  mkConstraints (con_initial_time c) m (con_parameters c) (con_defects c)
    (con_multibody_residuals c) (con_auxiliary_residuals c) (con_kinematic c)
    (con_endpoint c) (con_path c) (con_interp_controls c).
Definition set_parameters (m : DM A) (c : Constraints (DM A)) :=
  mkConstraints (con_initial_time c) (con_final_time c) m (con_defects c)
    (con_multibody_residuals c) (con_auxiliary_residuals c) (con_kinematic c)
    (con_endpoint c) (con_path c) (con_interp_controls c).
Definition set_defects (m : DM A) (c : Constraints (DM A)) :=
  mkConstraints (con_initial_time c) (con_final_time c) (con_parameters c) m
    (con_multibody_residuals c) (con_auxiliary_residuals c) (con_kinematic c)
    (con_endpoint c) (con_path c) (con_interp_controls c).
Definition set_multibody_residuals (m : DM A) (c : Constraints (DM A)) :=
  mkConstraints (con_initial_time c) (con_final_time c) (con_parameters c)
    (con_defects c) m (con_auxiliary_residuals c) (con_kinematic c)
    (con_endpoint c) (con_path c) (con_interp_controls c).
Definition set_auxiliary_residuals (m : DM A) (c : Constraints (DM A)) :=
  mkConstraints (con_initial_time c) (con_final_time c) (con_parameters c)
    (con_defects c) (con_multibody_residuals c) m (con_kinematic c)
    (con_endpoint c) (con_path c) (con_interp_controls c).
Definition set_kinematic (m : DM A) (c : Constraints (DM A)) :=
  mkConstraints (con_initial_time c) (con_final_time c) (con_parameters c)
    (con_defects c) (con_multibody_residuals c) (con_auxiliary_residuals c) m
    (con_endpoint c) (con_path c) (con_interp_controls c).
Definition set_endpoint (ms : list (DM A)) (c : Constraints (DM A)) :=
  mkConstraints (con_initial_time c) (con_final_time c) (con_parameters c)
    (con_defects c) (con_multibody_residuals c) (con_auxiliary_residuals c)
    (con_kinematic c) ms (con_path c) (con_interp_controls c).
Definition set_path (ms : list (DM A)) (c : Constraints (DM A)) :=
  mkConstraints (con_initial_time c) (con_final_time c) (con_parameters c)
    (con_defects c) (con_multibody_residuals c) (con_auxiliary_residuals c)
    (con_kinematic c) (con_endpoint c) ms (con_interp_controls c).
Definition set_interp_controls (m : DM A) (c : Constraints (DM A)) :=
  mkConstraints (con_initial_time c) (con_final_time c) (con_parameters c)
    (con_defects c) (con_multibody_residuals c) (con_auxiliary_residuals c)
    (con_kinematic c) (con_endpoint c) (con_path c) m.

Definition es_next_itime_i (s : ExpandState A) :=
  mkExpandState (es_out s) (es_iflat s) (es_icon s) (es_itime_i s + 1)
    (es_itime_f s) (es_iparam s).
Definition es_next_itime_f (s : ExpandState A) :=
  mkExpandState (es_out s) (es_iflat s) (es_icon s) (es_itime_i s)
    (es_itime_f s + 1) (es_iparam s).
Definition es_next_iparam (s : ExpandState A) :=
  mkExpandState (es_out s) (es_iflat s) (es_icon s) (es_itime_i s)
    (es_itime_f s) (es_iparam s + 1).
Definition es_next_icon (s : ExpandState A) :=
  mkExpandState (es_out s) (es_iflat s) (es_icon s + 1) (es_itime_i s)
    (es_itime_f s) (es_iparam s).

(** [out.endpoint.resize(n)] followed by the loop that allocates the first
    [count] blocks; [infos[i]] past the end of [infos] is undefined behaviour
    in C++ and an exception here. *)
Definition init_blocks (infos : list Z) (count : nat) (numColumns : Z)
    : result (list (DM A)) :=
  for_range 0 (Z.of_nat count) (fun i blocks =>
    match infos !! Z.to_nat i with
    | Some num_outputs =>
        m ← dense num_outputs numColumns;
        Ok (<[Z.to_nat i := m]> blocks)
    | None => Throw OutOfRange
    end) (replicate (length infos) DM_empty).

(** The allocation at the start of [expandConstraints]. *)
Definition expandConstraints_init (t : Transcription A) : result (Constraints (DM A)) :=
  let init := @dense A SA in
  initial_time ← init 1 (m_numParameterConstraints t);
  final_time ← init 1 (m_numParameterConstraints t);
  parameters ← init (m_numParameterConstraints t) (m_numMeshPoints t - 1);
  defects ← init (m_numDefectsPerMeshInterval t) (m_numMeshPoints t - 1);
  multibody_residuals ← init (m_numMultibodyResiduals t) (m_numGridPoints t);
  auxiliary_residuals ← init (m_numAuxiliaryResiduals t) (m_numGridPoints t);
  kinematic ← init (getNumKinematicConstraintEquations (m_problem t))
                (m_numMeshPoints t);
  endpoint ← init_blocks (getEndpointConstraintInfos (m_problem t))
               (length (con_endpoint (m_constraints t))) 1;
  path ← init_blocks (getPathConstraintInfos (m_problem t))
           (length (con_path (m_constraints t))) (m_numPathConstraintPoints t);
  interp_controls ← init (getNumControls (m_problem t))
                      (Z.of_nat (length (m_pointsForInterpControls t)));
  Ok (mkConstraints initial_time final_time parameters defects
        multibody_residuals auxiliary_residuals kinematic endpoint path
        interp_controls).

(** One pass of the loop over the mesh intervals. *)
Definition expandConstraints_interval (t : Transcription A) (flat : list A)
    (imesh : Z) (s : ExpandState A) : result (ExpandState A) :=
  let N := m_numPointsPerMeshInterval t - 1 in
  let igrid := imesh * N in
  (* Time constraints. *)
  s ← for_range 0 N (fun _ s =>
        s' ← es_copy flat con_initial_time set_initial_time (es_itime_i s) s;
        Ok (es_next_itime_i s')) s;
  s ← for_range 0 N (fun _ s =>
        s' ← es_copy flat con_final_time set_final_time (es_itime_f s) s;
        Ok (es_next_itime_f s')) s;
  (* Parameter constraints. *)
  s ← for_range 0 N (fun _ s =>
        s' ← es_copy flat con_parameters set_parameters (es_iparam s) s;
        Ok (es_next_iparam s')) s;
  (* Defect constraints. *)
  s ← es_copy flat con_defects set_defects imesh s;
  (* Multibody and auxiliary residuals. *)
  s ← for_range 0 N (fun i s =>
        s ← es_copy flat con_multibody_residuals set_multibody_residuals (igrid + i) s;
        es_copy flat con_auxiliary_residuals set_auxiliary_residuals (igrid + i) s) s;
  (* Kinematic constraints. *)
  s ← es_copy flat con_kinematic set_kinematic imesh s;
  (* Path constraints. *)
  s ← (if getEnforcePathConstraintMidpoints (m_solver t)
       then for_range 0 N (fun i => es_copy_each flat con_path set_path (igrid + i)) s
       else es_copy_each flat con_path set_path imesh s);
  (* Interpolating controls. *)
  if decide (length (m_pointsForInterpControls t) <> 0%nat)
  then for_range 0 (N - 1) (fun _ s =>
         s' ← es_copy flat con_interp_controls set_interp_controls (es_icon s) s;
         Ok (es_next_icon s')) s
  else Ok s.

Definition expandConstraints_traverse (t : Transcription A) (flat : list A)
    (s : ExpandState A) : result (ExpandState A) :=
  s ← es_copy_each flat con_endpoint set_endpoint 0 s;
  (* Constraints for each mesh interval. *)
  s ← for_range 0 (m_numMeshIntervals t) (expandConstraints_interval t flat) s;
  (* Final grid point. *)
  s ← es_copy flat con_multibody_residuals set_multibody_residuals
        (m_numGridPoints t - 1) s;
  s ← es_copy flat con_auxiliary_residuals set_auxiliary_residuals
        (m_numGridPoints t - 1) s;
  s ← es_copy flat con_kinematic set_kinematic (m_numMeshPoints t - 1) s;
  if getEnforcePathConstraintMidpoints (m_solver t)
  then es_copy_each flat con_path set_path (m_numGridPoints t - 1) s
  else es_copy_each flat con_path set_path (m_numMeshPoints t - 1) s.

Definition expandConstraints (t : Transcription A) (flat : list A)
    : result (Constraints (DM A)) :=
  out ← expandConstraints_init t;
  s ← expandConstraints_traverse t flat (mkExpandState out 0 0 0 0 0);
  _ ← OPENSIM_THROW_IF (bool_decide (es_iflat s <> m_numConstraints t))
        internal_error_constraints;
  Ok (es_out s).
End ExpandConstraints.

(** *** Bounds, scaling and the mesh mask *)

Section Setters.
Context {A : Type}.

Definition with_lowerBounds (v : gmap Var (DM A)) (t : Transcription A) :=
  mkTranscription (m_solver t) (m_problem t) (m_numGridPoints t)
    (m_numMeshPoints t) (m_numMeshIntervals t) (m_numMeshInteriorPoints t)
    (m_numDefectsPerMeshInterval t) (m_numPointsPerMeshInterval t)
    (m_numMultibodyResiduals t) (m_numAuxiliaryResiduals t)
    (m_numParameterConstraints t) (m_numConstraints t)
    (m_numPathConstraintPoints t) (m_grid t) (m_pointsForInterpControls t)
    (m_times t) (m_scaledVars t) v (m_upperBounds t) (m_shift t) (m_scale t)
    (m_constraints t).

Definition with_upperBounds (v : gmap Var (DM A)) (t : Transcription A) :=
  mkTranscription (m_solver t) (m_problem t) (m_numGridPoints t)
    (m_numMeshPoints t) (m_numMeshIntervals t) (m_numMeshInteriorPoints t)
    (m_numDefectsPerMeshInterval t) (m_numPointsPerMeshInterval t)
    (m_numMultibodyResiduals t) (m_numAuxiliaryResiduals t)
    (m_numParameterConstraints t) (m_numConstraints t)
    (m_numPathConstraintPoints t) (m_grid t) (m_pointsForInterpControls t)
    (m_times t) (m_scaledVars t) (m_lowerBounds t) v (m_shift t) (m_scale t)
    (m_constraints t).

Definition with_shift (v : gmap Var (DM A)) (t : Transcription A) :=
  mkTranscription (m_solver t) (m_problem t) (m_numGridPoints t)
    (m_numMeshPoints t) (m_numMeshIntervals t) (m_numMeshInteriorPoints t)
    (m_numDefectsPerMeshInterval t) (m_numPointsPerMeshInterval t)
    (m_numMultibodyResiduals t) (m_numAuxiliaryResiduals t)
    (m_numParameterConstraints t) (m_numConstraints t)
    (m_numPathConstraintPoints t) (m_grid t) (m_pointsForInterpControls t)
    (m_times t) (m_scaledVars t) (m_lowerBounds t) (m_upperBounds t) v
    (m_scale t) (m_constraints t).

Definition with_scale (v : gmap Var (DM A)) (t : Transcription A) :=
  mkTranscription (m_solver t) (m_problem t) (m_numGridPoints t)
    (m_numMeshPoints t) (m_numMeshIntervals t) (m_numMeshInteriorPoints t)
    (m_numDefectsPerMeshInterval t) (m_numPointsPerMeshInterval t)
    (m_numMultibodyResiduals t) (m_numAuxiliaryResiduals t)
    (m_numParameterConstraints t) (m_numConstraints t)
    (m_numPathConstraintPoints t) (m_grid t) (m_pointsForInterpControls t)
    (m_times t) (m_scaledVars t) (m_lowerBounds t) (m_upperBounds t)
    (m_shift t) v (m_constraints t).
End Setters.

Definition setVariableBounds (t : Transcription float) (var : Var)
    (rowIndices columnIndices : Index) (bounds : Bounds)
    : result (Transcription float) :=
  if isSet bounds then
    let lower := lower bounds in
    lb ← DM_set_block (subscript (m_lowerBounds t) var) rowIndices columnIndices lower;
    let t := with_lowerBounds (<[var := lb]> (m_lowerBounds t)) t in
    let upper := upper bounds in
    ub ← DM_set_block (subscript (m_upperBounds t) var) rowIndices columnIndices upper;
    Ok (with_upperBounds (<[var := ub]> (m_upperBounds t)) t)
  else
    let inf := infinity in
    lb ← DM_set_block (subscript (m_lowerBounds t) var) rowIndices columnIndices
           (- inf)%float;
    let t := with_lowerBounds (<[var := lb]> (m_lowerBounds t)) t in
    ub ← DM_set_block (subscript (m_upperBounds t) var) rowIndices columnIndices inf;
    Ok (with_upperBounds (<[var := ub]> (m_upperBounds t)) t).

(** The two assignments [m_scale.at(key)(rowIndices, columnIndices) = dilate]
    and [m_shift.at(key)(rowIndices, columnIndices) = shift]. *)
Definition assign_scaling (t : Transcription float) (key : Var)
    (rowIndices columnIndices : Index) (dilate shift : float)
    : result (Transcription float) :=
  scale0 ← at_key (m_scale t) key;
  scale ← DM_set_block scale0 rowIndices columnIndices dilate;
  let t := with_scale (<[key := scale]> (m_scale t)) t in
  shift0 ← at_key (m_shift t) key;
  shift' ← DM_set_block shift0 rowIndices columnIndices shift;
  Ok (with_shift (<[key := shift']> (m_shift t)) t).

Definition setVariableScaling (t : Transcription float) (key : Var)
    (rowIndices columnIndices : Index) (bounds : Bounds)
    : result (Transcription float) :=
  if getScaleVariablesUsingBounds (m_solver t) then
    let lower := lower bounds in
    let upper := upper bounds in
    let dilate := (upper - lower)%float in
    let '(dilate, shift) :=
      if is_infinity dilate || is_nan dilate then (1%float, 0%float)
      else if (dilate =? 0)%float then (1%float, upper)
      else (dilate, (-0.5 * (upper + lower))%float) in
    assign_scaling t key rowIndices columnIndices dilate shift
  else
    assign_scaling t key rowIndices columnIndices 1%float 0%float.

Section MeshIndices.
Context {A : Type} {SA : Scalar A}.
(** [SimTK::isNumericallyEqual(double, int)], a function of Simbody. *)
Variable isNumericallyEqual : A -> Z -> bool.

(** [DM::sum2(m).scalar()]: the sum over the columns, which has to be 1-by-1. *)
Definition sum2_scalar (m : DM A) : result A :=
  match rows m with
  | 1%nat => Ok (sum_list (DM_row m 0))
  | _ => Throw CasadiException
  end.

(** [createMeshIndices], given what the scheme's [createMeshIndicesImpl]
    returned. *)
Definition createMeshIndices (t : Transcription A)
    (createMeshIndicesImpl : result (DM A)) : result (DM A) :=
  meshIndices ← createMeshIndicesImpl;
  _ ← OPENSIM_THROW_IF
        (bool_decide (Z.of_nat (rows meshIndices) <> 1
                      \/ Z.of_nat (columns meshIndices) <> m_numGridPoints t))
        internal_error_mesh_shape;
  total ← sum2_scalar meshIndices;
  _ ← OPENSIM_THROW_IF (negb (isNumericallyEqual total (m_numMeshPoints t)))
        internal_error_mesh_sum;
  Ok meshIndices.
End MeshIndices.

(** ** The collocation schemes *)

(** The data members that the two Legendre classes add to [Transcription], as
    the .cpp files use them (the class declarations are not among the
    sources). *)
Record Legendre (A : Type) : Type := mkLegendre {
  base : Transcription A;
  m_degree : Z;
  m_quadratureCoefficients : list A;
  m_differentiationMatrix : DM A;
}.
Arguments mkLegendre {A}.
Arguments base {A} l.
Arguments m_degree {A} l.
Arguments m_quadratureCoefficients {A} l.
Arguments m_differentiationMatrix {A} l.

Section Schemes.
Context {A : Type} {SA : Scalar A}.

(** A column vector as a matrix, and an elementwise operation on two of them. *)
Definition column_vector (x : list A) : DM A := mkDM (length x) [x].

Definition vec_binary (op : A -> A -> A) (x y : list A) : result (list A) :=
  r ← DM_binary op (column_vector x) (column_vector y);
  Ok (concat (cols r)).

(** [mesh(Slice(1, m_numMeshPoints)) - mesh(Slice(0, m_numMeshPoints - 1))] *)
Definition meshIntervals (t : Transcription A) : result (list A) :=
  let mesh := getMesh (m_solver t) in
  upper ← vec_slice mesh 1 (m_numMeshPoints t);
  lower ← vec_slice mesh 0 (m_numMeshPoints t - 1);
  vec_binary sub upper lower.

(** [quadCoeffs(i) += w(d) * meshIntervals(imesh)] *)
Definition add_quadrature_term (w meshIntervals : list A) (d imesh i : Z)
    (quadCoeffs : list A) : result (list A) :=
  wd ← vec_at w d;
  h ← vec_at meshIntervals imesh;
  q ← vec_at quadCoeffs i;
  vec_set quadCoeffs i (add q (mul wd h)).

(** [DM quadCoeffs(m_numGridPoints, 1)] *)
Definition zero_column (n : Z) : result (list A) :=
  m ← zeros n 1;
  Ok (concat (cols m)).

(** *** CasOCLegendreGauss.cpp *)

Definition LegendreGauss_createQuadratureCoefficientsImpl (s : Legendre A)
    : result (list A) :=
  let t := base s in
  (* The duration of each mesh interval. *)
  meshIntervals ← meshIntervals t;
  let w := m_quadratureCoefficients s in
  quadCoeffs ← zero_column (m_numGridPoints t);
  for_range 0 (m_numMeshIntervals t) (fun imesh quadCoeffs =>
    let igrid := imesh * (m_degree s + 1) in
    for_range 0 (m_degree s) (fun d =>
      add_quadrature_term w meshIntervals d imesh (igrid + d + 1)) quadCoeffs)
    quadCoeffs.

Definition LegendreGauss_createMeshIndicesImpl (s : Legendre A) : result (DM A) :=
  let t := base s in
  indices ← zeros 1 (m_numGridPoints t);
  indices ← for_range 0 (m_numMeshIntervals t) (fun imesh indices =>
    DM_set_at indices (imesh * (m_degree s + 1)) one) indices;
  DM_set_at indices (m_numGridPoints t - 1) one.

Definition LegendreGauss_getVariableOrder (s : Legendre A) : list (Var * Z) :=
  let t := base s in
  let N := m_numPointsPerMeshInterval t - 1 in
  concat (map (fun imesh =>
    let igrid := imesh * N in
    [(initial_time, imesh); (final_time, imesh); (parameters, imesh)]
    ++ (if decide (imesh > 0)
        then [(projection_states, imesh - 1); (slacks, imesh - 1)] else [])
    ++ map (fun i => (states, igrid + i)) (seqZ 0 N)
    ++ (if getInterpolateControlMeshInteriorPoints (m_solver t)
        then map (fun d => (controls, igrid + d + 1)) (seqZ 0 (m_degree s))
        else map (fun i => (controls, igrid + i)) (seqZ 0 N))
    ++ map (fun i => (multipliers, igrid + i)) (seqZ 0 N)
    ++ map (fun i => (derivatives, igrid + i)) (seqZ 0 N))
    (seqZ 0 (m_numMeshIntervals t)))
  ++ [(initial_time, m_numMeshIntervals t); (final_time, m_numMeshIntervals t);
      (parameters, m_numMeshIntervals t);
      (projection_states, m_numMeshIntervals t - 1);
      (slacks, m_numMeshIntervals t - 1);
      (states, m_numGridPoints t - 1)]
  ++ (if getInterpolateControlMeshInteriorPoints (m_solver t) then []
      else [(controls, m_numGridPoints t - 1)])
  ++ [(multipliers, m_numGridPoints t - 1); (derivatives, m_numGridPoints t - 1)].

(** *** CasOCLegendreGaussRadau.cpp *)

Definition LegendreGaussRadau_createQuadratureCoefficientsImpl (s : Legendre A)
    : result (list A) :=
  let t := base s in
  (* The duration of each mesh interval. *)
  meshIntervals ← meshIntervals t;
  let w := m_quadratureCoefficients s in
  quadCoeffs ← zero_column (m_numGridPoints t);
  for_range 0 (m_numMeshIntervals t) (fun imesh quadCoeffs =>
    let igrid := imesh * m_degree s in
    for_range 0 (m_degree s) (fun d =>
      add_quadrature_term w meshIntervals d imesh (igrid + d + 1)) quadCoeffs)
    quadCoeffs.

Definition LegendreGaussRadau_createMeshIndicesImpl (s : Legendre A)
    : result (DM A) :=
  let t := base s in
  indices ← zeros 1 (m_numGridPoints t);
  indices ← for_range 0 (m_numMeshIntervals t) (fun imesh indices =>
    DM_set_at indices (imesh * m_degree s) one) indices;
  DM_set_at indices (m_numGridPoints t - 1) one.

Definition LegendreGaussRadau_getVariableOrder (s : Legendre A) : list (Var * Z) :=
  let t := base s in
  let N := m_numPointsPerMeshInterval t - 1 in
  concat (map (fun imesh =>
    let igrid := imesh * N in
    [(states, igrid); (initial_time, imesh); (final_time, imesh);
     (parameters, imesh)]
    ++ map (fun i => (states, igrid + i)) (seqZ 1 (N - 1))
    ++ (if getInterpolateControlMidpoints (m_solver t)
        then map (fun d => (controls, m_degree s * imesh + d)) (seqZ 0 (m_degree s))
        else map (fun i => (controls, igrid + i)) (seqZ 0 N))
    ++ map (fun i => (multipliers, igrid + i)) (seqZ 0 N)
    ++ map (fun i => (derivatives, igrid + i)) (seqZ 0 N)
    ++ [(slacks, imesh)])
    (seqZ 0 (m_numMeshIntervals t)))
  ++ [(states, m_numGridPoints t - 1); (initial_time, m_numMeshIntervals t);
      (final_time, m_numMeshIntervals t); (parameters, m_numMeshIntervals t)]
  ++ (if getInterpolateControlMidpoints (m_solver t) then []
      else [(controls, m_numGridPoints t - 1)])
  ++ [(multipliers, m_numGridPoints t - 1); (derivatives, m_numGridPoints t - 1)].

(** A number as a 1-by-1 matrix. *)
Definition scalar_DM (x : A) : DM A := mkDM 1 [[x]].

(** One pass of the loop of [LegendreGaussRadau::calcDefectsImpl]. *)
Definition LegendreGaussRadau_calcDefects_interval (s : Legendre A)
    (x xdot ti tf p : DM A) (imesh : Z) (defects : DM A) : result (DM A) :=
  let t := base s in
  let NS := getNumStates (m_problem t) in
  let NP := getNumParameters (m_problem t) in
  let igrid := imesh * m_degree s in
  t1 ← vec_at (m_times t) (igrid + m_degree s);
  t0 ← vec_at (m_times t) igrid;
  let h := sub t1 t0 in
  x_i ← DM_cols x igrid (igrid + m_degree s + 1);
  xdot_i ← DM_cols xdot (igrid + 1) (igrid + m_degree s + 1);
  (* Time variables. *)
  ti1 ← DM_at ti (imesh + 1);
  ti0 ← DM_at ti imesh;
  defects ← DM_set_rows defects 0 1 imesh [sub ti1 ti0];
  tf1 ← DM_at tf (imesh + 1);
  tf0 ← DM_at tf imesh;
  defects ← DM_set_rows defects 1 2 imesh [sub tf1 tf0];
  (* Parameters. *)
  p1 ← DM_col p (imesh + 1);
  p0 ← DM_col p imesh;
  dp ← vec_binary sub p1 p0;
  defects ← DM_set_rows defects 2 (2 + NP) imesh dp;
  (* Residual function defects. *)
  scaled ← DM_binary mul (scalar_DM h) xdot_i;
  prod ← mtimes x_i (m_differentiationMatrix s);
  residual ← DM_binary sub scaled prod;
  for_range 0 (m_degree s) (fun d defects =>
    let istart := d * NS + 2 + NP in
    let iend := (d + 1) * NS + 2 + NP in
    r ← DM_col residual d;
    DM_set_rows defects istart iend imesh r) defects.

Definition LegendreGaussRadau_calcDefectsImpl (s : Legendre A)
    (x xdot ti tf p : DM A) (defects : DM A) : result (DM A) :=
  for_range 0 (m_numMeshIntervals (base s))
    (LegendreGaussRadau_calcDefects_interval s x xdot ti tf p) defects.
End Schemes.

(** *** CasOCTrapezoidal.h *)

(** [Transcription(solver, problem)]: the members with their initialisers. *)
Definition Transcription_new {A : Type} (solver : Solver A) (problem : Problem)
    : Transcription A :=
  let empty := mkShape 0 0 in
  mkTranscription solver problem (-1) (-1) (-1) (-1) (-1) (-1) (-1) (-1) (-1) (-1)
    (-1) [] [] [] ∅ ∅ ∅ ∅ ∅
    (mkConstraints empty empty empty empty empty empty empty [] [] empty).

Definition all_kinds : list Var :=
  [initial_time; final_time; states; controls; multipliers; derivatives;
   parameters; projection_states; slacks].

(** One buffer per kind, of the kind's shape and filled with [x]. *)
Definition allocate {T : Type} (f : Var -> T) : gmap Var T :=
  list_to_map (map (fun k => (k, f k)) all_kinds).

(** Modelled from the spec: [createVariablesAndSetBounds] is defined in
    CasOCTranscription.cpp, which is not among the sources.  Following the
    specification (4.2) it records the grid and the two per-interval counts,
    allocates one buffer per variable kind and initialises every bound pair to
    unset, that is to -infinity and +infinity, and the scaling to the identity.
    The specification leaves the shape of each kind's buffer to the scheme's
    grid layout; it is the argument [layout] here. *)
Definition createVariablesAndSetBounds (layout : Var -> Shape) (grid : list float)
    (numDefectsPerMeshInterval numPointsPerMeshInterval : Z)
    (pointsForInterpControls : list float) (t : Transcription float)
    : result (Transcription float) :=
  let numMeshPoints := Z.of_nat (length (getMesh (m_solver t))) in
  let buffer x k := DM_fill (shape_rows (layout k)) (shape_columns (layout k)) x in
  let column x k := DM_fill (shape_rows (layout k)) 1 x in
  Ok (mkTranscription (m_solver t) (m_problem t)
        (Z.of_nat (length grid)) numMeshPoints (numMeshPoints - 1)
        (m_numMeshInteriorPoints t)
        numDefectsPerMeshInterval numPointsPerMeshInterval
        (m_numMultibodyResiduals t) (m_numAuxiliaryResiduals t)
        (m_numParameterConstraints t) (m_numConstraints t)
        (m_numPathConstraintPoints t)
        grid pointsForInterpControls (m_times t)
        (allocate layout)
        (allocate (buffer neg_infinity)) (allocate (buffer infinity))
        (allocate (column 0%float)) (allocate (column 1%float))
        (m_constraints t)).

Definition trapezoidal_error : string :=
  "Enforcing kinematic constraint derivatives not supported with trapezoidal transcription.".

(** The constructor [Trapezoidal(solver, problem)].  The vector of booleans it
    passes where a [casadi::DM] is expected is a column of ones. *)
Definition Trapezoidal (layout : Var -> Shape) (solver : Solver float)
    (problem : Problem) : result (Transcription float) :=
  let t := Transcription_new solver problem in
  _ ← OPENSIM_THROW_IF (getEnforceConstraintDerivatives problem) trapezoidal_error;
  let mesh := getMesh (m_solver t) in
  let controlPoints := map (fun _ : Z => true) (seqZ 0 (Z.of_nat (length mesh))) in
  createVariablesAndSetBounds layout mesh (getNumStates (m_problem t)) 2
    (map (fun b : bool => if b then 1%float else 0%float) controlPoints) t.

(** *** The three schemes *)

(** Modelled from the spec: [Trapezoidal::createMeshIndicesImpl] is defined in
    CasOCTrapezoidal.cpp, which is not among the sources.  For the trapezoidal
    scheme every grid point is a mesh point (the specification's scenario has
    the mask 1, 1, 1, 1 on four grid points). *)
Definition Trapezoidal_createMeshIndicesImpl {A : Type} {SA : Scalar A}
    (t : Transcription A) : result (DM A) :=
  if decide (0 <= m_numGridPoints t)
  then Ok (DM_fill 1 (Z.to_nat (m_numGridPoints t)) one)
  else Throw CasadiException.

(** The classes derived from [Transcription]. *)
Inductive Scheme : Type :=
  | TrapezoidalScheme
  | LegendreGaussScheme
  | LegendreGaussRadauScheme.

(** The virtual call [createMeshIndicesImpl()]. *)
Definition createMeshIndicesImpl {A : Type} {SA : Scalar A} (scheme : Scheme)
    (s : Legendre A) : result (DM A) :=
  match scheme with
  | TrapezoidalScheme => Trapezoidal_createMeshIndicesImpl (base s)
  | LegendreGaussScheme => LegendreGauss_createMeshIndicesImpl s
  | LegendreGaussRadauScheme => LegendreGaussRadau_createMeshIndicesImpl s
  end.

(** The number of grid points from one mesh point to the next. *)
Definition grid_stride {A : Type} (scheme : Scheme) (s : Legendre A) : Z :=
  match scheme with
  | TrapezoidalScheme => 1
  | LegendreGaussScheme => m_degree s + 1
  | LegendreGaussRadauScheme => m_degree s
  end.

(** ** Notions used to state the properties *)

(** Position [k] of a dimension of length [len] is addressed by the index [ix]. *)
Definition addressed (len : nat) (ix : Index) (k : nat) : Prop :=
  exists a n, index_range len ix = Ok (a, n) /\ (a <= k < a + n)%nat.

(** [new] is [old] with [x] stored in the block addressed by the two indices,
    and with every other entry as it was. *)
Definition block_written {A : Type} (old new : DM A)
    (rowIndices columnIndices : Index) (x : A) : Prop :=
  rows new = rows old /\ columns new = columns old /\
  forall i j,
    (addressed (rows old) rowIndices i /\ addressed (columns old) columnIndices j ->
     entry new i j = (fun _ => x) <$> entry old i j)
    /\ (~ (addressed (rows old) rowIndices i
           /\ addressed (columns old) columnIndices j) ->
        entry new i j = entry old i j).

(** The call stored [dilate] and [shift] in the addressed block of the kind's
    scale and shift buffers, and left their other entries as they were. *)
Definition scaling_written (t t' : Transcription float) (key : Var)
    (rowIndices columnIndices : Index) (dilate shift : float) : Prop :=
  exists scale0 shift0 scale1 shift1,
    m_scale t !! key = Some scale0 /\ m_shift t !! key = Some shift0
    /\ m_scale t' !! key = Some scale1 /\ m_shift t' !! key = Some shift1
    /\ block_written scale0 scale1 rowIndices columnIndices dilate
    /\ block_written shift0 shift1 rowIndices columnIndices shift.

(** The shape [m_scaledVars] holds for a kind (empty when the kind is missing). *)
Definition shape_of {A : Type} (t : Transcription A) (key : Var) : Shape :=
  default (mkShape 0 0) (m_scaledVars t !! key).

(** The number of entries of the kinds that come before [key] in [keys]. *)
Fixpoint offset_in {A : Type} (t : Transcription A) (keys : list Var) (key : Var)
    : nat :=
  match keys with
  | [] => 0
  | k :: keys' =>
      if decide (k = key) then 0%nat
      else (shape_numel (shape_of t k) + offset_in t keys' key)%nat
  end.

(** The number of entries of all the kinds of [keys]. *)
Definition total_numel {A : Type} (t : Transcription A) (keys : list Var) : nat :=
  sum_list_with (fun k => shape_numel (shape_of t k)) keys.

(** The matrix of shape [value] read from [x] at [offset], column by column. *)
Definition block_at {A : Type} (x : list A) (offset : nat) (value : Shape) : DM A :=
  mkDM (shape_rows value)
    (chunks (shape_rows value) (shape_columns value)
       (take (shape_numel value) (drop offset x))).

(** An integer as an exact rational. *)
Definition Qc_of_Z (z : Z) : Qc := Q2Qc (inject_Z z).

(** The row vector with the entries [row]. *)
Definition row_vector {A : Type} (row : list A) : DM A :=
  mkDM 1 (map (fun x => [x]) row).

(** The scale and shift buffers of [key] are columns as long as the rows of
    [m]. *)
Definition buffers_fit {A : Type} (t : Transcription A) (key : Var) (m : DM A)
    : Prop :=
  wf_DM m /\
  exists shift scale,
    m_shift t !! key = Some (mkDM (rows m) [shift])
    /\ m_scale t !! key = Some (mkDM (rows m) [scale])
    /\ length shift = rows m /\ length scale = rows m.

(** The scale and shift buffers of [key] are columns as long as the rows of
    [m], and no scale (dilate) entry is zero. *)
Definition scaling_fits (t : Transcription Qc) (key : Var) (m : DM Qc) : Prop :=
  wf_DM m /\
  exists shift scale,
    m_shift t !! key = Some (mkDM (rows m) [shift])
    /\ m_scale t !! key = Some (mkDM (rows m) [scale])
    /\ length shift = rows m /\ length scale = rows m
    /\ Forall (fun d => d <> 0%Qc) scale.

(** Entry [(i, j)] of a matrix and entry [k] of a vector that have them. *)
Definition DM_get {A : Type} {SA : Scalar A} (m : DM A) (i j : nat) : A :=
  default zero (entry m i j).

Definition vec_get {A : Type} {SA : Scalar A} (x : list A) (k : nat) : A :=
  default zero (x !! k).

(** Column [j] of a matrix. *)
Definition DM_column {A : Type} (m : DM A) (j : nat) : list A :=
  default [] (cols m !! j).

(** The [n] columns of [m] from column [first] on. *)
Definition DM_block {A : Type} (m : DM A) (first n : nat) : DM A :=
  mkDM (rows m) (take n (drop first (cols m))).

(** [m] after [m(Slice(a, a + n), j) = v]. *)
Definition DM_written {A : Type} (m : DM A) (a n j : nat) (v : list A) : DM A :=
  mkDM (rows m) (alter (fun c => write_at c a n v) j (cols m)).

(** What [LegendreGaussRadau::calcDefectsImpl] leaves in column [imesh] of the
    defects: the differences of the time copies, the differences of the
    parameter copies, and per interior point [e] the [NS] rows
    [h * xdot - (state rows of the interval) * (column e of the
    differentiation matrix)]. *)
Definition LegendreGaussRadau_defect_column {A : Type} {SA : Scalar A}
    (s : Legendre A) (x xdot ti tf p defects : DM A) (imesh : nat) : Prop :=
  let NS := Z.to_nat (getNumStates (m_problem (base s))) in
  let NP := Z.to_nat (getNumParameters (m_problem (base s))) in
  let d := Z.to_nat (m_degree s) in
  let igrid := (imesh * d)%nat in
  let h := sub (vec_get (m_times (base s)) (igrid + d))
               (vec_get (m_times (base s)) igrid) in
  entry defects 0 imesh = Some (sub (DM_get ti 0 (S imesh)) (DM_get ti 0 imesh))
  /\ entry defects 1 imesh = Some (sub (DM_get tf 0 (S imesh)) (DM_get tf 0 imesh))
  /\ (forall k, (k < NP)%nat ->
        entry defects (2 + k) imesh
        = Some (sub (DM_get p k (S imesh)) (DM_get p k imesh)))
  /\ (forall e r, (e < d)%nat -> (r < NS)%nat ->
        entry defects (2 + NP + e * NS + r) imesh
        = Some (sub (mul h (DM_get xdot r (igrid + 1 + e)))
                    (dot (DM_row (DM_block x igrid (d + 1)) r)
                         (DM_column (m_differentiationMatrix s) e)))).

(** A well-formed matrix of [r] rows and [c] columns. *)
Definition has_shape {A : Type} (m : DM A) (r c : nat) : Prop :=
  wf_DM m /\ rows m = r /\ columns m = c.

(** ** A small transcription to run the functions on *)

(** A trapezoidal transcription of a problem with two states and one control
    on the mesh 0, 1/2, 1. *)
Definition example_solver : Solver float :=
  mkSolver [0; 0.5; 1]%float true false false false.

Definition example_problem : Problem := mkProblem 2 1 0 0 false [] [].

Definition example_layout (k : Var) : Shape :=
  match k with
  | initial_time | final_time => mkShape 1 3
  | states => mkShape 2 3
  | controls => mkShape 1 3
  | _ => mkShape 0 3
  end.

Definition example_transcription : Transcription float :=
  match Trapezoidal example_layout example_solver example_problem with
  | Ok t => t
  | Throw _ => Transcription_new example_solver example_problem
  end.

Definition example_bounded : Transcription float :=
  match setVariableBounds example_transcription states (Slice 0 1) SliceAll
          (mkBounds (-1) 3 true) with
  | Ok t => t
  | Throw _ => example_transcription
  end.

Definition example_scaled : Transcription float :=
  match setVariableScaling example_transcription states SliceAll (Int 0)
          (mkBounds (-3) 4 true) with
  | Ok t => t
  | Throw _ => example_transcription
  end.

(** A variable assignment of the shapes of [example_transcription]: three
    grid points, two states and one control. *)
Definition example_variables : gmap Var (DM float) :=
  list_to_map
    [(initial_time, mkDM 1 [[0]; [0]; [0]]);
     (final_time, mkDM 1 [[1]; [1]; [1]]);
     (states, mkDM 2 [[10; 11]; [20; 21]; [30; 31]]);
     (controls, mkDM 1 [[5]; [6]; [7]]);
     (multipliers, mkDM 0 [[]; []; []]);
     (derivatives, mkDM 0 [[]; []; []]);
     (parameters, mkDM 0 [[]; []; []])]%float.

Definition example_flat : list float :=
  [0; 1; 10; 11; 5; 0; 1; 20; 21; 6; 0; 1; 30; 31; 7]%float.

(** ** Two transcriptions to run the constraint functions on *)

(** One mesh interval of two points, one state; [numParameterConstraints] and
    [numConstraints] are the two counts that vary. *)
Definition constraint_transcription (numParameterConstraints numConstraints : Z)
    : Transcription float :=
  mkTranscription (mkSolver [0; 1]%float false false false false)
    (mkProblem 1 0 numParameterConstraints 0 false [] [])
    2 2 1 0 1 2 0 0 numParameterConstraints numConstraints 2
    [0; 1]%float [] [0; 1]%float ∅ ∅ ∅ ∅ ∅
    (mkConstraints (mkShape 0 0) (mkShape 0 0) (mkShape 0 0) (mkShape 0 0)
       (mkShape 0 0) (mkShape 0 0) (mkShape 0 0) [] [] (mkShape 0 0)).

(** Two parameters: the shapes are those [expandConstraints] allocates. *)
Definition example_constraints : Constraints (DM float) :=
  (mkConstraints (mkDM 1 [[5]; [6]]) (mkDM 1 [[8]; [9]]) (mkDM 2 [[3; 4]])
    (mkDM 1 [[7]]) (mkDM 0 [[]; []]) (mkDM 0 [[]; []]) (mkDM 0 [[]; []])
    [] [] (mkDM 0 []))%float.

(** What [expandConstraints] returns for the flattened [example_constraints]. *)
Definition example_constraints_expanded : Constraints (DM float) :=
  (mkConstraints (mkDM 1 [[5]; [1]]) (mkDM 1 [[8]; [1]]) (mkDM 2 [[3; 4]])
    (mkDM 1 [[7]]) (mkDM 0 [[]; []]) (mkDM 0 [[]; []]) (mkDM 0 [[]; []])
    [] [] (mkDM 0 []))%float.

(** No parameter: one column per time slot, as the traversal reads them. *)
Definition example_constraints_no_parameter : Constraints (DM float) :=
  (mkConstraints (mkDM 1 [[0]]) (mkDM 1 [[0]]) (mkDM 0 [[]])
    (mkDM 1 [[7]]) (mkDM 0 [[]; []]) (mkDM 0 [[]; []]) (mkDM 0 [[]; []])
    [] [] (mkDM 0 []))%float.

(** ** Inputs for the scaling round trip *)

(** The scaling that [setVariableScaling] derives from the bounds 0 and 1e20:
    dilate 1e20 and shift -5e19 for both states. *)
Definition wide_scaled : Transcription float :=
  match setVariableScaling example_transcription states SliceAll (Int 0)
          (mkBounds 0 1e20 true) with
  | Ok t => t
  | Throw _ => example_transcription
  end.

(** States within the bounds 0 and 1e20. *)
Definition wide_unscaled : gmap Var (DM float) :=
  {[ states := mkDM 2 [[1; 0]; [1; 2]; [3; 4]]%float ]}.

(** The scaling that [setVariableScaling] derives from the bounds 2^1023 and
    1.5 * 2^1023, whose sum is not a finite number: dilate 2^1022 and shift
    minus infinity. *)
Definition huge_scaled : Transcription float :=
  match setVariableScaling example_transcription states SliceAll (Int 0)
          (mkBounds 0x1p+1023 0x1.8p+1023 true) with
  | Ok t => t
  | Throw _ => example_transcription
  end.

(** States within these bounds. *)
Definition huge_unscaled : gmap Var (DM float) :=
  {[ states := mkDM 2 [[0x1.4p+1023; 0x1p+1023];
                       [0x1.8p+1023; 0x1.2p+1023];
                       [0x1.1p+1023; 0x1.7p+1023]]%float ]}.

(** No entry of a scale buffer is zero. *)
Definition all_nonzero (m : DM float) : bool :=
  forallb (forallb (fun d => negb (d =? 0)%float)) (cols m).

(** The same scaling in exact arithmetic: dilate 7 and shift -1/2 for both
    states. *)
Definition exact_transcription : Transcription Qc :=
  let seven := Q2Qc 7 in
  let shift := Q2Qc (-1 # 2) in
  mkTranscription (mkSolver [] true false false false) example_problem
    3 3 2 0 2 2 0 0 0 0 0 [] [] [] ∅ ∅ ∅
    {[ states := mkDM 2 [[shift; shift]] ]}
    {[ states := mkDM 2 [[seven; seven]] ]}
    (mkConstraints (mkShape 0 0) (mkShape 0 0) (mkShape 0 0) (mkShape 0 0)
       (mkShape 0 0) (mkShape 0 0) (mkShape 0 0) [] [] (mkShape 0 0)).

Definition exact_unscaled : gmap Var (DM Qc) :=
  {[ states := mkDM 2 [[Q2Qc (25 # 8); Q2Qc 0]; [Q2Qc 1; Q2Qc 2]] ]}.

(** ** Legendre transcriptions to run the scheme functions on *)

(** [SimTK::isNumericallyEqual] on exact numbers. *)
Definition exactly_equal (x : Qc) (n : Z) : bool := bool_decide (x = Qc_of_Z n).

(** Two mesh intervals on the mesh 0, 1/4, 1 with polynomial degree [degree],
    [numGridPoints] grid points at the times 0, 1, 2, ..., the quadrature
    coefficients [w] and the differentiation matrix [D]; one state and one
    parameter. *)
Definition exact_legendre (degree numGridPoints : Z) (w : list Qc) (D : DM Qc)
    : Legendre Qc :=
  mkLegendre
    (mkTranscription
       (mkSolver [Q2Qc 0; Q2Qc (1 # 4); Q2Qc 1] true false false false)
       (mkProblem 1 0 1 0 false [] [])
       numGridPoints 3 2 0 (degree + 3) (degree + 1) 0 0 0 0 0 [] []
       (map (fun i => Qc_of_Z i) (seqZ 0 numGridPoints)) ∅ ∅ ∅ ∅ ∅
       (mkConstraints (mkShape 0 0) (mkShape 0 0) (mkShape 0 0) (mkShape 0 0)
          (mkShape 0 0) (mkShape 0 0) (mkShape 0 0) [] [] (mkShape 0 0)))
    degree w D.

(** Degree 2 on the mesh 0, 1/4, 1: Radau coefficients 3/4 and 1/4 on five
    grid points, Gauss coefficients 1/2 and 1/2 on seven. *)
Definition radau_example : Legendre Qc :=
  exact_legendre 2 5 [Q2Qc (3 # 4); Q2Qc (1 # 4)]
    (mkDM 3 [[Q2Qc (-2); Q2Qc (3 # 2); Q2Qc (1 # 2)];
             [Q2Qc 2; Q2Qc (-6); Q2Qc 4]]).

Definition gauss_example : Legendre Qc :=
  exact_legendre 2 7 [Q2Qc (1 # 2); Q2Qc (1 # 2)] (mkDM 3 [[]; []]).

(** Inputs of [calcDefectsImpl] for [radau_example]: one state on five grid
    points, two mesh intervals, one parameter. *)
Definition radau_states : DM Qc :=
  row_vector [Q2Qc 1; Q2Qc 2; Q2Qc 4; Q2Qc 7; Q2Qc 11].

Definition radau_derivatives : DM Qc :=
  row_vector [Q2Qc 0; Q2Qc 1; Q2Qc 3; Q2Qc 2; Q2Qc 5].

Definition radau_initial_time : DM Qc := row_vector [Q2Qc 0; Q2Qc 0; Q2Qc 0].

Definition radau_final_time : DM Qc := row_vector [Q2Qc 4; Q2Qc 4; Q2Qc 5].

Definition radau_parameters : DM Qc := row_vector [Q2Qc 9; Q2Qc 9; Q2Qc 8].

Definition radau_defects : DM Qc := DM_fill 5 2 (Q2Qc 1).

(** ** More of class Transcription (CasOCTranscription.h) *)

Section MoreTranscription.
Context {A : Type} {SA : Scalar A}.

(** [createTimes]:
    [(final_time(0) - initial_time(0)) * m_grid + initial_time(0)];
    the result has the entries of [m_grid], one time per grid point. *)
Definition createTimes (t : Transcription A) (initial_time final_time : DM A)
    : result (list A) :=
  tf0 ← DM_at final_time 0;
  ti0 ← DM_at initial_time 0;
  duration ← DM_binary sub (scalar_DM tf0) (scalar_DM ti0);
  scaled ← DM_binary mul duration (column_vector (m_grid t));
  ti0 ← DM_at initial_time 0;
  times ← DM_binary add scaled (scalar_DM ti0);
  Ok (concat (cols times)).

(** [stdvec.push_back(vars.at(key)[index])] on a [std::vector<casadi::MX>];
    an index outside the vector is undefined behaviour in C++ and an exception
    here. *)
Definition push_back_element (vars : gmap Var (list (DM A))) (key : Var) (index : Z)
    (stdvec : list (DM A)) : result (list (DM A)) :=
  v ← at_key vars key;
  if decide (0 <= index) then
    match v !! Z.to_nat index with
    | Some m => Ok (stdvec ++ [m])
    | None => Throw OutOfRange
    end
  else Throw OutOfRange.

(** [flattenVariablesMX]; a symbolic matrix is modelled by its entries, and
    [MX::veccat] lists every matrix of the vector column by column. *)
Definition flattenVariablesMX (t : Transcription A) (vars : gmap Var (list (DM A)))
    : result (list A) :=
  let N := m_numPointsPerMeshInterval t - 1 in
  stdvec ← for_range 0 (m_numMeshIntervals t) (fun imesh stdvec =>
    let igrid := imesh * N in
    stdvec ← for_range 0 N (fun i => push_back_element vars initial_time (igrid + i)) stdvec;
    stdvec ← for_range 0 N (fun i => push_back_element vars final_time (igrid + i)) stdvec;
    stdvec ← for_range 0 N (fun i => push_back_element vars states (igrid + i)) stdvec;
    for_range 0 N (fun i => push_back_element vars controls (igrid + i)) stdvec) [];
  stdvec ← push_back_element vars initial_time (m_numGridPoints t - 1) stdvec;
  stdvec ← push_back_element vars final_time (m_numGridPoints t - 1) stdvec;
  stdvec ← push_back_element vars states (m_numGridPoints t - 1) stdvec;
  stdvec ← push_back_element vars controls (m_numGridPoints t - 1) stdvec;
  Ok (veccat (map (fun m => veccat (cols m)) stdvec)).

(** [expandObjectiveTerms]; [m_objectiveTermNames] is the member it reads. *)
Definition expandObjectiveTerms (m_objectiveTermNames : list string) (terms : DM A)
    : result (list (string * A)) :=
  for_range 0 (Z.of_nat (length m_objectiveTermNames)) (fun io out =>
    match m_objectiveTermNames !! Z.to_nat io with
    | Some name =>
        term ← DM_at terms io;
        Ok (out ++ [(name, term)])
    | None => Throw OutOfRange
    end) [].

(** [DM::ones(numRows, numColumns)] *)
Definition ones (numRows numColumns : Z) : result (DM A) :=
  if decide (0 <= numRows /\ 0 <= numColumns)
  then Ok (DM_fill (Z.to_nat numRows) (Z.to_nat numColumns) one)
  else Throw CasadiException.

(** [LegendreGauss::createControlIndicesImpl] *)
Definition LegendreGauss_createControlIndicesImpl (s : Legendre A) : result (DM A) :=
  let t := base s in
  indices ← zeros 1 (m_numGridPoints t);
  for_range 0 (m_numMeshIntervals t) (fun imesh indices =>
    let igrid := imesh * (m_degree s + 1) in
    for_range 0 (m_degree s) (fun d indices =>
      DM_set_at indices (igrid + d + 1) one) indices) indices.

(** [LegendreGaussRadau::createControlIndicesImpl] *)
Definition LegendreGaussRadau_createControlIndicesImpl (s : Legendre A)
    : result (DM A) :=
  let t := base s in
  indices ← ones 1 (m_numGridPoints t);
  DM_set_at indices 0 zero.
End MoreTranscription.

(** ** More of the Legendre-Gauss scheme (CasOCLegendreGauss.cpp) *)

(** The data members that [LegendreGauss::calcDefectsImpl] reads besides those
    of [Legendre]: the durations of the mesh intervals and the interpolation
    coefficients (the class declaration is not among the sources). *)
Record LegendreGauss (A : Type) : Type := mkLegendreGauss {
  legendre : Legendre A;
  m_intervals : list A;
  m_interpolationCoefficients : DM A;
}.
Arguments mkLegendreGauss {A}.
Arguments legendre {A} l.
Arguments m_intervals {A} l.
Arguments m_interpolationCoefficients {A} l.

(** [v[i]] on a [std::vector]; an index outside the vector is undefined
    behaviour in C++ and an exception here. *)
Definition element {T : Type} (v : list T) (i : Z) : result T :=
  if decide (0 <= i) then
    match v !! Z.to_nat i with
    | Some x => Ok x
    | None => Throw OutOfRange
    end
  else Throw OutOfRange.

Section LegendreGaussDefects.
Context {A : Type} {SA : Scalar A}.

(** One pass of the loop of [LegendreGauss::calcDefectsImpl]; [x] and [xdot]
    hold one matrix per mesh interval. *)
Definition LegendreGauss_calcDefects_interval (s : LegendreGauss A)
    (x xdot : list (DM A)) (imesh : Z) (defects : DM A) : result (DM A) :=
  let l := legendre s in
  let NS := getNumStates (m_problem (base l)) in
  h ← vec_at (m_intervals s) imesh;
  x_imesh ← element x imesh;
  x_i ← DM_cols x_imesh 0 (m_degree l + 1);
  xdot_imesh ← element xdot imesh;
  xdot_i ← DM_cols xdot_imesh 1 (m_degree l + 1);
  x_imesh ← element x imesh;
  x_ip1 ← DM_col x_imesh (m_degree l + 1);
  (* End state interpolation. *)
  interpolated ← mtimes x_i (m_interpolationCoefficients s);
  end_state ← DM_binary sub (column_vector x_ip1) interpolated;
  defects ← DM_set_rows defects 0 NS imesh (veccat (cols end_state));
  (* Residual function defects. *)
  scaled ← DM_binary mul (scalar_DM h) xdot_i;
  prod ← mtimes x_i (m_differentiationMatrix l);
  residual ← DM_binary sub scaled prod;
  for_range 0 (m_degree l) (fun d defects =>
    let istart := (d + 1) * NS in
    let iend := (d + 2) * NS in
    r ← DM_col residual d;
    DM_set_rows defects istart iend imesh r) defects.

Definition LegendreGauss_calcDefectsImpl (s : LegendreGauss A)
    (x xdot : list (DM A)) (defects : DM A) : result (DM A) :=
  for_range 0 (m_numMeshIntervals (base (legendre s)))
    (LegendreGauss_calcDefects_interval s x xdot) defects.
End LegendreGaussDefects.

(** ** sandboxAutodiff.cpp: class TranscriptionSlidingMass *)

Module TranscriptionSlidingMass.

(** [enum Var] *)
Inductive Var : Type :=
  | initial_time
  | final_time
  | states
  | controls.

#[global] Instance Var_eq_decision : EqDecision Var.
Proof. solve_decision. Defined.

(** The value of an enumerator. *)
Definition Var_value (v : Var) : nat :=
  match v with
  | initial_time => 0 | final_time => 1 | states => 2 | controls => 3
  end%nat.

Definition Var_of_value (n : nat) : option Var :=
  match n with
  | 0 => Some initial_time | 1 => Some final_time | 2 => Some states
  | 3 => Some controls | _ => None
  end%nat.

#[global] Instance Var_is_countable : Countable Var.
Proof.
  refine (inj_countable Var_value Var_of_value _).
  intros []; reflexivity.
Defined.

(** [operator<] on the enumerators, the order [std::sort] sorts the keys by. *)
Definition Var_le (v w : Var) : Prop := (Var_value v <= Var_value w)%nat.

#[global] Instance Var_le_dec : RelDecision Var_le.
Proof. intros v w. unfold Var_le. apply _. Defined.

(** [template <typename T> struct Constraints] *)
Record Constraints (T : Type) : Type := mkConstraints {
  defects : T;
}.
Arguments mkConstraints {T}.
Arguments defects {T} c.

(** The data members of the class that the functions below read. *)
Record SlidingMass (A : Type) : Type := mkSlidingMass {
  m_numMeshIntervals : Z;
  m_numGridPoints : Z;
  m_numDefectsPerMeshInterval : Z;
  m_numConstraints : Z;
  m_variables : gmap Var Shape;
  m_times : list A;
}.
Arguments mkSlidingMass {A}.
Arguments m_numMeshIntervals {A} s.
Arguments m_numGridPoints {A} s.
Arguments m_numDefectsPerMeshInterval {A} s.
Arguments m_numConstraints {A} s.
Arguments m_variables {A} s.
Arguments m_times {A} s.

(** [vars.at(key)] *)
Definition at_key {T : Type} (vars : gmap Var T) (key : Var) : result T :=
  match vars !! key with
  | Some x => Ok x
  | None => Throw OutOfRange
  end.

(** [getSortedVarKeys]: the keys of the map, sorted. *)
Definition getSortedVarKeys {T : Type} (vars : gmap Var T) : list Var :=
  merge_sort Var_le (map_to_list vars).*1.

Section Functions.
Context {A : Type} {SA : Scalar A}.

Definition flattenVariables (vars : gmap Var (DM A)) : result (list A) :=
  stdvec ← for_each (getSortedVarKeys vars) (fun key stdvec =>
              m ← at_key vars key;
              Ok (stdvec ++ [m])) [];
  Ok (veccat (map (fun m => veccat (cols m)) stdvec)).

(** The loop body of [expandVariables]; the state is [(out, offset)]. *)
Definition expandVariables_step (t : SlidingMass A) (x : list A) (key : Var)
    (s : gmap Var (DM A) * Z) : result (gmap Var (DM A) * Z) :=
  let '(out, offset) := s in
  value ← at_key (m_variables t) key;
  part ← vec_slice x offset (offset + Z.of_nat (shape_numel value));
  m ← reshape part (shape_rows value) (shape_columns value);
  Ok (<[key := m]> out, offset + Z.of_nat (shape_numel value)).

Definition expandVariables (t : SlidingMass A) (x : list A)
    : result (gmap Var (DM A)) :=
  s ← for_each (getSortedVarKeys (m_variables t)) (expandVariables_step t x) (∅, 0);
  Ok (fst s).

(** [flattenConstraints]; its lambda [copyColumn] is the one of
    CasOCTranscription.h. *)
Definition flattenConstraints (t : SlidingMass A) (constraints : Constraints (DM A))
    : result (list A) :=
  flat ← dense (m_numConstraints t) 1;
  s ← for_range 0 (m_numMeshIntervals t) (fun imesh s =>
         copyColumn (fst s) (snd s) (defects constraints) imesh)
       (concat (cols flat), 0);
  _ ← OPENSIM_THROW_IF (bool_decide (snd s <> m_numConstraints t))
        internal_error_constraints;
  Ok (fst s).

Definition expandConstraints (t : SlidingMass A) (flat : list A)
    : result (Constraints (DM A)) :=
  out ← dense (m_numDefectsPerMeshInterval t) (m_numMeshIntervals t);
  s ← for_range 0 (m_numMeshIntervals t) (fun imesh s =>
         copyColumn_expand flat (snd s) (fst s) imesh)
       (out, 0);
  _ ← OPENSIM_THROW_IF (bool_decide (snd s <> m_numConstraints t))
        internal_error_constraints;
  Ok (mkConstraints (fst s)).

(** The literal [0.5]. *)
Definition half : A := div one (add one one).

(** One pass of the loop of [calcDefects]:
    [defects(Slice(), imesh) = x_ip1 - (x_i + 0.5 * h * (xdot_ip1 + xdot_i))]. *)
Definition calcDefects_interval (t : SlidingMass A) (x xdot : DM A) (imesh : Z)
    (defects : DM A) : result (DM A) :=
  t1 ← vec_at (m_times t) (imesh + 1);
  t0 ← vec_at (m_times t) imesh;
  let h := sub t1 t0 in
  x_i ← DM_col x imesh;
  x_ip1 ← DM_col x (imesh + 1);
  xdot_i ← DM_col xdot imesh;
  xdot_ip1 ← DM_col xdot (imesh + 1);
  (* Trapezoidal defects. *)
  slopes ← DM_binary add (column_vector xdot_ip1) (column_vector xdot_i);
  step ← DM_binary mul (scalar_DM (mul half h)) slopes;
  predicted ← DM_binary add (column_vector x_i) step;
  defect ← DM_binary sub (column_vector x_ip1) predicted;
  DM_set_col defects imesh (veccat (cols defect)).

Definition calcDefects (t : SlidingMass A) (x xdot : DM A) (defects : DM A)
    : result (DM A) :=
  for_range 0 (m_numMeshIntervals t) (calcDefects_interval t x xdot) defects.
End Functions.

(** [vars[key]], read. *)
Definition subscript {A : Type} (vars : gmap Var (DM A)) (key : Var) : DM A :=
  default DM_empty (vars !! key).

(** The enumerators of [Var] in the order of their values. *)
Definition enumerators : list Var := [initial_time; final_time; states; controls].

(** [struct Bounds]; the default member initialisers are quiet NaNs. *)
Record Bounds : Type := mkBounds {
  lower : float;
  upper : float;
}.

Definition Bounds_default : Bounds := mkBounds nan nan.

(** [isSet()]: [!std::isnan(lower) && !std::isnan(upper)] *)
Definition isSet (b : Bounds) : bool :=
  negb (is_nan (lower b)) && negb (is_nan (upper b)).

(** The two bound buffers of the class. *)
Record BoundBuffers : Type := mkBoundBuffers {
  m_lowerBounds : gmap Var (DM float);
  m_upperBounds : gmap Var (DM float);
}.

(** [setVariableBounds]; [m_lowerBounds[var]] is [subscript]. *)
Definition setVariableBounds (var : Var) (rowIndices columnIndices : Index)
    (bounds : Bounds) (b : BoundBuffers) : result BoundBuffers :=
  if isSet bounds then
    let lower := lower bounds in
    lb ← DM_set_block (subscript (m_lowerBounds b) var) rowIndices columnIndices lower;
    let upper := upper bounds in
    ub ← DM_set_block (subscript (m_upperBounds b) var) rowIndices columnIndices upper;
    Ok (mkBoundBuffers (<[var := lb]> (m_lowerBounds b)) (<[var := ub]> (m_upperBounds b)))
  else
    let inf := infinity in
    lb ← DM_set_block (subscript (m_lowerBounds b) var) rowIndices columnIndices
           (- inf)%float;
    ub ← DM_set_block (subscript (m_upperBounds b) var) rowIndices columnIndices inf;
    Ok (mkBoundBuffers (<[var := lb]> (m_lowerBounds b)) (<[var := ub]> (m_upperBounds b))).

(** [int m_numStates = 2; int m_numControls = 1;] *)
Definition m_numStates : Z := 2.
Definition m_numControls : Z := 1.

(** [MX::sym(name, numRows, numColumns)]: the shape of the symbol. *)
Definition MX_sym (numRows numColumns : Z) : result Shape :=
  if decide (0 <= numRows /\ 0 <= numColumns)
  then Ok (mkShape (Z.to_nat numRows) (Z.to_nat numColumns))
  else Throw CasadiException.

(** The lambda [initializeBoundsDM]: an all-zero matrix of the shape of every
    symbol. *)
Definition initializeBoundsDM (m_variables : gmap Var Shape) : gmap Var (DM float) :=
  (fun value => DM_fill (shape_rows value) (shape_columns value) zero)
    <$> m_variables.

(** [createVariablesAndSetBounds]: the symbols and the bound buffers it
    leaves; the time vector, which is symbolic, is left out. *)
Definition createVariablesAndSetBounds (m_numGridPoints : Z)
    : result (gmap Var Shape * BoundBuffers) :=
  (* Create variables. *)
  v ← MX_sym 1 1;
  let m_variables : gmap Var Shape := <[initial_time := v]> ∅ in
  v ← MX_sym 1 1;
  let m_variables := <[final_time := v]> m_variables in
  v ← MX_sym m_numStates m_numGridPoints;
  let m_variables := <[states := v]> m_variables in
  v ← MX_sym m_numControls m_numGridPoints;
  let m_variables := <[controls := v]> m_variables in
  (* Set variable bounds. *)
  let b := mkBoundBuffers (initializeBoundsDM m_variables)
             (initializeBoundsDM m_variables) in
  b ← setVariableBounds initial_time (Int 0) (Int 0) (mkBounds 0 0) b;
  b ← setVariableBounds final_time (Int 0) (Int 0) (mkBounds 0 5) b;
  b ← setVariableBounds states (Int 0) (Int 0) (mkBounds 0 0) b;
  b ← setVariableBounds states (Int 0) (Int (-1)) (mkBounds 1 1) b;
  b ← setVariableBounds states (Int 0) (Slice 1 (m_numGridPoints - 1))
        (mkBounds (-5) 5) b;
  b ← setVariableBounds states (Int 1) (Int 0) (mkBounds 0 0) b;
  b ← setVariableBounds states (Int 1) (Int (-1)) (mkBounds 0 0) b;
  b ← setVariableBounds states (Int 1) (Slice 1 (m_numGridPoints - 1))
        (mkBounds (-50) 50) b;
  b ← setVariableBounds controls SliceAll SliceAll (mkBounds (-50) 50) b;
  Ok (m_variables, b).

(** The bounds that the buffers hold for entry [(r, j)] of [var]. *)
Definition bounds_entry (b : BoundBuffers) (var : Var) (r j : nat) : option Bounds :=
  lo ← entry (subscript (m_lowerBounds b) var) r j;
  hi ← entry (subscript (m_upperBounds b) var) r j;
  Some (mkBounds lo hi).

(** The buffer of [var] in [vars] has [r] rows and [c] columns and the
    entries [f]. *)
Definition buffer_is (vars : gmap Var (DM float)) (var : Var) (r c : nat)
    (f : nat -> nat -> float) : Prop :=
  exists m, vars !! var = Some m /\ rows m = r /\ columns m = c
    /\ forall i j, (i < r)%nat -> (j < c)%nat -> entry m i j = Some (f i j).

(** Both buffers of every variable have the shape [shape] gives it, and the
    entries [fl] and [fu]. *)
Definition buffers_are (b : BoundBuffers) (shape : Var -> nat * nat)
    (fl fu : Var -> nat -> nat -> float) : Prop :=
  forall var,
    buffer_is (m_lowerBounds b) var (fst (shape var)) (snd (shape var)) (fl var)
    /\ buffer_is (m_upperBounds b) var (fst (shape var)) (snd (shape var)) (fu var).

(** [f] with [x] stored in the block of [var] that starts at [(r0, c0)] and
    has [rn] rows and [cn] columns. *)
Definition block_update (f : Var -> nat -> nat -> float) (var : Var)
    (r0 rn c0 cn : nat) (x : float) : Var -> nat -> nat -> float :=
  fun key i j =>
    if decide (key = var /\ (r0 <= i < r0 + rn)%nat /\ (c0 <= j < c0 + cn)%nat)
    then x else f key i j.

(** The rows and columns of the variables on [M] mesh intervals. *)
Definition sliding_mass_shape (M : nat) (var : Var) : nat * nat :=
  match var with
  | initial_time | final_time => (1, 1)
  | states => (2, M + 1)
  | controls => (1, M + 1)
  end%nat.

(** The shape of the symbol of [key] in [m_variables]. *)
Definition shape_of {A : Type} (t : SlidingMass A) (key : Var) : Shape :=
  default (mkShape 0 0) (m_variables t !! key).

(** The number of entries of all the symbols of [m_variables]. *)
Definition numVariables {A : Type} (t : SlidingMass A) : nat :=
  sum_list_with (fun key => shape_numel (shape_of t key)) enumerators.

(** [vars] has the keys of [m_variables], each with a matrix of the shape of
    its symbol. *)
Definition fits {A : Type} (t : SlidingMass A) (vars : gmap Var (DM A)) : Prop :=
  forall key,
    match m_variables t !! key, vars !! key with
    | Some value, Some m => has_shape m (shape_rows value) (shape_columns value)
    | None, None => True
    | _, _ => False
    end.

(** The trapezoidal defect of state [r] on mesh interval [imesh]:
    [x_ip1 - (x_i + 0.5 * h * (xdot_ip1 + xdot_i))]. *)
Definition trapezoidal_defect {A : Type} {SA : Scalar A} (t : SlidingMass A)
    (x xdot : DM A) (r imesh : nat) : A :=
  let h := sub (vec_get (m_times t) (S imesh)) (vec_get (m_times t) imesh) in
  sub (DM_get x r (S imesh))
    (add (DM_get x r imesh)
       (mul (mul half h) (add (DM_get xdot r (S imesh)) (DM_get xdot r imesh)))).

(** What the constructor and [createVariablesAndSetBounds] set for
    [numMeshIntervals] mesh intervals; [times] stands for the values of
    [m_times], one per grid point. *)
Definition sliding_mass {A : Type} (numMeshIntervals : nat) (times : list A)
    : SlidingMass A :=
  let m_numGridPoints := (numMeshIntervals + 1)%nat in
  mkSlidingMass (Z.of_nat numMeshIntervals) (Z.of_nat m_numGridPoints) m_numStates
    (m_numStates * Z.of_nat numMeshIntervals)
    (<[controls := mkShape (Z.to_nat m_numControls) m_numGridPoints]>
      (<[states := mkShape (Z.to_nat m_numStates) m_numGridPoints]>
        (<[final_time := mkShape 1 1]> (<[initial_time := mkShape 1 1]> ∅))))
    times.

End TranscriptionSlidingMass.

(** ** ActuatorInputController.cpp *)

Module ActuatorInputController.

(** What the controller reads of a connectee of its socket "actuators". *)
Record Actuator : Type := mkActuator {
  numControls : Z;
  getAbsolutePathString : string;
}.

(** What the controller reads of a connectee of its Input "inputs": the alias
    of the channel and its value in a state. *)
Record Channel (State : Type) : Type := mkChannel {
  getAlias : string;
  getValue : State -> float;
}.
Arguments mkChannel {State}.
Arguments getAlias {State} c.
Arguments getValue {State} c s.

(** The connectees of the socket and of the Input, what the controller reads
    of its base class, and the member [m_controlIndexesInConnecteeOrder]. *)
Record Controller (State : Type) : Type := mkController {
  actuators : list Actuator;
  inputs : list (Channel State);
  getControlNames : list string;
  getControlIndexes : list Z;
  getNumControls : Z;
  m_controlIndexesInConnecteeOrder : list Z;
}.
Arguments mkController {State}.
Arguments actuators {State} c.
Arguments inputs {State} c.
Arguments getControlNames {State} c.
Arguments getControlIndexes {State} c.
Arguments getNumControls {State} c.
Arguments m_controlIndexesInConnecteeOrder {State} c.

(** [OPENSIM_ASSERT(cond)]; the macro is defined outside the sources: in the
    builds that check assertions a failed one throws an [OpenSim::Exception],
    in the others it does nothing. *)
Definition OPENSIM_ASSERT (cond : bool) : result unit :=
  OPENSIM_THROW_IF (negb cond) "OPENSIM_ASSERT".

(** [fmt::format("{}_{}", path, j)] *)
Definition format_path_index (path : string) (j : Z) : string :=
  (path ++ "_" ++ NilZero.string_of_int (Z.to_int j))%string.

Definition unexpected_alias (alias : string) : string :=
  ("Expected the Input alias '" ++ alias
   ++ "' to match a control name for an actuator in the controller's ActuatorSet, but it does not.")%string.

(** [std::find(v.begin(), v.end(), x) - v.begin()]: the position of the first
    element equal to [x], or the size of [v]. *)
Definition find_index (v : list string) (x : string) : nat :=
  default (length v) (fst <$> list_find (fun y => y = x) v).

(** [v[i] = x] on a vector; an index outside it is undefined behaviour in C++
    and an exception here. *)
Definition store {T : Type} (v : list T) (i : Z) (x : T) : result (list T) :=
  if decide (0 <= i < Z.of_nat (length v))
  then Ok (<[Z.to_nat i := x]> v)
  else Throw OutOfRange.

Section Functions.
Context {State : Type}.

Definition getExpectedInputChannelAliases (c : Controller State) : list string :=
  foldl (fun aliases actu =>
           if decide (numControls actu > 1) then
             (* Non-scalar actuator. *)
             foldl (fun aliases j =>
                      aliases ++ [format_path_index (getAbsolutePathString actu) j])
               aliases (seqZ 0 (numControls actu))
           else
             (* Scalar actuator. *)
             aliases ++ [getAbsolutePathString actu])
    [] (actuators c).

(** [extendConnectToModel], after [Super::extendConnectToModel(model)]. *)
Definition extendConnectToModel (c : Controller State) : result (Controller State) :=
  let controlNames := getControlNames c in
  let controlIndexes := getControlIndexes c in
  _ ← OPENSIM_ASSERT
        (bool_decide (getNumControls c = Z.of_nat (length controlNames)));
  let expectedAliases := getExpectedInputChannelAliases c in
  aliasesInConnecteeOrder ←
    for_range 0 (Z.of_nat (length (inputs c))) (fun i aliasesInConnecteeOrder =>
      channel ← element (inputs c) i;
      let alias := getAlias channel in
      _ ← OPENSIM_THROW_IF (bool_decide (alias ∉ expectedAliases))
            (unexpected_alias alias);
      Ok (aliasesInConnecteeOrder ++ [alias])) [];
  indexes ←
    for_each aliasesInConnecteeOrder (fun alias indexes =>
      let it := find_index controlNames alias in
      index ← element controlIndexes (Z.of_nat it);
      Ok (indexes ++ [index])) [];
  Ok (mkController (actuators c) (inputs c) (getControlNames c)
        (getControlIndexes c) (getNumControls c) indexes).

Definition computeControls (c : Controller State) (s : State) (controls : list float)
    : result (list float) :=
  _ ← OPENSIM_ASSERT
        (bool_decide (Z.of_nat (length (inputs c)) = getNumControls c));
  for_range 0 (Z.of_nat (length (inputs c))) (fun i controls =>
    index ← element (m_controlIndexesInConnecteeOrder c) i;
    channel ← element (inputs c) i;
    store controls index (getValue channel s)) controls.
End Functions.

(** [alias] is the name of a control of a connected actuator: the path of an
    actuator with at most one control, or the path of one with more, followed
    by an underscore and the number of one of its controls. *)
Definition names_control (actuators : list Actuator) (alias : string) : Prop :=
  exists actu, actu ∈ actuators
    /\ ((numControls actu <= 1 /\ alias = getAbsolutePathString actu)
        \/ (exists j, 0 <= j < numControls actu /\ 1 < numControls actu
              /\ alias = format_path_index (getAbsolutePathString actu) j)).

(** [k] is the first position of [x] in [v]. *)
Definition first_position (v : list string) (x : string) (k : nat) : Prop :=
  v !! k = Some x /\ forall k', (k' < k)%nat -> v !! k' <> Some x.

End ActuatorInputController.

(** ** Further notions used to state the properties *)

(** The columns of a matrix as a [std::vector] of one-column matrices. *)
Definition columns_vector {A : Type} (m : DM A) : list (DM A) :=
  map (fun c => mkDM (rows m) [c]) (cols m).

(** The vector of [flattenVariablesDM] holds, column by column, the matrices
    of the vector of [flattenVariablesMX]. *)
Definition same_columns {A : Type} (a : list (DM A)) (b : list (list A)) : Prop :=
  b = map (fun m => veccat (cols m)) a.

(** The members of a [Constraints] value that hold one matrix, each with the
    assignment to it, and the two that hold a vector of matrices. *)
Inductive matrix_slot {A : Type}
    : (Constraints (DM A) -> DM A)
      -> (DM A -> Constraints (DM A) -> Constraints (DM A)) -> Prop :=
  | slot_initial_time : matrix_slot con_initial_time set_initial_time
  | slot_final_time : matrix_slot con_final_time set_final_time
  | slot_parameters : matrix_slot con_parameters set_parameters
  | slot_defects : matrix_slot con_defects set_defects
  | slot_multibody_residuals :
      matrix_slot con_multibody_residuals set_multibody_residuals
  | slot_auxiliary_residuals :
      matrix_slot con_auxiliary_residuals set_auxiliary_residuals
  | slot_kinematic : matrix_slot con_kinematic set_kinematic
  | slot_interp_controls : matrix_slot con_interp_controls set_interp_controls.

Inductive vector_slot {A : Type}
    : (Constraints (DM A) -> list (DM A))
      -> (list (DM A) -> Constraints (DM A) -> Constraints (DM A)) -> Prop :=
  | slot_endpoint : vector_slot con_endpoint set_endpoint
  | slot_path : vector_slot con_path set_path.

(** [m'] has the rows and the columns of [m], and is well formed if [m] is. *)
Definition same_shape_as {A : Type} (m m' : DM A) : Prop :=
  rows m' = rows m /\ columns m' = columns m /\ (wf_DM m -> wf_DM m').

(** Every member of [c'] has the shape of the same member of [c]. *)
Definition Constraints_same_shapes {A : Type} (c c' : Constraints (DM A)) : Prop :=
  same_shape_as (con_initial_time c) (con_initial_time c')
  /\ same_shape_as (con_final_time c) (con_final_time c')
  /\ same_shape_as (con_parameters c) (con_parameters c')
  /\ same_shape_as (con_defects c) (con_defects c')
  /\ same_shape_as (con_multibody_residuals c) (con_multibody_residuals c')
  /\ same_shape_as (con_auxiliary_residuals c) (con_auxiliary_residuals c')
  /\ same_shape_as (con_kinematic c) (con_kinematic c')
  /\ same_shape_as (con_interp_controls c) (con_interp_controls c')
  /\ Forall2 same_shape_as (con_endpoint c) (con_endpoint c')
  /\ Forall2 same_shape_as (con_path c) (con_path c').

(** All the matrices of a [Constraints] value. *)
Definition Constraints_matrices {A : Type} (c : Constraints (DM A)) : list (DM A) :=
  [con_initial_time c; con_final_time c; con_parameters c; con_defects c;
   con_multibody_residuals c; con_auxiliary_residuals c; con_kinematic c;
   con_interp_controls c] ++ con_endpoint c ++ con_path c.

(** The index [iflat] into a vector of [len] entries lies within it, or past
    its end by fewer entries than one of the row counts [R]: there a column
    was read from the last entry alone. *)
Definition within_or_clamped (len : nat) (R : list nat) (iflat : Z) : Prop :=
  0 <= iflat
  /\ (iflat <= Z.of_nat len
      \/ ((0 < len)%nat
          /\ exists r, r ∈ R /\ iflat - Z.of_nat len < Z.of_nat r)).

(** What [LegendreGauss::calcDefectsImpl] leaves in column [imesh] of the
    defects: in the first [NS] rows the end state minus the interpolation of
    the interval's other states, and per interior point [e] the [NS] rows
    [h * xdot - (states of the interval) * (column e of the differentiation
    matrix)]. *)
Definition LegendreGauss_defect_column {A : Type} {SA : Scalar A}
    (s : LegendreGauss A) (x xdot : list (DM A)) (defects : DM A) (imesh : nat)
    : Prop :=
  let NS := Z.to_nat (getNumStates (m_problem (base (legendre s)))) in
  let d := Z.to_nat (m_degree (legendre s)) in
  let h := vec_get (m_intervals s) imesh in
  let x_imesh := default DM_empty (x !! imesh) in
  let xdot_imesh := default DM_empty (xdot !! imesh) in
  (forall r, (r < NS)%nat ->
     entry defects r imesh
     = Some (sub (DM_get x_imesh r (d + 1))
                 (dot (DM_row (DM_block x_imesh 0 (d + 1)) r)
                      (DM_column (m_interpolationCoefficients s) 0))))
  /\ (forall e r, (e < d)%nat -> (r < NS)%nat ->
        entry defects ((e + 1) * NS + r) imesh
        = Some (sub (mul h (DM_get xdot_imesh r (1 + e)))
                    (dot (DM_row (DM_block x_imesh 0 (d + 1)) r)
                         (DM_column (m_differentiationMatrix (legendre s)) e)))).

(** [flat], followed where it has fewer than [n] entries by copies of its
    last entry up to [n] entries. *)
Definition padded {A : Type} {SA : Scalar A} (flat : list A) (n : nat) : list A :=
  flat ++ replicate (n - length flat) (vec_get flat (length flat - 1)).

(** ** Further inputs to run the functions on *)

(** A transcription in exact arithmetic whose grid is 0, 1/4, 1. *)
Definition grid_transcription : Transcription Qc :=
  mkTranscription
    (mkSolver [Q2Qc 0; Q2Qc (1 # 4); Q2Qc 1] false false false false)
    example_problem 3 3 2 0 2 2 0 0 0 0 0
    [Q2Qc 0; Q2Qc (1 # 4); Q2Qc 1] [] [] ∅ ∅ ∅ ∅ ∅
    (mkConstraints (mkShape 0 0) (mkShape 0 0) (mkShape 0 0) (mkShape 0 0)
       (mkShape 0 0) (mkShape 0 0) (mkShape 0 0) [] [] (mkShape 0 0)).

(** Inputs of [LegendreGauss::calcDefectsImpl]: two mesh intervals of degree 2
    with one state, so four columns of states per interval. *)
Definition gauss_defects_example : LegendreGauss Qc :=
  mkLegendreGauss
    (exact_legendre 2 7 [Q2Qc (1 # 2); Q2Qc (1 # 2)]
       (mkDM 3 [[Q2Qc (-2); Q2Qc (3 # 2); Q2Qc (1 # 2)];
                [Q2Qc 2; Q2Qc (-6); Q2Qc 4]]))
    [Q2Qc (1 # 4); Q2Qc (3 # 4)]
    (mkDM 3 [[Q2Qc 1; Q2Qc (-3); Q2Qc 3]]).

Definition gauss_states : list (DM Qc) :=
  [row_vector [Q2Qc 1; Q2Qc 2; Q2Qc 4; Q2Qc 7];
   row_vector [Q2Qc 7; Q2Qc 8; Q2Qc 6; Q2Qc 5]].

Definition gauss_derivatives : list (DM Qc) :=
  [row_vector [Q2Qc 0; Q2Qc 1; Q2Qc 3; Q2Qc 2];
   row_vector [Q2Qc 2; Q2Qc 5; Q2Qc 1; Q2Qc 0]].

(** Two mesh intervals of degree 2 with the points per mesh interval of each
    scheme: four for Legendre-Gauss on seven grid points, three for
    Legendre-Gauss-Radau on five. *)
Definition order_example (numPointsPerMeshInterval numGridPoints : Z)
    : Legendre Qc :=
  mkLegendre
    (mkTranscription
       (mkSolver [Q2Qc 0; Q2Qc (1 # 4); Q2Qc 1] true false false false)
       (mkProblem 1 0 1 0 false [] [])
       numGridPoints 3 2 0 0 numPointsPerMeshInterval 0 0 0 0 0 [] [] []
       ∅ ∅ ∅ ∅ ∅
       (mkConstraints (mkShape 0 0) (mkShape 0 0) (mkShape 0 0) (mkShape 0 0)
          (mkShape 0 0) (mkShape 0 0) (mkShape 0 0) [] [] (mkShape 0 0)))
    2 [] (mkDM 0 []).

(** The sliding mass on two mesh intervals, at the times 0, 1/2 and 1, and a
    flat vector with an entry more than its eleven variables. *)
Definition sandbox_example : TranscriptionSlidingMass.SlidingMass Qc :=
  TranscriptionSlidingMass.sliding_mass 2 [Qc_of_Z 0; Q2Qc (1 # 2); Qc_of_Z 1].

Definition sandbox_flat : list Qc := map Qc_of_Z (seqZ 1 12).

(** A flat vector with one entry for the last column of the defects of
    [sandbox_example], and the defects with that entry in both its rows. *)
Definition sandbox_short_flat : list Qc := map Qc_of_Z [1; 2; 3].

Definition sandbox_spread_defects : TranscriptionSlidingMass.Constraints (DM Qc) :=
  TranscriptionSlidingMass.mkConstraints
    (mkDM 2 [[Qc_of_Z 1; Qc_of_Z 2]; [Qc_of_Z 3; Qc_of_Z 3]]).

(** Values for the variables of [sandbox_example]. *)
Definition sandbox_vars : gmap TranscriptionSlidingMass.Var (DM Qc) :=
  <[TranscriptionSlidingMass.controls :=
      mkDM 1 [[Qc_of_Z 9]; [Qc_of_Z 10]; [Qc_of_Z 11]]]>
    (<[TranscriptionSlidingMass.states :=
         mkDM 2 [[Qc_of_Z 3; Qc_of_Z 4]; [Qc_of_Z 5; Qc_of_Z 6];
                 [Qc_of_Z 7; Qc_of_Z 8]]]>
       (<[TranscriptionSlidingMass.final_time := mkDM 1 [[Qc_of_Z 2]]]>
          (<[TranscriptionSlidingMass.initial_time := mkDM 1 [[Qc_of_Z 1]]]> ∅))).

(** Defects of [sandbox_example]: two rows, one column per mesh interval. *)
Definition sandbox_defects : TranscriptionSlidingMass.Constraints (DM Qc) :=
  TranscriptionSlidingMass.mkConstraints
    (mkDM 2 [[Qc_of_Z 1; Qc_of_Z 2]; [Qc_of_Z 3; Qc_of_Z 4]]).

(** The states and their derivatives at the three grid points of
    [sandbox_example]. *)
Definition sandbox_states : DM Qc :=
  mkDM 2 [[Qc_of_Z 0; Qc_of_Z 0]; [Qc_of_Z 1; Qc_of_Z 2]; [Qc_of_Z 3; Qc_of_Z 1]].

Definition sandbox_derivatives : DM Qc :=
  mkDM 2 [[Qc_of_Z 0; Qc_of_Z 4]; [Qc_of_Z 2; Qc_of_Z 4]; [Qc_of_Z 1; Qc_of_Z (-2)]].

(** A controller of a scalar actuator and a two-control actuator whose three
    inputs are connected in another order than the controls; the state is the
    value of every input. *)
Definition example_controller : ActuatorInputController.Controller float :=
  ActuatorInputController.mkController
    [ActuatorInputController.mkActuator 1 "/forceset/a";
     ActuatorInputController.mkActuator 2 "/forceset/b"]
    [ActuatorInputController.mkChannel "/forceset/b_1" (fun s => (s + 2)%float);
     ActuatorInputController.mkChannel "/forceset/a" (fun s => s);
     ActuatorInputController.mkChannel "/forceset/b_0" (fun s => (s + 1)%float)]
    ["/forceset/a"; "/forceset/b_0"; "/forceset/b_1"]%string
    [3; 4; 5] 3 [].

(** The same controller with an input whose alias names no control. *)
Definition misnamed_controller : ActuatorInputController.Controller float :=
  ActuatorInputController.mkController
    [ActuatorInputController.mkActuator 1 "/forceset/a";
     ActuatorInputController.mkActuator 2 "/forceset/b"]
    [ActuatorInputController.mkChannel "/forceset/a" (fun s => s);
     ActuatorInputController.mkChannel "/forceset/b" (fun s => s);
     ActuatorInputController.mkChannel "/forceset/b_0" (fun s => s)]
    ["/forceset/a"; "/forceset/b_0"; "/forceset/b_1"]%string
    [3; 4; 5] 3 [].

(** ** A tactic for lists built with [map] *)

(** Write [map f l] as [f <$> l], the form in which [set_unfold] reads the
    members of a list. *)
Ltac map_as_fmap :=
  repeat match goal with
         | |- context [map ?f ?l] => change (map f l) with (f <$> l)
         | H : context [map ?f ?l] |- _ => change (map f l) with (f <$> l) in H
         end.

(** Decides the conditions of the [block_update]s of a goal on concrete
    variables. *)
Ltac block_entry :=
  unfold TranscriptionSlidingMass.block_update;
  repeat match goal with
    | |- context [decide ?P] =>
        first [ rewrite (decide_True (P := P)) by (split; [done | lia])
              | rewrite (decide_False (P := P))
                  by (intros (? & ? & ?); first [done | lia]) ]
    end;
  reflexivity.

(** ** Tactics *)

(** Split a hypothesis [H : (x ← r; k) = Ok y] into [Hx : r = Ok x] and
    [H : k = Ok y]. *)
Ltac inv_bind H :=
  let x := fresh "x" in
  let Hx := fresh "Hx" in
  match type of H with
  | mbind _ ?r = Ok _ =>
      destruct r as [x|] eqn:Hx; [simpl in H | discriminate H]
  end.

(** * Properties *)

(** ** The result monad and the index primitives *)

Lemma bind_Ok {S T : Type} (r : result S) (f : S -> result T) (y : T) :
  r ≫= f = Ok y -> exists x, r = Ok x /\ f x = Ok y.
Proof. destruct r as [x|e]; simpl; [eauto | discriminate]. Qed.

Lemma bind_Ok_l {S T : Type} (x : S) (f : S -> result T) : Ok x ≫= f = f x.
Proof. reflexivity. Qed.

Lemma wrap_nonneg (len : nat) (i : Z) : 0 <= i -> wrap len i = i.
Proof. intros Hi. unfold wrap. case_decide; lia. Qed.

Lemma scalar_index_Ok (len : nat) (i : Z) :
  0 <= i < Z.of_nat len -> scalar_index len i = Ok (Z.to_nat i).
Proof.
  intros Hi. unfold scalar_index. rewrite wrap_nonneg by lia.
  case_decide; [done | lia].
Qed.

Lemma scalar_index_lt (len : nat) (i : Z) (k : nat) :
  scalar_index len i = Ok k -> (k < len)%nat.
Proof.
  unfold scalar_index. case_decide; [|discriminate].
  intros [= <-]. lia.
Qed.

Lemma slice_index_Ok (len : nat) (a b : Z) :
  0 <= a -> 0 <= b <= Z.of_nat len ->
  slice_index len a b = Ok (Z.to_nat a, Z.to_nat (b - a)).
Proof.
  intros Ha Hb. unfold slice_index. rewrite !wrap_nonneg by lia.
  case_decide; [done | lia].
Qed.

Lemma slice_index_bound (len : nat) (a b : Z) (k n : nat) :
  slice_index len a b = Ok (k, n) -> (n = 0 \/ k + n <= len)%nat.
Proof.
  unfold slice_index. case_decide; [|discriminate].
  intros [= <- <-]. lia.
Qed.

Lemma index_range_bound (len : nat) (ix : Index) (k n : nat) :
  index_range len ix = Ok (k, n) -> (n = 0 \/ k + n <= len)%nat.
Proof.
  destruct ix as [i|a b|]; simpl.
  - intros H. inv_bind H. injection H as <- <-.
    apply scalar_index_lt in Hx. lia.
  - apply slice_index_bound.
  - intros [= <- <-]. lia.
Qed.

Lemma rhs_at_lookup {A : Type} (v : list A) (k n : nat) :
  length v = n -> (k < n)%nat -> rhs_at v k = v !! k.
Proof.
  intros Hlen Hk. destruct v as [|x [|y v]]; try reflexivity.
  simpl in Hlen. subst n. assert (k = 0%nat) as -> by lia. reflexivity.
Qed.

Lemma length_write_at {A : Type} (l : list A) (a n : nat) (v : list A) :
  length (write_at l a n v) = length l.
Proof. unfold write_at. apply length_imap. Qed.

Lemma lookup_write_at {A : Type} (l : list A) (a n : nat) (v : list A) (k : nat) :
  write_at l a n v !! k =
  (fun y => if decide (a <= k < a + n)%nat
            then default y (rhs_at v (k - a)) else y) <$> l !! k.
Proof. unfold write_at. apply list_lookup_imap. Qed.

Lemma lookup_write_at_outside {A : Type} (l : list A) (a n : nat) (v : list A) (k : nat) :
  ~ (a <= k < a + n)%nat -> write_at l a n v !! k = l !! k.
Proof.
  intros Hk. rewrite lookup_write_at. destruct (l !! k); simpl; [|done].
  case_decide; [contradiction | done].
Qed.

Lemma lookup_write_at_inside {A : Type} (l : list A) (a n : nat) (v : list A) (k : nat) :
  length v = n -> (a <= k < a + n)%nat -> (k < length l)%nat ->
  write_at l a n v !! k = v !! (k - a)%nat.
Proof.
  intros Hlen Hk Hl. rewrite lookup_write_at.
  destruct (lookup_lt_is_Some_2 l k Hl) as [y ->]. simpl.
  case_decide; [|lia].
  rewrite (rhs_at_lookup v _ n) by lia.
  destruct (lookup_lt_is_Some_2 v (k - a)%nat) as [z ->]; [lia | done].
Qed.

Lemma lookup_write_at_const {A : Type} (l : list A) (a n : nat) (x : A) (k : nat) :
  write_at l a n [x] !! k =
  (fun y => if decide (a <= k < a + n)%nat then x else y) <$> l !! k.
Proof. rewrite lookup_write_at. reflexivity. Qed.

(** ** C8: the constructor of the trapezoidal scheme *)

(** C8. Constructing a trapezoidal transcription when the problem enforces
    the derivatives of the kinematic constraints throws the configuration error
    and yields no transcription (so no buffer); otherwise the construction
    succeeds, with 2 points and [getNumStates] defects per mesh interval and a
    bound buffer for every variable kind. *)
Theorem Trapezoidal_construction (layout : Var -> Shape) (solver : Solver float)
    (problem : Problem) :
  (getEnforceConstraintDerivatives problem = true ->
   Trapezoidal layout solver problem = Throw (OpenSimException trapezoidal_error))
  /\ (getEnforceConstraintDerivatives problem = false ->
      exists t, Trapezoidal layout solver problem = Ok t
        /\ m_numPointsPerMeshInterval t = 2
        /\ m_numDefectsPerMeshInterval t = getNumStates problem
        /\ m_numMeshPoints t = Z.of_nat (length (getMesh solver))
        /\ m_numGridPoints t = Z.of_nat (length (getMesh solver))
        /\ forall k, is_Some (m_scaledVars t !! k)
                     /\ is_Some (m_lowerBounds t !! k)
                     /\ is_Some (m_upperBounds t !! k)).
Proof.
  split; intros Hopt; unfold Trapezoidal; rewrite Hopt; simpl; [reflexivity|].
  eexists. split; [reflexivity|]. simpl. repeat split; try reflexivity.
  all: destruct k; unfold allocate; simpl; eauto.
Qed.

(** ** Block assignment *)

Lemma DM_set_block_spec {A : Type} (m m' : DM A) (R C : Index) (x : A) :
  DM_set_block m R C x = Ok m' -> block_written m m' R C x.
Proof.
  unfold DM_set_block. intros H.
  inv_bind H. destruct x0 as [r0 rn]. inv_bind H. destruct x0 as [c0 cn].
  injection H as <-. unfold block_written, columns in *; simpl.
  split; [reflexivity|]. split; [apply length_imap|].
  intros i j. unfold entry; simpl. rewrite list_lookup_imap.
  destruct (cols m !! j) as [c|] eqn:Hc; simpl; [|split; reflexivity].
  split.
  - intros [(a & n & Ha & Hi) (b & k & Hb & Hj)].
    rewrite Hx in Ha. rewrite Hx0 in Hb.
    injection Ha as <- <-. injection Hb as <- <-.
    case_decide; [|lia]. rewrite lookup_write_at_const.
    destruct (c !! i); simpl; [|reflexivity]. case_decide; [reflexivity | lia].
  - intros Hnot. case_decide as Hj; [|reflexivity].
    rewrite lookup_write_at_const.
    destruct (c !! i); simpl; [|reflexivity].
    case_decide as Hi; [|reflexivity].
    exfalso. apply Hnot. split; eexists _, _; eauto.
Qed.

Lemma DM_set_block_Ok {A : Type} (m : DM A) (R C : Index) (x : A) :
  is_Ok (index_range (rows m) R) -> is_Ok (index_range (columns m) C) ->
  is_Ok (DM_set_block m R C x).
Proof.
  intros [[r0 rn] Hr] [[c0 cn] Hc]. unfold DM_set_block.
  rewrite Hr; simpl. rewrite Hc; simpl. eexists; reflexivity.
Qed.

(** ** C10: what setVariableBounds changes *)

(** C10. A call of [setVariableBounds] that returns has stored, in the
    addressed block of the kind's lower and upper bound buffers, the bounds'
    pair when the bounds are set and -infinity/+infinity when they are not;
    every other entry of these two buffers, the bound buffers of every other
    kind, the scale and shift buffers and all other members are unchanged. *)
Theorem setVariableBounds_frame (t t' : Transcription float) (var : Var)
    (rowIndices columnIndices : Index) (bounds : Bounds) :
  setVariableBounds t var rowIndices columnIndices bounds = Ok t' ->
  block_written (subscript (m_lowerBounds t) var) (subscript (m_lowerBounds t') var)
    rowIndices columnIndices
    (if isSet bounds then lower bounds else (- infinity)%float)
  /\ block_written (subscript (m_upperBounds t) var) (subscript (m_upperBounds t') var)
       rowIndices columnIndices
       (if isSet bounds then upper bounds else infinity)
  /\ (forall k, k <> var ->
        m_lowerBounds t' !! k = m_lowerBounds t !! k
        /\ m_upperBounds t' !! k = m_upperBounds t !! k)
  /\ m_shift t' = m_shift t
  /\ m_scale t' = m_scale t
  /\ m_scaledVars t' = m_scaledVars t
  /\ t' = with_upperBounds (m_upperBounds t') (with_lowerBounds (m_lowerBounds t') t).
Proof.
  unfold setVariableBounds. intros H.
  destruct (isSet bounds); inv_bind H; inv_bind H; injection H as <-; simpl.
  all: apply DM_set_block_spec in Hx, Hx0.
  all: unfold subscript; rewrite !lookup_insert_eq; simpl.
  all: split; [exact Hx|]; split; [exact Hx0|].
  all: split; [|repeat split; reflexivity].
  all: intros k Hk; rewrite !lookup_insert_ne by congruence; split; reflexivity.
Qed.

Lemma setVariableBounds_Ok (t : Transcription float) (var : Var)
    (rowIndices columnIndices : Index) (bounds : Bounds) :
  is_Ok (index_range (rows (subscript (m_lowerBounds t) var)) rowIndices) ->
  is_Ok (index_range (columns (subscript (m_lowerBounds t) var)) columnIndices) ->
  is_Ok (index_range (rows (subscript (m_upperBounds t) var)) rowIndices) ->
  is_Ok (index_range (columns (subscript (m_upperBounds t) var)) columnIndices) ->
  is_Ok (setVariableBounds t var rowIndices columnIndices bounds).
Proof.
  intros Hlr Hlc Hur Huc. unfold setVariableBounds.
  destruct (isSet bounds).
  - destruct (DM_set_block_Ok _ _ _ (lower bounds) Hlr Hlc) as [lb ->]. simpl.
    destruct (DM_set_block_Ok _ _ _ (upper bounds) Hur Huc) as [ub ->]. simpl.
    eexists; reflexivity.
  - destruct (DM_set_block_Ok _ _ _ (- infinity)%float Hlr Hlc) as [lb ->]. simpl.
    destruct (DM_set_block_Ok _ _ _ infinity Hur Huc) as [ub ->]. simpl.
    eexists; reflexivity.
Qed.

Lemma setVariableBounds_frame_witness :
  setVariableBounds example_transcription states (Slice 0 1) SliceAll
    (mkBounds (-1) 3 true) = Ok example_bounded
  /\ entry (subscript (m_lowerBounds example_bounded) states) 0 2 = Some (-1)%float
  /\ entry (subscript (m_lowerBounds example_bounded) states) 1 2 = Some neg_infinity
  /\ m_scale example_bounded = m_scale example_transcription.
Proof.
  assert (setVariableBounds example_transcription states (Slice 0 1) SliceAll
            (mkBounds (-1) 3 true) = Ok example_bounded) as H
    by (vm_compute; reflexivity).
  split; [exact H|].
  split; [vm_compute; reflexivity|].
  split; [vm_compute; reflexivity|].
  exact (proj1 (proj2 (proj2 (proj2 (proj2
           (setVariableBounds_frame _ _ _ _ _ _ H)))))).
Defined.

(** ** C4: the scaling that setVariableScaling stores *)

Lemma assign_scaling_spec (t t' : Transcription float) (key : Var)
    (R C : Index) (dilate shift : float) :
  assign_scaling t key R C dilate shift = Ok t' ->
  scaling_written t t' key R C dilate shift.
Proof.
  unfold assign_scaling, at_key. intros H.
  destruct (m_scale t !! key) as [scale0|] eqn:Hscale; [|discriminate].
  simpl in H. inv_bind H.
  destruct (m_shift t !! key) as [shift0|] eqn:Hshift; [|discriminate].
  simpl in H. inv_bind H. injection H as <-.
  exists scale0, shift0, x, x0. simpl. rewrite !lookup_insert_eq.
  do 4 (split; [first [assumption | reflexivity]|]).
  split; by apply DM_set_block_spec.
Qed.

Lemma assign_scaling_Ok (t : Transcription float) (key : Var) (R C : Index)
    (dilate shift : float) (scale0 shift0 : DM float) :
  m_scale t !! key = Some scale0 -> m_shift t !! key = Some shift0 ->
  is_Ok (index_range (rows scale0) R) -> is_Ok (index_range (columns scale0) C) ->
  is_Ok (index_range (rows shift0) R) -> is_Ok (index_range (columns shift0) C) ->
  is_Ok (assign_scaling t key R C dilate shift).
Proof.
  intros Hscale Hshift Hr1 Hc1 Hr2 Hc2. unfold assign_scaling, at_key.
  rewrite Hscale. simpl.
  destruct (DM_set_block_Ok _ _ _ dilate Hr1 Hc1) as [sc ->]. simpl.
  rewrite Hshift. simpl.
  destruct (DM_set_block_Ok _ _ _ shift Hr2 Hc2) as [sh ->]. simpl.
  eexists; reflexivity.
Qed.

(** C4. A call of [setVariableScaling] that returns has stored in the
    addressed block: (1, 0) when scaling by the bounds is off; and when it is
    on, (1, 0) if the width upper - lower is infinite or NaN, (1, upper) if the
    width is zero, and (upper - lower, -0.5 * (upper + lower)) otherwise. *)
Theorem setVariableScaling_values (t t' : Transcription float) (key : Var)
    (rowIndices columnIndices : Index) (bounds : Bounds) :
  setVariableScaling t key rowIndices columnIndices bounds = Ok t' ->
  let width := (upper bounds - lower bounds)%float in
  (getScaleVariablesUsingBounds (m_solver t) = false ->
   scaling_written t t' key rowIndices columnIndices 1%float 0%float)
  /\ (getScaleVariablesUsingBounds (m_solver t) = true ->
      is_infinity width = true \/ is_nan width = true ->
      scaling_written t t' key rowIndices columnIndices 1%float 0%float)
  /\ (getScaleVariablesUsingBounds (m_solver t) = true ->
      is_infinity width = false -> is_nan width = false ->
      (width =? 0)%float = true ->
      scaling_written t t' key rowIndices columnIndices 1%float (upper bounds))
  /\ (getScaleVariablesUsingBounds (m_solver t) = true ->
      is_infinity width = false -> is_nan width = false ->
      (width =? 0)%float = false ->
      scaling_written t t' key rowIndices columnIndices width
        (-0.5 * (upper bounds + lower bounds))%float).
Proof.
  intros H width. unfold setVariableScaling in H.
  destruct (getScaleVariablesUsingBounds (m_solver t)).
  - fold width in H.
    destruct (is_infinity width) eqn:Hinf, (is_nan width) eqn:Hnan,
      (width =? 0)%float eqn:Hzero; simpl in H;
      apply assign_scaling_spec in H;
      (split; [discriminate|]); (split; [|split]); intros;
      try discriminate; try assumption;
      match goal with Hor : _ \/ _ |- _ => destruct Hor; discriminate end.
  - apply assign_scaling_spec in H.
    split; [intros _; exact H|]. repeat split; discriminate.
Qed.

Lemma setVariableScaling_Ok (t : Transcription float) (key : Var) (R C : Index)
    (bounds : Bounds) (scale0 shift0 : DM float) :
  m_scale t !! key = Some scale0 -> m_shift t !! key = Some shift0 ->
  is_Ok (index_range (rows scale0) R) -> is_Ok (index_range (columns scale0) C) ->
  is_Ok (index_range (rows shift0) R) -> is_Ok (index_range (columns shift0) C) ->
  is_Ok (setVariableScaling t key R C bounds).
Proof.
  intros. unfold setVariableScaling.
  destruct (getScaleVariablesUsingBounds (m_solver t)).
  - destruct (_ || _); [|destruct (_ =? _)%float]; by eapply assign_scaling_Ok.
  - by eapply assign_scaling_Ok.
Qed.

Lemma setVariableScaling_values_witness :
  setVariableScaling example_transcription states SliceAll (Int 0)
    (mkBounds (-3) 4 true) = Ok example_scaled
  /\ scaling_written example_transcription example_scaled states SliceAll (Int 0)
       7%float (-0.5)%float.
Proof.
  assert (setVariableScaling example_transcription states SliceAll (Int 0)
            (mkBounds (-3) 4 true) = Ok example_scaled) as H
    by (vm_compute; reflexivity).
  split; [exact H|].
  exact (proj2 (proj2 (proj2 (setVariableScaling_values _ _ _ _ _ _ H)))
           eq_refl eq_refl eq_refl eq_refl).
Defined.

(** ** C9: the kinds that expandVariables returns *)

Lemma take_drop_one {A : Type} (x : list A) (k n : nat) (a : A) :
  x !! k = Some a -> (0 < n)%nat -> (n = 1%nat \/ length x = S k) ->
  take n (drop k x) = [a].
Proof.
  intros Hk Hn Hcase. apply lookup_lt_Some in Hk as Hlt.
  rewrite <- (take_drop_middle x k a Hk) at 1.
  rewrite drop_app_length' by (rewrite length_take; lia).
  destruct n as [|n]; [lia|]. simpl. f_equal.
  destruct Hcase as [Hone|Hlast].
  - by replace n with 0%nat by lia.
  - rewrite drop_ge by lia. by destruct n.
Qed.

(** A slice of [n] entries from [a] on returns exactly when it lies within
    the vector or starts at its last entry; it returns the entries of the
    vector that it covers. *)
Lemma vec_slice_spec {A : Type} (x : list A) (a : Z) (n : nat) :
  0 <= a ->
  vec_slice x a (a + Z.of_nat n)
  = if decide (a + Z.of_nat n <= Z.of_nat (length x)
               \/ (a + 1 = Z.of_nat (length x) /\ (2 <= n)%nat))
    then Ok (take n (drop (Z.to_nat a) x))
    else Throw CasadiException.
Proof.
  intros Ha. unfold vec_slice, slice_is_scalar.
  case_bool_decide as Hscalar.
  - assert (a < Z.of_nat (length x)) as Hlt by lia.
    rewrite scalar_index_Ok, bind_Ok_l by lia.
    destruct (lookup_lt_is_Some_2 x (Z.to_nat a)) as [y Hy]; [lia|].
    rewrite Hy. rewrite decide_True by lia.
    rewrite (take_drop_one x (Z.to_nat a) n y); [done | done | lia | lia].
  - unfold slice_index. rewrite !wrap_nonneg by lia.
    case_decide as Hin.
    + rewrite decide_True by lia. simpl. do 2 f_equal. lia.
    + rewrite decide_False by lia. reflexivity.
Qed.

Lemma vec_slice_Ok {A : Type} (x : list A) (a : Z) (n : nat) :
  0 <= a -> a + Z.of_nat n <= Z.of_nat (length x) ->
  vec_slice x a (a + Z.of_nat n) = Ok (take n (drop (Z.to_nat a) x)).
Proof.
  intros Ha Hn. rewrite vec_slice_spec by done. by rewrite decide_True by lia.
Qed.

Lemma vec_slice_inv {A : Type} (x part : list A) (a : Z) (n : nat) :
  0 <= a -> vec_slice x a (a + Z.of_nat n) = Ok part ->
  part = take n (drop (Z.to_nat a) x)
  /\ (a + Z.of_nat n <= Z.of_nat (length x)
      \/ (a + 1 = Z.of_nat (length x) /\ (2 <= n)%nat)).
Proof.
  intros Ha. rewrite vec_slice_spec by done.
  case_decide; [|discriminate]. by intros [= <-].
Qed.

Lemma expandVariables_step_inv {A : Type} (t : Transcription A) (x : list A)
    (key : Var) (out out' : gmap Var (DM A)) (offset offset' : Z) :
  0 <= offset ->
  expandVariables_step t x key (out, offset) = Ok (out', offset') ->
  exists value, m_scaledVars t !! key = Some value
    /\ out' = <[key := block_at x (Z.to_nat offset) value]> out
    /\ offset' = offset + Z.of_nat (shape_numel value).
Proof.
  intros Hoff H. unfold expandVariables_step, at_key in H.
  destruct (m_scaledVars t !! key) as [value|]; [|discriminate]. simpl in H.
  inv_bind H. apply vec_slice_inv in Hx as [-> _]; [|done].
  unfold reshape in H. case_decide; [|discriminate]. simpl in H.
  injection H as <- <-. eauto.
Qed.

Lemma expandVariables_loop {A : Type} (t : Transcription A) (x : list A)
    (keys : list Var) (out out' : gmap Var (DM A)) (offset offset' : Z) :
  0 <= offset ->
  for_each keys (expandVariables_step t x) (out, offset) = Ok (out', offset') ->
  dom out' = dom out ∪ list_to_set keys
  /\ offset' = offset + Z.of_nat (total_numel t keys)
  /\ (forall key, key ∉ keys -> out' !! key = out !! key)
  /\ (NoDup keys -> forall key, key ∈ keys ->
        out' !! key
        = Some (block_at x (Z.to_nat offset + offset_in t keys key) (shape_of t key))).
Proof.
  revert out offset. induction keys as [|k keys IH]; intros out offset Hoff H.
  - simpl in H. injection H as <- <-. unfold total_numel. simpl.
    split; [set_solver|]. split; [lia|]. split; [done|].
    intros _ key Hin. by apply elem_of_nil in Hin.
  - simpl in H. inv_bind H. destruct x0 as [out1 offset1].
    apply expandVariables_step_inv in Hx as (value & Hvalue & -> & ->); [|done].
    apply IH in H as (Hdom & Hoffset & Hframe & Hvalues); [|lia].
    assert (shape_of t k = value) as Hshape by (unfold shape_of; by rewrite Hvalue).
    split; [rewrite Hdom, dom_insert_L; set_solver|].
    split; [unfold total_numel in *; simpl; rewrite Hshape; lia|].
    split.
    + intros key Hkey. apply not_elem_of_cons in Hkey as [Hne Hkey].
      rewrite Hframe by done. by rewrite lookup_insert_ne.
    + intros Hnodup key Hin. apply NoDup_cons in Hnodup as [Hk Hnodup].
      simpl. case_decide as Hkk.
      * subst key. rewrite Hframe by done. rewrite lookup_insert_eq, Hshape.
        do 2 f_equal. lia.
      * apply elem_of_cons in Hin as [->|Hin]; [done|].
        rewrite Hvalues by done. rewrite Hshape. do 2 f_equal. lia.
Qed.

Lemma expandVariables_loop_Ok {A : Type} (t : Transcription A) (x : list A)
    (keys : list Var) (out : gmap Var (DM A)) (offset : Z) :
  0 <= offset ->
  (forall key, key ∈ keys -> is_Some (m_scaledVars t !! key)) ->
  offset + Z.of_nat (total_numel t keys) <= Z.of_nat (length x) ->
  is_Ok (for_each keys (expandVariables_step t x) (out, offset)).
Proof.
  revert out offset. induction keys as [|k keys IH]; intros out offset Hoff Hkeys Hlen.
  - eexists; reflexivity.
  - destruct (Hkeys k) as [value Hvalue]; [set_solver|].
    assert (shape_of t k = value) as Hshape by (unfold shape_of; by rewrite Hvalue).
    unfold total_numel in Hlen. simpl in Hlen. rewrite Hshape in Hlen.
    simpl. unfold expandVariables_step at 1, at_key. rewrite Hvalue. simpl.
    rewrite vec_slice_Ok by lia. simpl.
    unfold reshape. case_decide as Hnumel.
    + simpl. apply IH; [lia | set_solver | fold (total_numel t keys) in Hlen; lia].
    + exfalso. apply Hnumel. rewrite length_take, length_drop.
      unfold shape_numel in *. lia.
Qed.

(** C9. When [expandVariables] returns, the map it returns has exactly the
    seven kinds of [getSortedVarKeys] ([projection_states] and [slacks] are
    absent), each read from the flat vector at the offset its place in that
    canonical order gives; it returns whenever [m_scaledVars] has the seven
    kinds and the flat vector is long enough.  The variable order of the
    Legendre-Gauss scheme does list [projection_states] and [slacks]. *)
Theorem expandVariables_kinds {A : Type} (t : Transcription A) (x : list A) :
  (forall out, expandVariables t x = Ok out ->
     dom out = list_to_set getSortedVarKeys
     /\ out !! projection_states = None
     /\ out !! slacks = None
     /\ forall key, key ∈ getSortedVarKeys ->
          out !! key
          = Some (block_at x (offset_in t getSortedVarKeys key) (shape_of t key)))
  /\ ((forall key, key ∈ getSortedVarKeys -> is_Some (m_scaledVars t !! key)) ->
      (total_numel t getSortedVarKeys <= length x)%nat ->
      is_Ok (expandVariables t x))
  /\ (forall s : Legendre A,
        (projection_states, m_numMeshIntervals (base s) - 1)
          ∈ LegendreGauss_getVariableOrder s
        /\ (slacks, m_numMeshIntervals (base s) - 1)
             ∈ LegendreGauss_getVariableOrder s).
Proof.
  split; [|split].
  - intros out H. unfold expandVariables in H. inv_bind H.
    destruct x0 as [out' offset']. injection H as <-. simpl.
    apply expandVariables_loop in Hx as (Hdom & _ & Hframe & Hvalues); [|done].
    split; [rewrite Hdom; set_solver|].
    split; [rewrite Hframe; [done | unfold getSortedVarKeys; set_solver]|].
    split; [rewrite Hframe; [done | unfold getSortedVarKeys; set_solver]|].
    intros key Hkey. rewrite Hvalues; [done | | done].
    unfold getSortedVarKeys. repeat constructor; set_solver.
  - intros Hkeys Hlen. unfold expandVariables.
    destruct (expandVariables_loop_Ok t x getSortedVarKeys ∅ 0) as [s Hs];
      [done | done | lia |].
    rewrite Hs. simpl. eexists; reflexivity.
  - intros s. unfold LegendreGauss_getVariableOrder.
    split; rewrite !elem_of_app; right; left; set_solver.
Qed.

(** ** C1: flattening and expanding the variables *)

(** C1, evaluated.  On a trapezoidal transcription with three grid points,
    [flattenVariablesDM] lists the grid points one after the other (initial
    time, final time, states and controls of each), whereas [expandVariables]
    reads the flat vector kind by kind: expanding the flattened assignment
    gives initial times 0, 1, 10 where the assignment has 0, 0, 0. *)
Theorem flattenVariables_expand_differs :
  flattenVariablesDM example_transcription example_variables = Ok example_flat
  /\ exists out,
       expandVariables example_transcription example_flat = Ok out
       /\ out !! initial_time = Some (mkDM 1 [[0]; [1]; [10]]%float)
       /\ example_variables !! initial_time = Some (mkDM 1 [[0]; [0]; [0]]%float)
       /\ out <> example_variables.
Proof.
  split; [vm_compute; reflexivity|].
  destruct (expandVariables example_transcription example_flat) as [out|e] eqn:H;
    [|vm_compute in H; discriminate].
  exists out. split; [reflexivity|].
  assert (out !! initial_time = Some (mkDM 1 [[0]; [1]; [10]]%float)) as Hout.
  { vm_compute in H. injection H as <-. vm_compute. reflexivity. }
  split; [exact Hout|]. split; [vm_compute; reflexivity|].
  intros ->. vm_compute in Hout. discriminate.
Qed.

(** ** C2: flattening and expanding the constraints *)

Lemma forM_invariant {S : Type} (P : S -> Prop) (l : list Z)
    (body : Z -> S -> result S) (s s' : S) :
  (forall i s1 s2, P s1 -> body i s1 = Ok s2 -> P s2) ->
  P s -> forM l body s = Ok s' -> P s'.
Proof.
  intros Hbody. revert s. induction l as [|i l IH]; intros s Hs H; simpl in H.
  - by injection H as <-.
  - inv_bind H. eauto.
Qed.

Lemma for_each_invariant {S T : Type} (P : S -> Prop) (xs : list T)
    (body : T -> S -> result S) (s s' : S) :
  (forall x s1 s2, P s1 -> body x s1 = Ok s2 -> P s2) ->
  P s -> for_each xs body s = Ok s' -> P s'.
Proof.
  intros Hbody. revert s. induction xs as [|x xs IH]; intros s Hs H; simpl in H.
  - by injection H as <-.
  - inv_bind H. eauto.
Qed.

Lemma vec_set_slice_length {A : Type} (x x' : list A) (a b : Z) (v : list A) :
  vec_set_slice x a b v = Ok x' -> length x' = length x.
Proof.
  unfold vec_set_slice. intros H. inv_bind H. destruct x0 as [k n].
  destruct (rhs_fits n v); [|discriminate]. injection H as <-.
  apply length_write_at.
Qed.

Lemma fs_copy_length {A : Type} (matrix : DM A) (j : Z) (s s' : FlattenState A) :
  fs_copy matrix j s = Ok s' -> length (fs_flat s') = length (fs_flat s).
Proof.
  unfold fs_copy, copyColumn. intros H. inv_bind H. destruct x as [flat iflat].
  injection H as <-. simpl. case_decide.
  - inv_bind Hx. inv_bind Hx. injection Hx as <- <-.
    by eapply vec_set_slice_length.
  - by injection Hx as <- <-.
Qed.

Lemma flattenConstraints_traverse_length {A : Type} (t : Transcription A)
    (constraints : Constraints (DM A)) (s s' : FlattenState A) :
  flattenConstraints_traverse t constraints s = Ok s' ->
  length (fs_flat s') = length (fs_flat s).
Proof.
  set (P := fun s1 : FlattenState A => length (fs_flat s1) = length (fs_flat s)).
  assert (forall m j s1 s2, P s1 -> fs_copy m j s1 = Ok s2 -> P s2) as Hcopy.
  { unfold P. intros m j s1 s2 H1 H2. apply fs_copy_length in H2. congruence. }
  assert (forall ms j s1 s2, P s1 ->
            for_each ms (fun path => fs_copy path j) s1 = Ok s2 -> P s2) as Heach.
  { intros ms j s1 s2. apply for_each_invariant. intros; by eapply Hcopy. }
  assert (forall imesh s1 s2, P s1 ->
            flattenConstraints_interval t constraints imesh s1 = Ok s2 -> P s2)
    as Hinterval.
  { intros imesh s1 s2 H1 H2. unfold flattenConstraints_interval in H2.
    inv_bind H2. inv_bind H2. inv_bind H2. inv_bind H2. inv_bind H2.
    inv_bind H2. inv_bind H2.
    assert (P x) as Px.
    { revert Hx. apply forM_invariant; [|done]. intros _ s3 s4 H3 H4.
      unfold fs_copy_itime_i in H4. inv_bind H4. injection H4 as <-.
      unfold P; simpl. by eapply Hcopy. }
    assert (P x0) as Px0.
    { revert Hx0. apply forM_invariant; [|done]. intros _ s3 s4 H3 H4.
      unfold fs_copy_itime_f in H4. inv_bind H4. injection H4 as <-.
      unfold P; simpl. by eapply Hcopy. }
    assert (P x1) as Px1.
    { revert Hx1. apply forM_invariant; [|done]. intros _ s3 s4 H3 H4.
      unfold fs_copy_iparam in H4. inv_bind H4. injection H4 as <-.
      unfold P; simpl. by eapply Hcopy. }
    assert (P x2) as Px2 by eauto.
    assert (P x3) as Px3.
    { revert Hx3. apply forM_invariant; [|done]. intros i s3 s4 H3 H4.
      inv_bind H4. eauto. }
    assert (P x4) as Px4 by eauto.
    assert (P x5) as Px5.
    { destruct (getEnforcePathConstraintMidpoints (m_solver t)); [|by eauto].
      revert Hx5. apply forM_invariant; [|done]. intros; by eapply Heach. }
    case_decide; [|by injection H2 as <-].
    revert H2. apply forM_invariant; [|done]. intros _ s3 s4 H3 H4.
    unfold fs_copy_icon in H4. inv_bind H4. injection H4 as <-.
    unfold P; simpl. by eapply Hcopy. }
  intros H. unfold flattenConstraints_traverse in H.
  inv_bind H. inv_bind H. inv_bind H. inv_bind H. inv_bind H.
  assert (P x) as Px.
  { revert Hx. apply for_each_invariant; [|done]. intros; by eapply Hcopy. }
  assert (P x0) as Px0.
  { revert Hx0. by apply forM_invariant. }
  assert (P x3) as Px3 by eauto.
  destruct (getEnforcePathConstraintMidpoints (m_solver t)); by eapply Heach.
Qed.

(** X1 (the first half of C2, for every input): a flat vector that
    [flattenConstraints] returns has [m_numConstraints] entries and the running
    index ended on [m_numConstraints]; a traversal that ends on another index
    throws the internal-consistency error. *)
Lemma flattenConstraints_count {A : Type} {SA : Scalar A} (t : Transcription A)
    (constraints : Constraints (DM A)) :
  (forall flat, flattenConstraints t constraints = Ok flat ->
     Z.of_nat (length flat) = m_numConstraints t)
  /\ (forall flat0 s,
        dense (m_numConstraints t) 1 = Ok flat0 ->
        flattenConstraints_traverse t constraints
          (mkFlattenState (concat (cols flat0)) 0 0 0 0 0) = Ok s ->
        fs_iflat s <> m_numConstraints t ->
        flattenConstraints t constraints
        = Throw (OpenSimException internal_error_constraints)).
Proof.
  split.
  - intros flat H. unfold flattenConstraints in H. inv_bind H. inv_bind H.
    inv_bind H. injection H as <-.
    apply flattenConstraints_traverse_length in Hx0. simpl in Hx0.
    unfold dense in Hx. case_decide; [|discriminate]. injection Hx as <-.
    rewrite Hx0. simpl. rewrite app_nil_r, length_replicate. lia.
  - intros flat0 s Hflat Hs Hne. unfold flattenConstraints.
    rewrite Hflat. simpl. rewrite Hs. simpl.
    rewrite bool_decide_eq_true_2 by done. reflexivity.
Qed.

(** C2, evaluated.  With two parameter constraints on one mesh interval of two
    points, [expandConstraints] allocates two columns for each of the time
    slots while both traversals visit one: flattening constraints of these
    shapes and expanding the result succeeds and returns the fill value 1 in
    the second columns (6 and 9 in the input).  With no parameter constraint
    the time slots are allocated without a column and the first [copyColumn]
    of [expandConstraints] is out of bounds. *)
Theorem expandConstraints_flatten_differs :
  flattenConstraints (constraint_transcription 2 5) example_constraints
    = Ok [5; 8; 3; 4; 7]%float
  /\ expandConstraints (constraint_transcription 2 5) [5; 8; 3; 4; 7]%float
      = Ok example_constraints_expanded
  /\ example_constraints_expanded <> example_constraints
  /\ flattenConstraints (constraint_transcription 0 3) example_constraints_no_parameter
      = Ok [0; 0; 7]%float
  /\ expandConstraints (constraint_transcription 0 3) [0; 0; 7]%float
      = Throw CasadiException.
Proof.
  split; [vm_compute; reflexivity|].
  split; [vm_compute; reflexivity|].
  split; [discriminate|].
  split; vm_compute; reflexivity.
Qed.

(** ** C3: scaling and unscaling *)

Lemma zip_with_replicate_r {A B C : Type} (f : A -> B -> C) (l : list A) (y : B) :
  zip_with f l (replicate (length l) y) = map (fun x => f x y) l.
Proof. induction l as [|x l IH]; simpl; [done | by rewrite IH]. Qed.

Lemma concat_replicate_singleton {A : Type} (n : nat) (c : list A) :
  concat (replicate n [c]) = replicate n c.
Proof. induction n as [|n IH]; simpl; [done | by rewrite IH]. Qed.

Lemma wf_DM_single {A : Type} (m : DM A) :
  wf_DM m -> rows m = 1%nat -> columns m = 1%nat -> exists a, cols m = [[a]].
Proof.
  unfold wf_DM, columns. intros Hwf Hr Hc.
  destruct (cols m) as [|c [|c' l]]; try discriminate.
  apply Forall_cons in Hwf as [Hlen _]. rewrite Hr in Hlen.
  destruct c as [|a [|b c]]; try discriminate. eauto.
Qed.

(** On two matrices of one shape an elementwise operation is entrywise,
    also when both are 1-by-1. *)
Lemma DM_binary_same_shape {A : Type} (op : A -> A -> A) (x y : DM A) :
  wf_DM x -> wf_DM y -> rows x = rows y -> columns x = columns y ->
  DM_binary op x y = Ok (mkDM (rows x) (zip_with (zip_with op) (cols x) (cols y))).
Proof.
  intros Hx Hy Hr Hc. unfold DM_binary.
  destruct (as_scalar x) as [a|] eqn:Hax.
  - unfold as_scalar in Hax.
    destruct (rows x) as [|[|n]] eqn:Hrx; try discriminate.
    destruct (cols x) as [|[|a' [|? ?]] [|? ?]] eqn:Hcx; try discriminate.
    injection Hax as ->.
    destruct (wf_DM_single y Hy) as [b Hb]; [lia | unfold columns in *; rewrite Hcx in Hc; simpl in Hc; lia |].
    unfold DM_map. rewrite Hb, <- Hr. reflexivity.
  - destruct (as_scalar y) as [b|] eqn:Hay.
    + unfold as_scalar in Hay.
      destruct (rows y) as [|[|n]] eqn:Hry; try discriminate.
      destruct (cols y) as [|[|b' [|? ?]] [|? ?]] eqn:Hcy; try discriminate.
      injection Hay as ->.
      destruct (wf_DM_single x Hx) as [a Ha]; [lia | unfold columns in *; rewrite Hcy in Hc; simpl in Hc; lia |].
      unfold DM_map. rewrite Ha. reflexivity.
    + unfold same_shape. rewrite bool_decide_eq_true_2 by done. reflexivity.
Qed.

Lemma column_unscale_scale (c shift scale : list Qc) :
  length shift = length c -> length scale = length c ->
  Forall (fun d => d <> 0%Qc) scale ->
  zip_with add (zip_with mul (zip_with div (zip_with sub c shift) scale) scale) shift
  = c.
Proof.
  revert shift scale. induction c as [|x c IH]; intros shift scale Hs Hd Hnz.
  - by destruct shift.
  - destruct shift as [|s shift]; [discriminate|].
    destruct scale as [|d scale]; [discriminate|].
    apply Forall_cons in Hnz as [Hd0 Hnz]. simpl in *.
    f_equal; [field; exact Hd0 | apply IH; [lia | lia | done]].
Qed.

Lemma column_scale_unscale (c shift scale : list Qc) :
  length shift = length c -> length scale = length c ->
  Forall (fun d => d <> 0%Qc) scale ->
  zip_with div (zip_with sub (zip_with add (zip_with mul c scale) shift) shift) scale
  = c.
Proof.
  revert shift scale. induction c as [|x c IH]; intros shift scale Hs Hd Hnz.
  - by destruct shift.
  - destruct shift as [|s shift]; [discriminate|].
    destruct scale as [|d scale]; [discriminate|].
    apply Forall_cons in Hnz as [Hd0 Hnz]. simpl in *.
    f_equal; [field; exact Hd0 | apply IH; [lia | lia | done]].
Qed.

(** Scaling one kind whose buffers fit: every column [c] becomes
    [(c - shift) / scale]. *)
Lemma scale_kind_fits {A : Type} {SA : Scalar A} (t : Transcription A)
    (key : Var) (m : DM A) (shift scale : list A) :
  wf_DM m ->
  m_shift t !! key = Some (mkDM (rows m) [shift]) ->
  m_scale t !! key = Some (mkDM (rows m) [scale]) ->
  length shift = rows m -> length scale = rows m ->
  scale_kind t key m
  = Ok (mkDM (rows m)
          (map (fun c => zip_with div (zip_with sub c shift) scale) (cols m))).
Proof.
  intros Hwf Hshift Hscale Hls Hld. unfold scale_kind, at_key.
  rewrite Hshift, Hscale. simpl. unfold repmat. simpl.
  rewrite !concat_replicate_singleton.
  rewrite DM_binary_same_shape; simpl.
  - unfold columns. rewrite zip_with_replicate_r.
    rewrite DM_binary_same_shape; simpl.
    + rewrite <- (length_map (fun c => zip_with sub c shift) (cols m)) at 1.
      rewrite zip_with_replicate_r, map_map. reflexivity.
    + unfold wf_DM; simpl. apply Forall_map. eapply Forall_impl; [exact Hwf|].
      simpl. intros c Hc. rewrite length_zip_with. lia.
    + unfold wf_DM; simpl. apply Forall_replicate. done.
    + reflexivity.
    + unfold columns; simpl. by rewrite length_map, length_replicate.
  - exact Hwf.
  - unfold wf_DM; simpl. apply Forall_replicate. done.
  - reflexivity.
  - unfold columns; simpl. by rewrite length_replicate.
Qed.

Lemma unscale_kind_fits {A : Type} {SA : Scalar A} (t : Transcription A)
    (key : Var) (m : DM A) (shift scale : list A) :
  wf_DM m ->
  m_shift t !! key = Some (mkDM (rows m) [shift]) ->
  m_scale t !! key = Some (mkDM (rows m) [scale]) ->
  length shift = rows m -> length scale = rows m ->
  unscale_kind t key m
  = Ok (mkDM (rows m)
          (map (fun c => zip_with add (zip_with mul c scale) shift) (cols m))).
Proof.
  intros Hwf Hshift Hscale Hls Hld. unfold unscale_kind, at_key.
  rewrite Hshift, Hscale. simpl. unfold repmat. simpl.
  rewrite !concat_replicate_singleton.
  rewrite DM_binary_same_shape; simpl.
  - unfold columns. rewrite zip_with_replicate_r.
    rewrite DM_binary_same_shape; simpl.
    + rewrite <- (length_map (fun c => zip_with mul c scale) (cols m)) at 1.
      rewrite zip_with_replicate_r, map_map. reflexivity.
    + unfold wf_DM; simpl. apply Forall_map. eapply Forall_impl; [exact Hwf|].
      simpl. intros c Hc. rewrite length_zip_with. lia.
    + unfold wf_DM; simpl. apply Forall_replicate. done.
    + reflexivity.
    + unfold columns; simpl. by rewrite length_map, length_replicate.
  - exact Hwf.
  - unfold wf_DM; simpl. apply Forall_replicate. done.
  - reflexivity.
  - unfold columns; simpl. by rewrite length_replicate.
Qed.

(** A loop over the kinds of a map whose body succeeds for every kind returns
    the map of the bodies' results. *)
Lemma map_fold_kinds {A : Type} (f : Var -> DM A -> result (DM A))
    (g : Var -> DM A -> DM A) (m : gmap Var (DM A)) :
  (forall k x, m !! k = Some x -> f k x = Ok (g k x)) ->
  map_fold (fun key x acc => out ← acc; value ← f key x; Ok (<[key := value]> out))
    (Ok ∅) m
  = Ok (map_imap (fun k x => Some (g k x)) m).
Proof.
  apply (map_fold_weak_ind (fun r m' =>
    (forall k x, m' !! k = Some x -> f k x = Ok (g k x)) ->
    r = Ok (map_imap (fun k x => Some (g k x)) m'))).
  - intros _. by rewrite map_imap_empty.
  - intros i x m' r Hi IH Hf.
    rewrite IH.
    + simpl. rewrite (Hf i x) by apply lookup_insert_eq. simpl.
      by rewrite (map_imap_insert_Some _ _ _ _ (g i x)).
    + intros k y Hk. apply Hf. rewrite lookup_insert_ne; [done|].
      intros ->. congruence.
Qed.

Lemma DM_eta {A : Type} (m : DM A) : mkDM (rows m) (cols m) = m.
Proof. by destruct m. Qed.

Lemma scaling_fits_buffers (t : Transcription Qc) (key : Var) (m : DM Qc) :
  scaling_fits t key m -> buffers_fit t key m.
Proof.
  intros (Hwf & shift & scale & Hs & Hd & Hls & Hld & _).
  split; [done|]. by exists shift, scale.
Qed.

(** An entry of a matrix whose columns were combined with two columns. *)
Lemma entry_zip_columns {A : Type} (op1 op2 : A -> A -> A) (m : DM A)
    (u w : list A) (i j : nat) (x a b : A) :
  entry m i j = Some x -> u !! i = Some a -> w !! i = Some b ->
  entry (mkDM (rows m)
           (map (fun c => zip_with op2 (zip_with op1 c u) w) (cols m))) i j
  = Some (op2 (op1 x a) b).
Proof.
  intros Hx Ha Hb. unfold entry in *. simpl. rewrite list_lookup_fmap.
  destruct (cols m !! j) as [c|]; simpl in *; [|discriminate].
  by rewrite !lookup_zip_with, Hx, Ha, Hb.
Qed.

(** The round trips in exact arithmetic. *)
Lemma unscale_scale_Qc (t : Transcription Qc) (v : gmap Var (DM Qc)) :
  (forall key m, v !! key = Some m -> scaling_fits t key m) ->
  (exists scaled, scaleVariables t v = Ok scaled /\ unscaleVariables t scaled = Ok v)
  /\ (exists unscaled,
        unscaleVariables t v = Ok unscaled /\ scaleVariables t unscaled = Ok v).
Proof.
  intros Hfits.
  set (back := fun (k : Var) (y : DM Qc) => default y (v !! k)).
  split.
  - set (g := fun k x => match scale_kind t k x with Ok y => y | Throw _ => x end).
    exists (map_imap (fun k x => Some (g k x)) v). split.
    + unfold scaleVariables. apply map_fold_kinds. intros k m Hm.
      destruct (Hfits k m Hm) as (Hwf & shift & scale & Hs & Hd & Hls & Hld & _).
      unfold g. by rewrite (scale_kind_fits t k m shift scale).
    + unfold unscaleVariables. rewrite (map_fold_kinds _ back).
      * f_equal. apply map_eq. intros k. rewrite !map_lookup_imap.
        unfold back. destruct (v !! k); reflexivity.
      * intros k y Hy. rewrite map_lookup_imap in Hy.
        destruct (v !! k) as [m|] eqn:Hm; [|discriminate]. simpl in Hy.
        injection Hy as <-. unfold back. rewrite Hm. simpl.
        destruct (Hfits k m Hm) as (Hwf & shift & scale & Hs & Hd & Hls & Hld & Hnz).
        unfold g. rewrite (scale_kind_fits t k m shift scale) by done.
        rewrite (unscale_kind_fits t k _ shift scale); simpl; try done.
        -- rewrite map_map. rewrite <- (DM_eta m) at 3. do 2 f_equal.
           rewrite <- (map_id (cols m)) at 2.
           apply map_ext_Forall. eapply Forall_impl; [exact Hwf|].
           simpl. intros c Hc. apply column_unscale_scale; [lia | lia | done].
        -- unfold wf_DM; simpl. apply Forall_map. eapply Forall_impl; [exact Hwf|].
           simpl. intros c Hc. rewrite !length_zip_with. lia.
  - set (g := fun k x => match unscale_kind t k x with Ok y => y | Throw _ => x end).
    exists (map_imap (fun k x => Some (g k x)) v). split.
    + unfold unscaleVariables. apply map_fold_kinds. intros k m Hm.
      destruct (Hfits k m Hm) as (Hwf & shift & scale & Hs & Hd & Hls & Hld & _).
      unfold g. by rewrite (unscale_kind_fits t k m shift scale).
    + unfold scaleVariables. rewrite (map_fold_kinds _ back).
      * f_equal. apply map_eq. intros k. rewrite !map_lookup_imap.
        unfold back. destruct (v !! k); reflexivity.
      * intros k y Hy. rewrite map_lookup_imap in Hy.
        destruct (v !! k) as [m|] eqn:Hm; [|discriminate]. simpl in Hy.
        injection Hy as <-. unfold back. rewrite Hm. simpl.
        destruct (Hfits k m Hm) as (Hwf & shift & scale & Hs & Hd & Hls & Hld & Hnz).
        unfold g. rewrite (unscale_kind_fits t k m shift scale) by done.
        rewrite (scale_kind_fits t k _ shift scale); simpl; try done.
        -- rewrite map_map. rewrite <- (DM_eta m) at 3. do 2 f_equal.
           rewrite <- (map_id (cols m)) at 2.
           apply map_ext_Forall. eapply Forall_impl; [exact Hwf|].
           simpl. intros c Hc. apply column_scale_unscale; [lia | lia | done].
        -- unfold wf_DM; simpl. apply Forall_map. eapply Forall_impl; [exact Hwf|].
           simpl. intros c Hc. rewrite !length_zip_with. lia.
Qed.

(** C3, as the code has it.  When the shift and scale buffers of every kind
    of [v] are columns that fit the kind's rows, [scaleVariables] and
    [unscaleVariables] return, and in the arithmetic of the entries (binary64
    in the code) entry [(i, j)] of a kind becomes [(x - shift(i)) / dilate(i)],
    respectively [x * dilate(i) + shift(i)]: the kind's two columns are
    broadcast across its columns.  In exact arithmetic, when moreover no
    dilate entry is zero, the two functions are inverse to each other:
    unscale(scale(v)) = v and scale(unscale(v)) = v. *)
Theorem unscale_scale_exact :
  (forall (A : Type) (SA : Scalar A) (t : Transcription A) (v : gmap Var (DM A)),
     (forall key m, v !! key = Some m -> buffers_fit t key m) ->
     exists scaled unscaled,
       scaleVariables t v = Ok scaled /\ unscaleVariables t v = Ok unscaled
       /\ forall key m shift dilate i j x s d,
            v !! key = Some m ->
            m_shift t !! key = Some (mkDM (rows m) [shift]) ->
            m_scale t !! key = Some (mkDM (rows m) [dilate]) ->
            entry m i j = Some x -> shift !! i = Some s -> dilate !! i = Some d ->
            (y ← scaled !! key; entry y i j) = Some (div (sub x s) d)
            /\ (y ← unscaled !! key; entry y i j) = Some (add (mul x d) s))
  /\ (forall (t : Transcription Qc) (v : gmap Var (DM Qc)),
        (forall key m, v !! key = Some m -> scaling_fits t key m) ->
        (exists scaled,
           scaleVariables t v = Ok scaled /\ unscaleVariables t scaled = Ok v)
        /\ (exists unscaled,
              unscaleVariables t v = Ok unscaled
              /\ scaleVariables t unscaled = Ok v)).
Proof.
  split; [|exact unscale_scale_Qc].
  intros A SA t v Hfits.
  set (g := fun k x => match scale_kind t k x with Ok y => y | Throw _ => x end).
  set (h := fun k x => match unscale_kind t k x with Ok y => y | Throw _ => x end).
  exists (map_imap (fun k x => Some (g k x)) v),
         (map_imap (fun k x => Some (h k x)) v).
  split.
  { unfold scaleVariables. apply map_fold_kinds. intros k m Hm.
    destruct (Hfits k m Hm) as (Hwf & shift & scale & Hs & Hd & Hls & Hld).
    unfold g. by rewrite (scale_kind_fits t k m shift scale). }
  split.
  { unfold unscaleVariables. apply map_fold_kinds. intros k m Hm.
    destruct (Hfits k m Hm) as (Hwf & shift & scale & Hs & Hd & Hls & Hld).
    unfold h. by rewrite (unscale_kind_fits t k m shift scale). }
  intros key m shift dilate i j x s d Hm Hshift Hdilate Hx Hs Hd.
  destruct (Hfits key m Hm) as (Hwf & shift' & scale' & Hs' & Hd' & Hls & Hld).
  rewrite Hshift in Hs'. rewrite Hdilate in Hd'.
  injection Hs' as <-. injection Hd' as <-.
  rewrite !map_lookup_imap, Hm. simpl. unfold g, h.
  rewrite (scale_kind_fits t key m shift dilate) by done.
  rewrite (unscale_kind_fits t key m shift dilate) by done.
  split.
  - exact (entry_zip_columns sub div m shift dilate i j x s d Hx Hs Hd).
  - exact (entry_zip_columns mul add m dilate shift i j x d s Hx Hd Hs).
Qed.

Lemma unscale_scale_exact_witness :
  (exists scaled unscaled,
     scaleVariables wide_scaled wide_unscaled = Ok scaled
     /\ unscaleVariables wide_scaled wide_unscaled = Ok unscaled
     /\ (y ← scaled !! states; entry y 0 0)
        = Some (div (sub 1 (-5e19)) 1e20)%float
     /\ (y ← unscaled !! states; entry y 0 0)
        = Some (add (mul 1 1e20) (-5e19))%float)
  /\ (exists scaled,
        scaleVariables exact_transcription exact_unscaled = Ok scaled
        /\ unscaleVariables exact_transcription scaled = Ok exact_unscaled).
Proof.
  split.
  - destruct (proj1 unscale_scale_exact float float_Scalar wide_scaled wide_unscaled)
      as (scaled & unscaled & Hscaled & Hunscaled & Hentries).
    + intros key m Hm. unfold wide_unscaled in Hm.
      apply lookup_singleton_Some in Hm as [<- <-].
      split; [repeat constructor|].
      eexists _, _. repeat split; reflexivity.
    + exists scaled, unscaled. split; [exact Hscaled|]. split; [exact Hunscaled|].
      apply (Hentries states (mkDM 2 [[1; 0]; [1; 2]; [3; 4]]%float)
               [-5e19; -5e19]%float [1e20; 1e20]%float 0%nat 0%nat 1%float);
        vm_compute; reflexivity.
  - apply (proj2 unscale_scale_exact exact_transcription exact_unscaled).
    intros key m Hm. unfold exact_unscaled in Hm.
    apply lookup_singleton_Some in Hm as [<- <-].
    split; [repeat constructor|].
    eexists _, _. repeat split; try reflexivity.
    repeat constructor; discriminate.
Defined.

(** C3 on binary64 numbers.  With the scaling that [setVariableScaling] derives
    from the bounds 0 and 1e20 (dilate 1e20, shift -5e19; no dilate is zero),
    scaling and unscaling the state value 1 returns 0, which is further from 1
    than 1e-12.  With the scaling derived from the bounds 2^1023 and
    1.5 * 2^1023 (dilate 2^1022, not zero) a state value between the bounds
    comes back as not-a-number. *)
Lemma unscale_scale_float_counterexample :
  (map_Forall (fun _ m => all_nonzero m = true) (m_scale wide_scaled)
   /\ exists scaled unscaled,
        scaleVariables wide_scaled wide_unscaled = Ok scaled
        /\ unscaleVariables wide_scaled scaled = Ok unscaled
        /\ (m ← wide_unscaled !! states; entry m 0 0) = Some 1%float
        /\ (m ← unscaled !! states; entry m 0 0) = Some 0%float
        /\ (1e-12 <? abs (0 - 1))%float = true
        /\ unscaled <> wide_unscaled)
  /\ (map_Forall (fun _ m => all_nonzero m = true) (m_scale huge_scaled)
      /\ exists scaled unscaled,
           scaleVariables huge_scaled huge_unscaled = Ok scaled
           /\ unscaleVariables huge_scaled scaled = Ok unscaled
           /\ (m ← huge_unscaled !! states; entry m 0 0) = Some 0x1.4p+1023%float
           /\ (m ← unscaled !! states; entry m 0 0) = Some nan
           /\ unscaled <> huge_unscaled).
Proof.
  split; (split; [apply map_Forall_to_list; vm_compute; repeat constructor|]).
  - destruct (scaleVariables wide_scaled wide_unscaled) as [scaled|e] eqn:Hs;
      [|vm_compute in Hs; discriminate].
    destruct (unscaleVariables wide_scaled scaled) as [unscaled|e] eqn:Hu;
      [|vm_compute in Hs; injection Hs as <-; vm_compute in Hu; discriminate].
    exists scaled, unscaled. split; [reflexivity|]. split; [exact Hu|].
    assert ((m ← unscaled !! states; entry m 0 0) = Some 0%float) as Hentry.
    { vm_compute in Hs. injection Hs as <-. vm_compute in Hu. injection Hu as <-.
      vm_compute. reflexivity. }
    split; [vm_compute; reflexivity|]. split; [exact Hentry|].
    split; [vm_compute; reflexivity|].
    intros ->. vm_compute in Hentry. discriminate.
  - destruct (scaleVariables huge_scaled huge_unscaled) as [scaled|e] eqn:Hs;
      [|vm_compute in Hs; discriminate].
    destruct (unscaleVariables huge_scaled scaled) as [unscaled|e] eqn:Hu;
      [|vm_compute in Hs; injection Hs as <-; vm_compute in Hu; discriminate].
    exists scaled, unscaled. split; [reflexivity|]. split; [exact Hu|].
    assert ((m ← unscaled !! states; entry m 0 0) = Some nan) as Hentry.
    { vm_compute in Hs. injection Hs as <-. vm_compute in Hu. injection Hu as <-.
      vm_compute. reflexivity. }
    split; [vm_compute; reflexivity|]. split; [exact Hentry|].
    intros ->. vm_compute in Hentry. discriminate.
Qed.

(** ** Loops with an invariant that follows the index *)

Lemma forM_seqZ_invariant {St : Type} (P : Z -> St -> Prop) (body : Z -> St -> result St)
    (first : Z) (n : nat) (s : St) :
  P first s ->
  (forall i s1, first <= i < first + Z.of_nat n -> P i s1 ->
     exists s2, body i s1 = Ok s2 /\ P (i + 1) s2) ->
  exists s', forM (seqZ first (Z.of_nat n)) body s = Ok s'
             /\ P (first + Z.of_nat n) s'.
Proof.
  revert first s. induction n as [|n IH]; intros first s Hs Hbody.
  - exists s. split; [reflexivity|]. by replace (first + Z.of_nat 0) with first by lia.
  - replace (Z.of_nat (S n)) with (Z.succ (Z.of_nat n)) by lia.
    rewrite seqZ_cons by lia. rewrite Z.pred_succ. simpl.
    destruct (Hbody first s) as (s1 & -> & Hs1); [lia | done |]. simpl.
    destruct (IH (Z.succ first) s1) as (s' & Hs' & HP).
    + by replace (Z.succ first) with (first + 1) by lia.
    + intros i s2 Hi. apply Hbody. lia.
    + exists s'. split; [done|].
      by replace (first + Z.succ (Z.of_nat n)) with (Z.succ first + Z.of_nat n) by lia.
Qed.

Lemma for_range_invariant {S : Type} (P : Z -> S -> Prop) (body : Z -> S -> result S)
    (n : Z) (s : S) :
  0 <= n -> P 0 s ->
  (forall i s1, 0 <= i < n -> P i s1 -> exists s2, body i s1 = Ok s2 /\ P (i + 1) s2) ->
  exists s', for_range 0 n body s = Ok s' /\ P n s'.
Proof.
  intros Hn Hs Hbody. unfold for_range.
  destruct (forM_seqZ_invariant P body 0 (Z.to_nat n) s) as (s' & Hs' & HP).
  - done.
  - intros i s1 Hi. apply Hbody. lia.
  - exists s'. replace (n - 0) with (Z.of_nat (Z.to_nat n)) by lia.
    split; [done|].
    assert (n = 0 + Z.of_nat (Z.to_nat n)) as Heq by lia. rewrite Heq. exact HP.
Qed.

(** ** C6: the mask of the mesh points *)

Lemma Qc_of_Z_succ (k : Z) : Qc_of_Z (k + 1) = (Qc_of_Z k + 1)%Qc.
Proof.
  unfold Qc_of_Z, Qcplus. apply Q2Qc_eq_iff. simpl.
  rewrite Qred_correct. unfold Qeq, inject_Z. simpl. lia.
Qed.

Lemma Qc_of_Z_0 : Qc_of_Z 0 = 0%Qc.
Proof. apply Qc_is_canon. reflexivity. Qed.

Lemma zeros_row {A : Type} {SA : Scalar A} (n : Z) :
  0 <= n -> zeros 1 n = Ok (row_vector (replicate (Z.to_nat n) zero)).
Proof.
  intros Hn. unfold zeros. case_decide; [|lia].
  unfold DM_fill, row_vector. simpl. by rewrite fmap_replicate.
Qed.

Lemma DM_set_at_row {A : Type} (row : list A) (i : Z) (x : A) :
  0 <= i < Z.of_nat (length row) ->
  DM_set_at (row_vector row) i x = Ok (row_vector (<[Z.to_nat i := x]> row)).
Proof.
  intros Hi. unfold DM_set_at, numel, columns, row_vector.
  cbn -[Nat.div Nat.modulo].
  rewrite length_map, Nat.add_0_r. rewrite scalar_index_Ok by done.
  cbn -[Nat.div Nat.modulo].
  rewrite Nat.div_1_r, Nat.mod_1_r. do 2 f_equal.
  apply list_eq. intros j.
  destruct (decide (j = Z.to_nat i)) as [->|Hne].
  - rewrite list_lookup_alter_eq, !list_lookup_fmap.
    rewrite list_lookup_insert_eq by lia.
    destruct (lookup_lt_is_Some_2 row (Z.to_nat i)) as [y ->]; [lia|]. reflexivity.
  - rewrite list_lookup_alter_ne by done. rewrite !list_lookup_fmap.
    by rewrite list_lookup_insert_ne by done.
Qed.

Lemma DM_row_row_vector {A : Type} (row : list A) : DM_row (row_vector row) 0 = row.
Proof.
  unfold DM_row, row_vector. simpl.
  induction row as [|x row IH]; simpl; [done | by f_equal].
Qed.

Lemma entry_row_vector {A : Type} (row : list A) (j : nat) :
  entry (row_vector row) 0 j = row !! j.
Proof.
  unfold entry, row_vector. simpl. rewrite list_lookup_fmap.
  by destruct (row !! j).
Qed.

Lemma sum_list_insert_one (row : list Qc) (j : nat) :
  row !! j = Some 0%Qc ->
  sum_list (<[j := 1%Qc]> row) = (sum_list row + 1)%Qc.
Proof.
  revert j. induction row as [|x row IH]; intros [|j] Hj; try discriminate.
  - injection Hj as ->. unfold sum_list. simpl. ring.
  - simpl in Hj. specialize (IH j Hj). unfold sum_list in *. simpl in *.
    rewrite IH. ring.
Qed.

Lemma sum_list_replicate_zero (n : nat) : sum_list (replicate n 0%Qc) = 0%Qc.
Proof.
  induction n as [|n IH]; [reflexivity|].
  unfold sum_list in *. simpl in *. rewrite IH. ring.
Qed.

Lemma sum_list_replicate_one (n : nat) :
  sum_list (replicate n 1%Qc) = Qc_of_Z (Z.of_nat n).
Proof.
  induction n as [|n IH]; [symmetry; apply Qc_of_Z_0|].
  replace (Z.of_nat (S n)) with (Z.of_nat n + 1) by lia.
  rewrite Qc_of_Z_succ, <- IH. unfold sum_list. simpl. ring.
Qed.

(** The loop that marks the first grid point of every mesh interval, followed
    by the assignment that marks the last grid point. *)
Lemma mark_mesh_points (M stride n : Z) :
  0 <= M -> 1 <= stride -> n = M * stride + 1 ->
  exists row,
    (indices ← zeros 1 n;
     indices ← for_range 0 M (fun imesh indices =>
                 DM_set_at indices (imesh * stride) one) indices;
     DM_set_at indices (n - 1) one) = Ok (row_vector row)
    /\ length row = Z.to_nat n
    /\ Forall (fun x => x = 0%Qc \/ x = 1%Qc) row
    /\ sum_list row = Qc_of_Z (M + 1)
    /\ row !! Z.to_nat (n - 1) = Some 1%Qc.
Proof.
  intros HM Hstride Hn.
  rewrite zeros_row by lia. rewrite bind_Ok_l.
  set (P := fun (k : Z) (mask : DM Qc) =>
    exists row, mask = row_vector row
      /\ length row = Z.to_nat n
      /\ Forall (fun x => x = 0%Qc \/ x = 1%Qc) row
      /\ sum_list row = Qc_of_Z k
      /\ forall j, (Z.to_nat (k * stride) <= j < Z.to_nat n)%nat ->
           row !! j = Some 0%Qc).
  destruct (for_range_invariant P
              (fun imesh indices => DM_set_at indices (imesh * stride) one)
              M (row_vector (replicate (Z.to_nat n) zero)))
    as (mask & -> & row & -> & Hlen & H01 & Hsum & Hzero).
  - done.
  - exists (replicate (Z.to_nat n) 0%Qc). split; [done|].
    split; [apply length_replicate|].
    split; [apply Forall_replicate; by left|].
    split; [rewrite Qc_of_Z_0; apply sum_list_replicate_zero|].
    intros j Hj. apply lookup_replicate_2. lia.
  - intros i s1 Hi (row & -> & Hlen & H01 & Hsum & Hzero).
    assert (0 <= i * stride < Z.of_nat (length row)) as Hpos by nia.
    rewrite DM_set_at_row by done. change (@one Qc Qc_Scalar) with 1%Qc.
    eexists. split; [reflexivity|]. exists (<[Z.to_nat (i * stride) := 1%Qc]> row).
    split; [done|]. split; [by rewrite length_insert|].
    split; [apply Forall_insert; [done | by right]|].
    split.
    + rewrite sum_list_insert_one by (apply Hzero; lia).
      by rewrite Qc_of_Z_succ, Hsum.
    + intros j Hj. rewrite list_lookup_insert_ne by nia. apply Hzero. nia.
  - rewrite bind_Ok_l.
    assert (0 <= n - 1 < Z.of_nat (length row)) as Hpos by lia.
    rewrite DM_set_at_row by done. change (@one Qc Qc_Scalar) with 1%Qc.
    exists (<[Z.to_nat (n - 1) := 1%Qc]> row).
    split; [done|]. split; [by rewrite length_insert|].
    split; [apply Forall_insert; [done | by right]|].
    split.
    + rewrite sum_list_insert_one by (apply Hzero; nia).
      by rewrite Qc_of_Z_succ, Hsum.
    + apply list_lookup_insert_eq. lia.
Qed.

Lemma createMeshIndices_check {A : Type} {SA : Scalar A}
    (isNumericallyEqual : A -> Z -> bool) (t : Transcription A) (row : list A) :
  Z.of_nat (length row) = m_numGridPoints t ->
  isNumericallyEqual (sum_list row) (m_numMeshPoints t) = true ->
  createMeshIndices isNumericallyEqual t (Ok (row_vector row)) = Ok (row_vector row).
Proof.
  intros Hlen Hsum. unfold createMeshIndices, OPENSIM_THROW_IF. rewrite bind_Ok_l.
  rewrite bool_decide_eq_false_2.
  - rewrite bind_Ok_l. unfold sum2_scalar. simpl rows.
    rewrite DM_row_row_vector, bind_Ok_l, Hsum. reflexivity.
  - unfold columns, row_vector. simpl. rewrite length_map. lia.
Qed.

(** C6. For each of the three schemes, on a mesh with [M >= 0] intervals
    ([M + 1] mesh points, [M * stride + 1] grid points, the stride being 1,
    degree + 1 or degree >= 1), [createMeshIndices] returns a row vector of
    [m_numGridPoints] entries, each 0 or 1, that sum to the number of mesh
    points, with last entry 1.  Whatever a scheme returns, another shape
    throws the shape error and, for a row of the right length, another sum
    throws the sum error.  (The comparison [isNumericallyEqual] is Simbody's;
    it is only assumed to accept an integer compared with itself.) *)
Theorem createMeshIndices_mask (isNumericallyEqual : Qc -> Z -> bool)
    (scheme : Scheme) (s : Legendre Qc) :
  (forall n, isNumericallyEqual (Qc_of_Z n) n = true) ->
  0 <= m_numMeshIntervals (base s) ->
  m_numMeshPoints (base s) = m_numMeshIntervals (base s) + 1 ->
  1 <= grid_stride scheme s ->
  m_numGridPoints (base s) = m_numMeshIntervals (base s) * grid_stride scheme s + 1 ->
  (exists row,
     createMeshIndices isNumericallyEqual (base s) (createMeshIndicesImpl scheme s)
       = Ok (row_vector row)
     /\ Z.of_nat (length row) = m_numGridPoints (base s)
     /\ Forall (fun x => x = 0%Qc \/ x = 1%Qc) row
     /\ sum_list row = Qc_of_Z (m_numMeshPoints (base s))
     /\ row !! Z.to_nat (m_numGridPoints (base s) - 1) = Some 1%Qc)
  /\ (forall m,
        Z.of_nat (rows m) <> 1 \/ Z.of_nat (columns m) <> m_numGridPoints (base s) ->
        createMeshIndices isNumericallyEqual (base s) (Ok m)
        = Throw (OpenSimException internal_error_mesh_shape))
  /\ (forall row,
        Z.of_nat (length row) = m_numGridPoints (base s) ->
        isNumericallyEqual (sum_list row) (m_numMeshPoints (base s)) = false ->
        createMeshIndices isNumericallyEqual (base s) (Ok (row_vector row))
        = Throw (OpenSimException internal_error_mesh_sum)).
Proof.
  intros Hnum HM Hpoints Hstride Hgrid. split; [|split].
  - assert (exists row,
              createMeshIndicesImpl scheme s = Ok (row_vector row)
              /\ length row = Z.to_nat (m_numGridPoints (base s))
              /\ Forall (fun x => x = 0%Qc \/ x = 1%Qc) row
              /\ sum_list row = Qc_of_Z (m_numMeshIntervals (base s) + 1)
              /\ row !! Z.to_nat (m_numGridPoints (base s) - 1) = Some 1%Qc)
      as (row & Himpl & Hlen & H01 & Hsum & Hlast).
    { destruct scheme; simpl in *.
      - unfold Trapezoidal_createMeshIndicesImpl. case_decide; [|lia].
        exists (replicate (Z.to_nat (m_numGridPoints (base s))) 1%Qc).
        split; [unfold DM_fill, row_vector; simpl; by rewrite fmap_replicate|].
        split; [apply length_replicate|].
        split; [apply Forall_replicate; by right|].
        split; [rewrite sum_list_replicate_one; f_equal; lia|].
        apply lookup_replicate_2. lia.
      - by apply mark_mesh_points.
      - by apply mark_mesh_points. }
    exists row. rewrite Himpl.
    split; [apply createMeshIndices_check; [lia|]|].
    + rewrite Hsum, Hpoints. apply Hnum.
    + split; [lia|]. split; [done|]. split; [by rewrite Hpoints | done].
  - intros m Hshape. unfold createMeshIndices, OPENSIM_THROW_IF. rewrite bind_Ok_l.
    by rewrite bool_decide_eq_true_2.
  - intros row Hlen Hsum. unfold createMeshIndices, OPENSIM_THROW_IF.
    rewrite bind_Ok_l. rewrite bool_decide_eq_false_2.
    + rewrite bind_Ok_l. unfold sum2_scalar. simpl rows.
      rewrite DM_row_row_vector, bind_Ok_l, Hsum. reflexivity.
    + unfold columns, row_vector. simpl. rewrite length_map. lia.
Qed.

Lemma createMeshIndices_mask_witness :
  exists row,
    createMeshIndices exactly_equal (base radau_example)
      (createMeshIndicesImpl LegendreGaussRadauScheme radau_example)
    = Ok (row_vector row)
    /\ Z.of_nat (length row) = 5
    /\ Forall (fun x => x = 0%Qc \/ x = 1%Qc) row
    /\ sum_list row = Qc_of_Z 3
    /\ row !! 4%nat = Some 1%Qc.
Proof.
  apply (createMeshIndices_mask exactly_equal LegendreGaussRadauScheme
           radau_example); simpl; try lia.
  intros n. unfold exactly_equal. by apply bool_decide_eq_true_2.
Defined.

(** ** C5: the quadrature coefficients of the Legendre schemes *)

Lemma vec_at_Ok {A : Type} (x : list A) (i : Z) (a : A) :
  0 <= i -> x !! Z.to_nat i = Some a -> vec_at x i = Ok a.
Proof.
  intros Hi Ha. unfold vec_at.
  rewrite scalar_index_Ok by (apply lookup_lt_Some in Ha; lia).
  rewrite bind_Ok_l. by rewrite Ha.
Qed.

Lemma vec_set_Ok {A : Type} (x : list A) (i : Z) (a : A) :
  0 <= i < Z.of_nat (length x) -> vec_set x i a = Ok (<[Z.to_nat i := a]> x).
Proof. intros Hi. unfold vec_set. by rewrite scalar_index_Ok. Qed.

Lemma sum_list_insert_zero (l : list Qc) (j : nat) (x : Qc) :
  l !! j = Some 0%Qc -> sum_list (<[j := x]> l) = (sum_list l + x)%Qc.
Proof.
  revert j. induction l as [|y l IH]; intros [|j] Hj; try discriminate.
  - injection Hj as ->. unfold sum_list. simpl. ring.
  - simpl in Hj. specialize (IH j Hj). unfold sum_list in *. simpl in *.
    rewrite IH. ring.
Qed.

Lemma sum_list_take_S (l : list Qc) (k : nat) (x : Qc) :
  l !! k = Some x -> sum_list (take (S k) l) = (sum_list (take k l) + x)%Qc.
Proof.
  revert k. induction l as [|y l IH]; intros [|k] Hk; try discriminate.
  - injection Hk as ->. unfold sum_list. simpl. ring.
  - simpl in Hk. specialize (IH k Hk). unfold sum_list in *. simpl in *.
    rewrite IH. ring.
Qed.

(** The durations of the mesh intervals telescope. *)
Lemma sum_list_differences (x : Qc) (l : list Qc) :
  sum_list (zip_with sub l (take (length l) (x :: l)))
  = (nth (length l) (x :: l) 0 - x)%Qc.
Proof.
  revert x. induction l as [|y l IH]; intros x.
  - unfold sum_list. simpl. ring.
  - specialize (IH y). unfold sum_list in *.
    change (take (length (y :: l)) (x :: y :: l))
      with (x :: take (length l) (y :: l)).
    change (nth (length (y :: l)) (x :: y :: l) 0%Qc)
      with (nth (length l) (y :: l) 0%Qc).
    cbn [zip_with foldr]. rewrite IH. simpl. ring.
Qed.

Lemma add_quadrature_term_Ok (w hs q : list Qc) (d imesh i : Z) (wd h : Qc) :
  0 <= d -> 0 <= imesh -> 0 <= i ->
  w !! Z.to_nat d = Some wd -> hs !! Z.to_nat imesh = Some h ->
  q !! Z.to_nat i = Some 0%Qc ->
  add_quadrature_term w hs d imesh i q = Ok (<[Z.to_nat i := (wd * h)%Qc]> q).
Proof.
  intros Hd Himesh Hi Hwd Hh Hq. unfold add_quadrature_term.
  rewrite (vec_at_Ok w d wd), bind_Ok_l by done.
  rewrite (vec_at_Ok hs imesh h), bind_Ok_l by done.
  rewrite (vec_at_Ok q i 0%Qc), bind_Ok_l by done.
  rewrite vec_set_Ok by (apply lookup_lt_Some in Hq; lia).
  do 2 f_equal. simpl. ring.
Qed.

Lemma nth_lookup_Some_Qc (l : list Qc) (k : nat) :
  (k < length l)%nat -> l !! k = Some (nth k l 0%Qc).
Proof.
  intros Hk. destruct (lookup_lt_is_Some_2 l k Hk) as [x Hx].
  rewrite Hx. f_equal. symmetry. by apply nth_lookup_Some.
Qed.

(** The double loop of [createQuadratureCoefficientsImpl] on the all-zero
    column: [stride] grid points from one mesh point to the next, of which the
    [degree] after the mesh point receive a coefficient. *)
Lemma quadrature_loop (w hs : list Qc) (M degree stride n : Z) :
  0 <= M -> 0 <= degree <= stride -> 1 <= stride ->
  Z.of_nat (length w) = degree -> Z.of_nat (length hs) = M ->
  n = M * stride + 1 ->
  exists q,
    for_range 0 M (fun imesh quadCoeffs =>
      for_range 0 degree (fun d =>
        add_quadrature_term w hs d imesh (imesh * stride + d + 1)) quadCoeffs)
      (replicate (Z.to_nat n) 0%Qc) = Ok q
    /\ length q = Z.to_nat n
    /\ sum_list q = (sum_list w * sum_list hs)%Qc
    /\ q !! 0%nat = Some 0%Qc
    /\ (forall i k, 0 <= i < M -> 0 <= k < degree ->
          q !! Z.to_nat (i * stride + k + 1)
          = Some (nth (Z.to_nat k) w 0 * nth (Z.to_nat i) hs 0)%Qc)
    /\ (stride = degree + 1 ->
        forall i, 0 <= i <= M -> q !! Z.to_nat (i * stride) = Some 0%Qc).
Proof.
  intros HM Hdeg Hstride Hw Hhs Hn.
  set (written := fun (q : list Qc) (i k : Z) =>
    q !! Z.to_nat (i * stride + k + 1)
    = Some (nth (Z.to_nat k) w 0 * nth (Z.to_nat i) hs 0)%Qc).
  set (R := fun (imesh d : Z) (q : list Qc) =>
    length q = Z.to_nat n
    /\ sum_list q
       = (sum_list w * sum_list (take (Z.to_nat imesh) hs)
          + sum_list (take (Z.to_nat d) w) * nth (Z.to_nat imesh) hs 0)%Qc
    /\ q !! 0%nat = Some 0%Qc
    /\ (forall j, imesh * stride + d < j < n -> q !! Z.to_nat j = Some 0%Qc)
    /\ (forall i k, 0 <= i < imesh -> 0 <= k < degree -> written q i k)
    /\ (forall k, 0 <= k < d -> written q imesh k)
    /\ (stride = degree + 1 ->
        forall i, 0 <= i <= M -> q !! Z.to_nat (i * stride) = Some 0%Qc)).
  set (P := fun (imesh : Z) (q : list Qc) =>
    length q = Z.to_nat n
    /\ sum_list q = (sum_list w * sum_list (take (Z.to_nat imesh) hs))%Qc
    /\ q !! 0%nat = Some 0%Qc
    /\ (forall j, (imesh - 1) * stride + degree < j < n ->
          q !! Z.to_nat j = Some 0%Qc)
    /\ (forall i k, 0 <= i < imesh -> 0 <= k < degree -> written q i k)
    /\ (stride = degree + 1 ->
        forall i, 0 <= i <= M -> q !! Z.to_nat (i * stride) = Some 0%Qc)).
  destruct (for_range_invariant P
    (fun imesh quadCoeffs =>
       for_range 0 degree (fun d =>
         add_quadrature_term w hs d imesh (imesh * stride + d + 1)) quadCoeffs)
    M (replicate (Z.to_nat n) 0%Qc))
    as (q & Hq & Hlen & Hsum & H0 & _ & Hwritten & Hmesh).
  - done.
  - unfold P. split; [apply length_replicate|].
    split; [simpl; rewrite sum_list_replicate_zero; unfold sum_list; simpl; ring|].
    split; [apply lookup_replicate_2; lia|].
    split; [intros j Hj; apply lookup_replicate_2; lia|].
    split; [intros i k Hi; lia|].
    intros _ i Hi. apply lookup_replicate_2. nia.
  - intros imesh q1 Himesh (Hlen & Hsum & H0 & Hzero & Hwritten & Hmesh).
    destruct (for_range_invariant (R imesh)
      (fun d => add_quadrature_term w hs d imesh (imesh * stride + d + 1))
      degree q1) as (q2 & Hq2 & Hlen2 & Hsum2 & H02 & Hzero2 & Hold2 & Hnew2 & Hmesh2).
    + lia.
    + unfold R. split; [done|].
      split; [rewrite Hsum; unfold sum_list; simpl; ring|].
      split; [done|]. split; [intros j Hj; apply Hzero; nia|].
      split; [done|]. split; [intros k Hk; lia | done].
    + intros d q3 Hd (Hlen3 & Hsum3 & H03 & Hzero3 & Hold3 & Hnew3 & Hmesh3).
      assert (0 <= imesh * stride + d + 1 < n) as Hidx by nia.
      rewrite (add_quadrature_term_Ok w hs q3 d imesh _
                 (nth (Z.to_nat d) w 0%Qc) (nth (Z.to_nat imesh) hs 0%Qc));
        [| lia | lia | lia | apply nth_lookup_Some_Qc; lia
         | apply nth_lookup_Some_Qc; lia | apply Hzero3; lia].
      eexists. split; [reflexivity|]. unfold R.
      split; [by rewrite length_insert|].
      split.
      { rewrite sum_list_insert_zero by (apply Hzero3; lia). rewrite Hsum3.
        replace (Z.to_nat (d + 1)) with (S (Z.to_nat d)) by lia.
        rewrite (sum_list_take_S w _ (nth (Z.to_nat d) w 0%Qc))
          by (apply nth_lookup_Some_Qc; lia).
        ring. }
      split; [rewrite list_lookup_insert_ne by lia; done|].
      split; [intros j Hj; rewrite list_lookup_insert_ne by lia; apply Hzero3; lia|].
      split.
      { intros i k Hi Hk. unfold written.
        rewrite list_lookup_insert_ne by nia. by apply Hold3. }
      split.
      { intros k Hk. unfold written. destruct (decide (k = d)) as [->|Hne].
        - rewrite list_lookup_insert_eq by lia. reflexivity.
        - rewrite list_lookup_insert_ne by lia. apply Hnew3. lia. }
      intros Hgap i Hi. rewrite list_lookup_insert_ne; [by apply Hmesh3|].
      destruct (decide (i <= imesh)); nia.
    + exists q2. split; [exact Hq2|]. unfold P.
      split; [done|].
      split.
      { rewrite Hsum2. replace (Z.to_nat (imesh + 1)) with (S (Z.to_nat imesh)) by lia.
        rewrite (sum_list_take_S hs _ (nth (Z.to_nat imesh) hs 0%Qc))
          by (apply nth_lookup_Some_Qc; lia).
        rewrite (take_ge w) by lia. ring. }
      split; [done|].
      split; [intros j Hj; apply Hzero2; nia|].
      split; [|done].
      intros i k Hi Hk. destruct (decide (i = imesh)) as [->|Hne].
      * by apply Hnew2.
      * apply Hold2; lia.
  - exists q. split; [exact Hq|]. split; [done|].
    split; [rewrite Hsum, (take_ge hs) by lia; done|].
    split; [done|]. split; done.
Qed.

Lemma vec_binary_same_length {A : Type} (op : A -> A -> A) (x y : list A) :
  length x = length y -> vec_binary op x y = Ok (zip_with op x y).
Proof.
  intros Hlen. unfold vec_binary, column_vector.
  rewrite DM_binary_same_shape; simpl.
  - by rewrite app_nil_r.
  - by repeat constructor.
  - by repeat constructor.
  - done.
  - done.
Qed.

Lemma meshIntervals_Ok {A : Type} {SA : Scalar A} (t : Transcription A) (M : Z) :
  0 <= M -> m_numMeshPoints t = M + 1 ->
  Z.of_nat (length (getMesh (m_solver t))) = M + 1 ->
  meshIntervals t
  = Ok (zip_with sub (drop 1 (getMesh (m_solver t)))
          (take (Z.to_nat M) (getMesh (m_solver t)))).
Proof.
  intros HM Hpoints Hmesh. unfold meshIntervals. rewrite Hpoints.
  replace (M + 1) with (1 + Z.of_nat (Z.to_nat M)) at 1 by lia.
  rewrite vec_slice_Ok by lia. rewrite bind_Ok_l.
  replace (M + 1 - 1) with (0 + Z.of_nat (Z.to_nat M)) by lia.
  rewrite vec_slice_Ok by lia. rewrite bind_Ok_l.
  change (Z.to_nat 0) with 0%nat. change (Z.to_nat 1) with 1%nat. rewrite drop_0.
  rewrite (take_ge (drop 1 _)) by (rewrite length_drop; lia).
  apply vec_binary_same_length.
  rewrite length_drop, length_take. lia.
Qed.

Lemma zero_column_Ok (n : Z) :
  0 <= n -> zero_column n = Ok (replicate (Z.to_nat n) 0%Qc).
Proof.
  intros Hn. unfold zero_column, zeros. case_decide; [|lia].
  rewrite bind_Ok_l. unfold DM_fill. simpl. by rewrite app_nil_r.
Qed.

Lemma nth_differences (mesh : list Qc) (M i : nat) :
  length mesh = S M -> (i < M)%nat ->
  nth i (zip_with sub (drop 1 mesh) (take M mesh)) 0%Qc
  = (nth (S i) mesh 0 - nth i mesh 0)%Qc.
Proof.
  intros Hlen Hi. apply nth_lookup_Some with (d := 0%Qc).
  rewrite lookup_zip_with, lookup_drop, lookup_take by lia.
  rewrite (nth_lookup_Some_Qc mesh (1 + i)) by lia.
  rewrite (nth_lookup_Some_Qc mesh i) by lia.
  case_decide; [reflexivity | lia].
Qed.

Lemma sum_differences (mesh : list Qc) (M : nat) :
  length mesh = S M ->
  sum_list (zip_with sub (drop 1 mesh) (take M mesh))
  = (nth M mesh 0 - nth 0 mesh 0)%Qc.
Proof.
  intros Hlen. destruct mesh as [|x l]; [discriminate|].
  injection Hlen as <-. rewrite <- sum_list_differences. reflexivity.
Qed.

(** C5, as the code has it.  On a mesh of [M + 1] points with [degree]
    quadrature coefficients [w], both Legendre schemes return a vector of
    [m_numGridPoints] entries in which the [k]-th point after the first point
    of interval [i] holds [w(k)] times the interval's duration and, in exact
    arithmetic, the entries sum to the sum of [w] times the duration of the
    mesh.  For Legendre-Gauss the entry of every mesh point is zero; for
    Legendre-Gauss-Radau the first entry is zero (the mesh point that closes
    interval [i] is its [degree]-th point and holds [w(degree - 1)] times the
    duration). *)
Theorem createQuadratureCoefficients_sum (s : Legendre Qc) (M degree : Z)
    (mesh w : list Qc) :
  m_numMeshIntervals (base s) = M -> m_degree s = degree ->
  getMesh (m_solver (base s)) = mesh -> m_quadratureCoefficients s = w ->
  0 <= M -> m_numMeshPoints (base s) = M + 1 ->
  Z.of_nat (length mesh) = M + 1 -> Z.of_nat (length w) = degree ->
  (0 <= degree -> m_numGridPoints (base s) = M * (degree + 1) + 1 ->
   exists q,
     LegendreGauss_createQuadratureCoefficientsImpl s = Ok q
     /\ Z.of_nat (length q) = m_numGridPoints (base s)
     /\ (forall i, 0 <= i <= M -> q !! Z.to_nat (i * (degree + 1)) = Some 0%Qc)
     /\ (forall i k, 0 <= i < M -> 0 <= k < degree ->
           q !! Z.to_nat (i * (degree + 1) + k + 1)
           = Some (nth (Z.to_nat k) w 0
                   * (nth (S (Z.to_nat i)) mesh 0 - nth (Z.to_nat i) mesh 0))%Qc)
     /\ sum_list q
        = (sum_list w * (nth (Z.to_nat M) mesh 0 - nth 0 mesh 0))%Qc)
  /\ (1 <= degree -> m_numGridPoints (base s) = M * degree + 1 ->
      exists q,
        LegendreGaussRadau_createQuadratureCoefficientsImpl s = Ok q
        /\ Z.of_nat (length q) = m_numGridPoints (base s)
        /\ q !! 0%nat = Some 0%Qc
        /\ (forall i k, 0 <= i < M -> 0 <= k < degree ->
              q !! Z.to_nat (i * degree + k + 1)
              = Some (nth (Z.to_nat k) w 0
                      * (nth (S (Z.to_nat i)) mesh 0 - nth (Z.to_nat i) mesh 0))%Qc)
        /\ sum_list q
           = (sum_list w * (nth (Z.to_nat M) mesh 0 - nth 0 mesh 0))%Qc).
Proof.
  intros HM' Hdeg' Hmesh' Hw' HM Hpoints Hmesh Hw.
  assert (meshIntervals (base s)
          = Ok (zip_with sub (drop 1 mesh) (take (Z.to_nat M) mesh))) as Hint.
  { rewrite (meshIntervals_Ok (base s) M), Hmesh' by (rewrite ?Hmesh'; lia). done. }
  assert (length mesh = S (Z.to_nat M)) as HlenM by lia.
  split; intros Hdeg Hgrid.
  - unfold LegendreGauss_createQuadratureCoefficientsImpl.
    rewrite Hint, bind_Ok_l, Hgrid, zero_column_Ok, bind_Ok_l by nia.
    rewrite HM', Hdeg', Hw'.
    destruct (quadrature_loop w (zip_with sub (drop 1 mesh) (take (Z.to_nat M) mesh))
                M degree (degree + 1) (M * (degree + 1) + 1))
      as (q & Hq & Hlen & Hsum & H0 & Hwritten & Hzero);
      [lia | lia | lia | lia | | done |].
    { rewrite length_zip_with, length_drop, length_take. lia. }
    exists q. split; [exact Hq|]. split; [nia|].
    split; [by apply Hzero|].
    split.
    + intros i k Hi Hk. rewrite Hwritten by done.
      rewrite (nth_differences mesh (Z.to_nat M)) by lia. reflexivity.
    + rewrite Hsum. by rewrite (sum_differences mesh (Z.to_nat M)).
  - unfold LegendreGaussRadau_createQuadratureCoefficientsImpl.
    rewrite Hint, bind_Ok_l, Hgrid, zero_column_Ok, bind_Ok_l by nia.
    rewrite HM', Hdeg', Hw'.
    destruct (quadrature_loop w (zip_with sub (drop 1 mesh) (take (Z.to_nat M) mesh))
                M degree degree (M * degree + 1))
      as (q & Hq & Hlen & Hsum & H0 & Hwritten & _);
      [lia | lia | lia | lia | | done |].
    { rewrite length_zip_with, length_drop, length_take. lia. }
    exists q. split; [exact Hq|]. split; [nia|].
    split; [done|].
    split.
    + intros i k Hi Hk. rewrite Hwritten by done.
      rewrite (nth_differences mesh (Z.to_nat M)) by lia. reflexivity.
    + rewrite Hsum. by rewrite (sum_differences mesh (Z.to_nat M)).
Qed.

Lemma createQuadratureCoefficients_sum_witness :
  exists q,
    LegendreGaussRadau_createQuadratureCoefficientsImpl radau_example = Ok q
    /\ Z.of_nat (length q) = 5
    /\ q !! 0%nat = Some 0%Qc
    /\ (forall i k, 0 <= i < 2 -> 0 <= k < 2 ->
          q !! Z.to_nat (i * 2 + k + 1)
          = Some (nth (Z.to_nat k) [Q2Qc (3 # 4); Q2Qc (1 # 4)] 0
                  * (nth (S (Z.to_nat i)) [Q2Qc 0; Q2Qc (1 # 4); Q2Qc 1] 0
                     - nth (Z.to_nat i) [Q2Qc 0; Q2Qc (1 # 4); Q2Qc 1] 0))%Qc)
    /\ sum_list q
       = (sum_list [Q2Qc (3 # 4); Q2Qc (1 # 4)]
          * (nth 2 [Q2Qc 0; Q2Qc (1 # 4); Q2Qc 1] 0
             - nth 0 [Q2Qc 0; Q2Qc (1 # 4); Q2Qc 1] 0))%Qc.
Proof.
  apply (createQuadratureCoefficients_sum radau_example 2 2
           [Q2Qc 0; Q2Qc (1 # 4); Q2Qc 1] [Q2Qc (3 # 4); Q2Qc (1 # 4)]);
    first [reflexivity | lia].
Defined.

(** C5 as stated fails on degree 2 and the mesh 0, 1/4, 1 (three mesh
    points).  Legendre-Gauss-Radau returns 0, 3/16, 1/16, 9/16, 3/16: the sum
    is 1, not 3, and the mesh points at the grid indices 2 and 4 hold 1/16 and
    3/16.  Legendre-Gauss returns 0, 1/8, 1/8, 0, 3/8, 3/8, 0, of sum 1. *)
Lemma createQuadratureCoefficients_counterexample :
  (exists q,
     LegendreGaussRadau_createQuadratureCoefficientsImpl radau_example = Ok q
     /\ map this q = [0; 3 # 16; 1 # 16; 9 # 16; 3 # 16]%Q
     /\ sum_list q = 1%Qc
     /\ sum_list q <> Qc_of_Z (m_numMeshPoints (base radau_example))
     /\ q !! 2%nat <> Some 0%Qc)
  /\ (exists q,
        LegendreGauss_createQuadratureCoefficientsImpl gauss_example = Ok q
        /\ map this q = [0; 1 # 8; 1 # 8; 0; 3 # 8; 3 # 8; 0]%Q
        /\ sum_list q = 1%Qc
        /\ sum_list q <> Qc_of_Z (m_numMeshPoints (base gauss_example))).
Proof.
  split.
  - destruct (LegendreGaussRadau_createQuadratureCoefficientsImpl radau_example)
      as [q|e] eqn:H; [|vm_compute in H; discriminate].
    exists q. split; [reflexivity|].
    vm_compute in H. injection H as <-.
    split; [vm_compute; reflexivity|].
    split; [apply Qc_is_canon; vm_compute; reflexivity|].
    split; intros Heq.
    + apply (f_equal this) in Heq. vm_compute in Heq. discriminate.
    + apply (f_equal (fmap this)) in Heq. vm_compute in Heq. discriminate.
  - destruct (LegendreGauss_createQuadratureCoefficientsImpl gauss_example)
      as [q|e] eqn:H; [|vm_compute in H; discriminate].
    exists q. split; [reflexivity|].
    vm_compute in H. injection H as <-.
    split; [vm_compute; reflexivity|].
    split; [apply Qc_is_canon; vm_compute; reflexivity|].
    intros Heq. apply (f_equal this) in Heq. vm_compute in Heq. discriminate.
Qed.

(** ** C7: the defects of the Legendre-Gauss-Radau scheme *)

Lemma DM_set_rows_Ok {A : Type} (m : DM A) (a b j : Z) (v : list A) :
  0 <= a <= b -> b <= Z.of_nat (rows m) -> 0 <= j < Z.of_nat (columns m) ->
  Z.of_nat (length v) = b - a ->
  DM_set_rows m a b j v
  = Ok (mkDM (rows m)
          (alter (fun c => write_at c (Z.to_nat a) (Z.to_nat (b - a)) v)
             (Z.to_nat j) (cols m))).
Proof.
  intros Ha Hb Hj Hv. unfold DM_set_rows.
  rewrite slice_index_Ok, bind_Ok_l by lia. cbn [mbind result_bind].
  rewrite scalar_index_Ok, bind_Ok_l by lia.
  unfold rhs_fits. rewrite bool_decide_eq_true_2 by lia. reflexivity.
Qed.

Lemma DM_cols_Ok {A : Type} (m : DM A) (a b : Z) :
  0 <= a <= b -> b <= Z.of_nat (columns m) ->
  DM_cols m a b = Ok (DM_block m (Z.to_nat a) (Z.to_nat (b - a))).
Proof.
  intros Ha Hb. unfold DM_cols. by rewrite slice_index_Ok by lia.
Qed.

Lemma DM_col_Ok {A : Type} (m : DM A) (j : Z) :
  0 <= j < Z.of_nat (columns m) -> DM_col m j = Ok (DM_column m (Z.to_nat j)).
Proof.
  intros Hj. unfold DM_col, DM_column. rewrite scalar_index_Ok, bind_Ok_l by done.
  destruct (lookup_lt_is_Some_2 (cols m) (Z.to_nat j)) as [c ->];
    [unfold columns in Hj; lia | done].
Qed.

Lemma wf_DM_lookup {A : Type} (m : DM A) (j : nat) (c : list A) :
  wf_DM m -> cols m !! j = Some c -> length c = rows m.
Proof. intros Hwf Hc. eapply (proj1 (Forall_lookup _ _) Hwf); eauto. Qed.

Lemma length_DM_column {A : Type} (m : DM A) (j : nat) :
  wf_DM m -> (j < columns m)%nat -> length (DM_column m j) = rows m.
Proof.
  intros Hwf Hj. unfold DM_column.
  destruct (lookup_lt_is_Some_2 (cols m) j Hj) as [c Hc]. rewrite Hc. simpl.
  by eapply wf_DM_lookup.
Qed.

Lemma entry_Some {A : Type} {SA : Scalar A} (m : DM A) (i j : nat) :
  wf_DM m -> (i < rows m)%nat -> (j < columns m)%nat ->
  entry m i j = Some (DM_get m i j).
Proof.
  intros Hwf Hi Hj. unfold DM_get, entry.
  destruct (lookup_lt_is_Some_2 (cols m) j Hj) as [c Hc]. rewrite Hc. simpl.
  destruct (lookup_lt_is_Some_2 c i) as [y ->]; [|done].
  by rewrite (wf_DM_lookup m j c).
Qed.

Lemma DM_column_lookup {A : Type} {SA : Scalar A} (m : DM A) (i j : nat) :
  wf_DM m -> (i < rows m)%nat -> (j < columns m)%nat ->
  DM_column m j !! i = Some (DM_get m i j).
Proof.
  intros Hwf Hi Hj. rewrite <- entry_Some by done. unfold entry, DM_column.
  destruct (lookup_lt_is_Some_2 (cols m) j Hj) as [c ->]. reflexivity.
Qed.

(** Linear indexing into a row vector. *)
Lemma DM_at_row {A : Type} {SA : Scalar A} (m : DM A) (i : Z) :
  wf_DM m -> rows m = 1%nat -> 0 <= i < Z.of_nat (columns m) ->
  DM_at m i = Ok (DM_get m 0 (Z.to_nat i)).
Proof.
  intros Hwf Hrows Hi. unfold DM_at, numel. rewrite Hrows, Nat.mul_1_l.
  rewrite scalar_index_Ok, bind_Ok_l by done.
  rewrite Nat.div_1_r, Nat.mod_1_r.
  rewrite entry_Some; [reflexivity | done | lia | lia].
Qed.

Lemma DM_set_rows_written {A : Type} (m : DM A) (a b j : Z) (v : list A) :
  0 <= a <= b -> b <= Z.of_nat (rows m) -> 0 <= j < Z.of_nat (columns m) ->
  Z.of_nat (length v) = b - a ->
  DM_set_rows m a b j v
  = Ok (DM_written m (Z.to_nat a) (Z.to_nat (b - a)) (Z.to_nat j) v).
Proof. apply DM_set_rows_Ok. Qed.

Lemma wf_DM_written {A : Type} (m : DM A) (a n j : nat) (v : list A) :
  wf_DM m -> wf_DM (DM_written m a n j v).
Proof.
  unfold wf_DM, DM_written. simpl. intros Hwf.
  apply Forall_lookup. intros k c Hc.
  destruct (decide (k = j)) as [->|Hne].
  - rewrite list_lookup_alter_eq in Hc.
    destruct (cols m !! j) as [c0|] eqn:Hc0; [|discriminate].
    injection Hc as <-. rewrite length_write_at. by eapply wf_DM_lookup.
  - rewrite list_lookup_alter_ne in Hc by done. by eapply wf_DM_lookup.
Qed.

Lemma columns_DM_written {A : Type} (m : DM A) (a n j : nat) (v : list A) :
  columns (DM_written m a n j v) = columns m.
Proof. unfold columns, DM_written. simpl. apply length_alter. Qed.

Lemma cols_DM_written_ne {A : Type} (m : DM A) (a n j k : nat) (v : list A) :
  k <> j -> cols (DM_written m a n j v) !! k = cols m !! k.
Proof. intros Hne. unfold DM_written. simpl. by apply list_lookup_alter_ne. Qed.

Lemma entry_DM_written_outside {A : Type} (m : DM A) (a n j : nat) (v : list A)
    (i k : nat) :
  k <> j \/ ~ (a <= i < a + n)%nat ->
  entry (DM_written m a n j v) i k = entry m i k.
Proof.
  intros Hout. unfold entry, DM_written. simpl.
  destruct (decide (k = j)) as [->|Hne].
  - rewrite list_lookup_alter_eq. destruct (cols m !! j) as [c|]; [|done]. simpl.
    apply lookup_write_at_outside. by destruct Hout.
  - by rewrite list_lookup_alter_ne.
Qed.

Lemma entry_DM_written_inside {A : Type} (m : DM A) (a n j : nat) (v : list A)
    (i : nat) :
  wf_DM m -> (j < columns m)%nat -> (i < rows m)%nat ->
  length v = n -> (a <= i < a + n)%nat ->
  entry (DM_written m a n j v) i j = v !! (i - a)%nat.
Proof.
  intros Hwf Hj Hi Hv Hin. unfold entry, DM_written. simpl.
  rewrite list_lookup_alter_eq.
  destruct (lookup_lt_is_Some_2 (cols m) j Hj) as [c Hc]. rewrite Hc. simpl.
  apply lookup_write_at_inside; [done | done |].
  by rewrite (wf_DM_lookup m j c).
Qed.

(** The residual [h * xdot_i - mtimes(x_i, D)], column by column. *)
Lemma residual_columns {A : Type} {SA : Scalar A} (h : A) (x_i xdot_i D : DM A)
    (NS d : nat) :
  wf_DM x_i -> rows x_i = NS -> columns x_i = S d ->
  wf_DM xdot_i -> rows xdot_i = NS -> columns xdot_i = d ->
  wf_DM D -> rows D = S d -> columns D = d ->
  exists residual,
    (scaled ← DM_binary mul (scalar_DM h) xdot_i;
     prod ← mtimes x_i D;
     DM_binary sub scaled prod) = Ok residual
    /\ wf_DM residual /\ rows residual = NS /\ columns residual = d
    /\ forall e r, (e < d)%nat -> (r < NS)%nat ->
         DM_column residual e !! r
         = Some (sub (mul h (DM_get xdot_i r e))
                     (dot (DM_row x_i r) (DM_column D e))).
Proof.
  intros Hwx Hrx Hcx Hwd Hrd Hcd HwD HrD HcD.
  assert (DM_binary mul (scalar_DM h) xdot_i = Ok (DM_map (mul h) xdot_i)) as ->
    by reflexivity.
  rewrite bind_Ok_l. unfold mtimes. case_decide; [|lia]. rewrite bind_Ok_l.
  rewrite DM_binary_same_shape.
  - eexists. split; [reflexivity|]. simpl.
    split.
    { unfold wf_DM. simpl. apply Forall_lookup. intros k c Hc.
      apply lookup_zip_with_Some in Hc as (c1 & c2 & -> & Hc1 & Hc2).
      rewrite !list_lookup_fmap in Hc1, Hc2.
      destruct (cols xdot_i !! k) as [c0|] eqn:Hc0; [|discriminate].
      destruct (cols D !! k) as [cD|] eqn:HcD'; [|discriminate].
      injection Hc1 as <-. injection Hc2 as <-.
      rewrite length_zip_with, !length_map, length_seq.
      rewrite (wf_DM_lookup xdot_i k c0) by done. lia. }
    split; [done|].
    split.
    { unfold columns in *. simpl. rewrite length_zip_with, !length_map. lia. }
    intros e r He Hr. unfold DM_column at 1. simpl.
    rewrite lookup_zip_with, !list_lookup_fmap.
    destruct (lookup_lt_is_Some_2 (cols xdot_i) e) as [c0 Hc0];
      [unfold columns in Hcd; lia|].
    destruct (lookup_lt_is_Some_2 (cols D) e) as [cD HcD'];
      [unfold columns in HcD; lia|].
    rewrite Hc0, HcD'. simpl.
    rewrite lookup_zip_with, !list_lookup_fmap.
    rewrite lookup_seq_lt by lia. simpl.
    unfold DM_get, entry, DM_column. rewrite Hc0, HcD'. simpl.
    destruct (lookup_lt_is_Some_2 c0 r) as [y ->];
      [rewrite (wf_DM_lookup xdot_i e c0) by done; lia|].
    reflexivity.
  - unfold wf_DM, DM_map. simpl. apply Forall_map.
    eapply Forall_impl; [exact Hwd|]. simpl. intros c Hc. by rewrite length_map.
  - unfold wf_DM. simpl. apply Forall_map. apply Forall_forall. intros c _.
    by rewrite length_map, length_seq.
  - simpl. congruence.
  - unfold columns in *. simpl. rewrite !length_map. lia.
Qed.

Lemma vec_at_get {A : Type} {SA : Scalar A} (x : list A) (i : Z) :
  0 <= i < Z.of_nat (length x) -> vec_at x i = Ok (vec_get x (Z.to_nat i)).
Proof.
  intros Hi. destruct (lookup_lt_is_Some_2 x (Z.to_nat i)) as [a Ha]; [lia|].
  rewrite (vec_at_Ok x i a) by (done || lia). unfold vec_get. by rewrite Ha.
Qed.

Lemma has_shape_DM_block {A : Type} (m : DM A) (first n r c : nat) :
  has_shape m r c -> (first + n <= c)%nat -> has_shape (DM_block m first n) r n.
Proof.
  intros (Hwf & Hr & Hc) Hn. unfold has_shape, DM_block, wf_DM, columns in *. simpl.
  split; [by apply Forall_take, Forall_drop|].
  split; [done|]. rewrite length_take, length_drop. lia.
Qed.

Lemma DM_get_DM_block {A : Type} {SA : Scalar A} (m : DM A) (first n i j : nat) :
  (j < n)%nat -> DM_get (DM_block m first n) i j = DM_get m i (first + j).
Proof.
  intros Hj. unfold DM_get, entry, DM_block. simpl.
  rewrite lookup_take, lookup_drop by done.
  by case_decide; [|lia].
Qed.

Lemma has_shape_DM_written {A : Type} (m : DM A) (a n j : nat) (v : list A)
    (r c : nat) :
  has_shape m r c -> has_shape (DM_written m a n j v) r c.
Proof.
  intros (Hwf & Hr & Hc). split; [by apply wf_DM_written|].
  split; [done | by rewrite columns_DM_written].
Qed.

Section RadauDefects.
Context {A : Type} {SA : Scalar A}.
Variables (s : Legendre A) (x xdot ti tf p : DM A).
Variables (M d NS NP : nat).
Hypothesis Hd : m_degree s = Z.of_nat d.
Hypothesis HNS : getNumStates (m_problem (base s)) = Z.of_nat NS.
Hypothesis HNP : getNumParameters (m_problem (base s)) = Z.of_nat NP.
Hypothesis Htimes : length (m_times (base s)) = (M * d + 1)%nat.
Hypothesis Hx : has_shape x NS (M * d + 1).
Hypothesis Hxdot : has_shape xdot NS (M * d + 1).
Hypothesis Hti : has_shape ti 1 (M + 1).
Hypothesis Htf : has_shape tf 1 (M + 1).
Hypothesis Hp : has_shape p NP (M + 1).
Hypothesis HD : has_shape (m_differentiationMatrix s) (d + 1) d.

(** One pass of the loop writes column [imesh] of the defects and no other. *)
Lemma LegendreGaussRadau_calcDefects_interval_spec (imesh : nat) (defects : DM A) :
  (imesh < M)%nat -> has_shape defects (2 + NP + d * NS) M ->
  exists defects',
    LegendreGaussRadau_calcDefects_interval s x xdot ti tf p (Z.of_nat imesh) defects
    = Ok defects'
    /\ has_shape defects' (2 + NP + d * NS) M
    /\ (forall j, j <> imesh -> cols defects' !! j = cols defects !! j)
    /\ LegendreGaussRadau_defect_column s x xdot ti tf p defects' imesh.
Proof.
  intros Himesh Hdef.
  destruct Hx as (Hwx & Hrx & Hcx), Hxdot as (Hwxd & Hrxd & Hcxd).
  destruct Hti as (Hwti & Hrti & Hcti), Htf as (Hwtf & Hrtf & Hctf).
  destruct Hp as (Hwp & Hrp & Hcp), HD as (HwD & HrD & HcD).
  assert (imesh * d + d <= M * d)%nat as Hgrid by nia.
  set (result := LegendreGaussRadau_calcDefects_interval s x xdot ti tf p
                   (Z.of_nat imesh) defects).
  assert (result = LegendreGaussRadau_calcDefects_interval s x xdot ti tf p
                     (Z.of_nat imesh) defects) as Hf by reflexivity.
  unfold LegendreGaussRadau_calcDefects_interval in Hf. cbv zeta in Hf.
  rewrite Hd, HNS, HNP in Hf.
  replace (Z.of_nat imesh * Z.of_nat d) with (Z.of_nat (imesh * d)) in Hf by lia.
  (* the interval's duration and its blocks of states *)
  rewrite !vec_at_get in Hf by nia.
  rewrite !DM_cols_Ok in Hf by nia.
  rewrite !(DM_at_row ti), !(DM_at_row tf) in Hf by (done || lia).
  rewrite !(DM_col_Ok p) in Hf by lia.
  rewrite !bind_Ok_l in Hf.
  replace (Z.to_nat (Z.of_nat (imesh * d) + Z.of_nat d)) with (imesh * d + d)%nat
    in Hf by lia.
  replace (Z.to_nat (Z.of_nat (imesh * d))) with (imesh * d)%nat in Hf by lia.
  replace (Z.to_nat (Z.of_nat (imesh * d) + Z.of_nat d + 1 - Z.of_nat (imesh * d)))
    with (d + 1)%nat in Hf by lia.
  replace (Z.to_nat (Z.of_nat (imesh * d) + 1)) with (imesh * d + 1)%nat in Hf by lia.
  replace (Z.to_nat (Z.of_nat (imesh * d) + Z.of_nat d + 1 - (Z.of_nat (imesh * d) + 1)))
    with d in Hf by lia.
  set (h := sub (vec_get (m_times (base s)) (imesh * d + d))
                (vec_get (m_times (base s)) (imesh * d))) in Hf.
  (* time variables *)
  destruct Hdef as (Hwdef & Hrdef & Hcdef).
  rewrite DM_set_rows_written, !bind_Ok_l in Hf by (simpl; lia).
  set (m1 := DM_written defects _ _ _ _) in Hf.
  assert (has_shape m1 (2 + NP + d * NS) M) as Hm1
    by (by apply has_shape_DM_written).
  destruct Hm1 as (Hwm1 & Hrm1 & Hcm1).
  rewrite DM_set_rows_written, !bind_Ok_l in Hf by (simpl; lia).
  set (m2 := DM_written m1 _ _ _ _) in Hf.
  assert (has_shape m2 (2 + NP + d * NS) M) as Hm2
    by (by apply has_shape_DM_written).
  (* parameters *)
  rewrite vec_binary_same_length, bind_Ok_l in Hf
    by (rewrite !length_DM_column by (done || lia); done).
  set (dp := zip_with sub _ _) in Hf.
  assert (length dp = NP) as Hdp.
  { unfold dp. rewrite length_zip_with, !length_DM_column by (done || lia). lia. }
  destruct Hm2 as (Hwm2 & Hrm2 & Hcm2).
  rewrite DM_set_rows_written, bind_Ok_l in Hf by lia.
  set (m3 := DM_written m2 _ _ _ _) in Hf.
  assert (has_shape m3 (2 + NP + d * NS) M) as Hm3
    by (by apply has_shape_DM_written).
  (* the residual *)
  destruct (residual_columns h (DM_block x (imesh * d) (d + 1))
              (DM_block xdot (imesh * d + 1) d) (m_differentiationMatrix s) NS d)
    as (residual & Hres & Hwres & Hrres & Hcres & Hentries).
  { by apply (has_shape_DM_block x _ _ NS (M * d + 1)); [|lia]. }
  { by apply (has_shape_DM_block x _ _ NS (M * d + 1)); [|lia]. }
  { replace (S d) with (d + 1)%nat by lia.
    by apply (has_shape_DM_block x _ _ NS (M * d + 1)); [|lia]. }
  { by apply (has_shape_DM_block xdot _ _ NS (M * d + 1)); [|lia]. }
  { by apply (has_shape_DM_block xdot _ _ NS (M * d + 1)); [|lia]. }
  { by apply (has_shape_DM_block xdot _ _ NS (M * d + 1)); [|lia]. }
  { done. }
  { lia. }
  { done. }
  apply bind_Ok in Hres as (scaled & Hscaled & Hres).
  apply bind_Ok in Hres as (prod & Hprod & Hres).
  rewrite Hscaled, bind_Ok_l, Hprod, bind_Ok_l, Hres, bind_Ok_l in Hf.
  clear Hscaled Hprod Hres scaled prod.
  (* the loop over the interior points *)
  set (Rinv := fun (e : Z) (m : DM A) =>
    has_shape m (2 + NP + d * NS) M
    /\ (forall j, j <> imesh -> cols m !! j = cols m3 !! j)
    /\ (forall i, (i < 2 + NP)%nat -> entry m i imesh = entry m3 i imesh)
    /\ (forall e' r, Z.of_nat e' < e -> (r < NS)%nat ->
          entry m (2 + NP + e' * NS + r) imesh = DM_column residual e' !! r)).
  destruct (for_range_invariant Rinv
    (fun d0 defects0 =>
       r ← DM_col residual d0;
       DM_set_rows defects0 (d0 * Z.of_nat NS + 2 + Z.of_nat NP)
         ((d0 + 1) * Z.of_nat NS + 2 + Z.of_nat NP) (Z.of_nat imesh) r)
    (Z.of_nat d) m3) as (m4 & Hm4 & Hshape4 & Hother4 & Hlow4 & Hres4).
  - lia.
  - unfold Rinv. split; [done|]. split; [done|]. split; [done|]. intros; lia.
  - intros e m He (Hsm & Hother & Hlow & Hdone).
    destruct Hsm as (Hwm & Hrm & Hcm).
    rewrite DM_col_Ok, bind_Ok_l by lia.
    rewrite DM_set_rows_written
      by (rewrite ?length_DM_column by (done || lia); nia).
    eexists. split; [reflexivity|].
    replace (Z.to_nat (e * Z.of_nat NS + 2 + Z.of_nat NP))
      with (2 + NP + Z.to_nat e * NS)%nat by nia.
    replace (Z.to_nat ((e + 1) * Z.of_nat NS + 2 + Z.of_nat NP
                       - (e * Z.of_nat NS + 2 + Z.of_nat NP))) with NS by nia.
    rewrite Nat2Z.id.
    split; [by apply has_shape_DM_written|].
    split; [intros j Hj; rewrite cols_DM_written_ne by done; by apply Hother|].
    split.
    { intros i Hi. rewrite entry_DM_written_outside by (right; lia).
      by apply Hlow. }
    intros e' r He' Hr. destruct (decide (e' = Z.to_nat e)) as [->|Hne].
    + rewrite entry_DM_written_inside;
        [f_equal; lia | done | lia | nia
         | rewrite length_DM_column; [done | done | lia] | lia].
    + rewrite entry_DM_written_outside by (right; nia).
      apply Hdone; lia.
  - exists m4. split; [rewrite Hf; exact Hm4|]. split; [done|].
    split.
    { intros j Hj. rewrite Hother4 by done. unfold m3, m2, m1.
      by rewrite !cols_DM_written_ne by (rewrite ?Nat2Z.id; done). }
    unfold LegendreGaussRadau_defect_column. cbv zeta.
    rewrite Hd, HNS, HNP, !Nat2Z.id. fold h.
    assert (Z.to_nat (Z.of_nat imesh + 1) = S imesh) as Hsucc by lia.
    split.
    { rewrite Hlow4 by lia. unfold m3, m2.
      rewrite !entry_DM_written_outside by (right; simpl; lia).
      unfold m1. rewrite Nat2Z.id.
      rewrite entry_DM_written_inside; [| done | lia | lia | done | simpl; lia].
      simpl. by rewrite ?Hsucc, ?Nat2Z.id. }
    split.
    { rewrite Hlow4 by lia. unfold m3.
      rewrite !entry_DM_written_outside by (right; simpl; lia).
      unfold m2. rewrite Nat2Z.id.
      rewrite entry_DM_written_inside; [| done | lia | lia | done | simpl; lia].
      simpl. by rewrite ?Hsucc, ?Nat2Z.id. }
    split.
    { intros k Hk. rewrite Hlow4 by lia. unfold m3. rewrite Nat2Z.id.
      rewrite entry_DM_written_inside;
        [| done | lia | lia | rewrite Hdp; lia | simpl; lia].
      replace (2 + k - Z.to_nat 2)%nat with k by lia.
      unfold dp. rewrite lookup_zip_with.
      rewrite !DM_column_lookup by (done || lia). simpl.
      by rewrite ?Hsucc, ?Nat2Z.id. }
    intros e r He Hr. rewrite Hres4 by lia. rewrite Hentries by done.
    rewrite DM_get_DM_block by done. reflexivity.
Qed.
End RadauDefects.

Lemma LegendreGaussRadau_defect_column_ext {A : Type} {SA : Scalar A}
    (s : Legendre A) (x xdot ti tf p defects defects' : DM A) (imesh : nat) :
  cols defects' !! imesh = cols defects !! imesh ->
  LegendreGaussRadau_defect_column s x xdot ti tf p defects imesh ->
  LegendreGaussRadau_defect_column s x xdot ti tf p defects' imesh.
Proof.
  intros Hcol. unfold LegendreGaussRadau_defect_column, entry. by rewrite Hcol.
Qed.

(** C7. For the Legendre-Gauss-Radau scheme on [M] mesh intervals of degree
    [d] with [NS] states and [NP] parameters, and inputs of the matching
    shapes, [calcDefectsImpl] returns and column [imesh] of the defects holds:
    in rows 0 and 1 the differences ti(imesh+1) - ti(imesh) and
    tf(imesh+1) - tf(imesh); in rows 2 to 2+NP-1 the differences
    p(:, imesh+1) - p(:, imesh); and for each interior point e < d, in the NS
    rows from 2+NP+e*NS on, h * xdot(:, igrid+1+e) - (states of the interval)
    * (column e of the differentiation matrix), h being the duration
    times(igrid+d) - times(igrid) of the interval and igrid = imesh * d. *)
Theorem LegendreGaussRadau_defects {A : Type} {SA : Scalar A} (s : Legendre A)
    (x xdot ti tf p defects : DM A) (M d NS NP : nat) :
  m_numMeshIntervals (base s) = Z.of_nat M ->
  m_degree s = Z.of_nat d ->
  getNumStates (m_problem (base s)) = Z.of_nat NS ->
  getNumParameters (m_problem (base s)) = Z.of_nat NP ->
  length (m_times (base s)) = (M * d + 1)%nat ->
  has_shape x NS (M * d + 1) -> has_shape xdot NS (M * d + 1) ->
  has_shape ti 1 (M + 1) -> has_shape tf 1 (M + 1) -> has_shape p NP (M + 1) ->
  has_shape (m_differentiationMatrix s) (d + 1) d ->
  has_shape defects (2 + NP + d * NS) M ->
  exists defects',
    LegendreGaussRadau_calcDefectsImpl s x xdot ti tf p defects = Ok defects'
    /\ has_shape defects' (2 + NP + d * NS) M
    /\ forall imesh, (imesh < M)%nat ->
         LegendreGaussRadau_defect_column s x xdot ti tf p defects' imesh.
Proof.
  intros HM Hd HNS HNP Htimes Hx Hxdot Hti Htf Hp HD Hdefects.
  unfold LegendreGaussRadau_calcDefectsImpl. rewrite HM.
  set (P := fun (k : Z) (m : DM A) =>
    has_shape m (2 + NP + d * NS) M
    /\ forall imesh, Z.of_nat imesh < k ->
         LegendreGaussRadau_defect_column s x xdot ti tf p m imesh).
  destruct (for_range_invariant P
              (LegendreGaussRadau_calcDefects_interval s x xdot ti tf p)
              (Z.of_nat M) defects) as (defects' & Hrun & Hshape & Hcolumns).
  - lia.
  - split; [done|]. intros; lia.
  - intros k m Hk (Hm & Hdone).
    destruct (LegendreGaussRadau_calcDefects_interval_spec s x xdot ti tf p
                M d NS NP Hd HNS HNP Htimes Hx Hxdot Hti Htf Hp HD
                (Z.to_nat k) m) as (m' & Hm' & Hshape' & Hother & Hcolumn);
      [lia | done |].
    rewrite Z2Nat.id in Hm' by lia.
    exists m'. split; [done|]. split; [done|].
    intros imesh Himesh. destruct (decide (imesh = Z.to_nat k)) as [->|Hne].
    + done.
    + apply (LegendreGaussRadau_defect_column_ext s x xdot ti tf p m).
      * by apply Hother.
      * apply Hdone. lia.
  - exists defects'. split; [done|]. split; [done|].
    intros imesh Himesh. apply Hcolumns. lia.
Qed.

Lemma LegendreGaussRadau_defects_witness :
  exists defects',
    LegendreGaussRadau_calcDefectsImpl radau_example radau_states radau_derivatives
      radau_initial_time radau_final_time radau_parameters radau_defects
    = Ok defects'
    /\ has_shape defects' (2 + 1 + 2 * 1) 2
    /\ forall imesh, (imesh < 2)%nat ->
         LegendreGaussRadau_defect_column radau_example radau_states
           radau_derivatives radau_initial_time radau_final_time radau_parameters
           defects' imesh.
Proof.
  apply (LegendreGaussRadau_defects radau_example radau_states radau_derivatives
           radau_initial_time radau_final_time radau_parameters radau_defects
           2 2 1 1); try reflexivity.
  all: split; [repeat constructor | split; reflexivity].
Defined.

(** ** The time slots of expandConstraints *)

Lemma forM_seqZ_Ok_invariant {St : Type} (P : Z -> St -> Prop)
    (body : Z -> St -> result St) (first : Z) (n : nat) (s s' : St) :
  forM (seqZ first (Z.of_nat n)) body s = Ok s' ->
  P first s ->
  (forall i s1 s2, first <= i < first + Z.of_nat n -> P i s1 ->
     body i s1 = Ok s2 -> P (i + 1) s2) ->
  P (first + Z.of_nat n) s'.
Proof.
  revert first s. induction n as [|n IH]; intros first s Hrun Hs Hbody.
  - simpl in Hrun. injection Hrun as <-.
    by replace (first + Z.of_nat 0) with first by lia.
  - replace (Z.of_nat (S n)) with (Z.succ (Z.of_nat n)) in Hrun by lia.
    rewrite seqZ_cons in Hrun by lia. rewrite Z.pred_succ in Hrun.
    simpl in Hrun. inv_bind Hrun.
    replace (first + Z.of_nat (S n)) with (Z.succ first + Z.of_nat n) by lia.
    apply (IH (Z.succ first) x); [done | |].
    + replace (Z.succ first) with (first + 1) by lia.
      apply (Hbody first s); [lia | done | done].
    + intros i s1 s2 Hi. apply Hbody. lia.
Qed.

Lemma for_range_Ok_invariant {St : Type} (P : Z -> St -> Prop)
    (body : Z -> St -> result St) (n : Z) (s s' : St) :
  0 <= n -> for_range 0 n body s = Ok s' -> P 0 s ->
  (forall i s1 s2, 0 <= i < n -> P i s1 -> body i s1 = Ok s2 -> P (i + 1) s2) ->
  P n s'.
Proof.
  intros Hn Hrun Hs Hbody. unfold for_range in Hrun.
  replace (n - 0) with (Z.of_nat (Z.to_nat n)) in Hrun by lia.
  replace n with (0 + Z.of_nat (Z.to_nat n)) by lia.
  apply (forM_seqZ_Ok_invariant P body 0 (Z.to_nat n) s s'); [done | done |].
  intros i s1 s2 Hi. apply Hbody. lia.
Qed.

Lemma es_copy_frame {A : Type} (flat : list A)
    (get : Constraints (DM A) -> DM A)
    (set : DM A -> Constraints (DM A) -> Constraints (DM A)) (j : Z)
    (s s' : ExpandState A) :
  (forall m c, con_initial_time (set m c) = con_initial_time c) ->
  es_copy flat get set j s = Ok s' ->
  con_initial_time (es_out s') = con_initial_time (es_out s)
  /\ es_itime_i s' = es_itime_i s.
Proof.
  intros Hset H. unfold es_copy in H. inv_bind H. destruct x as [m iflat].
  injection H as <-. simpl. by rewrite Hset.
Qed.

Lemma es_copy_each_frame {A : Type} (flat : list A)
    (get : Constraints (DM A) -> list (DM A))
    (set : list (DM A) -> Constraints (DM A) -> Constraints (DM A)) (j : Z)
    (s s' : ExpandState A) :
  (forall ms c, con_initial_time (set ms c) = con_initial_time c) ->
  es_copy_each flat get set j s = Ok s' ->
  con_initial_time (es_out s') = con_initial_time (es_out s)
  /\ es_itime_i s' = es_itime_i s.
Proof.
  intros Hset H. unfold es_copy_each in H. inv_bind H. destruct x as [ms iflat].
  injection H as <-. simpl. by rewrite Hset.
Qed.

(** A pass of [copyColumn(out.initial_time, itime_i++)] that returns found
    column [itime_i] in a slot of one row, and kept the slot's shape. *)
Lemma es_copy_initial_time {A : Type} (flat : list A) (s s' : ExpandState A) :
  rows (con_initial_time (es_out s)) = 1%nat ->
  es_copy flat con_initial_time set_initial_time (es_itime_i s) s = Ok s' ->
  0 <= es_itime_i s ->
  es_itime_i s < Z.of_nat (columns (con_initial_time (es_out s)))
  /\ rows (con_initial_time (es_out s')) = 1%nat
  /\ columns (con_initial_time (es_out s')) = columns (con_initial_time (es_out s))
  /\ es_itime_i s' = es_itime_i s.
Proof.
  intros Hrows H Hpos. unfold es_copy, copyColumn_expand in H.
  inv_bind H. destruct x as [m iflat]. injection H as <-. simpl.
  case_decide; [|congruence].
  inv_bind Hx. inv_bind Hx. injection Hx as <- <-.
  unfold DM_set_col, DM_set_rows in Hx1.
  destruct (slice_index _ _ _) as [[a n]|]; [simpl in Hx1 | discriminate].
  destruct (scalar_index _ _) as [k|] eqn:Hk; [simpl in Hx1 | discriminate].
  destruct (rhs_fits n x); [|discriminate]. injection Hx1 as <-. simpl.
  apply scalar_index_lt in Hk as Hlt.
  unfold scalar_index in Hk. rewrite wrap_nonneg in Hk by done.
  case_decide; [|discriminate].
  split; [lia|]. split; [done|]. split; [|done].
  unfold columns. simpl. apply length_alter.
Qed.

(** One pass over a mesh interval that returns advanced [itime_i] by
    [N = numPointsPerMeshInterval - 1] columns of the initial-time slot, all of
    which the slot has. *)
Lemma expandConstraints_interval_time {A : Type} {SA : Scalar A}
    (t : Transcription A) (flat : list A) (imesh : Z) (s s' : ExpandState A)
    (columns0 : nat) :
  0 <= m_numPointsPerMeshInterval t - 1 ->
  expandConstraints_interval t flat imesh s = Ok s' ->
  rows (con_initial_time (es_out s)) = 1%nat ->
  columns (con_initial_time (es_out s)) = columns0 ->
  0 <= es_itime_i s <= Z.of_nat columns0 ->
  rows (con_initial_time (es_out s')) = 1%nat
  /\ columns (con_initial_time (es_out s')) = columns0
  /\ es_itime_i s' = es_itime_i s + (m_numPointsPerMeshInterval t - 1)
  /\ es_itime_i s' <= Z.of_nat columns0.
Proof.
  intros HN H Hrows Hcols Hpos. unfold expandConstraints_interval in H.
  set (N := m_numPointsPerMeshInterval t - 1) in *.
  set (same := fun (s1 s2 : ExpandState A) =>
    con_initial_time (es_out s2) = con_initial_time (es_out s1)
    /\ es_itime_i s2 = es_itime_i s1).
  assert (forall s1 s2 s3, same s1 s2 -> same s2 s3 -> same s1 s3) as Htrans.
  { unfold same. intros s1 s2 s3 [? ?] [? ?]. split; congruence. }
  assert (forall get set j s1 s2,
            (forall m c, con_initial_time (set m c) = con_initial_time c) ->
            es_copy flat get set j s1 = Ok s2 -> same s1 s2) as Hcopy.
  { intros get set j s1 s2 Hset Hc. unfold same.
    eapply es_copy_frame; [exact Hset | exact Hc]. }
  assert (forall j s1 s2,
            es_copy_each flat con_path set_path j s1 = Ok s2 -> same s1 s2) as Heach.
  { intros j s1 s2 Hc. unfold same.
    eapply es_copy_each_frame; [|exact Hc]. done. }
  inv_bind H. inv_bind H. inv_bind H. inv_bind H. inv_bind H. inv_bind H.
  inv_bind H.
  (* the initial-time columns *)
  assert (rows (con_initial_time (es_out x)) = 1%nat
          /\ columns (con_initial_time (es_out x)) = columns0
          /\ es_itime_i x = es_itime_i s + N
          /\ es_itime_i x <= Z.of_nat columns0) as Hx'.
  { apply (for_range_Ok_invariant
             (fun i s1 => rows (con_initial_time (es_out s1)) = 1%nat
                          /\ columns (con_initial_time (es_out s1)) = columns0
                          /\ es_itime_i s1 = es_itime_i s + i
                          /\ es_itime_i s1 <= Z.of_nat columns0) _ N s x HN Hx);
      cbv beta; [repeat split; (done || lia) |].
    intros i s1 s2 Hi (Hr1 & Hc1 & Hi1 & Hle1) Hbody.
    inv_bind Hbody. injection Hbody as <-.
    apply es_copy_initial_time in Hx6 as (Hlt & Hr2 & Hc2 & Hi2); [|done|lia].
    simpl. repeat split; (done || lia). }
  destruct Hx' as (Hrx & Hcx & Hix & Hlex).
  (* everything after it leaves the slot and the counter alone *)
  assert (same x s') as [Hsame1 Hsame2]; [|rewrite Hsame1, Hsame2; done].
  assert (same x x0) as Hs0.
  { revert Hx0. apply (forM_invariant (same x)); [|by split].
    intros _ s1 s2 Hsame Hbody. inv_bind Hbody. injection Hbody as <-.
    apply (Htrans _ s1); [done|].
    apply Hcopy in Hx0; [|done]. destruct Hx0. by split. }
  assert (same x0 x1) as Hs1.
  { revert Hx1. apply (forM_invariant (same x0)); [|by split].
    intros _ s1 s2 Hsame Hbody. inv_bind Hbody. injection Hbody as <-.
    apply (Htrans _ s1); [done|].
    apply Hcopy in Hx1; [|done]. destruct Hx1. by split. }
  assert (same x1 x2) as Hs2 by (eapply Hcopy; [|eassumption]; done).
  assert (same x2 x3) as Hs3.
  { revert Hx3. apply (forM_invariant (same x2)); [|by split].
    intros i s1 s2 Hsame Hbody. inv_bind Hbody.
    apply (Htrans _ s1); [done|]. apply (Htrans _ x6); (eapply Hcopy; [|eassumption]; done). }
  assert (same x3 x4) as Hs4 by (eapply Hcopy; [|eassumption]; done).
  assert (same x4 x5) as Hs5.
  { destruct (getEnforcePathConstraintMidpoints (m_solver t)); [|eapply Heach; eassumption].
    revert Hx5. apply (forM_invariant (same x4)); [|by split].
    intros i s1 s2 Hsame Hbody. apply (Htrans _ s1); [done | eapply Heach; eassumption]. }
  assert (same x5 s') as Hs6.
  { case_decide; [|injection H as <-; by split].
    revert H. apply (forM_invariant (same x5)); [|by split].
    intros _ s1 s2 Hsame Hbody. inv_bind Hbody. injection Hbody as <-.
    apply (Htrans _ s1); [done|].
    apply Hcopy in Hx6; [|done]. destruct Hx6. by split. }
  eauto 10.
Qed.

(** The initial-time slot as [expandConstraints] allocates it. *)
Lemma expandConstraints_init_initial_time {A : Type} {SA : Scalar A}
    (t : Transcription A) (c : Constraints (DM A)) :
  expandConstraints_init t = Ok c ->
  0 <= m_numParameterConstraints t
  /\ con_initial_time c
     = DM_fill 1 (Z.to_nat (m_numParameterConstraints t)) one.
Proof.
  unfold expandConstraints_init. cbv zeta. intros H.
  apply bind_Ok in H as (m & Hm & H).
  do 9 (apply bind_Ok in H as (? & _ & H)). injection H as <-. simpl.
  unfold dense in Hm. case_decide; [|discriminate]. injection Hm as <-.
  split; [lia | done].
Qed.

(** X2: [expandConstraints] allocates [m_numParameterConstraints] columns for the
    initial-time slot and visits [numPointsPerMeshInterval - 1] of them per
    mesh interval: with fewer parameter constraints than that product it
    throws, whatever the flat vector. *)
Theorem expandConstraints_needs_time_columns {A : Type} {SA : Scalar A}
    (t : Transcription A) (flat : list A) :
  0 <= m_numMeshIntervals t ->
  0 <= m_numPointsPerMeshInterval t - 1 ->
  m_numParameterConstraints t
    < (m_numPointsPerMeshInterval t - 1) * m_numMeshIntervals t ->
  exists e, expandConstraints t flat = Throw e.
Proof.
  intros HM HN HP.
  destruct (expandConstraints t flat) as [out|e] eqn:H; [exfalso | by eexists].
  unfold expandConstraints in H. inv_bind H. inv_bind H. clear H.
  (* the allocation *)
  apply expandConstraints_init_initial_time in Hx as [HP0 Hinit].
  (* the traversal *)
  unfold expandConstraints_traverse in Hx0. inv_bind Hx0. inv_bind Hx0. clear Hx0.
  apply es_copy_each_frame in Hx as [Hslot Hi]; [|done]. simpl in Hslot, Hi.
  set (P := Z.to_nat (m_numParameterConstraints t)) in *.
  assert (es_itime_i x2 = m_numMeshIntervals t * (m_numPointsPerMeshInterval t - 1)
          /\ es_itime_i x2 <= Z.of_nat P) as [Hcount Hle]; [|nia].
  enough (rows (con_initial_time (es_out x2)) = 1%nat
          /\ columns (con_initial_time (es_out x2)) = P
          /\ es_itime_i x2 = m_numMeshIntervals t * (m_numPointsPerMeshInterval t - 1)
          /\ es_itime_i x2 <= Z.of_nat P) as (_ & _ & ? & ?) by done.
  apply (for_range_Ok_invariant
           (fun k s => rows (con_initial_time (es_out s)) = 1%nat
                       /\ columns (con_initial_time (es_out s)) = P
                       /\ es_itime_i s = k * (m_numPointsPerMeshInterval t - 1)
                       /\ es_itime_i s <= Z.of_nat P) _ _ x1 x2 HM Hx1);
    cbv beta.
  - rewrite Hslot, Hi, Hinit. unfold DM_fill, columns. simpl.
    rewrite length_replicate. repeat split; lia.
  - intros k s1 s2 Hk (Hr & Hc & Hik & Hlek) Hbody.
    apply (expandConstraints_interval_time t flat k s1 s2 P) in Hbody
      as (Hr2 & Hc2 & Hi2 & Hle2); [| done | done | done | nia].
    repeat split; (done || lia).
Qed.

Lemma expandConstraints_needs_time_columns_witness :
  exists e, expandConstraints (constraint_transcription 0 3) [0; 0; 7]%float
            = Throw e.
Proof.
  apply expandConstraints_needs_time_columns; simpl; lia.
Defined.

(** ** expandVariables: when it returns, and what it keeps of [x] *)

(** A slice that [reshape] accepts lies within the vector: the slice that
    CasADi cuts down to the last entry has too few entries for the shape. *)
Lemma vec_slice_reshape_bound {A : Type} (x part : list A) (a : Z) (r c : nat)
    (m : DM A) :
  0 <= a -> vec_slice x a (a + Z.of_nat (r * c)) = Ok part ->
  reshape part r c = Ok m ->
  a + Z.of_nat (r * c) <= Z.of_nat (length x).
Proof.
  intros Ha Hslice Hshape. apply vec_slice_inv in Hslice as [-> Hcase]; [|done].
  destruct Hcase as [Hin|[Hlast Hn]]; [done|].
  unfold reshape in Hshape. case_decide as Hlen; [|discriminate].
  rewrite length_take, length_drop in Hlen. lia.
Qed.

Lemma expandVariables_loop_inv {A : Type} (t : Transcription A) (x : list A)
    (keys : list Var) (out : gmap Var (DM A)) (offset : Z)
    (s' : gmap Var (DM A) * Z) :
  0 <= offset ->
  for_each keys (expandVariables_step t x) (out, offset) = Ok s' ->
  (forall key, key ∈ keys -> is_Some (m_scaledVars t !! key))
  /\ (keys = [] \/ offset + Z.of_nat (total_numel t keys) <= Z.of_nat (length x)).
Proof.
  revert out offset. induction keys as [|k keys IH]; intros out offset Hoff H.
  - split; [|by left]. intros key Hin. by apply elem_of_nil in Hin.
  - simpl in H. inv_bind H. destruct x0 as [out1 offset1].
    assert (Hstep := Hx).
    apply expandVariables_step_inv in Hstep as (value & Hvalue & _ & ->); [|done].
    unfold expandVariables_step, at_key in Hx. rewrite Hvalue in Hx. simpl in Hx.
    apply bind_Ok in Hx as (part & Hslice & Hx).
    apply bind_Ok in Hx as (m & Hreshape & _).
    pose proof (vec_slice_reshape_bound _ _ _ _ _ _ Hoff Hslice Hreshape) as Hx0.
    fold (shape_numel value) in Hx0.
    apply IH in H as [Hkeys Hlen]; [|lia].
    assert (shape_of t k = value) as Hshape by (unfold shape_of; by rewrite Hvalue).
    split.
    + intros key [->|Hin]%elem_of_cons; [by rewrite Hvalue | by apply Hkeys].
    + right. unfold total_numel in *. simpl. rewrite Hshape.
      destruct Hlen as [->|Hlen]; simpl; lia.
Qed.

(** X3: [expandVariables] returns exactly when [m_scaledVars] has all the
    seven kinds of [getSortedVarKeys] and [x] has at least as many entries as
    their shapes add up to; otherwise it throws. *)
Theorem expandVariables_returns_iff {A : Type} (t : Transcription A) (x : list A) :
  is_Ok (expandVariables t x)
  <-> (forall key, key ∈ getSortedVarKeys -> is_Some (m_scaledVars t !! key))
      /\ (total_numel t getSortedVarKeys <= length x)%nat.
Proof.
  split.
  - intros [out H]. unfold expandVariables in H. inv_bind H.
    destruct x0 as [out' offset'].
    apply expandVariables_loop_inv in Hx as [Hkeys Hlen]; [|lia].
    split; [exact Hkeys|]. destruct Hlen as [Hnil|Hlen]; [discriminate Hnil | lia].
  - intros [Hkeys Hlen]. unfold expandVariables.
    destruct (expandVariables_loop_Ok t x getSortedVarKeys ∅ 0) as [s Hs];
      [lia | exact Hkeys | lia |].
    rewrite Hs. by eexists.
Qed.

Lemma concat_chunks {A : Type} (r c : nat) (l : list A) :
  length l = (r * c)%nat -> concat (chunks r c l) = l.
Proof.
  revert l. induction c as [|c IH]; intros l Hl; simpl.
  - destruct l; [done | simpl in Hl; lia].
  - rewrite IH; [apply take_drop|]. rewrite length_drop. lia.
Qed.

Lemma expandVariables_loop_veccat {A : Type} (t : Transcription A) (x : list A)
    (keys : list Var) (out out' : gmap Var (DM A)) (offset offset' : Z) :
  0 <= offset -> NoDup keys ->
  for_each keys (expandVariables_step t x) (out, offset) = Ok (out', offset') ->
  veccat (map (fun key => veccat (cols (subscript out' key))) keys)
  = take (total_numel t keys) (drop (Z.to_nat offset) x).
Proof.
  revert out offset. induction keys as [|k keys IH]; intros out offset Hoff Hnd H.
  - reflexivity.
  - apply NoDup_cons in Hnd as [Hk Hnd].
    simpl in H. inv_bind H. destruct x0 as [out1 offset1].
    assert (Hstep := Hx).
    apply expandVariables_step_inv in Hstep as (value & Hvalue & -> & ->); [|done].
    unfold expandVariables_step, at_key in Hx. rewrite Hvalue in Hx. simpl in Hx.
    apply bind_Ok in Hx as (part & Hslice & Hx).
    apply bind_Ok in Hx as (m & Hreshape & _).
    pose proof (vec_slice_reshape_bound _ _ _ _ _ _ Hoff Hslice Hreshape) as Hx0.
    fold (shape_numel value) in Hx0.
    assert (Hrest := H).
    apply expandVariables_loop in Hrest as (_ & _ & Hframe & _); [|lia].
    apply IH in H; [|lia|done].
    assert (shape_of t k = value) as Hshape by (unfold shape_of; by rewrite Hvalue).
    unfold veccat in *. simpl. rewrite H.
    unfold subscript. rewrite (Hframe k Hk), lookup_insert_eq. simpl.
    rewrite concat_chunks
      by (rewrite length_take, length_drop; unfold shape_numel in *; lia).
    unfold total_numel. simpl. rewrite Hshape.
    replace (Z.to_nat (offset + Z.of_nat (shape_numel value)))
      with (Z.to_nat offset + shape_numel value)%nat by lia.
    rewrite <- drop_drop. apply take_take_drop.
Qed.

(** X4: the blocks that [expandVariables] returns, read column by column in
    the order of [getSortedVarKeys], are the first entries of [x]: no entry is
    dropped, repeated or reordered, and what [x] holds past the kinds' sizes is
    ignored. *)
Theorem expandVariables_veccat {A : Type} (t : Transcription A) (x : list A)
    (out : gmap Var (DM A)) :
  expandVariables t x = Ok out ->
  veccat (map (fun key => veccat (cols (subscript out key))) getSortedVarKeys)
  = take (total_numel t getSortedVarKeys) x.
Proof.
  intros H. unfold expandVariables in H. inv_bind H. destruct x0 as [out' offset'].
  injection H as <-.
  apply expandVariables_loop_veccat in Hx; [exact Hx | lia |].
  unfold getSortedVarKeys. repeat (apply NoDup_cons; split; [set_solver|]).
  apply NoDup_nil. done.
Qed.

Lemma expandVariables_veccat_witness :
  exists out,
    expandVariables example_transcription example_flat = Ok out
    /\ veccat (map (fun key => veccat (cols (subscript out key))) getSortedVarKeys)
       = take (total_numel example_transcription getSortedVarKeys) example_flat.
Proof.
  destruct (expandVariables example_transcription example_flat) as [out|] eqn:H;
    [|vm_compute in H; discriminate H].
  exists out. split; [reflexivity|]. exact (expandVariables_veccat _ _ _ H).
Defined.

(** ** flattenVariablesDM and flattenVariablesMX *)

Lemma forM_ext {S : Type} (l : list Z) (f g : Z -> S -> result S) (s : S) :
  (forall i s1, f i s1 = g i s1) -> forM l f s = forM l g s.
Proof.
  intros Hfg. revert s. induction l as [|i l IH]; intros s; simpl; [done|].
  rewrite Hfg. destruct (g i s) as [s1|e]; simpl; [apply IH | done].
Qed.

Lemma for_range_ext {S : Type} (a b : Z) (f g : Z -> S -> result S) (s : S) :
  (forall i s1, f i s1 = g i s1) -> for_range a b f s = for_range a b g s.
Proof. apply forM_ext. Qed.

(** Two loops that keep a relation between their states. *)
Lemma forM_simulation {S1 S2 : Type} (R : S1 -> S2 -> Prop) (l : list Z)
    (f : Z -> S1 -> result S1) (g : Z -> S2 -> result S2) (s1 s1' : S1) (s2 : S2) :
  (forall i a a' b, R a b -> f i a = Ok a' -> exists b', g i b = Ok b' /\ R a' b') ->
  R s1 s2 -> forM l f s1 = Ok s1' ->
  exists s2', forM l g s2 = Ok s2' /\ R s1' s2'.
Proof.
  intros Hstep. revert s1 s2. induction l as [|i l IH]; intros s1 s2 HR H; simpl in *.
  - injection H as <-. eauto.
  - inv_bind H. destruct (Hstep i s1 x s2 HR Hx) as (b' & -> & HR').
    simpl. eapply IH; eauto.
Qed.

Lemma push_back_column_agree {A : Type} (vars vars' : gmap Var (DM A)) (key : Var)
    (column : Z) (stdvec : list (list A)) :
  vars' !! key = vars !! key ->
  push_back_column vars' key column stdvec = push_back_column vars key column stdvec.
Proof. intros H. unfold push_back_column, at_key. by rewrite H. Qed.

(** X5: [flattenVariablesDM] reads the initial time, the final time, the
    states and the controls only: two maps that agree on these four kinds are
    flattened alike (also into the same exception), whatever they hold for the
    parameters, the multipliers, the derivatives and the other kinds. *)
Theorem flattenVariablesDM_reads_four_kinds {A : Type} (t : Transcription A)
    (vars vars' : gmap Var (DM A)) :
  vars' !! initial_time = vars !! initial_time ->
  vars' !! final_time = vars !! final_time ->
  vars' !! states = vars !! states ->
  vars' !! controls = vars !! controls ->
  flattenVariablesDM t vars' = flattenVariablesDM t vars.
Proof.
  intros Hi Hf Hs Hc. unfold flattenVariablesDM.
  rewrite (for_range_ext _ _ _
    (fun imesh stdvec =>
       let igrid := imesh * (m_numPointsPerMeshInterval t - 1) in
       stdvec ← for_range 0 (m_numPointsPerMeshInterval t - 1)
                  (fun i => push_back_column vars initial_time (igrid + i)) stdvec;
       stdvec ← for_range 0 (m_numPointsPerMeshInterval t - 1)
                  (fun i => push_back_column vars final_time (igrid + i)) stdvec;
       stdvec ← for_range 0 (m_numPointsPerMeshInterval t - 1)
                  (fun i => push_back_column vars states (igrid + i)) stdvec;
       for_range 0 (m_numPointsPerMeshInterval t - 1)
         (fun i => push_back_column vars controls (igrid + i)) stdvec)).
  - destruct (for_range _ _ _ _) as [sv|e]; simpl; [|done].
    rewrite (push_back_column_agree vars vars' initial_time) by done.
    destruct (push_back_column vars initial_time _ _) as [sv1|e]; simpl; [|done].
    rewrite (push_back_column_agree vars vars' final_time) by done.
    destruct (push_back_column vars final_time _ _) as [sv2|e]; simpl; [|done].
    rewrite (push_back_column_agree vars vars' states) by done.
    destruct (push_back_column vars states _ _) as [sv3|e]; simpl; [|done].
    by rewrite (push_back_column_agree vars vars' controls) by done.
  - intros imesh sv. cbv zeta.
    rewrite (for_range_ext _ _ _ (fun i =>
      push_back_column vars initial_time (imesh * (m_numPointsPerMeshInterval t - 1) + i)))
      by (intros; by apply push_back_column_agree).
    destruct (for_range _ _ _ _) as [sv1|e]; simpl; [|done].
    rewrite (for_range_ext _ _ _ (fun i =>
      push_back_column vars final_time (imesh * (m_numPointsPerMeshInterval t - 1) + i)))
      by (intros; by apply push_back_column_agree).
    destruct (for_range _ _ _ _) as [sv2|e]; simpl; [|done].
    rewrite (for_range_ext _ _ _ (fun i =>
      push_back_column vars states (imesh * (m_numPointsPerMeshInterval t - 1) + i)))
      by (intros; by apply push_back_column_agree).
    destruct (for_range _ _ _ _) as [sv3|e]; simpl; [|done].
    apply for_range_ext. intros; by apply push_back_column_agree.
Qed.

Lemma flattenVariablesDM_reads_four_kinds_witness :
  flattenVariablesDM example_transcription
    (<[parameters := mkDM 1 [[9]; [9]; [9]]%float]> example_variables)
  = flattenVariablesDM example_transcription example_variables.
Proof.
  apply flattenVariablesDM_reads_four_kinds; vm_compute; reflexivity.
Defined.

Lemma push_back_column_inv {A : Type} (vars : gmap Var (DM A)) (key : Var)
    (column : Z) (stdvec stdvec' : list (list A)) :
  push_back_column vars key column stdvec = Ok stdvec' ->
  exists m c, vars !! key = Some m /\ DM_col m column = Ok c /\ stdvec' = stdvec ++ [c].
Proof.
  unfold push_back_column, at_key. intros H.
  destruct (vars !! key) as [m|]; [simpl in H | discriminate].
  inv_bind H. injection H as <-. eauto.
Qed.

(** X6: [flattenVariablesDM] throws when one of the four kinds it reads is
    missing from the map, also when the transcription has no mesh interval:
    the last grid point's column of each of them is always read. *)
Theorem flattenVariablesDM_missing_kind {A : Type} (t : Transcription A)
    (vars : gmap Var (DM A)) (key : Var) :
  key ∈ [initial_time; final_time; states; controls] ->
  vars !! key = None ->
  exists e, flattenVariablesDM t vars = Throw e.
Proof.
  intros Hkey Hnone.
  destruct (flattenVariablesDM t vars) as [flat|e] eqn:H; [exfalso | by eexists].
  unfold flattenVariablesDM in H.
  apply bind_Ok in H as (sv & _ & H).
  apply bind_Ok in H as (sv1 & (m1 & ? & H1 & _)%push_back_column_inv & H).
  apply bind_Ok in H as (sv2 & (m2 & ? & H2 & _)%push_back_column_inv & H).
  apply bind_Ok in H as (sv3 & (m3 & ? & H3 & _)%push_back_column_inv & H).
  apply bind_Ok in H as (sv4 & (m4 & ? & H4 & _)%push_back_column_inv & H).
  set_unfold in Hkey. destruct Hkey as [->|[->|[->|[->|[]]]]]; congruence.
Qed.

Lemma flattenVariablesDM_missing_kind_witness :
  exists e,
    flattenVariablesDM example_transcription (delete controls example_variables)
    = Throw e.
Proof.
  apply (flattenVariablesDM_missing_kind _ _ controls);
    [set_solver | vm_compute; reflexivity].
Defined.

Lemma DM_col_inv {A : Type} (m : DM A) (j : Z) (c : list A) :
  DM_col m j = Ok c -> exists k, cols m !! k = Some c.
Proof.
  unfold DM_col. intros H. inv_bind H.
  destruct (cols m !! x) as [c'|] eqn:Hc; [|discriminate].
  injection H as <-. eauto.
Qed.

Lemma push_back_column_length {A : Type} (vars : gmap Var (DM A)) (key : Var)
    (m : DM A) (column : Z) (stdvec stdvec' : list (list A)) :
  vars !! key = Some m -> wf_DM m ->
  push_back_column vars key column stdvec = Ok stdvec' ->
  Z.of_nat (length (concat stdvec'))
  = Z.of_nat (length (concat stdvec)) + Z.of_nat (rows m).
Proof.
  intros Hm Hwf (m' & c & Hm' & Hc & ->)%push_back_column_inv.
  assert (m' = m) as -> by congruence.
  apply DM_col_inv in Hc as [k Hk]. apply (wf_DM_lookup _ _ _ Hwf) in Hk.
  rewrite concat_app, length_app. simpl. rewrite app_nil_r. lia.
Qed.

Lemma push_back_columns_length {A : Type} (vars : gmap Var (DM A)) (key : Var)
    (m : DM A) (N : Z) (column : Z -> Z) (stdvec stdvec' : list (list A)) :
  vars !! key = Some m -> wf_DM m -> 0 <= N ->
  for_range 0 N (fun i => push_back_column vars key (column i)) stdvec = Ok stdvec' ->
  Z.of_nat (length (concat stdvec'))
  = Z.of_nat (length (concat stdvec)) + N * Z.of_nat (rows m).
Proof.
  intros Hm Hwf HN H.
  apply (for_range_Ok_invariant
           (fun i sv => Z.of_nat (length (concat sv))
                        = Z.of_nat (length (concat stdvec)) + i * Z.of_nat (rows m))
           _ N stdvec stdvec' HN H); cbv beta; [lia|].
  intros i s1 s2 _ IH Hpush.
  apply (push_back_column_length _ _ _ _ _ _ Hm Hwf) in Hpush. lia.
Qed.

(** X7: the vector that [flattenVariablesDM] returns has one entry per row of
    the initial time, the final time, the states and the controls for each of
    the [numMeshIntervals * (numPointsPerMeshInterval - 1) + 1] grid points it
    visits. *)
Theorem flattenVariablesDM_length {A : Type} (t : Transcription A)
    (vars : gmap Var (DM A)) (ti tf x u : DM A) (flat : list A) :
  vars !! initial_time = Some ti -> vars !! final_time = Some tf ->
  vars !! states = Some x -> vars !! controls = Some u ->
  wf_DM ti -> wf_DM tf -> wf_DM x -> wf_DM u ->
  0 <= m_numMeshIntervals t -> 0 <= m_numPointsPerMeshInterval t - 1 ->
  flattenVariablesDM t vars = Ok flat ->
  Z.of_nat (length flat)
  = (m_numMeshIntervals t * (m_numPointsPerMeshInterval t - 1) + 1)
    * Z.of_nat (rows ti + rows tf + rows x + rows u).
Proof.
  intros Hti Htf Hx Hu Wti Wtf Wx Wu HM HN H. unfold flattenVariablesDM in H.
  set (N := m_numPointsPerMeshInterval t - 1) in *.
  set (r := Z.of_nat (rows ti + rows tf + rows x + rows u)).
  apply bind_Ok in H as (sv & Hloop & H).
  assert (Z.of_nat (length (concat sv)) = m_numMeshIntervals t * N * r) as Hsv.
  { apply (for_range_Ok_invariant
             (fun imesh sv => Z.of_nat (length (concat sv)) = imesh * N * r)
             _ _ [] sv HM Hloop); cbv beta; [simpl; lia|].
    intros imesh s1 s2 _ IH Hbody. cbv zeta in Hbody.
    apply bind_Ok in Hbody as (a & Ha & Hbody).
    apply bind_Ok in Hbody as (b & Hb & Hbody).
    apply bind_Ok in Hbody as (c & Hc & Hd).
    apply (push_back_columns_length _ _ _ _ _ _ _ Hti Wti HN) in Ha.
    apply (push_back_columns_length _ _ _ _ _ _ _ Htf Wtf HN) in Hb.
    apply (push_back_columns_length _ _ _ _ _ _ _ Hx Wx HN) in Hc.
    apply (push_back_columns_length _ _ _ _ _ _ _ Hu Wu HN) in Hd.
    unfold r. nia. }
  apply bind_Ok in H as (sv1 & H1 & H).
  apply bind_Ok in H as (sv2 & H2 & H).
  apply bind_Ok in H as (sv3 & H3 & H).
  apply bind_Ok in H as (sv4 & H4 & H).
  injection H as <-.
  apply (push_back_column_length _ _ _ _ _ _ Hti Wti) in H1.
  apply (push_back_column_length _ _ _ _ _ _ Htf Wtf) in H2.
  apply (push_back_column_length _ _ _ _ _ _ Hx Wx) in H3.
  apply (push_back_column_length _ _ _ _ _ _ Hu Wu) in H4.
  unfold veccat, r in *. nia.
Qed.

Lemma flattenVariablesDM_length_witness :
  exists flat,
    flattenVariablesDM example_transcription example_variables = Ok flat
    /\ Z.of_nat (length flat) = (2 * (2 - 1) + 1) * Z.of_nat (1 + 1 + 2 + 1).
Proof.
  exists example_flat. split; [vm_compute; reflexivity|].
  apply (flattenVariablesDM_length example_transcription example_variables
           (mkDM 1 [[0]; [0]; [0]]%float) (mkDM 1 [[1]; [1]; [1]]%float)
           (mkDM 2 [[10; 11]; [20; 21]; [30; 31]]%float)
           (mkDM 1 [[5]; [6]; [7]]%float));
    try (vm_compute; reflexivity); try (vm_compute; discriminate);
    repeat constructor.
Defined.

Lemma push_back_element_column {A : Type} (vars : gmap Var (DM A)) (key : Var)
    (j : Z) (a a' : list (DM A)) (b : list (list A)) :
  same_columns a b ->
  push_back_element (columns_vector <$> vars) key j a = Ok a' ->
  exists b', push_back_column vars key j b = Ok b' /\ same_columns a' b'.
Proof.
  unfold same_columns, push_back_element, push_back_column, at_key.
  intros -> H. rewrite lookup_fmap in H.
  destruct (vars !! key) as [m|]; [simpl in H | discriminate].
  case_decide as Hj; [|discriminate].
  unfold columns_vector in H. rewrite list_lookup_fmap in H.
  destruct (cols m !! Z.to_nat j) as [c|] eqn:Hc; [simpl in H | discriminate].
  injection H as <-.
  assert (Z.to_nat j < columns m)%nat as Hlt by (by eapply lookup_lt_Some).
  rewrite bind_Ok_l. unfold DM_col. rewrite scalar_index_Ok by lia.
  rewrite bind_Ok_l, Hc, bind_Ok_l.
  eexists. split; [reflexivity|].
  rewrite map_app. simpl. unfold veccat. simpl. by rewrite app_nil_r.
Qed.

Lemma push_back_elements_columns {A : Type} (vars : gmap Var (DM A)) (key : Var)
    (N : Z) (column : Z -> Z) (a a' : list (DM A)) (b : list (list A)) :
  same_columns a b ->
  for_range 0 N (fun i => push_back_element (columns_vector <$> vars) key (column i))
    a = Ok a' ->
  exists b', for_range 0 N (fun i => push_back_column vars key (column i)) b = Ok b'
             /\ same_columns a' b'.
Proof.
  intros HR H. unfold for_range in *.
  eapply (forM_simulation same_columns); [|exact HR|exact H].
  intros i x x' y Hxy Hstep. cbv beta in *.
  by eapply push_back_element_column.
Qed.

(** X8: the symbolic and the numeric flattening use one layout: when
    [flattenVariablesMX] returns for the vectors of columns of the matrices in
    [vars], [flattenVariablesDM] returns the same entries in the same order
    for [vars]. *)
Theorem flattenVariablesMX_agrees {A : Type} (t : Transcription A)
    (vars : gmap Var (DM A)) (flat : list A) :
  flattenVariablesMX t (columns_vector <$> vars) = Ok flat ->
  flattenVariablesDM t vars = Ok flat.
Proof.
  intros H. unfold flattenVariablesMX in H. unfold flattenVariablesDM.
  cbv zeta in *. apply bind_Ok in H as (a & Hloop & H).
  assert (exists b,
    for_range 0 (m_numMeshIntervals t) (fun imesh stdvec =>
      stdvec ← for_range 0 (m_numPointsPerMeshInterval t - 1)
                 (fun i => push_back_column vars initial_time
                             (imesh * (m_numPointsPerMeshInterval t - 1) + i)) stdvec;
      stdvec ← for_range 0 (m_numPointsPerMeshInterval t - 1)
                 (fun i => push_back_column vars final_time
                             (imesh * (m_numPointsPerMeshInterval t - 1) + i)) stdvec;
      stdvec ← for_range 0 (m_numPointsPerMeshInterval t - 1)
                 (fun i => push_back_column vars states
                             (imesh * (m_numPointsPerMeshInterval t - 1) + i)) stdvec;
      for_range 0 (m_numPointsPerMeshInterval t - 1)
        (fun i => push_back_column vars controls
                    (imesh * (m_numPointsPerMeshInterval t - 1) + i)) stdvec) [] = Ok b
    /\ same_columns a b) as (b & -> & Hb).
  { unfold for_range at 1. unfold for_range in Hloop at 1.
    eapply (forM_simulation same_columns _ _ _ [] a []); [|reflexivity|exact Hloop].
    intros imesh x x' y Hxy Hbody. cbv beta zeta in *.
    apply bind_Ok in Hbody as (x1 & H1 & Hbody).
    apply bind_Ok in Hbody as (x2 & H2 & Hbody).
    apply bind_Ok in Hbody as (x3 & H3 & H4).
    eapply push_back_elements_columns in H1 as (y1 & -> & Hy1); [|exact Hxy].
    eapply push_back_elements_columns in H2 as (y2 & E2 & Hy2); [|exact Hy1].
    eapply push_back_elements_columns in H3 as (y3 & E3 & Hy3); [|exact Hy2].
    eapply push_back_elements_columns in H4 as (y4 & E4 & Hy4); [|exact Hy3].
    rewrite bind_Ok_l, E2, bind_Ok_l, E3, bind_Ok_l. eauto. }
  apply bind_Ok in H as (a1 & H1 & H).
  apply bind_Ok in H as (a2 & H2 & H).
  apply bind_Ok in H as (a3 & H3 & H).
  apply bind_Ok in H as (a4 & H4 & H).
  eapply push_back_element_column in H1 as (b1 & E1 & Hb1); [|exact Hb].
  eapply push_back_element_column in H2 as (b2 & E2 & Hb2); [|exact Hb1].
  eapply push_back_element_column in H3 as (b3 & E3 & Hb3); [|exact Hb2].
  eapply push_back_element_column in H4 as (b4 & E4 & Hb4); [|exact Hb3].
  rewrite bind_Ok_l, E1, bind_Ok_l, E2, bind_Ok_l, E3, bind_Ok_l, E4, bind_Ok_l.
  injection H as <-. by rewrite Hb4.
Qed.

Lemma flattenVariablesMX_agrees_witness :
  flattenVariablesMX example_transcription (columns_vector <$> example_variables)
    = Ok example_flat
  /\ flattenVariablesDM example_transcription example_variables = Ok example_flat.
Proof.
  assert (flattenVariablesMX example_transcription
            (columns_vector <$> example_variables) = Ok example_flat) as H
    by (vm_compute; reflexivity).
  split; [exact H | exact (flattenVariablesMX_agrees _ _ _ H)].
Defined.

(** ** scaleVariables and unscaleVariables, kind by kind *)

Lemma map_fold_kinds_inv {A : Type} (f : Var -> DM A -> result (DM A))
    (m out : gmap Var (DM A)) :
  map_fold (fun key x acc => out ← acc; value ← f key x; Ok (<[key := value]> out))
    (Ok ∅) m = Ok out ->
  forall k,
    match m !! k with
    | Some x => exists y, f k x = Ok y /\ out !! k = Some y
    | None => out !! k = None
    end.
Proof.
  revert out.
  apply (map_fold_weak_ind (fun r m' =>
    forall out, r = Ok out ->
    forall k, match m' !! k with
              | Some x => exists y, f k x = Ok y /\ out !! k = Some y
              | None => out !! k = None
              end)).
  - intros out [= <-] k. by rewrite !lookup_empty.
  - intros i x m' r Hi IH out H k.
    apply bind_Ok in H as (out0 & -> & H).
    apply bind_Ok in H as (value & Hvalue & [= <-]).
    specialize (IH out0 eq_refl k).
    destruct (decide (i = k)) as [->|Hne].
    + rewrite !lookup_insert_eq. eauto.
    + by rewrite !lookup_insert_ne.
Qed.

Lemma dom_kind_by_kind {A : Type} (f : Var -> DM A -> result (DM A))
    (m out : gmap Var (DM A)) :
  (forall k, match m !! k with
             | Some x => exists y, f k x = Ok y /\ out !! k = Some y
             | None => out !! k = None
             end) ->
  dom out = dom m.
Proof.
  intros H. apply set_eq. intros k. rewrite !elem_of_dom. specialize (H k).
  destruct (m !! k) as [x|].
  - destruct H as (y & _ & ->). split; eauto.
  - rewrite H. split; intros [? ?]; discriminate.
Qed.

(** X9: what [scaleVariables] and [unscaleVariables] return has exactly the
    kinds of the argument, each scaled (unscaled) on its own with the kind's
    shift and scale buffers; a kind of the argument without a shift or a scale
    buffer makes them throw. *)
Theorem scaleVariables_kind_by_kind {A : Type} {SA : Scalar A}
    (t : Transcription A) (v out : gmap Var (DM A)) :
  (scaleVariables t v = Ok out ->
   dom out = dom v
   /\ forall key m, v !! key = Some m ->
        is_Some (m_shift t !! key) /\ is_Some (m_scale t !! key)
        /\ exists m', scale_kind t key m = Ok m' /\ out !! key = Some m')
  /\ (unscaleVariables t v = Ok out ->
      dom out = dom v
      /\ forall key m, v !! key = Some m ->
           is_Some (m_shift t !! key) /\ is_Some (m_scale t !! key)
           /\ exists m', unscale_kind t key m = Ok m' /\ out !! key = Some m').
Proof.
  split; intros H0.
  - pose proof (map_fold_kinds_inv (scale_kind t) v out H0) as H.
    split; [by eapply dom_kind_by_kind|].
    intros key m Hm. specialize (H key). rewrite Hm in H.
    destruct H as (y & Hy & Hout).
    assert (Hk := Hy). unfold scale_kind, at_key in Hk.
    destruct (m_shift t !! key); [simpl in Hk | discriminate].
    destruct (m_scale t !! key); [|discriminate]. eauto 6.
  - pose proof (map_fold_kinds_inv (unscale_kind t) v out H0) as H.
    split; [by eapply dom_kind_by_kind|].
    intros key m Hm. specialize (H key). rewrite Hm in H.
    destruct H as (y & Hy & Hout).
    assert (Hk := Hy). unfold unscale_kind, at_key in Hk.
    destruct (m_shift t !! key); [simpl in Hk | discriminate].
    destruct (m_scale t !! key); [|discriminate]. eauto 6.
Qed.

(** ** setVariableScaling: the scale it stores *)

(** X10: whatever the bounds are (equal, infinite, not a number), the scale
    that [setVariableScaling] stores is a finite number other than zero, so
    that [scaleVariables] never divides by zero or by infinity in the block
    that was set. *)
Theorem setVariableScaling_scale_finite_nonzero (t t' : Transcription float)
    (key : Var) (rowIndices columnIndices : Index) (bounds : Bounds) :
  setVariableScaling t key rowIndices columnIndices bounds = Ok t' ->
  exists dilate shift,
    scaling_written t t' key rowIndices columnIndices dilate shift
    /\ is_infinity dilate = false /\ is_nan dilate = false
    /\ (dilate =? 0)%float = false.
Proof.
  intros H. unfold setVariableScaling in H.
  destruct (getScaleVariablesUsingBounds (m_solver t)).
  - cbv zeta in H.
    destruct (is_infinity (upper bounds - lower bounds)
              || is_nan (upper bounds - lower bounds)) eqn:Hinf.
    + apply assign_scaling_spec in H. exists 1%float, 0%float. by repeat split.
    + apply orb_false_elim in Hinf as [Hinf Hnan].
      destruct (upper bounds - lower bounds =? 0)%float eqn:Hzero.
      * apply assign_scaling_spec in H. exists 1%float, (upper bounds).
        by repeat split.
      * apply assign_scaling_spec in H. eauto 10.
  - apply assign_scaling_spec in H. exists 1%float, 0%float. by repeat split.
Qed.

Lemma setVariableScaling_scale_finite_nonzero_witness :
  exists dilate shift,
    scaling_written example_transcription example_scaled states SliceAll (Int 0)
      dilate shift
    /\ is_infinity dilate = false /\ is_nan dilate = false
    /\ (dilate =? 0)%float = false.
Proof.
  apply (setVariableScaling_scale_finite_nonzero example_transcription
           example_scaled states SliceAll (Int 0) (mkBounds (-3) 4 true)).
  vm_compute. reflexivity.
Defined.

(** ** createTimes *)

Lemma DM_at_0 {A : Type} (m : DM A) (a : A) :
  (0 < rows m)%nat -> entry m 0 0 = Some a -> DM_at m 0 = Ok a.
Proof.
  intros Hrows Ha. unfold DM_at.
  assert (0 < columns m)%nat as Hcols.
  { unfold entry in Ha. destruct (cols m !! 0%nat) as [c|] eqn:Hc; [|discriminate].
    apply lookup_lt_Some in Hc. done. }
  rewrite scalar_index_Ok by (unfold numel; nia).
  rewrite bind_Ok_l. change (Z.to_nat 0) with 0%nat.
  rewrite Nat.Div0.mod_0_l, Nat.Div0.div_0_l, Ha. reflexivity.
Qed.

Lemma DM_at_empty {A : Type} (m : DM A) (i : Z) :
  numel m = 0%nat -> DM_at m i = Throw CasadiException.
Proof.
  intros Hm. unfold DM_at, scalar_index, wrap. rewrite Hm.
  repeat case_decide; try lia; reflexivity.
Qed.

Lemma createTimes_map {A : Type} {SA : Scalar A} (t : Transcription A)
    (ti tf : DM A) (ti0 tf0 : A) :
  (0 < rows ti)%nat -> (0 < rows tf)%nat ->
  entry ti 0 0 = Some ti0 -> entry tf 0 0 = Some tf0 ->
  createTimes t ti tf
  = Ok (map (fun g => add (mul (sub tf0 ti0) g) ti0) (m_grid t)).
Proof.
  intros Hri Hrf Hti Htf. unfold createTimes.
  rewrite (DM_at_0 tf tf0), (DM_at_0 ti ti0) by done.
  rewrite !bind_Ok_l.
  change (DM_binary sub (scalar_DM tf0) (scalar_DM ti0))
    with (Ok (scalar_DM (sub tf0 ti0))).
  rewrite bind_Ok_l.
  change (DM_binary mul (scalar_DM (sub tf0 ti0)) (column_vector (m_grid t)))
    with (Ok (DM_map (mul (sub tf0 ti0)) (column_vector (m_grid t)))).
  rewrite bind_Ok_l.
  destruct (m_grid t) as [|g [|g' grid]]; [reflexivity | reflexivity |].
  simpl. by rewrite app_nil_r, map_map.
Qed.

(** X11: [createTimes] throws when the initial or the final time has no
    entry; otherwise it maps the grid affinely onto the time span: the grid
    value 0 becomes the initial time, 1 the final time, and when the initial
    time is not after the final time the times are ordered as the grid is. *)
Theorem createTimes_affine (t : Transcription Qc) (ti tf : DM Qc) :
  (numel ti = 0%nat \/ numel tf = 0%nat -> exists e, createTimes t ti tf = Throw e)
  /\ (forall ti0 tf0,
        (0 < rows ti)%nat -> (0 < rows tf)%nat ->
        entry ti 0 0 = Some ti0 -> entry tf 0 0 = Some tf0 ->
        exists times,
          createTimes t ti tf = Ok times
          /\ times = map (fun g => (tf0 - ti0) * g + ti0)%Qc (m_grid t)
          /\ (forall k, m_grid t !! k = Some 0%Qc -> times !! k = Some ti0)
          /\ (forall k, m_grid t !! k = Some 1%Qc -> times !! k = Some tf0)
          /\ ((ti0 <= tf0)%Qc ->
              forall j k gj gk, m_grid t !! j = Some gj -> m_grid t !! k = Some gk ->
                (gj <= gk)%Qc ->
                exists tj tk, times !! j = Some tj /\ times !! k = Some tk
                              /\ (tj <= tk)%Qc)).
Proof.
  split.
  - intros [H|H]; unfold createTimes.
    + destruct (DM_at tf 0) as [tf0|e]; [|by eexists]. rewrite bind_Ok_l.
      rewrite (DM_at_empty ti) by done. by eexists.
    + rewrite (DM_at_empty tf) by done. by eexists.
  - intros ti0 tf0 Hri Hrf Hti Htf. eexists. split; [by apply createTimes_map|].
    change (@add Qc Qc_Scalar) with Qcplus. change (@mul Qc Qc_Scalar) with Qcmult.
    change (@sub Qc Qc_Scalar) with Qcminus.
    split; [reflexivity|]. split; [|split].
    + intros k Hk. rewrite list_lookup_fmap, Hk. simpl. f_equal. ring.
    + intros k Hk. rewrite list_lookup_fmap, Hk. simpl. f_equal. ring.
    + intros Hle j k gj gk Hj Hk Hg. do 2 eexists.
      rewrite !list_lookup_fmap, Hj, Hk. simpl. split; [done|]. split; [done|].
      apply Qcplus_le_compat; [|apply Qcle_refl].
      rewrite !(Qcmult_comm (tf0 - ti0)). apply Qcmult_le_compat_r; [done|].
      apply Qcle_minus_iff in Hle. exact Hle.
Qed.

Lemma createTimes_affine_witness :
  createTimes grid_transcription (scalar_DM (Q2Qc 2)) (scalar_DM (Q2Qc 6))
  = Ok [Q2Qc 2; Q2Qc 3; Q2Qc 6].
Proof.
  destruct (proj2 (createTimes_affine grid_transcription (scalar_DM (Q2Qc 2))
                     (scalar_DM (Q2Qc 6))) (Q2Qc 2) (Q2Qc 6))
    as (times & -> & -> & _); [simpl; lia | simpl; lia | reflexivity | reflexivity |].
  reflexivity.
Defined.

(** ** expandObjectiveTerms *)

Lemma lookup_concat_uniform {A : Type} (r : nat) (ls : list (list A)) (k : nat) :
  (0 < r)%nat -> Forall (fun c => length c = r) ls ->
  concat ls !! k = (ls !! (k / r)%nat) ≫= (fun c => c !! (k mod r)%nat).
Proof.
  intros Hr. revert k. induction ls as [|c ls IH]; intros k Hwf.
  - by rewrite !lookup_nil.
  - apply Forall_cons in Hwf as [Hc Hwf]. simpl.
    destruct (decide (k < r)%nat) as [Hk|Hk].
    + rewrite lookup_app_l by lia.
      rewrite Nat.div_small, Nat.mod_small by lia. reflexivity.
    + rewrite lookup_app_r by lia. rewrite Hc, IH by done.
      pose proof (Nat.div_add (k - r) 1 r ltac:(lia)) as Hdiv.
      pose proof (Nat.Div0.mod_add (k - r) 1 r) as Hmod.
      replace (k - r + 1 * r)%nat with k in * by lia.
      rewrite Hdiv, Hmod.
      replace ((k - r) / r + 1)%nat with (S ((k - r) / r)) by lia. reflexivity.
Qed.

Lemma length_concat_wf {A : Type} (m : DM A) :
  wf_DM m -> length (concat (cols m)) = numel m.
Proof.
  intros Hwf. unfold numel, columns, wf_DM in *.
  induction (cols m) as [|c l IH]; simpl; [lia|].
  apply Forall_cons in Hwf as [Hc Hwf]. rewrite length_app, Hc, (IH Hwf). lia.
Qed.

(** Linear indexing reads the entries column by column. *)
Lemma DM_at_concat {A : Type} (m : DM A) (i : Z) (x : A) :
  wf_DM m -> 0 <= i -> concat (cols m) !! Z.to_nat i = Some x -> DM_at m i = Ok x.
Proof.
  intros Hwf Hi Hx.
  pose proof (length_concat_wf m Hwf) as Hlen.
  assert (Z.to_nat i < numel m)%nat as Hlt
    by (rewrite <- Hlen; by eapply lookup_lt_Some).
  assert (0 < rows m)%nat as Hrows by (unfold numel in Hlt; nia).
  unfold DM_at. rewrite scalar_index_Ok by lia. rewrite bind_Ok_l.
  unfold entry. rewrite <- (lookup_concat_uniform (rows m)) by done.
  by rewrite Hx.
Qed.

(** X12: [expandObjectiveTerms] returns exactly when [terms] has at least as
    many entries as there are objective term names, and then pairs the names,
    in their order, with the first entries of [terms] read column by column;
    with fewer entries it throws. *)
Theorem expandObjectiveTerms_zip {A : Type} (names : list string) (terms : DM A) :
  wf_DM terms ->
  (is_Ok (expandObjectiveTerms names terms) <-> (length names <= numel terms)%nat)
  /\ (forall out, expandObjectiveTerms names terms = Ok out ->
        out = zip names (concat (cols terms))).
Proof.
  intros Hwf. pose proof (length_concat_wf terms Hwf) as Hlen.
  assert ((length names <= numel terms)%nat ->
          expandObjectiveTerms names terms = Ok (zip names (concat (cols terms))))
    as Hok.
  { intros Hle. unfold expandObjectiveTerms.
    destruct (for_range_invariant
                (fun i out => out = zip (take (Z.to_nat i) names)
                                      (concat (cols terms)))
                (fun io out =>
                   match names !! Z.to_nat io with
                   | Some name => term ← DM_at terms io; Ok (out ++ [(name, term)])
                   | None => Throw OutOfRange
                   end)
                (Z.of_nat (length names)) []) as (out & -> & Hout); [lia | done | |].
    - intros i out Hi ->.
      destruct (lookup_lt_is_Some_2 names (Z.to_nat i)) as [name Hname]; [lia|].
      destruct (lookup_lt_is_Some_2 (concat (cols terms)) (Z.to_nat i))
        as [x Hx]; [lia|].
      rewrite Hname, (DM_at_concat terms i x) by (done || lia).
      eexists. split; [reflexivity|].
      replace (Z.to_nat (i + 1)) with (S (Z.to_nat i)) by lia.
      rewrite (take_S_r _ _ _ Hname).
      rewrite <- (take_drop (Z.to_nat i) (concat (cols terms))) at 2.
      rewrite zip_with_app
        by (rewrite !length_take; apply lookup_lt_Some in Hx; lia).
      rewrite (drop_S _ _ _ Hx). simpl.
      f_equal. unfold zip. symmetry. apply zip_with_take_r'.
      rewrite length_take. lia.
    - rewrite Hout, Nat2Z.id, firstn_all. reflexivity. }
  assert (is_Ok (expandObjectiveTerms names terms) ->
          (length names <= numel terms)%nat) as Hinv.
  { intros [out H]. unfold expandObjectiveTerms in H.
    enough (Z.of_nat (length names) <= Z.of_nat (numel terms)) by lia.
    apply (for_range_Ok_invariant (fun i _ => i <= Z.of_nat (numel terms))
             _ (Z.of_nat (length names)) [] out (Nat2Z.is_nonneg _) H);
      cbv beta; [lia|].
    intros i s1 s2 Hi _ Hbody.
    destruct (names !! Z.to_nat i); [|discriminate].
    apply bind_Ok in Hbody as (x & Hx & _). unfold DM_at in Hx.
    apply bind_Ok in Hx as (k & Hk & _).
    unfold scalar_index in Hk. rewrite wrap_nonneg in Hk by lia.
    case_decide; [lia | discriminate]. }
  split.
  - split; [exact Hinv|]. intros Hle. rewrite Hok by done. by eexists.
  - intros out H. rewrite Hok in H by (apply Hinv; by eexists). congruence.
Qed.

Lemma expandObjectiveTerms_zip_witness :
  expandObjectiveTerms ["effort"; "tracking"]%string
    (column_vector [1.5; 2; 7]%float)
  = Ok [("effort", 1.5); ("tracking", 2)]%string%float.
Proof.
  pose proof (expandObjectiveTerms_zip ["effort"; "tracking"]%string
                (column_vector [1.5; 2; 7]%float)) as [[_ Hok] Hout].
  { repeat constructor. }
  destruct Hok as [out H]; [unfold numel, columns; simpl; lia|].
  rewrite H. f_equal. exact (Hout out H).
Defined.

(** ** The control points of the Legendre schemes *)

Lemma ones_row {A : Type} {SA : Scalar A} (n : Z) :
  0 <= n -> ones 1 n = Ok (row_vector (replicate (Z.to_nat n) one)).
Proof.
  intros Hn. unfold ones. case_decide; [|lia].
  unfold DM_fill, row_vector. simpl. by rewrite fmap_replicate.
Qed.

(** The nested loop that marks the interior points of every mesh interval. *)
Lemma mark_control_points {A : Type} {SA : Scalar A} (M d G : Z) :
  0 <= M -> 0 <= d -> G = M * (d + 1) + 1 ->
  exists row,
    (indices ← zeros 1 G;
     for_range 0 M (fun imesh indices =>
       for_range 0 d (fun e indices =>
         DM_set_at indices (imesh * (d + 1) + e + 1) one) indices) indices)
    = Ok (row_vector row)
    /\ length row = Z.to_nat G
    /\ (forall i j, 0 <= i < M -> 1 <= j <= d ->
          row !! Z.to_nat (i * (d + 1) + j) = Some one)
    /\ (forall i, 0 <= i <= M -> row !! Z.to_nat (i * (d + 1)) = Some zero).
Proof.
  intros HM Hd HG. rewrite zeros_row by nia. rewrite bind_Ok_l.
  set (Inv := fun (i e : Z) (m : DM A) =>
    exists row, m = row_vector row
      /\ length row = Z.to_nat G
      /\ (forall i' j, (0 <= i' < i /\ 1 <= j <= d) \/ (i' = i /\ 1 <= j <= e) ->
            row !! Z.to_nat (i' * (d + 1) + j) = Some one)
      /\ (forall i', 0 <= i' <= M -> row !! Z.to_nat (i' * (d + 1)) = Some zero)).
  destruct (for_range_invariant (fun i m => Inv i 0 m)
              (fun imesh indices =>
                 for_range 0 d (fun e indices =>
                   DM_set_at indices (imesh * (d + 1) + e + 1) one) indices)
              M (row_vector (replicate (Z.to_nat G) zero)))
    as (m & -> & row & -> & Hlen & Hone & Hzero).
  - done.
  - exists (replicate (Z.to_nat G) zero). split; [done|].
    split; [apply length_replicate|]. split; [intros i' j; lia|].
    intros i' Hi'. apply lookup_replicate_2. nia.
  - intros i s1 Hi HInv.
    destruct (for_range_invariant (fun e m => Inv i e m)
                (fun e indices => DM_set_at indices (i * (d + 1) + e + 1) one)
                d s1) as (s2 & -> & row & -> & Hlen & Hone & Hzero).
    + done.
    + exact HInv.
    + intros e s Hde (row & -> & Hlen & Hone & Hzero).
      assert (0 <= i * (d + 1) + e + 1 < Z.of_nat (length row)) as Hidx by nia.
      rewrite DM_set_at_row by done.
      eexists. split; [reflexivity|].
      exists (<[Z.to_nat (i * (d + 1) + e + 1) := one]> row).
      split; [done|]. split; [by rewrite length_insert|]. split.
      * intros i' j Hij.
        destruct (decide (i' * (d + 1) + j = i * (d + 1) + e + 1)) as [->|Hne].
        -- apply list_lookup_insert_eq. lia.
        -- destruct Hij as [[Hi' Hj]|[-> Hj]].
           ++ assert (0 <= i' * (d + 1) + j) by nia.
              rewrite list_lookup_insert_ne by lia. apply Hone. by left.
           ++ rewrite list_lookup_insert_ne by lia. apply Hone. right. lia.
      * intros i' Hi'. rewrite list_lookup_insert_ne; [by apply Hzero|].
        assert (i' * (d + 1) <> i * (d + 1) + e + 1)
          by (destruct (decide (i' <= i)); nia).
        assert (0 <= i' * (d + 1)) by nia. lia.
    + eexists. split; [reflexivity|]. exists row. split; [done|]. split; [done|].
      split; [|done]. intros i' j Hij. apply Hone. lia.
  - exists row. split; [done|]. split; [done|]. split; [|done].
    intros i j Hi Hj. apply Hone. lia.
Qed.

(** X13: for Legendre-Gauss the control points are the interior points of the
    mesh intervals and no mesh point is one; for Legendre-Gauss-Radau every
    grid point but the first is a control point, and the call throws when
    there is no grid point. *)
Theorem createControlIndices_mask {A : Type} {SA : Scalar A} (s : Legendre A) :
  (0 <= m_numMeshIntervals (base s) -> 0 <= m_degree s ->
   m_numGridPoints (base s) = m_numMeshIntervals (base s) * (m_degree s + 1) + 1 ->
   exists row,
     LegendreGauss_createControlIndicesImpl s = Ok (row_vector row)
     /\ Z.of_nat (length row) = m_numGridPoints (base s)
     /\ (forall i j, 0 <= i < m_numMeshIntervals (base s) -> 1 <= j <= m_degree s ->
           row !! Z.to_nat (i * (m_degree s + 1) + j) = Some one)
     /\ (forall i, 0 <= i <= m_numMeshIntervals (base s) ->
           row !! Z.to_nat (i * (m_degree s + 1)) = Some zero))
  /\ (1 <= m_numGridPoints (base s) ->
      exists row,
        LegendreGaussRadau_createControlIndicesImpl s = Ok (row_vector row)
        /\ Z.of_nat (length row) = m_numGridPoints (base s)
        /\ row !! 0%nat = Some zero
        /\ forall k, (0 < k)%nat -> Z.of_nat k < m_numGridPoints (base s) ->
             row !! k = Some one)
  /\ (m_numGridPoints (base s) <= 0 ->
      LegendreGaussRadau_createControlIndicesImpl s = Throw CasadiException).
Proof.
  split; [|split].
  - intros HM Hd HG. unfold LegendreGauss_createControlIndicesImpl. cbv zeta.
    destruct (mark_control_points (m_numMeshIntervals (base s)) (m_degree s)
                (m_numGridPoints (base s)) HM Hd HG)
      as (row & Hrow & Hlen & Hone & Hzero).
    exists row. split; [exact Hrow|]. split; [nia|]. split; assumption.
  - intros HG. unfold LegendreGaussRadau_createControlIndicesImpl. cbv zeta.
    rewrite ones_row by lia. rewrite bind_Ok_l.
    rewrite DM_set_at_row by (rewrite length_replicate; lia).
    eexists. split; [reflexivity|]. rewrite length_insert, length_replicate.
    split; [lia|]. split.
    + apply list_lookup_insert_eq. rewrite length_replicate. lia.
    + intros k Hk HkG. change (Z.to_nat 0) with 0%nat.
      rewrite list_lookup_insert_ne by lia. apply lookup_replicate_2. lia.
  - intros HG. unfold LegendreGaussRadau_createControlIndicesImpl, ones. cbv zeta.
    case_decide; [|reflexivity]. rewrite bind_Ok_l.
    unfold DM_set_at, scalar_index, wrap, numel, columns, DM_fill. simpl.
    rewrite length_replicate. repeat case_decide; try lia; reflexivity.
Qed.

Lemma createControlIndices_mask_witness :
  LegendreGauss_createControlIndicesImpl gauss_example
  = Ok (row_vector [Q2Qc 0; Q2Qc 1; Q2Qc 1; Q2Qc 0; Q2Qc 1; Q2Qc 1; Q2Qc 0]).
Proof.
  destruct (proj1 (createControlIndices_mask gauss_example))
    as (row & -> & Hlen & Hone & Hzero); [simpl; lia | simpl; lia | reflexivity |].
  do 8 (destruct row as [|? row]; try discriminate Hlen).
  - pose proof (Hzero 0 ltac:(simpl; lia)) as H0.
    pose proof (Hone 0 1 ltac:(simpl; lia) ltac:(simpl; lia)) as H1.
    pose proof (Hone 0 2 ltac:(simpl; lia) ltac:(simpl; lia)) as H2.
    pose proof (Hzero 1 ltac:(simpl; lia)) as H3.
    pose proof (Hone 1 1 ltac:(simpl; lia) ltac:(simpl; lia)) as H4.
    pose proof (Hone 1 2 ltac:(simpl; lia) ltac:(simpl; lia)) as H5.
    pose proof (Hzero 2 ltac:(simpl; lia)) as H6.
    simpl in *. congruence.
  - simpl in Hlen. lia.
Defined.

(** ** expandConstraints: what it reads of [flat] and the shapes it returns *)

(** A property of the running state that every step of the traversal keeps
    is kept by the traversal. *)
Lemma expandConstraints_traverse_invariant {A : Type} {SA : Scalar A}
    (P : ExpandState A -> Prop) (t : Transcription A) (flat : list A) :
  (forall get set j s s', matrix_slot get set -> P s ->
     es_copy flat get set j s = Ok s' -> P s') ->
  (forall get set j s s', vector_slot get set -> P s ->
     es_copy_each flat get set j s = Ok s' -> P s') ->
  (forall s, P s -> P (es_next_itime_i s) /\ P (es_next_itime_f s)
                    /\ P (es_next_iparam s) /\ P (es_next_icon s)) ->
  forall s s', P s -> expandConstraints_traverse t flat s = Ok s' -> P s'.
Proof.
  intros Hcopy Heach Hnext.
  assert (forall imesh s1 s2, P s1 ->
            expandConstraints_interval t flat imesh s1 = Ok s2 -> P s2)
    as Hinterval.
  { intros imesh s1 s2 H1 H2. unfold expandConstraints_interval in H2.
    inv_bind H2. inv_bind H2. inv_bind H2. inv_bind H2. inv_bind H2.
    inv_bind H2. inv_bind H2.
    assert (P x) as Px.
    { revert Hx. apply forM_invariant; [|done]. intros _ s3 s4 H3 H4.
      inv_bind H4. injection H4 as <-.
      apply Hnext. eapply Hcopy; [constructor | exact H3 | exact Hx]. }
    assert (P x0) as Px0.
    { revert Hx0. apply forM_invariant; [|done]. intros _ s3 s4 H3 H4.
      inv_bind H4. injection H4 as <-.
      apply Hnext. eapply Hcopy; [constructor | exact H3 | exact Hx0]. }
    assert (P x1) as Px1.
    { revert Hx1. apply forM_invariant; [|done]. intros _ s3 s4 H3 H4.
      inv_bind H4. injection H4 as <-.
      apply Hnext. eapply Hcopy; [constructor | exact H3 | exact Hx1]. }
    assert (P x2) as Px2 by (eapply Hcopy; [constructor | exact Px1 | exact Hx2]).
    assert (P x3) as Px3.
    { revert Hx3. apply forM_invariant; [|done]. intros i s3 s4 H3 H4.
      inv_bind H4.
      eapply Hcopy; [constructor | | exact H4].
      eapply Hcopy; [constructor | exact H3 | exact Hx3]. }
    assert (P x4) as Px4 by (eapply Hcopy; [constructor | exact Px3 | exact Hx4]).
    assert (P x5) as Px5.
    { destruct (getEnforcePathConstraintMidpoints (m_solver t)).
      - revert Hx5. apply forM_invariant; [|done]. intros i s3 s4 H3 H4.
        eapply Heach; [constructor | exact H3 | exact H4].
      - eapply Heach; [constructor | exact Px4 | exact Hx5]. }
    case_decide; [|by injection H2 as <-].
    revert H2. apply forM_invariant; [|done]. intros _ s3 s4 H3 H4.
    inv_bind H4. injection H4 as <-.
    apply Hnext. eapply Hcopy; [constructor | exact H3 | exact Hx6]. }
  intros s s' Ps H. unfold expandConstraints_traverse in H.
  inv_bind H. inv_bind H. inv_bind H. inv_bind H. inv_bind H.
  assert (P x) as Px by (eapply Heach; [constructor | exact Ps | exact Hx]).
  assert (P x0) as Px0.
  { revert Hx0. apply forM_invariant; [|done]. intros; by eapply Hinterval. }
  assert (P x1) as Px1 by (eapply Hcopy; [constructor | exact Px0 | exact Hx1]).
  assert (P x2) as Px2 by (eapply Hcopy; [constructor | exact Px1 | exact Hx2]).
  assert (P x3) as Px3 by (eapply Hcopy; [constructor | exact Px2 | exact Hx3]).
  destruct (getEnforcePathConstraintMidpoints (m_solver t));
    (eapply Heach; [constructor | exact Px3 | exact H]).
Qed.

Lemma DM_set_col_shape {A : Type} (m m' : DM A) (j : Z) (v : list A) :
  DM_set_col m j v = Ok m' -> same_shape_as m m'.
Proof.
  unfold DM_set_col, DM_set_rows. intros H.
  destruct (slice_index _ _ _) as [[a n]|]; [simpl in H | discriminate].
  destruct (scalar_index _ _) as [k|]; [simpl in H | discriminate].
  destruct (rhs_fits n v); [|discriminate]. injection H as <-.
  split; [done|]. split; [apply length_alter|].
  intros Hwf. apply (wf_DM_written m a n k v Hwf).
Qed.

(** The lambda [copyColumn] of [expandConstraints] returns when the column
    lies within [flat], and also when it starts at the last entry of [flat]:
    CasADi cuts such a slice down to that entry, and the assignment spreads
    it over the column. *)
Lemma copyColumn_expand_clamped {A : Type} (flat : list A) (R : list nat)
    (iflat iflat' : Z) (m m' : DM A) (j : Z) :
  within_or_clamped (length flat) R iflat -> rows m ∈ R ->
  copyColumn_expand flat iflat m j = Ok (m', iflat') ->
  within_or_clamped (length flat) R iflat' /\ rows m' = rows m.
Proof.
  intros [Hnn Hcase] HR H. unfold copyColumn_expand in H.
  case_decide as Hrows; [|by injection H as <- <-].
  apply bind_Ok in H as (part & Hpart & H).
  apply bind_Ok in H as (m1 & Hset & H). injection H as <- <-.
  apply DM_set_col_shape in Hset as [Hr _]. rewrite Hr.
  apply vec_slice_inv in Hpart as [_ Hslice]; [|done].
  split; [|done]. split; [lia|].
  destruct Hslice as [Hin|[Hlast Hn]]; [left; lia|].
  right. split; [lia|]. exists (rows m). split; [done | lia].
Qed.

Lemma copyColumn_each_clamped {A : Type} (flat : list A) (R : list nat)
    (ms ms' : list (DM A)) (iflat iflat' : Z) (j : Z) :
  within_or_clamped (length flat) R iflat ->
  Forall (fun m => rows m ∈ R) ms ->
  copyColumn_each flat iflat ms j = Ok (ms', iflat') ->
  within_or_clamped (length flat) R iflat' /\ map rows ms' = map rows ms.
Proof.
  revert iflat ms'. induction ms as [|m ms IH]; intros iflat ms' Hi HR H; simpl in H.
  - by injection H as <- <-.
  - apply Forall_cons in HR as [Hm HR].
    apply bind_Ok in H as ([m1 i1] & Hcopy & H).
    apply bind_Ok in H as ([ms1 i2] & Heach & H). injection H as <- <-.
    apply (copyColumn_expand_clamped flat R) in Hcopy as [Hi1 Hr]; [|done|done].
    apply IH in Heach as [Hi2 Hrs]; [|done|done].
    split; [done|]. simpl. by rewrite Hr, Hrs.
Qed.

Lemma matrix_slot_rows {A : Type} (get : Constraints (DM A) -> DM A)
    (set : DM A -> Constraints (DM A) -> Constraints (DM A))
    (c : Constraints (DM A)) (m : DM A) :
  matrix_slot get set ->
  get c ∈ Constraints_matrices c
  /\ (rows m = rows (get c) ->
      map rows (Constraints_matrices (set m c)) = map rows (Constraints_matrices c)).
Proof.
  intros Hslot. unfold Constraints_matrices.
  destruct Hslot; (split; [set_solver | intros Hr; simpl; by rewrite Hr]).
Qed.

Lemma vector_slot_rows {A : Type} (get : Constraints (DM A) -> list (DM A))
    (set : list (DM A) -> Constraints (DM A) -> Constraints (DM A))
    (c : Constraints (DM A)) (ms : list (DM A)) :
  vector_slot get set ->
  (forall m, m ∈ get c -> m ∈ Constraints_matrices c)
  /\ (map rows ms = map rows (get c) ->
      map rows (Constraints_matrices (set ms c)) = map rows (Constraints_matrices c)).
Proof.
  intros Hslot. unfold Constraints_matrices.
  destruct Hslot; (split; [set_solver | intros Hr; simpl; by rewrite !map_app, Hr]).
Qed.

(** X14: [expandConstraints] returns only if [m_numConstraints] is not
    negative and [flat] has at least [m_numConstraints] entries, or [flat] is
    not empty and is short by fewer entries than the rows of one of the
    matrices returned: a column that starts at the last entry of [flat] is
    filled with that entry, every other column that reaches past the end of
    [flat] makes the function throw. *)
Theorem expandConstraints_needs_entries {A : Type} {SA : Scalar A}
    (t : Transcription A) (flat : list A) (out : Constraints (DM A)) :
  expandConstraints t flat = Ok out ->
  0 <= m_numConstraints t
  /\ (m_numConstraints t <= Z.of_nat (length flat)
      \/ ((0 < length flat)%nat
          /\ exists m, m ∈ Constraints_matrices out
               /\ m_numConstraints t - Z.of_nat (length flat) < Z.of_nat (rows m))).
Proof.
  intros H. unfold expandConstraints in H.
  apply bind_Ok in H as (out0 & _ & H).
  apply bind_Ok in H as (s' & Htraverse & H).
  apply bind_Ok in H as (u & Hcheck & H). injection H as <-.
  unfold OPENSIM_THROW_IF in Hcheck. case_bool_decide as Hn; [discriminate|].
  rewrite <- Hn.
  set (R := map rows (Constraints_matrices out0)).
  assert (map rows (Constraints_matrices (es_out s')) = R
          /\ within_or_clamped (length flat) R (es_iflat s')) as [HR [Hnn Hcase]].
  { apply (expandConstraints_traverse_invariant
             (fun s => map rows (Constraints_matrices (es_out s)) = R
                       /\ within_or_clamped (length flat) R (es_iflat s)) t flat)
      with (s := mkExpandState out0 0 0 0 0 0); [| | | | exact Htraverse].
    - intros get set j s s1 Hslot [Hs Hi] Hc. unfold es_copy in Hc.
      apply bind_Ok in Hc as ([m i] & Hcopy & Hc). injection Hc as <-.
      cbn [es_out es_iflat].
      destruct (matrix_slot_rows get set (es_out s) m Hslot) as [Hin Hset].
      apply (copyColumn_expand_clamped flat R) in Hcopy as [Hi' Hr]; [|done|].
      + split; [|done]. by rewrite Hset.
      + rewrite <- Hs. by apply list_elem_of_fmap_2.
    - intros get set j s s1 Hslot [Hs Hi] Hc. unfold es_copy_each in Hc.
      apply bind_Ok in Hc as ([ms i] & Hcopy & Hc). injection Hc as <-.
      cbn [es_out es_iflat].
      destruct (vector_slot_rows get set (es_out s) ms Hslot) as [Hin Hset].
      apply (copyColumn_each_clamped flat R) in Hcopy as [Hi' Hr]; [|done|].
      + split; [|done]. by rewrite Hset.
      + apply Forall_forall. intros m Hm. rewrite <- Hs.
        apply list_elem_of_fmap_2. by apply Hin.
    - intros s Hs. done.
    - split; [done|]. split; [simpl; lia | left; simpl; lia]. }
  split; [done|]. destruct Hcase as [Hin|[Hlen (r & Hr & Hshort)]]; [by left|].
  right. split; [done|]. rewrite <- HR in Hr.
  apply list_elem_of_fmap in Hr as (m & -> & Hm). by exists m.
Qed.

Lemma expandConstraints_needs_entries_witness :
  0 <= m_numConstraints (constraint_transcription 2 5)
  /\ (m_numConstraints (constraint_transcription 2 5)
      <= Z.of_nat (length [5; 8; 3; 4; 7; 0]%float)
      \/ ((0 < length [5; 8; 3; 4; 7; 0]%float)%nat
          /\ exists m, m ∈ Constraints_matrices example_constraints_expanded
               /\ m_numConstraints (constraint_transcription 2 5)
                  - Z.of_nat (length [5; 8; 3; 4; 7; 0]%float)
                  < Z.of_nat (rows m))).
Proof.
  apply (expandConstraints_needs_entries (constraint_transcription 2 5)
           [5; 8; 3; 4; 7; 0]%float example_constraints_expanded).
  vm_compute. reflexivity.
Defined.

Lemma same_shape_as_refl {A : Type} (m : DM A) : same_shape_as m m.
Proof. by repeat split. Qed.

Lemma same_shape_as_trans {A : Type} (m1 m2 m3 : DM A) :
  same_shape_as m1 m2 -> same_shape_as m2 m3 -> same_shape_as m1 m3.
Proof.
  intros (Hr & Hc & Hwf) (Hr' & Hc' & Hwf'). unfold same_shape_as.
  split; [congruence|]. split; [congruence | auto].
Qed.

Lemma Forall2_same_shape_as_trans {A : Type} (l1 l2 l3 : list (DM A)) :
  Forall2 same_shape_as l1 l2 -> Forall2 same_shape_as l2 l3 ->
  Forall2 same_shape_as l1 l3.
Proof.
  intros H12. revert l3. induction H12 as [|m1 m2 l1 l2 Hm H12 IH]; intros l3 H23.
  - by inversion H23.
  - inversion H23 as [|? m3 ? l3' Hm' H23']; subst.
    constructor; [by eapply same_shape_as_trans | by apply IH].
Qed.

Lemma copyColumn_expand_shape {A : Type} (flat : list A) (iflat iflat' : Z)
    (m m' : DM A) (j : Z) :
  copyColumn_expand flat iflat m j = Ok (m', iflat') -> same_shape_as m m'.
Proof.
  intros H. unfold copyColumn_expand in H.
  case_decide; [|injection H as <- <-; apply same_shape_as_refl].
  inv_bind H. inv_bind H. injection H as <- <-. by eapply DM_set_col_shape.
Qed.

Lemma copyColumn_each_shape {A : Type} (flat : list A) (ms ms' : list (DM A))
    (iflat iflat' : Z) (j : Z) :
  copyColumn_each flat iflat ms j = Ok (ms', iflat') ->
  Forall2 same_shape_as ms ms'.
Proof.
  revert iflat ms'. induction ms as [|m ms IH]; intros iflat ms' H; simpl in H.
  - injection H as <- <-. constructor.
  - inv_bind H. destruct x as [m1 i1]. inv_bind H. destruct x as [ms1 i2].
    injection H as <- <-.
    constructor; [by eapply copyColumn_expand_shape | by eapply IH].
Qed.

Lemma Constraints_same_shapes_traverse {A : Type} {SA : Scalar A}
    (t : Transcription A) (flat : list A) (init : Constraints (DM A))
    (s s' : ExpandState A) :
  Constraints_same_shapes init (es_out s) ->
  expandConstraints_traverse t flat s = Ok s' ->
  Constraints_same_shapes init (es_out s').
Proof.
  apply (expandConstraints_traverse_invariant
           (fun s => Constraints_same_shapes init (es_out s)) t flat).
  - intros get set j s1 s2 Hslot Hs Hc. unfold es_copy in Hc.
    inv_bind Hc. destruct x as [m i]. injection Hc as <-. simpl.
    apply copyColumn_expand_shape in Hx.
    destruct Hs as (H1 & H2 & H3 & H4 & H5 & H6 & H7 & H8 & H9 & H10).
    destruct Hslot; unfold Constraints_same_shapes; simpl;
      repeat (split; [first [assumption | by eapply same_shape_as_trans]|]);
      first [assumption | by eapply same_shape_as_trans].
  - intros get set j s1 s2 Hslot Hs Hc. unfold es_copy_each in Hc.
    inv_bind Hc. destruct x as [ms i]. injection Hc as <-. simpl.
    apply copyColumn_each_shape in Hx.
    destruct Hs as (H1 & H2 & H3 & H4 & H5 & H6 & H7 & H8 & H9 & H10).
    destruct Hslot; unfold Constraints_same_shapes; simpl;
      repeat (split; [first [assumption | by eapply Forall2_same_shape_as_trans]|]);
      first [assumption | by eapply Forall2_same_shape_as_trans].
  - intros s1 Hs. done.
Qed.

Lemma dense_shape {A : Type} {SA : Scalar A} (r c : Z) (m : DM A) :
  dense r c = Ok m -> has_shape m (Z.to_nat r) (Z.to_nat c).
Proof.
  unfold dense. case_decide; [|discriminate]. intros [= <-].
  unfold has_shape, wf_DM, columns, DM_fill. simpl.
  split; [|by rewrite length_replicate].
  apply Forall_replicate. apply length_replicate.
Qed.

Lemma init_blocks_length {A : Type} {SA : Scalar A} (infos : list Z) (count : nat)
    (numColumns : Z) (blocks : list (DM A)) :
  init_blocks infos count numColumns = Ok blocks -> length blocks = length infos.
Proof.
  unfold init_blocks, for_range.
  apply (forM_invariant (fun blocks : list (DM A) => length blocks = length infos)).
  - intros i s1 s2 Hs Hbody.
    destruct (infos !! Z.to_nat i); [|discriminate].
    inv_bind Hbody. injection Hbody as <-. by rewrite length_insert.
  - apply length_replicate.
Qed.

Lemma has_shape_same_shape_as {A : Type} (m m' : DM A) (r c : nat) :
  has_shape m r c -> same_shape_as m m' -> has_shape m' r c.
Proof.
  intros (Hwf & Hr & Hc) (Hr' & Hc' & Hwf'). unfold has_shape.
  split; [auto|]. split; congruence.
Qed.

(** X15: what [expandConstraints] returns has the shapes it allocated,
    whatever [flat] holds: one row per time constraint, the counted rows of
    defects, residuals and kinematic constraints, and one matrix per endpoint
    and per path constraint info. *)
Theorem expandConstraints_shapes {A : Type} {SA : Scalar A}
    (t : Transcription A) (flat : list A) (out : Constraints (DM A)) :
  expandConstraints t flat = Ok out ->
  has_shape (con_initial_time out) 1 (Z.to_nat (m_numParameterConstraints t))
  /\ has_shape (con_final_time out) 1 (Z.to_nat (m_numParameterConstraints t))
  /\ has_shape (con_parameters out) (Z.to_nat (m_numParameterConstraints t))
       (Z.to_nat (m_numMeshPoints t - 1))
  /\ has_shape (con_defects out) (Z.to_nat (m_numDefectsPerMeshInterval t))
       (Z.to_nat (m_numMeshPoints t - 1))
  /\ has_shape (con_multibody_residuals out) (Z.to_nat (m_numMultibodyResiduals t))
       (Z.to_nat (m_numGridPoints t))
  /\ has_shape (con_auxiliary_residuals out) (Z.to_nat (m_numAuxiliaryResiduals t))
       (Z.to_nat (m_numGridPoints t))
  /\ has_shape (con_kinematic out)
       (Z.to_nat (getNumKinematicConstraintEquations (m_problem t)))
       (Z.to_nat (m_numMeshPoints t))
  /\ has_shape (con_interp_controls out) (Z.to_nat (getNumControls (m_problem t)))
       (length (m_pointsForInterpControls t))
  /\ length (con_endpoint out) = length (getEndpointConstraintInfos (m_problem t))
  /\ length (con_path out) = length (getPathConstraintInfos (m_problem t)).
Proof.
  intros H. unfold expandConstraints in H.
  apply bind_Ok in H as (init & Hinit & H).
  apply bind_Ok in H as (s & Hs & H).
  apply bind_Ok in H as (_ & _ & [= <-]).
  apply (Constraints_same_shapes_traverse t flat init) in Hs.
  2: { simpl. unfold Constraints_same_shapes.
       repeat (split; [apply same_shape_as_refl|]).
       split; apply Forall2_same_length_lookup_2; try done;
         intros; simplify_eq; apply same_shape_as_refl. }
  destruct Hs as (H1 & H2 & H3 & H4 & H5 & H6 & H7 & H8 & H9 & H10).
  unfold expandConstraints_init in Hinit. cbv zeta in Hinit.
  apply bind_Ok in Hinit as (m1 & E1%dense_shape & Hinit).
  apply bind_Ok in Hinit as (m2 & E2%dense_shape & Hinit).
  apply bind_Ok in Hinit as (m3 & E3%dense_shape & Hinit).
  apply bind_Ok in Hinit as (m4 & E4%dense_shape & Hinit).
  apply bind_Ok in Hinit as (m5 & E5%dense_shape & Hinit).
  apply bind_Ok in Hinit as (m6 & E6%dense_shape & Hinit).
  apply bind_Ok in Hinit as (m7 & E7%dense_shape & Hinit).
  apply bind_Ok in Hinit as (ms8 & E8%init_blocks_length & Hinit).
  apply bind_Ok in Hinit as (ms9 & E9%init_blocks_length & Hinit).
  apply bind_Ok in Hinit as (m10 & E10%dense_shape & [= <-]).
  simpl in *. rewrite Nat2Z.id in E10.
  apply Forall2_length in H9, H10.
  split; [exact (has_shape_same_shape_as _ _ _ _ E1 H1)|].
  split; [exact (has_shape_same_shape_as _ _ _ _ E2 H2)|].
  split; [exact (has_shape_same_shape_as _ _ _ _ E3 H3)|].
  split; [exact (has_shape_same_shape_as _ _ _ _ E4 H4)|].
  split; [exact (has_shape_same_shape_as _ _ _ _ E5 H5)|].
  split; [exact (has_shape_same_shape_as _ _ _ _ E6 H6)|].
  split; [exact (has_shape_same_shape_as _ _ _ _ E7 H7)|].
  split; [exact (has_shape_same_shape_as _ _ _ _ E10 H8)|].
  split; congruence.
Qed.

Lemma expandConstraints_shapes_witness :
  has_shape (con_initial_time example_constraints_expanded) 1 2
  /\ has_shape (con_parameters example_constraints_expanded) 2 1.
Proof.
  destruct (expandConstraints_shapes (constraint_transcription 2 5)
              [5; 8; 3; 4; 7]%float example_constraints_expanded)
    as (H1 & _ & H3 & _); [vm_compute; reflexivity|].
  split; [exact H1 | exact H3].
Defined.

(** ** The defects of the Legendre-Gauss scheme *)

Lemma element_Ok {T : Type} (v : list T) (i : nat) (x : T) :
  v !! i = Some x -> element v (Z.of_nat i) = Ok x.
Proof.
  intros H. unfold element. case_decide; [|lia]. by rewrite Nat2Z.id, H.
Qed.

(** The end state of an interval minus its interpolation from the interval's
    other states. *)
Lemma end_state_column {A : Type} {SA : Scalar A} (x_i C : DM A) (x_ip1 : list A)
    (NS d : nat) :
  has_shape x_i NS (S d) -> has_shape C (S d) 1 -> length x_ip1 = NS ->
  exists interpolated end_state,
    mtimes x_i C = Ok interpolated
    /\ DM_binary sub (column_vector x_ip1) interpolated = Ok end_state
    /\ length (veccat (cols end_state)) = NS
    /\ forall r, (r < NS)%nat ->
         veccat (cols end_state) !! r
         = Some (sub (vec_get x_ip1 r) (dot (DM_row x_i r) (DM_column C 0))).
Proof.
  intros (Hwx & Hrx & Hcx) (HwC & HrC & HcC) Hlen.
  unfold columns in HcC.
  destruct (cols C) as [|c0 [|? ?]] eqn:HC; try discriminate HcC.
  unfold mtimes. case_decide; [|lia]. rewrite HC. simpl.
  eexists. eexists. split; [reflexivity|].
  rewrite DM_binary_same_shape.
  - split; [reflexivity|]. unfold veccat. simpl. rewrite app_nil_r.
    split; [rewrite length_zip_with, length_map, length_seq; lia|].
    intros r Hr. rewrite lookup_zip_with, list_lookup_fmap.
    rewrite lookup_seq_lt by lia. simpl.
    destruct (lookup_lt_is_Some_2 x_ip1 r) as [y Hy]; [lia|].
    unfold vec_get, DM_column. rewrite Hy, HC. reflexivity.
  - unfold wf_DM, column_vector. simpl. by constructor.
  - unfold wf_DM. simpl. constructor; [|constructor].
    by rewrite length_map, length_seq.
  - simpl. lia.
  - reflexivity.
Qed.

Section GaussDefects.
Context {A : Type} {SA : Scalar A}.
Variables (s : LegendreGauss A) (x xdot : list (DM A)).
Variables (M d NS : nat).
Hypothesis Hd : m_degree (legendre s) = Z.of_nat d.
Hypothesis HNS : getNumStates (m_problem (base (legendre s))) = Z.of_nat NS.
Hypothesis Hintervals : length (m_intervals s) = M.
Hypothesis Hx : length x = M /\ Forall (fun m => has_shape m NS (d + 2)) x.
Hypothesis Hxdot : length xdot = M /\ Forall (fun m => has_shape m NS (d + 2)) xdot.
Hypothesis HC : has_shape (m_interpolationCoefficients s) (d + 1) 1.
Hypothesis HD : has_shape (m_differentiationMatrix (legendre s)) (d + 1) d.

(** One pass of the loop writes column [imesh] of the defects and no other. *)
Lemma LegendreGauss_calcDefects_interval_spec (imesh : nat) (defects : DM A) :
  (imesh < M)%nat -> has_shape defects ((d + 1) * NS) M ->
  exists defects',
    LegendreGauss_calcDefects_interval s x xdot (Z.of_nat imesh) defects
    = Ok defects'
    /\ has_shape defects' ((d + 1) * NS) M
    /\ (forall j, j <> imesh -> cols defects' !! j = cols defects !! j)
    /\ LegendreGauss_defect_column s x xdot defects' imesh.
Proof.
  intros Himesh Hdef.
  destruct Hx as [Hlx Hfx], Hxdot as [Hlxd Hfxd], HD as (HwD & HrD & HcD).
  destruct (lookup_lt_is_Some_2 x imesh) as [xm Hxm]; [lia|].
  destruct (lookup_lt_is_Some_2 xdot imesh) as [xdm Hxdm]; [lia|].
  pose proof (proj1 (Forall_lookup _ _) Hfx imesh xm Hxm) as Hsxm.
  pose proof (proj1 (Forall_lookup _ _) Hfxd imesh xdm Hxdm) as Hsxdm.
  destruct Hsxm as (Hwxm & Hrxm & Hcxm), Hsxdm as (Hwxdm & Hrxdm & Hcxdm).
  set (result := LegendreGauss_calcDefects_interval s x xdot (Z.of_nat imesh)
                   defects).
  assert (result = LegendreGauss_calcDefects_interval s x xdot (Z.of_nat imesh)
                     defects) as Hf by reflexivity.
  unfold LegendreGauss_calcDefects_interval in Hf. cbv zeta in Hf.
  rewrite Hd, HNS in Hf.
  rewrite vec_at_get in Hf by lia.
  rewrite !(element_Ok x imesh xm), !(element_Ok xdot imesh xdm) in Hf by done.
  repeat first [ rewrite bind_Ok_l in Hf
               | (rewrite DM_cols_Ok in Hf by lia)
               | (rewrite DM_col_Ok in Hf by lia) ].
  change (Z.to_nat 0) with 0%nat in Hf. change (Z.to_nat 1) with 1%nat in Hf.
  replace (Z.to_nat (Z.of_nat d + 1 - 0)) with (d + 1)%nat in Hf by lia.
  replace (Z.to_nat (Z.of_nat d + 1 - 1)) with d in Hf by lia.
  replace (Z.to_nat (Z.of_nat d + 1)) with (d + 1)%nat in Hf by lia.
  rewrite Nat2Z.id in Hf.
  set (h := vec_get (m_intervals s) imesh) in Hf.
  assert (has_shape (DM_block xm 0 (d + 1)) NS (S d)) as Hx_i.
  { replace (S d) with (d + 1)%nat by lia.
    apply (has_shape_DM_block xm _ _ NS (d + 2)); [done | lia]. }
  assert (has_shape (DM_block xdm 1 d) NS d) as Hxd_i.
  { apply (has_shape_DM_block xdm _ _ NS (d + 2)); [done | lia]. }
  (* the end state *)
  destruct (end_state_column (DM_block xm 0 (d + 1))
              (m_interpolationCoefficients s) (DM_column xm (d + 1)) NS d)
    as (interp & end_state & Hinterp & Hend & Hlend & Hentries_end).
  { done. }
  { replace (S d) with (d + 1)%nat by lia. done. }
  { rewrite length_DM_column; [done | done | lia]. }
  rewrite Hinterp, bind_Ok_l, Hend, bind_Ok_l in Hf.
  destruct Hdef as (Hwdef & Hrdef & Hcdef).
  rewrite DM_set_rows_written, !bind_Ok_l in Hf by (rewrite ?Hlend; nia).
  change (Z.to_nat 0) with 0%nat in Hf.
  replace (Z.to_nat (Z.of_nat NS - 0)) with NS in Hf by lia.
  rewrite Nat2Z.id in Hf.
  set (m1 := DM_written defects _ _ _ _) in Hf.
  assert (has_shape m1 ((d + 1) * NS) M) as Hm1
    by (by apply has_shape_DM_written).
  (* the residual *)
  destruct Hx_i as (Hwx_i & Hrx_i & Hcx_i), Hxd_i as (Hwxd_i & Hrxd_i & Hcxd_i).
  destruct (residual_columns h (DM_block xm 0 (d + 1)) (DM_block xdm 1 d)
              (m_differentiationMatrix (legendre s)) NS d)
    as (residual & Hres & Hwres & Hrres & Hcres & Hentries); try done; [lia|].
  apply bind_Ok in Hres as (scaled & Hscaled & Hres).
  apply bind_Ok in Hres as (prod & Hprod & Hres).
  rewrite Hscaled, bind_Ok_l, Hprod, bind_Ok_l, Hres, bind_Ok_l in Hf.
  clear Hscaled Hprod Hres scaled prod.
  (* the loop over the interior points *)
  set (Rinv := fun (e : Z) (m : DM A) =>
    has_shape m ((d + 1) * NS) M
    /\ (forall j, j <> imesh -> cols m !! j = cols m1 !! j)
    /\ (forall i, (i < NS)%nat -> entry m i imesh = entry m1 i imesh)
    /\ (forall e' r, Z.of_nat e' < e -> (r < NS)%nat ->
          entry m ((e' + 1) * NS + r) imesh = DM_column residual e' !! r)).
  destruct (for_range_invariant Rinv
    (fun d0 defects0 =>
       r ← DM_col residual d0;
       DM_set_rows defects0 ((d0 + 1) * Z.of_nat NS) ((d0 + 2) * Z.of_nat NS)
         (Z.of_nat imesh) r)
    (Z.of_nat d) m1) as (m2 & Hm2 & Hshape2 & Hother2 & Hlow2 & Hres2).
  - lia.
  - unfold Rinv. split; [done|]. split; [done|]. split; [done|]. intros; lia.
  - intros e m He (Hsm & Hother & Hlow & Hdone).
    destruct Hsm as (Hwm & Hrm & Hcm).
    rewrite DM_col_Ok, bind_Ok_l by lia.
    rewrite DM_set_rows_written
      by (rewrite ?length_DM_column by (done || lia); nia).
    eexists. split; [reflexivity|].
    replace (Z.to_nat ((e + 1) * Z.of_nat NS))
      with ((Z.to_nat e + 1) * NS)%nat by nia.
    replace (Z.to_nat ((e + 2) * Z.of_nat NS - (e + 1) * Z.of_nat NS))
      with NS by nia.
    rewrite Nat2Z.id.
    split; [by apply has_shape_DM_written|].
    split; [intros j Hj; rewrite cols_DM_written_ne by done; by apply Hother|].
    split.
    { intros i Hi. rewrite entry_DM_written_outside by (right; nia).
      by apply Hlow. }
    intros e' r He' Hr. destruct (decide (e' = Z.to_nat e)) as [->|Hne].
    + rewrite entry_DM_written_inside;
        [f_equal; lia | done | lia | nia
         | rewrite length_DM_column; [done | done | lia] | lia].
    + rewrite entry_DM_written_outside by (right; nia).
      apply Hdone; lia.
  - exists m2. split; [rewrite Hf; exact Hm2|]. split; [done|].
    split.
    { intros j Hj. rewrite Hother2 by done. unfold m1.
      by rewrite cols_DM_written_ne by done. }
    unfold LegendreGauss_defect_column. cbv zeta.
    rewrite Hd, HNS, !Nat2Z.id, Hxm, Hxdm. simpl. fold h.
    split.
    { intros r Hr. rewrite Hlow2 by done. unfold m1.
      rewrite entry_DM_written_inside; [| done | lia | lia | done | lia].
      rewrite Nat.sub_0_r, Hentries_end by done.
      unfold vec_get.
      rewrite (DM_column_lookup xm r (d + 1)) by (done || lia). reflexivity. }
    intros e r He Hr. rewrite Hres2 by lia. rewrite Hentries by done.
    rewrite (DM_get_DM_block xdm 1 d r e) by done. reflexivity.
Qed.
End GaussDefects.

Lemma LegendreGauss_defect_column_ext {A : Type} {SA : Scalar A}
    (s : LegendreGauss A) (x xdot : list (DM A)) (defects defects' : DM A)
    (imesh : nat) :
  cols defects' !! imesh = cols defects !! imesh ->
  LegendreGauss_defect_column s x xdot defects imesh ->
  LegendreGauss_defect_column s x xdot defects' imesh.
Proof.
  intros Hcol. unfold LegendreGauss_defect_column, entry. by rewrite Hcol.
Qed.

(** X16: for the Legendre-Gauss scheme on [M] mesh intervals of degree [d] with
    [NS] states, and inputs of the matching shapes, [calcDefectsImpl] returns
    and column [imesh] of the defects holds: in the first NS rows the end
    state x(:, d+1) of the interval minus (the interval's first d+1 state
    columns) * (interpolation coefficients); and for each interior point
    e < d, in the NS rows from (e+1)*NS on, h * xdot(:, 1+e) - (the same state
    columns) * (column e of the differentiation matrix), h being the
    interval's duration. *)
Theorem LegendreGauss_defects {A : Type} {SA : Scalar A} (s : LegendreGauss A)
    (x xdot : list (DM A)) (defects : DM A) (M d NS : nat) :
  m_numMeshIntervals (base (legendre s)) = Z.of_nat M ->
  m_degree (legendre s) = Z.of_nat d ->
  getNumStates (m_problem (base (legendre s))) = Z.of_nat NS ->
  length (m_intervals s) = M ->
  length x = M /\ Forall (fun m => has_shape m NS (d + 2)) x ->
  length xdot = M /\ Forall (fun m => has_shape m NS (d + 2)) xdot ->
  has_shape (m_interpolationCoefficients s) (d + 1) 1 ->
  has_shape (m_differentiationMatrix (legendre s)) (d + 1) d ->
  has_shape defects ((d + 1) * NS) M ->
  exists defects',
    LegendreGauss_calcDefectsImpl s x xdot defects = Ok defects'
    /\ has_shape defects' ((d + 1) * NS) M
    /\ forall imesh, (imesh < M)%nat ->
         LegendreGauss_defect_column s x xdot defects' imesh.
Proof.
  intros HM Hd HNS Hintervals Hx Hxdot HC HD Hdefects.
  unfold LegendreGauss_calcDefectsImpl. rewrite HM.
  set (P := fun (k : Z) (m : DM A) =>
    has_shape m ((d + 1) * NS) M
    /\ forall imesh, Z.of_nat imesh < k ->
         LegendreGauss_defect_column s x xdot m imesh).
  destruct (for_range_invariant P (LegendreGauss_calcDefects_interval s x xdot)
              (Z.of_nat M) defects) as (defects' & Hrun & Hshape & Hcolumns).
  - lia.
  - split; [done|]. intros; lia.
  - intros k m Hk (Hm & Hdone).
    destruct (LegendreGauss_calcDefects_interval_spec s x xdot M d NS
                Hd HNS Hintervals Hx Hxdot HC HD (Z.to_nat k) m)
      as (m' & Hm' & Hshape' & Hother & Hcolumn); [lia | done |].
    rewrite Z2Nat.id in Hm' by lia.
    exists m'. split; [done|]. split; [done|].
    intros imesh Himesh. destruct (decide (imesh = Z.to_nat k)) as [->|Hne].
    + done.
    + apply (LegendreGauss_defect_column_ext s x xdot m).
      * by apply Hother.
      * apply Hdone. lia.
  - exists defects'. split; [done|]. split; [done|].
    intros imesh Himesh. apply Hcolumns. lia.
Qed.

Lemma LegendreGauss_defects_witness :
  exists defects',
    LegendreGauss_calcDefectsImpl gauss_defects_example gauss_states
      gauss_derivatives (DM_fill 3 2 (Q2Qc 1)) = Ok defects'
    /\ has_shape defects' ((2 + 1) * 1) 2
    /\ forall imesh, (imesh < 2)%nat ->
         LegendreGauss_defect_column gauss_defects_example gauss_states
           gauss_derivatives defects' imesh.
Proof.
  apply (LegendreGauss_defects gauss_defects_example gauss_states
           gauss_derivatives (DM_fill 3 2 (Q2Qc 1)) 2 2 1); try reflexivity.
  all: try (split; [reflexivity|]; repeat constructor).
  all: split; [repeat constructor | split; reflexivity].
Defined.

(** ** getVariableOrder: every variable column is listed once *)

Lemma elem_of_concat_map {X Y : Type} (f : Y -> list X) (l : list Y) (x : X) :
  x ∈ concat (map f l) <-> exists y, y ∈ l /\ x ∈ f y.
Proof.
  induction l as [|y l IH]; simpl.
  - split; [by intros ?%elem_of_nil | by intros (y & ?%elem_of_nil & _)].
  - rewrite elem_of_app, IH. split.
    + intros [H|(y' & Hy' & H)]; [exists y | exists y']; set_solver.
    + intros (y' & [->|Hy']%elem_of_cons & H); [by left | right; eauto].
Qed.

Lemma NoDup_concat_map {X Y : Type} (f : Y -> list X) (l : list Y) :
  NoDup l -> (forall y, y ∈ l -> NoDup (f y)) ->
  (forall y1 y2 x, y1 ∈ l -> y2 ∈ l -> x ∈ f y1 -> x ∈ f y2 -> y1 = y2) ->
  NoDup (concat (map f l)).
Proof.
  induction l as [|y l IH]; intros Hl Hf Hdisj; simpl; [constructor|].
  apply NoDup_cons in Hl as [Hy Hl]. apply NoDup_app. split; [|split].
  - apply Hf. by left.
  - intros x Hx (y' & Hy' & Hx')%elem_of_concat_map.
    assert (y = y') as -> by (eapply Hdisj; eauto; set_solver). done.
  - apply IH; [done | |].
    + intros y' Hy'. apply Hf. by right.
    + intros y1 y2 x H1 H2. apply Hdisj; by right.
Qed.

(** The quotient that tells the mesh interval of a grid index. *)
Lemma interval_of_grid_index (N imesh i : Z) :
  0 <= i < N -> (imesh * N + i) / N = imesh.
Proof.
  intros Hi. rewrite Z.add_comm, Z.div_add by lia. rewrite Z.div_small by lia. lia.
Qed.

(** X17: for the Legendre-Gauss scheme ([numPointsPerMeshInterval] is the
    degree plus two) [getVariableOrder] lists no (kind, column) pair twice, and
    it lists the columns of the states, of the multipliers and of the
    derivatives of every grid point, and of no other index. *)
Theorem LegendreGauss_getVariableOrder_once {A : Type} (s : Legendre A) :
  0 <= m_numMeshIntervals (base s) -> 0 <= m_degree s ->
  m_numPointsPerMeshInterval (base s) = m_degree s + 2 ->
  m_numGridPoints (base s) = m_numMeshIntervals (base s) * (m_degree s + 1) + 1 ->
  NoDup (LegendreGauss_getVariableOrder s)
  /\ forall kind g, kind ∈ [states; multipliers; derivatives] ->
       ((kind, g) ∈ LegendreGauss_getVariableOrder s
        <-> 0 <= g < m_numGridPoints (base s)).
Proof.
  intros HM Hd HN HG. unfold LegendreGauss_getVariableOrder. cbv zeta.
  rewrite HN, HG.
  replace (m_degree s + 2 - 1) with (m_degree s + 1) by lia.
  replace (m_numMeshIntervals (base s) * (m_degree s + 1) + 1 - 1)
    with (m_numMeshIntervals (base s) * (m_degree s + 1)) by lia.
  set (M := m_numMeshIntervals (base s)) in *.
  set (d := m_degree s) in *.
  set (b := getInterpolateControlMeshInteriorPoints (m_solver (base s))).
  match goal with
  | |- NoDup (concat (map ?f _) ++ _) /\ _ => set (block := f)
  end.
  set (owner := fun x : Var * Z =>
    match x.1 with
    | initial_time | final_time | parameters => x.2
    | projection_states | slacks => x.2 + 1
    | controls => if b then (x.2 - 1) / (d + 1) else x.2 / (d + 1)
    | _ => x.2 / (d + 1)
    end).
  assert (forall i x, x ∈ block i -> owner x = i) as Howner.
  { intros i x Hx. unfold block in Hx. map_as_fmap.
    destruct b; case_decide; set_unfold;
      repeat (destruct Hx as [Hx|Hx]);
      try destruct Hx as (x0 & -> & Hx0); subst; unfold owner; simpl;
      rewrite ?Z.add_simpl_r, ?interval_of_grid_index by lia; lia. }
  assert (forall i, NoDup (block i)) as Hblock.
  { intros i. unfold block. map_as_fmap.
    destruct b; case_decide;
      repeat first
        [ apply NoDup_nil_2
        | apply NoDup_fmap_2; [intros ? ? [= ?]; lia | apply NoDup_seqZ]
        | apply NoDup_cons_2
        | apply NoDup_app; split; [|split] ];
      set_solver. }
  assert (forall x,
            x ∈ [(initial_time, M); (final_time, M); (parameters, M);
                 (projection_states, M - 1); (slacks, M - 1);
                 (states, M * (d + 1))]
                ++ (if b then [] else [(controls, M * (d + 1))])
                ++ [(multipliers, M * (d + 1)); (derivatives, M * (d + 1))] ->
            owner x = M) as Htail.
  { intros x Hx. destruct b; set_unfold;
      repeat (destruct Hx as [Hx|Hx]); subst; unfold owner; simpl;
      rewrite ?Z.div_mul by lia; lia. }
  split.
  - apply NoDup_app. split; [|split].
    + apply NoDup_concat_map; [apply NoDup_seqZ | intros; apply Hblock |].
      intros y1 y2 x _ _ H1%Howner H2%Howner. congruence.
    + intros x (i & Hi%elem_of_seqZ & Hx%Howner)%elem_of_concat_map Hx'%Htail. lia.
    + destruct b;
        repeat first [apply NoDup_nil_2 | apply NoDup_cons_2];
        set_solver.
  - intros kind g Hkind. rewrite elem_of_app, elem_of_concat_map. split.
    + intros [(i & Hi%elem_of_seqZ & Hx)|Hx].
      * unfold block in Hx. map_as_fmap.
        destruct b; case_decide; set_unfold;
          repeat (destruct Hx as [Hx|Hx]);
          try destruct Hx as (x0 & [= -> ->] & Hx0);
          try (injection Hx as -> ->); set_solver by nia.
      * destruct b; set_unfold;
          repeat (destruct Hx as [Hx|Hx]); try (injection Hx as -> ->);
          set_solver by nia.
    + intros Hg. destruct (decide (g < M * (d + 1))) as [Hlt|Hge].
      * left. exists (g / (d + 1)).
        pose proof (Z.div_mod g (d + 1) ltac:(lia)) as Hdiv.
        pose proof (Z.mod_pos_bound g (d + 1) ltac:(lia)) as Hmod.
        assert (0 <= g / (d + 1) < M) as Hq
          by (split; [apply Z.div_pos; lia | apply Z.div_lt_upper_bound; lia]).
        split; [apply elem_of_seqZ; lia|].
        unfold block. map_as_fmap.
        destruct b; case_decide; set_unfold;
          destruct Hkind as [->|[->|[->|[]]]];
          repeat first
            [ left; exists (g `mod` (d + 1)); split; [f_equal; nia | lia]
            | right ];
          exists (g `mod` (d + 1)); (split; [f_equal; nia | lia]).
      * right. assert (g = M * (d + 1)) as -> by lia.
        destruct b; set_unfold; destruct Hkind as [->|[->|[->|[]]]]; tauto.
Qed.

Lemma LegendreGauss_getVariableOrder_once_witness :
  NoDup (LegendreGauss_getVariableOrder (order_example 4 7))
  /\ forall kind g, kind ∈ [states; multipliers; derivatives] ->
       ((kind, g) ∈ LegendreGauss_getVariableOrder (order_example 4 7)
        <-> 0 <= g < 7).
Proof.
  apply (LegendreGauss_getVariableOrder_once (order_example 4 7));
    simpl; (lia || reflexivity).
Defined.

(** X18: for the Legendre-Gauss-Radau scheme ([numPointsPerMeshInterval] is
    the degree plus one, the degree at least one) [getVariableOrder] lists no
    (kind, column) pair twice, and it lists the columns of the states, of the
    multipliers and of the derivatives of every grid point, and of no other
    index. *)
Theorem LegendreGaussRadau_getVariableOrder_once {A : Type} (s : Legendre A) :
  0 <= m_numMeshIntervals (base s) -> 1 <= m_degree s ->
  m_numPointsPerMeshInterval (base s) = m_degree s + 1 ->
  m_numGridPoints (base s) = m_numMeshIntervals (base s) * m_degree s + 1 ->
  NoDup (LegendreGaussRadau_getVariableOrder s)
  /\ forall kind g, kind ∈ [states; multipliers; derivatives] ->
       ((kind, g) ∈ LegendreGaussRadau_getVariableOrder s
        <-> 0 <= g < m_numGridPoints (base s)).
Proof.
  intros HM Hd HN HG. unfold LegendreGaussRadau_getVariableOrder. cbv zeta.
  rewrite HN, HG.
  replace (m_degree s + 1 - 1) with (m_degree s) by lia.
  replace (m_numMeshIntervals (base s) * m_degree s + 1 - 1)
    with (m_numMeshIntervals (base s) * m_degree s) by lia.
  set (M := m_numMeshIntervals (base s)) in *.
  set (d := m_degree s) in *.
  set (b := getInterpolateControlMidpoints (m_solver (base s))).
  match goal with
  | |- NoDup (concat (map ?f _) ++ _) /\ _ => set (block := f)
  end.
  set (owner := fun x : Var * Z =>
    match x.1 with
    | initial_time | final_time | parameters | slacks | projection_states => x.2
    | _ => x.2 / d
    end).
  assert (forall i x, x ∈ block i -> owner x = i) as Howner.
  { intros i x Hx. unfold block in Hx. map_as_fmap.
    destruct b; set_unfold;
      repeat (destruct Hx as [Hx|Hx]);
      try destruct Hx as (x0 & -> & Hx0); subst; unfold owner; simpl;
      rewrite ?(Z.mul_comm d i), ?Z.div_mul, ?interval_of_grid_index by lia; lia. }
  assert (forall i, NoDup (block i)) as Hblock.
  { intros i. unfold block. map_as_fmap.
    destruct b;
      repeat first
        [ apply NoDup_nil_2
        | apply NoDup_fmap_2; [intros ? ? [= ?]; lia | apply NoDup_seqZ]
        | apply NoDup_cons_2
        | apply NoDup_app; split; [|split] ];
      set_solver by lia. }
  assert (forall x,
            x ∈ [(states, M * d); (initial_time, M); (final_time, M);
                 (parameters, M)]
                ++ (if b then [] else [(controls, M * d)])
                ++ [(multipliers, M * d); (derivatives, M * d)] ->
            owner x = M) as Htail.
  { intros x Hx. destruct b; set_unfold;
      repeat (destruct Hx as [Hx|Hx]); subst; unfold owner; simpl;
      rewrite ?Z.div_mul by lia; lia. }
  split.
  - apply NoDup_app. split; [|split].
    + apply NoDup_concat_map; [apply NoDup_seqZ | intros; apply Hblock |].
      intros y1 y2 x _ _ H1%Howner H2%Howner. congruence.
    + intros x (i & Hi%elem_of_seqZ & Hx%Howner)%elem_of_concat_map Hx'%Htail. lia.
    + destruct b;
        repeat first [apply NoDup_nil_2 | apply NoDup_cons_2];
        set_solver.
  - intros kind g Hkind. rewrite elem_of_app, elem_of_concat_map. split.
    + intros [(i & Hi%elem_of_seqZ & Hx)|Hx].
      * unfold block in Hx. map_as_fmap.
        destruct b; set_unfold;
          repeat (destruct Hx as [Hx|Hx]);
          try destruct Hx as (x0 & [= -> ->] & Hx0);
          try (injection Hx as -> ->); set_solver by nia.
      * destruct b; set_unfold;
          repeat (destruct Hx as [Hx|Hx]); try (injection Hx as -> ->);
          set_solver by nia.
    + intros Hg. destruct (decide (g < M * d)) as [Hlt|Hge].
      * left. exists (g / d).
        pose proof (Z.div_mod g d ltac:(lia)) as Hdiv.
        pose proof (Z.mod_pos_bound g d ltac:(lia)) as Hmod.
        assert (0 <= g / d < M) as Hq
          by (split; [apply Z.div_pos; lia | apply Z.div_lt_upper_bound; lia]).
        split; [apply elem_of_seqZ; lia|].
        unfold block. map_as_fmap.
        destruct (decide (g `mod` d = 0)) as [Hzero|Hpos];
          destruct b; set_unfold;
          destruct Hkind as [->|[->|[->|[]]]];
          repeat first
            [ left; f_equal; nia
            | left; exists (g `mod` d); split; [f_equal; nia | lia]
            | right ];
          exists (g `mod` d); (split; [f_equal; nia | lia]).
      * right. assert (g = M * d) as -> by lia.
        destruct b; set_unfold; destruct Hkind as [->|[->|[->|[]]]]; tauto.
Qed.

Lemma LegendreGaussRadau_getVariableOrder_once_witness :
  NoDup (LegendreGaussRadau_getVariableOrder (order_example 3 5))
  /\ forall kind g, kind ∈ [states; multipliers; derivatives] ->
       ((kind, g) ∈ LegendreGaussRadau_getVariableOrder (order_example 3 5)
        <-> 0 <= g < 5).
Proof.
  apply (LegendreGaussRadau_getVariableOrder_once (order_example 3 5));
    simpl; (lia || reflexivity).
Defined.

(** ** sandboxAutodiff.cpp: the variables of TranscriptionSlidingMass *)

Section SlidingMassVariables.
Import TranscriptionSlidingMass.

Lemma Var_le_total : Total Var_le.
Proof. intros v w. unfold Var_le. lia. Qed.

Lemma Var_le_transitive : Transitive Var_le.
Proof. intros u v w. unfold Var_le. lia. Qed.

Lemma Var_le_antisymm : AntiSymm eq Var_le.
Proof.
  intros v w H1 H2. unfold Var_le in *.
  destruct v, w; simpl in *; try reflexivity; lia.
Qed.

(** The sorted keys of a map are the enumerators it has, in their order. *)
Lemma getSortedVarKeys_enumerators {T : Type} (vars : gmap Var T) :
  getSortedVarKeys vars = filter (fun key => is_Some (vars !! key)) enumerators.
Proof.
  pose proof Var_le_total. pose proof Var_le_transitive.
  pose proof Var_le_antisymm.
  unfold getSortedVarKeys. apply (Sorted_unique Var_le).
  - by apply Sorted_merge_sort.
  - unfold enumerators. rewrite !filter_cons, filter_nil.
    repeat case_decide; repeat constructor.
  - rewrite merge_sort_Permutation. apply NoDup_Permutation.
    + apply NoDup_fst_map_to_list.
    + apply NoDup_filter. unfold enumerators.
      repeat (apply NoDup_cons; split; [set_solver|]). apply NoDup_nil_2.
    + intros key. rewrite list_elem_of_filter, list_elem_of_fmap. split.
      * intros ([k v] & -> & Hin). apply elem_of_map_to_list in Hin. simpl.
        split; [by eexists|]. unfold enumerators. destruct k; set_solver.
      * intros [[v Hv] _]. exists (key, v). split; [done|].
        by apply elem_of_map_to_list.
Qed.

Lemma flattenVariables_loop {A : Type} (vars : gmap Var (DM A)) (keys : list Var)
    (stdvec : list (DM A)) :
  for_each (filter (fun key => is_Some (vars !! key)) keys)
    (fun key stdvec => m ← at_key vars key; Ok (stdvec ++ [m])) stdvec
  = Ok (stdvec ++ omap (fun key => vars !! key) keys).
Proof.
  revert stdvec. induction keys as [|k keys IH]; intros stdvec.
  - simpl. by rewrite app_nil_r.
  - rewrite filter_cons. cbn [omap list_omap].
    destruct (vars !! k) as [m|] eqn:Hk.
    + rewrite decide_True by (by eexists). cbn [for_each].
      assert (at_key vars k = Ok m) as -> by (unfold at_key; by rewrite Hk).
      rewrite !bind_Ok_l, IH, <- app_assoc. reflexivity.
    + rewrite decide_False by (by intros [? ?]). apply IH.
Qed.

(** X19: [flattenVariables] never throws: it lists, column by column, the
    matrices of the enumerators that the map has, in the order
    [initial_time], [final_time], [states], [controls], and skips the
    enumerators that the map lacks. *)
Theorem SlidingMass_flattenVariables_present {A : Type} (vars : gmap Var (DM A)) :
  flattenVariables vars
  = Ok (veccat (map (fun m => veccat (cols m))
                  (omap (fun key => vars !! key) enumerators))).
Proof.
  unfold flattenVariables.
  rewrite getSortedVarKeys_enumerators, flattenVariables_loop. reflexivity.
Qed.

Lemma length_chunks {A : Type} (r c : nat) (l : list A) : length (chunks r c l) = c.
Proof. revert l. induction c as [|c IH]; intros l; simpl; [done | by rewrite IH]. Qed.

Lemma Forall_chunks {A : Type} (r c : nat) (l : list A) :
  (r * c <= length l)%nat -> Forall (fun col => length col = r) (chunks r c l).
Proof.
  revert l. induction c as [|c IH]; intros l Hl; simpl; constructor.
  - rewrite length_take. lia.
  - apply IH. rewrite length_drop. lia.
Qed.

Lemma chunks_concat {A : Type} (r : nat) (cs : list (list A)) :
  Forall (fun c => length c = r) cs -> chunks r (length cs) (concat cs) = cs.
Proof.
  induction 1 as [|c cs Hc Hcs IH]; simpl; [done|].
  rewrite take_app_length', drop_app_length' by done. by rewrite IH.
Qed.

Lemma has_shape_block_at {A : Type} (x : list A) (offset : nat) (value : Shape) :
  (offset + shape_numel value <= length x)%nat ->
  has_shape (block_at x offset value) (shape_rows value) (shape_columns value).
Proof.
  intros Hlen. unfold has_shape, block_at, wf_DM, columns. simpl.
  split; [|split; [done | apply length_chunks]].
  apply Forall_chunks. rewrite length_take, length_drop.
  unfold shape_numel in *. lia.
Qed.

Lemma block_at_cols {A : Type} (m : DM A) (value : Shape) (x l : list A)
    (offset : nat) :
  has_shape m (shape_rows value) (shape_columns value) ->
  drop offset x = concat (cols m) ++ l ->
  block_at x offset value = m.
Proof.
  intros (Hwf & Hr & Hc) Hx. unfold block_at. rewrite Hx.
  assert (length (concat (cols m)) = shape_numel value) as Hlen.
  { rewrite length_concat_wf by done. unfold numel, shape_numel. by rewrite Hr, Hc. }
  rewrite take_app_length' by done.
  rewrite <- Hr. unfold columns in Hc. rewrite <- Hc.
  rewrite chunks_concat by done. by destruct m.
Qed.

Lemma SlidingMass_expandVariables_step_inv {A : Type} (t : SlidingMass A)
    (x : list A) (key : Var) (out out' : gmap Var (DM A)) (offset offset' : Z) :
  0 <= offset ->
  expandVariables_step t x key (out, offset) = Ok (out', offset') ->
  exists value, m_variables t !! key = Some value
    /\ out' = <[key := block_at x (Z.to_nat offset) value]> out
    /\ offset' = offset + Z.of_nat (shape_numel value)
    /\ offset' <= Z.of_nat (length x).
Proof.
  intros Hoff H. unfold expandVariables_step, at_key in H.
  destruct (m_variables t !! key) as [value|]; [|discriminate]. simpl in H.
  apply bind_Ok in H as (part & Hslice & H).
  apply bind_Ok in H as (m & Hreshape & H).
  pose proof (vec_slice_reshape_bound _ _ _ _ _ _ Hoff Hslice Hreshape) as Hb.
  fold (shape_numel value) in Hb.
  apply vec_slice_inv in Hslice as [-> _]; [|done].
  unfold reshape in Hreshape. case_decide; [|discriminate].
  injection Hreshape as <-. injection H as <- <-. eauto.
Qed.

Lemma SlidingMass_expandVariables_step_Ok {A : Type} (t : SlidingMass A)
    (x : list A) (key : Var) (value : Shape) (out : gmap Var (DM A)) (offset : Z) :
  0 <= offset -> m_variables t !! key = Some value ->
  offset + Z.of_nat (shape_numel value) <= Z.of_nat (length x) ->
  expandVariables_step t x key (out, offset)
  = Ok (<[key := block_at x (Z.to_nat offset) value]> out,
        offset + Z.of_nat (shape_numel value)).
Proof.
  intros Hoff Hvalue Hlen. unfold expandVariables_step, at_key.
  rewrite Hvalue. simpl. rewrite vec_slice_Ok by lia. simpl.
  unfold reshape. case_decide as Hnumel; [reflexivity|].
  exfalso. apply Hnumel. rewrite length_take, length_drop.
  unfold shape_numel in *. lia.
Qed.

Lemma SlidingMass_expandVariables_loop {A : Type} (t : SlidingMass A) (x : list A)
    (keys : list Var) (out out' : gmap Var (DM A)) (offset offset' : Z) :
  0 <= offset -> NoDup keys ->
  for_each keys (expandVariables_step t x) (out, offset) = Ok (out', offset') ->
  offset' = offset
            + Z.of_nat (sum_list_with (fun k => shape_numel (shape_of t k)) keys)
  /\ (keys = [] \/ offset' <= Z.of_nat (length x))
  /\ (forall key, key ∉ keys -> out' !! key = out !! key)
  /\ (forall key, key ∈ keys ->
        exists value m, m_variables t !! key = Some value /\ out' !! key = Some m
          /\ has_shape m (shape_rows value) (shape_columns value))
  /\ veccat (map (fun key => veccat (cols (subscript out' key))) keys)
     = take (sum_list_with (fun k => shape_numel (shape_of t k)) keys)
         (drop (Z.to_nat offset) x).
Proof.
  revert out offset. induction keys as [|k keys IH]; intros out offset Hoff Hnd H.
  - simpl in H. injection H as <- <-. simpl.
    split; [lia|]. split; [by left|]. split; [done|].
    split; [|done]. intros key Hin. by apply elem_of_nil in Hin.
  - apply NoDup_cons in Hnd as [Hk Hnd].
    simpl in H. inv_bind H. destruct x0 as [out1 offset1].
    apply SlidingMass_expandVariables_step_inv in Hx
      as (value & Hvalue & -> & -> & Hbound); [|done].
    apply IH in H as (Hoffset & Hlen & Hframe & Hvalues & Hcat); [|lia|done].
    assert (shape_of t k = value) as Hshape by (unfold shape_of; by rewrite Hvalue).
    simpl. rewrite Hshape.
    split; [lia|].
    split; [right; destruct Hlen as [->|Hlen]; simpl in *; lia|].
    split.
    { intros key Hkey. apply not_elem_of_cons in Hkey as [Hne Hkey].
      rewrite Hframe by done. by rewrite lookup_insert_ne. }
    split.
    { intros key [->|Hin]%elem_of_cons; [|by apply Hvalues].
      exists value, (block_at x (Z.to_nat offset) value).
      split; [done|]. split; [by rewrite Hframe, lookup_insert_eq|].
      apply has_shape_block_at. lia. }
    unfold veccat in *. simpl. rewrite Hcat.
    unfold subscript at 1. rewrite (Hframe k Hk), lookup_insert_eq. simpl.
    rewrite concat_chunks
      by (rewrite length_take, length_drop; unfold shape_numel in *; lia).
    replace (Z.to_nat (offset + Z.of_nat (shape_numel value)))
      with (Z.to_nat offset + shape_numel value)%nat by lia.
    rewrite <- drop_drop. apply take_take_drop.
Qed.

Lemma SlidingMass_expandVariables_loop_Ok {A : Type} (t : SlidingMass A)
    (x : list A) (keys : list Var) (out : gmap Var (DM A)) (offset : Z) :
  0 <= offset ->
  (forall key, key ∈ keys -> is_Some (m_variables t !! key)) ->
  offset + Z.of_nat (sum_list_with (fun k => shape_numel (shape_of t k)) keys)
  <= Z.of_nat (length x) ->
  is_Ok (for_each keys (expandVariables_step t x) (out, offset)).
Proof.
  revert out offset. induction keys as [|k keys IH]; intros out offset Hoff Hkeys Hlen.
  - eexists; reflexivity.
  - destruct (Hkeys k) as [value Hvalue]; [set_solver|].
    assert (shape_of t k = value) as Hshape by (unfold shape_of; by rewrite Hvalue).
    simpl in Hlen. rewrite Hshape in Hlen. cbn [for_each].
    rewrite (SlidingMass_expandVariables_step_Ok t x k value) by (done || lia).
    rewrite bind_Ok_l. apply IH; [lia | set_solver | lia].
Qed.

Lemma sum_list_with_present {K : Type} (f : K -> nat) (P : K -> Prop)
    `{!forall k, Decision (P k)} (l : list K) :
  (forall k, ~ P k -> f k = 0%nat) ->
  sum_list_with f (filter P l) = sum_list_with f l.
Proof.
  intros Hf. induction l as [|k l IH]; [done|].
  rewrite filter_cons. case_decide as Hk; simpl; [by rewrite IH|].
  by rewrite IH, (Hf k Hk).
Qed.

Lemma numVariables_sorted {A : Type} (t : SlidingMass A) :
  sum_list_with (fun k => shape_numel (shape_of t k))
    (getSortedVarKeys (m_variables t))
  = numVariables t.
Proof.
  rewrite getSortedVarKeys_enumerators. unfold numVariables.
  apply sum_list_with_present. intros k Hk. unfold shape_of.
  destruct (m_variables t !! k); [|done]. destruct Hk. by eexists.
Qed.

Lemma NoDup_getSortedVarKeys {T : Type} (vars : gmap Var T) :
  NoDup (getSortedVarKeys vars).
Proof.
  rewrite getSortedVarKeys_enumerators. apply NoDup_filter. unfold enumerators.
  repeat (apply NoDup_cons; split; [set_solver|]). apply NoDup_nil_2.
Qed.

Lemma elem_of_getSortedVarKeys {T : Type} (vars : gmap Var T) (key : Var) :
  key ∈ getSortedVarKeys vars <-> is_Some (vars !! key).
Proof.
  rewrite getSortedVarKeys_enumerators, list_elem_of_filter.
  split; [by intros [? _] | intros H; split; [done|]].
  unfold enumerators. destruct key; set_solver.
Qed.

(** X20: [expandVariables] returns exactly when [x] has at least as many
    entries as the shapes of [m_variables] add up to; a shorter [x] makes a
    slice throw. *)
Theorem SlidingMass_expandVariables_returns_iff {A : Type} (t : SlidingMass A)
    (x : list A) :
  is_Ok (expandVariables t x) <-> (numVariables t <= length x)%nat.
Proof.
  rewrite <- numVariables_sorted. split.
  - intros [out H]. unfold expandVariables in H. inv_bind H.
    destruct x0 as [out' offset'].
    apply SlidingMass_expandVariables_loop in Hx as (-> & Hlen & _);
      [|lia|apply NoDup_getSortedVarKeys].
    destruct Hlen as [->|Hlen]; simpl; lia.
  - intros Hlen. unfold expandVariables.
    destruct (SlidingMass_expandVariables_loop_Ok t x
                (getSortedVarKeys (m_variables t)) ∅ 0) as [s Hs];
      [lia | by intros key ?%elem_of_getSortedVarKeys | lia |].
    rewrite Hs. by eexists.
Qed.

Lemma omap_present {T : Type} (vars : gmap Var (DM T)) (P : Var -> Prop)
    `{!forall k, Decision (P k)} (l : list Var) :
  (forall key, is_Some (vars !! key) <-> P key) ->
  omap (fun key => vars !! key) l = map (subscript vars) (filter P l).
Proof.
  intros HP. induction l as [|k l IH]; [done|].
  rewrite filter_cons. cbn [omap list_omap].
  destruct (vars !! k) as [m|] eqn:Hk.
  - rewrite decide_True by (apply HP; by eexists). simpl.
    unfold subscript at 1. rewrite Hk. simpl. f_equal. apply IH.
  - rewrite decide_False; [apply IH|]. intros HPk. apply HP in HPk.
    rewrite Hk in HPk. by destruct HPk.
Qed.

(** X21: flattening what [expandVariables] returns gives back the entries of
    [x] that it read, the first [numVariables]; the matrices it returns have
    the keys and the shapes of [m_variables]. *)
Theorem SlidingMass_flatten_expand {A : Type} (t : SlidingMass A) (x : list A)
    (vars : gmap Var (DM A)) :
  expandVariables t x = Ok vars ->
  fits t vars /\ flattenVariables vars = Ok (take (numVariables t) x).
Proof.
  intros H. unfold expandVariables in H. inv_bind H. destruct x0 as [out' offset'].
  injection H as <-. simpl.
  apply SlidingMass_expandVariables_loop in Hx
    as (_ & _ & Hframe & Hvalues & Hcat); [|lia|apply NoDup_getSortedVarKeys].
  assert (fits t out') as Hfits.
  { intros key. destruct (m_variables t !! key) as [value|] eqn:Hvalue.
    - destruct (Hvalues key) as (value' & m & Hvalue' & -> & Hshape).
      + apply elem_of_getSortedVarKeys. by eexists.
      + rewrite Hvalue in Hvalue'. by injection Hvalue' as <-.
    - rewrite Hframe, lookup_empty; [done|].
      intros Hin%elem_of_getSortedVarKeys. rewrite Hvalue in Hin. by destruct Hin. }
  split; [exact Hfits|].
  unfold flattenVariables.
  rewrite getSortedVarKeys_enumerators, flattenVariables_loop, bind_Ok_l.
  rewrite numVariables_sorted in Hcat. rewrite drop_0 in Hcat. rewrite <- Hcat.
  rewrite getSortedVarKeys_enumerators, app_nil_l.
  rewrite (omap_present out' (fun key => is_Some (m_variables t !! key))).
  - by rewrite map_map.
  - intros key. specialize (Hfits key).
    destruct (m_variables t !! key), (out' !! key); try done;
      split; intros [? ?]; done || by eexists.
Qed.

Lemma SlidingMass_flatten_expand_witness :
  exists vars,
    expandVariables sandbox_example sandbox_flat = Ok vars
    /\ fits sandbox_example vars
    /\ flattenVariables vars = Ok (take (numVariables sandbox_example) sandbox_flat).
Proof.
  destruct (expandVariables sandbox_example sandbox_flat) as [vars|] eqn:H;
    [|vm_compute in H; discriminate H].
  exists vars. split; [reflexivity|]. exact (SlidingMass_flatten_expand _ _ _ H).
Defined.

Lemma SlidingMass_expandVariables_loop_forward {A : Type} (t : SlidingMass A)
    (vars : gmap Var (DM A)) (x : list A) (keys : list Var)
    (out : gmap Var (DM A)) (offset : Z) :
  fits t vars -> 0 <= offset <= Z.of_nat (length x) -> NoDup keys ->
  (forall key, key ∈ keys -> is_Some (vars !! key)) ->
  drop (Z.to_nat offset) x
  = veccat (map (fun key => veccat (cols (subscript vars key))) keys) ->
  exists out' offset',
    for_each keys (expandVariables_step t x) (out, offset) = Ok (out', offset')
    /\ forall key,
         out' !! key = if decide (key ∈ keys) then vars !! key else out !! key.
Proof.
  intros Hfits. revert out offset.
  induction keys as [|k keys IH]; intros out offset Hoff Hnd Hkeys Hx.
  - exists out, offset. split; [reflexivity|]. intros key.
    rewrite decide_False; [done | apply not_elem_of_nil].
  - apply NoDup_cons in Hnd as [Hk Hnd].
    destruct (Hkeys k) as [m Hm]; [set_solver|].
    pose proof (Hfits k) as Hshape. rewrite Hm in Hshape.
    destruct (m_variables t !! k) as [value|] eqn:Hvalue; [|done].
    unfold veccat in Hx. cbn [map concat] in Hx.
    unfold subscript at 1 in Hx. rewrite Hm in Hx. simpl in Hx.
    assert (length (concat (cols m)) = shape_numel value) as Hlen.
    { destruct Hshape as (Hwf & Hr & Hc). rewrite length_concat_wf by done.
      unfold numel, shape_numel. by rewrite Hr, Hc. }
    assert (offset + Z.of_nat (shape_numel value) <= Z.of_nat (length x)) as Hb.
    { apply (f_equal length) in Hx. rewrite length_drop, length_app in Hx. lia. }
    cbn [for_each].
    rewrite (SlidingMass_expandVariables_step_Ok t x k value) by (done || lia).
    rewrite bind_Ok_l.
    rewrite (block_at_cols m value x _ _ Hshape Hx).
    destruct (IH (<[k := m]> out) (offset + Z.of_nat (shape_numel value)))
      as (out' & offset' & Hrun & Hout'); [lia | done | set_solver | |].
    { replace (Z.to_nat (offset + Z.of_nat (shape_numel value)))
        with (Z.to_nat offset + shape_numel value)%nat by lia.
      rewrite <- drop_drop, Hx. by rewrite drop_app_length'. }
    exists out', offset'. split; [exact Hrun|]. intros key. rewrite Hout'.
    destruct (decide (key = k)) as [->|Hne].
    + rewrite decide_False by done. rewrite decide_True by set_solver.
      by rewrite lookup_insert_eq.
    + rewrite lookup_insert_ne by done.
      destruct (decide (key ∈ keys)).
      * by rewrite decide_True by set_solver.
      * by rewrite decide_False by set_solver.
Qed.

Lemma length_flat_fits {A : Type} (t : SlidingMass A) (vars : gmap Var (DM A))
    (keys : list Var) :
  fits t vars -> (forall key, key ∈ keys -> is_Some (vars !! key)) ->
  length (veccat (map (fun key => veccat (cols (subscript vars key))) keys))
  = sum_list_with (fun k => shape_numel (shape_of t k)) keys.
Proof.
  intros Hfits. induction keys as [|k keys IH]; intros Hkeys; [done|].
  destruct (Hkeys k) as [m Hm]; [set_solver|].
  pose proof (Hfits k) as Hshape. rewrite Hm in Hshape.
  unfold veccat in *. simpl. rewrite length_app, IH by set_solver.
  unfold subscript, shape_of. rewrite Hm.
  destruct (m_variables t !! k) as [value|]; [|done]. simpl.
  destruct Hshape as (Hwf & Hr & Hc). rewrite length_concat_wf by done.
  unfold numel, shape_numel. by rewrite Hr, Hc.
Qed.

(** X22: matrices of the keys and shapes of [m_variables] survive the round
    trip: [flattenVariables] returns a vector of [numVariables] entries, and
    [expandVariables] returns the same matrices from it. *)
Theorem SlidingMass_expand_flatten {A : Type} (t : SlidingMass A)
    (vars : gmap Var (DM A)) :
  fits t vars ->
  exists x,
    flattenVariables vars = Ok x /\ length x = numVariables t
    /\ expandVariables t x = Ok vars.
Proof.
  intros Hfits.
  assert (forall key, is_Some (vars !! key) <-> is_Some (m_variables t !! key))
    as Hdom.
  { intros key. specialize (Hfits key).
    destruct (m_variables t !! key), (vars !! key); try done;
      split; intros [? ?]; done || by eexists. }
  assert (forall key, key ∈ getSortedVarKeys (m_variables t) -> is_Some (vars !! key))
    as Hkeys by (intros key ?%elem_of_getSortedVarKeys; by apply Hdom).
  set (x := veccat (map (fun key => veccat (cols (subscript vars key)))
                   (getSortedVarKeys (m_variables t)))).
  exists x. split; [|split].
  - unfold flattenVariables.
    rewrite getSortedVarKeys_enumerators, flattenVariables_loop, bind_Ok_l.
    unfold x. rewrite getSortedVarKeys_enumerators, app_nil_l.
    rewrite (omap_present vars (fun key => is_Some (m_variables t !! key)))
      by done.
    by rewrite map_map.
  - unfold x. rewrite (length_flat_fits t) by done. apply numVariables_sorted.
  - unfold expandVariables.
    destruct (SlidingMass_expandVariables_loop_forward t vars x
                (getSortedVarKeys (m_variables t)) ∅ 0 Hfits)
      as (out' & offset' & Hrun & Hout').
    + lia.
    + apply NoDup_getSortedVarKeys.
    + exact Hkeys.
    + by rewrite drop_0.
    + rewrite Hrun, bind_Ok_l. simpl. f_equal. apply map_eq. intros key.
      rewrite Hout'. case_decide as Hin; [done|]. rewrite lookup_empty.
      rewrite elem_of_getSortedVarKeys, <- Hdom in Hin.
      destruct (vars !! key); [|done]. destruct Hin. by eexists.
Qed.

Lemma SlidingMass_expand_flatten_witness :
  fits sandbox_example sandbox_vars
  /\ exists x,
       flattenVariables sandbox_vars = Ok x
       /\ length x = numVariables sandbox_example
       /\ expandVariables sandbox_example x = Ok sandbox_vars.
Proof.
  assert (fits sandbox_example sandbox_vars) as Hfits.
  { intros key. destruct key; vm_compute; repeat constructor. }
  split; [exact Hfits|]. exact (SlidingMass_expand_flatten _ _ Hfits).
Defined.
End SlidingMassVariables.

(** ** sandboxAutodiff.cpp: the constraints of TranscriptionSlidingMass *)

Lemma write_at_splice {A : Type} (l : list A) (a n : nat) (v : list A) :
  length v = n -> (a + n <= length l)%nat ->
  write_at l a n v = take a l ++ v ++ drop (a + n) l.
Proof.
  intros Hv Hl. apply list_eq. intros k.
  destruct (decide (a <= k < a + n)%nat) as [Hin|Hout].
  - rewrite lookup_write_at_inside by (done || lia).
    rewrite lookup_app_r by (rewrite length_take; lia).
    rewrite length_take, lookup_app_l by lia. f_equal. lia.
  - rewrite lookup_write_at_outside by done.
    destruct (decide (k < a)%nat).
    + rewrite lookup_app_l by (rewrite length_take; lia).
      by rewrite lookup_take_lt.
    + rewrite lookup_app_r by (rewrite length_take; lia).
      rewrite length_take, lookup_app_r by lia.
      rewrite lookup_drop. f_equal. lia.
Qed.

Lemma vec_set_slice_Ok {A : Type} (x : list A) (a : Z) (n : nat) (v : list A) :
  length v = n -> 0 <= a -> a + Z.of_nat n <= Z.of_nat (length x) ->
  vec_set_slice x a (a + Z.of_nat n) v
  = Ok (take (Z.to_nat a) x ++ v ++ drop (Z.to_nat a + n) x).
Proof.
  intros Hv Ha Hlen. unfold vec_set_slice.
  rewrite slice_index_Ok by lia. simpl.
  replace (Z.to_nat (a + Z.of_nat n - a)) with n by lia.
  unfold rhs_fits. rewrite bool_decide_eq_true_2 by (by left).
  rewrite write_at_splice by (done || lia). reflexivity.
Qed.

Lemma chunks_snoc {A : Type} (r c : nat) (l : list A) :
  chunks r (S c) l = chunks r c l ++ [take r (drop (c * r) l)].
Proof.
  revert l. induction c as [|c IH]; intros l.
  - simpl. by rewrite drop_0.
  - change (chunks r (S (S c)) l) with (take r l :: chunks r (S c) (drop r l)).
    rewrite IH. simpl. rewrite drop_drop. reflexivity.
Qed.

Lemma concat_chunks_take {A : Type} (r c : nat) (l : list A) :
  concat (chunks r c l) = take (c * r) l.
Proof.
  revert l. induction c as [|c IH]; intros l; simpl; [done|].
  rewrite IH. apply take_take_drop.
Qed.

Lemma DM_set_col_fits {A : Type} (m : DM A) (j : Z) (v : list A) :
  0 <= j < Z.of_nat (columns m) -> rhs_fits (rows m) v = true ->
  DM_set_col m j v
  = Ok (mkDM (rows m)
          (alter (fun c => write_at c 0 (rows m) v) (Z.to_nat j) (cols m))).
Proof.
  intros Hj Hv. unfold DM_set_col, DM_set_rows.
  rewrite slice_index_Ok, bind_Ok_l by lia. cbn [mbind result_bind].
  rewrite scalar_index_Ok, bind_Ok_l by lia.
  replace (Z.to_nat (Z.of_nat (rows m) - 0)) with (rows m) by lia.
  change (Z.to_nat 0) with 0%nat. by rewrite Hv.
Qed.

(** An assignment of one entry to a whole column spreads it over the column. *)
Lemma write_at_spread {A : Type} (l : list A) (x : A) :
  write_at l 0 (length l) [x] = replicate (length l) x.
Proof.
  apply list_eq. intros k. rewrite lookup_write_at_const.
  destruct (decide (k < length l)%nat) as [Hk|Hk].
  - destruct (lookup_lt_is_Some_2 l k Hk) as [y ->]. simpl.
    rewrite decide_True by lia. symmetry. by apply lookup_replicate_2.
  - rewrite (lookup_ge_None_2 l) by lia. simpl. symmetry.
    apply lookup_ge_None_2. rewrite length_replicate. lia.
Qed.

Lemma length_padded {A : Type} {SA : Scalar A} (flat : list A) (n : nat) :
  (n <= length (padded flat n))%nat.
Proof. unfold padded. rewrite length_app, length_replicate. lia. Qed.

Lemma padded_long {A : Type} {SA : Scalar A} (flat : list A) (n : nat) :
  (n <= length flat)%nat -> padded flat n = flat.
Proof.
  intros Hn. unfold padded. replace (n - length flat)%nat with 0%nat by lia.
  apply app_nil_r.
Qed.

Lemma take_padded {A : Type} {SA : Scalar A} (flat : list A) (n : nat) :
  take n (padded flat n)
  = take n flat ++ replicate (n - length flat) (vec_get flat (length flat - 1)).
Proof.
  unfold padded. rewrite take_app. f_equal.
  apply take_ge. by rewrite length_replicate.
Qed.

Section SlidingMassConstraints.
Import TranscriptionSlidingMass.
Context {A : Type} {SA : Scalar A}.

(** One pass of the loop of [expandConstraints] fills the next column with
    what the slice of [flat] and the assignment to the column leave there. *)
Lemma SlidingMass_expand_step (flat P : list A) (NS M i : nat) :
  (i < M)%nat ->
  (NS = 0%nat
   \/ exists part,
        vec_slice flat (Z.of_nat (i * NS)) (Z.of_nat (i * NS) + Z.of_nat NS) = Ok part
        /\ rhs_fits NS part = true
        /\ write_at (replicate NS one) 0 NS part = take NS (drop (i * NS) P)) ->
  copyColumn_expand flat (Z.of_nat (i * NS))
    (mkDM NS (chunks NS i P ++ replicate (M - i) (replicate NS one)))
    (Z.of_nat i)
  = Ok (mkDM NS (chunks NS (S i) P ++ replicate (M - S i) (replicate NS one)),
        Z.of_nat (S i * NS)).
Proof.
  intros Hi Hpart. unfold copyColumn_expand. cbn [rows].
  replace (M - i)%nat with (S (M - S i)) by lia. rewrite replicate_S.
  rewrite chunks_snoc, <- app_assoc. cbn [app].
  case_decide as HNS.
  - destruct Hpart as [->|(part & Hslice & Hfits & Hwrite)]; [done|].
    rewrite Hslice, bind_Ok_l. rewrite DM_set_col_fits.
    + rewrite bind_Ok_l. cbn [rows cols]. do 2 f_equal; [|simpl; lia].
      f_equal.
      rewrite alter_app_r_alt by (rewrite length_chunks; lia).
      rewrite length_chunks, (Nat2Z.id i), Nat.sub_diag. simpl. by rewrite Hwrite.
    + unfold columns. simpl. rewrite length_app, length_chunks. simpl. lia.
    + done.
  - assert (NS = 0%nat) as -> by (destruct (decide (NS = 0%nat)); [done | contradiction]).
    simpl. by replace (i * 0)%nat with 0%nat by lia.
Qed.

(** What one pass reads and writes: the next [NS] entries of [flat], or, when
    only the last entry of [flat] is left for the last column, that entry in
    every row. *)
Lemma SlidingMass_expand_part (flat : list A) (NS M i : nat) :
  (i < M)%nat -> (0 < NS)%nat ->
  ((S i * NS <= length flat)%nat
   \/ ((2 <= NS)%nat /\ S i = M /\ length flat = (i * NS + 1)%nat)) ->
  exists part,
    vec_slice flat (Z.of_nat (i * NS)) (Z.of_nat (i * NS) + Z.of_nat NS) = Ok part
    /\ rhs_fits NS part = true
    /\ write_at (replicate NS one) 0 NS part
       = take NS (drop (i * NS) (padded flat (M * NS))).
Proof.
  intros Hi HNS [Hin|(HNS2 & HM & Hlen)].
  - exists (take NS (drop (i * NS) flat)).
    assert (length (take NS (drop (i * NS) flat)) = NS) as Hpart
      by (rewrite length_take, length_drop; simpl in Hin; lia).
    split; [|split].
    + rewrite vec_slice_Ok by (simpl in Hin; lia). by rewrite Nat2Z.id.
    + unfold rhs_fits. apply bool_decide_eq_true_2. by left.
    + rewrite write_at_splice by (rewrite ?length_replicate; done || lia).
      rewrite (drop_ge (replicate NS one)) by (rewrite length_replicate; lia).
      simpl. rewrite app_nil_r. unfold padded.
      rewrite drop_app_le by (simpl in Hin; lia).
      rewrite take_app_le by (rewrite length_drop; simpl in Hin; lia). done.
  - destruct (lookup_lt_is_Some_2 flat (i * NS)) as [a Ha]; [lia|].
    exists [a]. split; [|split].
    + rewrite vec_slice_spec by lia. rewrite decide_True by (right; lia).
      rewrite Nat2Z.id. f_equal. apply take_drop_one; [done | lia | right; lia].
    + unfold rhs_fits. apply bool_decide_eq_true_2. by right.
    + pose proof (write_at_spread (replicate NS one) a) as Hspread.
      rewrite length_replicate in Hspread. rewrite Hspread.
      unfold padded, vec_get. rewrite Hlen.
      replace (i * NS + 1 - 1)%nat with (i * NS)%nat by lia. rewrite Ha. simpl.
      rewrite drop_app_le by lia.
      rewrite (drop_S flat a (i * NS) Ha), (drop_ge flat) by lia.
      subst M. replace (S i * NS - (i * NS + 1))%nat with (NS - 1)%nat by lia.
      change ([a] ++ replicate (NS - 1) a) with (replicate (S (NS - 1)) a).
      replace (S (NS - 1)) with NS by lia.
      symmetry. apply take_ge. by rewrite length_replicate.
Qed.

(** [expandConstraints] fills the defects, column after column, from [flat]
    followed, where the last column finds one entry only, by copies of it. *)
Lemma SlidingMass_expandConstraints_padded (t : SlidingMass A) (flat : list A)
    (NS M : nat) :
  m_numDefectsPerMeshInterval t = Z.of_nat NS ->
  m_numMeshIntervals t = Z.of_nat M ->
  m_numConstraints t = Z.of_nat (M * NS) ->
  ((M * NS <= length flat)%nat
   \/ ((2 <= NS)%nat /\ (1 <= M)%nat /\ length flat = (M * NS - NS + 1)%nat)) ->
  expandConstraints t flat
  = Ok (mkConstraints (mkDM NS (chunks NS M (padded flat (M * NS))))).
Proof.
  intros HNS HM Hnum Hlen. unfold expandConstraints.
  rewrite HNS, HM, Hnum. unfold dense.
  rewrite decide_True by lia. rewrite bind_Ok_l, !Nat2Z.id.
  destruct (for_range_invariant
    (fun i (s : DM A * Z) =>
       s = (mkDM NS (chunks NS (Z.to_nat i) (padded flat (M * NS))
                     ++ replicate (M - Z.to_nat i) (replicate NS one)),
            Z.of_nat (Z.to_nat i * NS)))
    (fun imesh s => copyColumn_expand flat (snd s) (fst s) imesh)
    (Z.of_nat M) (DM_fill NS M one, 0)) as (s' & Hs' & ->).
  - lia.
  - simpl. by rewrite Nat.sub_0_r.
  - intros i s1 Hi ->. cbn [fst snd].
    pose proof (SlidingMass_expand_step flat (padded flat (M * NS)) NS M (Z.to_nat i))
      as Hstep.
    rewrite (Z2Nat.id i) in Hstep by lia. rewrite Hstep.
    + eexists. split; [reflexivity|].
      by replace (Z.to_nat (i + 1)) with (S (Z.to_nat i)) by lia.
    + lia.
    + destruct (decide (NS = 0%nat)); [by left | right].
      apply SlidingMass_expand_part; [lia | lia |].
      destruct Hlen as [Hin|(HNS2 & HM1 & Hlast)]; [left; nia|].
      destruct (decide (S (Z.to_nat i) = M)) as [Heq|Hne].
      * right. split; [done|]. split; [done|]. rewrite Hlast, <- Heq. simpl. lia.
      * left. assert (S (Z.to_nat i) <= M - 1)%nat as Hle by lia.
        assert (S (Z.to_nat i) * NS <= (M - 1) * NS)%nat as Hmul
          by (apply Nat.mul_le_mono_r; exact Hle).
        rewrite Nat.mul_sub_distr_r in Hmul. lia.
  - rewrite Hs', bind_Ok_l. cbn [fst snd]. rewrite Nat2Z.id.
    unfold OPENSIM_THROW_IF. rewrite bool_decide_eq_false_2 by (intros Hne; by apply Hne).
    rewrite bind_Ok_l, Nat.sub_diag. simpl. by rewrite app_nil_r.
Qed.

Lemma SlidingMass_expandConstraints_Ok (t : SlidingMass A) (flat : list A)
    (NS M : nat) :
  m_numDefectsPerMeshInterval t = Z.of_nat NS ->
  m_numMeshIntervals t = Z.of_nat M ->
  m_numConstraints t = Z.of_nat (M * NS) ->
  (M * NS <= length flat)%nat ->
  expandConstraints t flat = Ok (mkConstraints (mkDM NS (chunks NS M flat))).
Proof.
  intros HNS HM Hnum Hlen.
  rewrite (SlidingMass_expandConstraints_padded t flat NS M) by (done || by left).
  by rewrite padded_long.
Qed.

Lemma SlidingMass_expandConstraints_inv (t : SlidingMass A) (flat : list A)
    (c : Constraints (DM A)) :
  expandConstraints t flat = Ok c ->
  0 <= m_numDefectsPerMeshInterval t /\ 0 <= m_numMeshIntervals t
  /\ m_numConstraints t = m_numMeshIntervals t * m_numDefectsPerMeshInterval t
  /\ (m_numConstraints t <= Z.of_nat (length flat)
      \/ (2 <= m_numDefectsPerMeshInterval t /\ 1 <= m_numMeshIntervals t
          /\ Z.of_nat (length flat)
             = m_numConstraints t - m_numDefectsPerMeshInterval t + 1)).
Proof.
  intros H. unfold expandConstraints in H.
  apply bind_Ok in H as (m0 & Hdense & H).
  apply bind_Ok in H as (s & Hloop & H).
  apply bind_Ok in H as (u & Hthrow & _).
  assert (Hshape := Hdense). apply dense_shape in Hshape as (_ & Hrows & _).
  unfold dense in Hdense. case_decide as Hnn; [|discriminate]. clear Hdense.
  unfold OPENSIM_THROW_IF in Hthrow. case_bool_decide as Hfinal; [discriminate|].
  pose proof (for_range_Ok_invariant
    (fun i (s : DM A * Z) =>
       rows (fst s) = Z.to_nat (m_numDefectsPerMeshInterval t)
       /\ snd s = i * m_numDefectsPerMeshInterval t
       /\ (snd s <= Z.of_nat (length flat)
           \/ (2 <= m_numDefectsPerMeshInterval t /\ 1 <= i
               /\ Z.of_nat (length flat)
                  = snd s - m_numDefectsPerMeshInterval t + 1)))
    _ _ _ _ (proj2 Hnn) Hloop) as Hinv.
  destruct Hinv as (_ & Hiflat & Hlen).
  - simpl. split; [done|]. split; [lia|]. left. lia.
  - intros i [m1 iflat1] [m2 iflat2] Hi (Hr & Hi1 & Hb) Hstep. simpl in *.
    subst iflat1.
    unfold copyColumn_expand in Hstep. case_decide as Hz.
    + apply bind_Ok in Hstep as (part & Hpart & Hstep).
      apply bind_Ok in Hstep as (m' & Hset & Hstep).
      injection Hstep as <- <-.
      apply DM_set_col_shape in Hset as [Hr' _]. rewrite Hr'.
      apply vec_slice_inv in Hpart as [_ Hpart]; [|nia].
      split; [done|]. split; [lia|].
      destruct Hpart as [Hin|[Hlast Hn]]; [left; lia|].
      right. lia.
    + injection Hstep as <- <-. split; [done|]. split; [|lia].
      destruct (decide (rows m1 = 0%nat)) as [Hr0|]; [|contradiction]. lia.
  - split; [lia|]. split; [lia|]. split; [lia|].
    destruct Hlen as [Hin|Hlast]; [left; lia | right; lia].
Qed.

(** X23: [expandConstraints] returns exactly when the numbers of defects per
    mesh interval and of mesh intervals are not negative, [m_numConstraints]
    is their product, and [flat] has at least [m_numConstraints] entries or,
    with two or more defects per mesh interval and a mesh interval or more,
    exactly the entries of all the columns but the last and one entry more;
    otherwise it throws. *)
Theorem SlidingMass_expandConstraints_returns_iff (t : SlidingMass A)
    (flat : list A) :
  is_Ok (expandConstraints t flat)
  <-> 0 <= m_numDefectsPerMeshInterval t /\ 0 <= m_numMeshIntervals t
      /\ m_numConstraints t = m_numMeshIntervals t * m_numDefectsPerMeshInterval t
      /\ (m_numConstraints t <= Z.of_nat (length flat)
          \/ (2 <= m_numDefectsPerMeshInterval t /\ 1 <= m_numMeshIntervals t
              /\ Z.of_nat (length flat)
                 = m_numConstraints t - m_numDefectsPerMeshInterval t + 1)).
Proof.
  split.
  - intros [c H]. by eapply SlidingMass_expandConstraints_inv.
  - intros (HNS & HM & Hnum & Hlen).
    rewrite (SlidingMass_expandConstraints_padded t flat
               (Z.to_nat (m_numDefectsPerMeshInterval t))
               (Z.to_nat (m_numMeshIntervals t))); [by eexists|lia|lia|nia|].
    destruct Hlen as [Hin|Hlast]; [left; nia | right; nia].
Qed.

Lemma length_concat_take (m : DM A) (i : nat) :
  wf_DM m -> (i <= columns m)%nat ->
  length (concat (take i (cols m))) = (i * rows m)%nat.
Proof.
  intros Hwf Hi.
  pose proof (length_concat_wf (mkDM (rows m) (take i (cols m)))) as Hlen.
  unfold numel, columns, wf_DM in *. simpl in Hlen.
  rewrite Hlen by (by apply Forall_take). rewrite length_take, Nat.min_l by lia. lia.
Qed.

(** One pass of the loop of [flattenConstraints] appends the next column. *)
Lemma SlidingMass_flatten_step (flat0 : list A) (m : DM A) (r M i : nat) :
  has_shape m r M -> (i < M)%nat -> length flat0 = (M * r)%nat ->
  copyColumn (concat (take i (cols m)) ++ drop (i * r) flat0) (Z.of_nat (i * r)) m
    (Z.of_nat i)
  = Ok (concat (take (S i) (cols m)) ++ drop (S i * r) flat0, Z.of_nat (S i * r)).
Proof.
  intros (Hwf & Hr & Hc) Hi Hlen.
  destruct (lookup_lt_is_Some_2 (cols m) i) as [c Hcol]; [unfold columns in Hc; lia|].
  assert (length c = r) as Hlc by (rewrite <- Hr; by eapply wf_DM_lookup).
  assert (length (concat (take i (cols m))) = (i * r)%nat) as HP
    by (rewrite length_concat_take, Hr by (done || lia); done).
  rewrite (take_S_r _ _ c Hcol), concat_app. simpl. rewrite app_nil_r.
  unfold copyColumn. rewrite Hr. case_decide as Hz.
  - rewrite DM_col_Ok, bind_Ok_l by lia. unfold DM_column.
    rewrite Nat2Z.id, Hcol. simpl.
    rewrite (vec_set_slice_Ok _ _ r c), bind_Ok_l;
      [|done|lia|rewrite length_app, HP, length_drop; nia].
    do 2 f_equal; [|lia]. rewrite Nat2Z.id.
    rewrite take_app_length' by done. rewrite <- !app_assoc. do 2 f_equal.
    rewrite drop_app_add' by done. rewrite drop_drop. f_equal. lia.
  - assert (r = 0%nat) as -> by (destruct (decide (r = 0%nat)); [done | contradiction]).
    apply nil_length_inv in Hlc as ->. rewrite app_nil_r.
    by replace (i * 0)%nat with 0%nat by lia.
Qed.

Lemma SlidingMass_flattenConstraints_Ok (t : SlidingMass A)
    (c : Constraints (DM A)) (r M : nat) :
  m_numMeshIntervals t = Z.of_nat M ->
  m_numConstraints t = Z.of_nat (M * r) ->
  has_shape (defects c) r M ->
  flattenConstraints t c = Ok (concat (cols (defects c))).
Proof.
  intros HM Hnum Hshape. unfold flattenConstraints.
  rewrite HM, Hnum. unfold dense.
  rewrite decide_True by lia. rewrite bind_Ok_l, Nat2Z.id.
  change (Z.to_nat 1) with 1%nat. unfold DM_fill. cbn [cols replicate concat].
  rewrite app_nil_r.
  set (flat0 := replicate (M * r) (one : A)).
  assert (length flat0 = (M * r)%nat) as Hlen by apply length_replicate.
  destruct (for_range_invariant
    (fun i (s : list A * Z) =>
       s = (concat (take (Z.to_nat i) (cols (defects c)))
            ++ drop (Z.to_nat i * r) flat0,
            Z.of_nat (Z.to_nat i * r)))
    (fun imesh s => copyColumn (fst s) (snd s) (defects c) imesh)
    (Z.of_nat M) (flat0, 0)) as (s' & Hs' & ->).
  - lia.
  - reflexivity.
  - intros i s1 Hi ->. cbn [fst snd].
    pose proof (SlidingMass_flatten_step flat0 (defects c) r M (Z.to_nat i) Hshape)
      as Hstep.
    rewrite (Z2Nat.id i) in Hstep by lia. rewrite Hstep by (done || lia).
    eexists. split; [reflexivity|].
    by replace (Z.to_nat (i + 1)) with (S (Z.to_nat i)) by lia.
  - rewrite Hs', bind_Ok_l. cbn [fst snd]. rewrite Nat2Z.id.
    unfold OPENSIM_THROW_IF.
    rewrite bool_decide_eq_false_2 by (intros Hne; by apply Hne).
    rewrite bind_Ok_l. destruct Hshape as (_ & _ & Hc). unfold columns in Hc.
    rewrite take_ge by lia. rewrite drop_ge by lia. by rewrite app_nil_r.
Qed.

(** X24: flattening the constraints that [expandConstraints] returns gives
    the first [m_numConstraints] entries of [flat], followed, where [flat] has
    fewer, by copies of its last entry up to [m_numConstraints] entries. *)
Theorem SlidingMass_flatten_expand_constraints (t : SlidingMass A) (flat : list A)
    (c : Constraints (DM A)) :
  expandConstraints t flat = Ok c ->
  flattenConstraints t c
  = Ok (take (Z.to_nat (m_numConstraints t)) flat
        ++ replicate (Z.to_nat (m_numConstraints t) - length flat)
             (vec_get flat (length flat - 1))).
Proof.
  intros H. destruct (SlidingMass_expandConstraints_inv t flat c H)
    as (HNS & HM & Hnum & Hlen).
  rewrite (SlidingMass_expandConstraints_padded t flat
             (Z.to_nat (m_numDefectsPerMeshInterval t))
             (Z.to_nat (m_numMeshIntervals t))) in H;
    [|lia|lia|nia|destruct Hlen as [Hin|Hlast]; [left; nia | right; nia]].
  injection H as <-.
  rewrite (SlidingMass_flattenConstraints_Ok t _
             (Z.to_nat (m_numDefectsPerMeshInterval t))
             (Z.to_nat (m_numMeshIntervals t))).
  - cbn [defects cols]. rewrite concat_chunks_take, take_padded.
    replace (Z.to_nat (m_numMeshIntervals t) * Z.to_nat (m_numDefectsPerMeshInterval t))%nat
      with (Z.to_nat (m_numConstraints t)) by nia.
    reflexivity.
  - lia.
  - nia.
  - unfold has_shape, wf_DM, columns. cbn [defects cols rows].
    split; [|split; [done | apply length_chunks]].
    apply Forall_chunks. rewrite Nat.mul_comm. apply length_padded.
Qed.

(** X25: defects of [m_numDefectsPerMeshInterval] rows and
    [m_numMeshIntervals] columns survive the round trip when
    [m_numConstraints] is the product of the two: [flattenConstraints] returns
    a vector of [m_numConstraints] entries, and [expandConstraints] returns
    the same defects from it. *)
Theorem SlidingMass_expand_flatten_constraints (t : SlidingMass A)
    (c : Constraints (DM A)) :
  0 <= m_numDefectsPerMeshInterval t -> 0 <= m_numMeshIntervals t ->
  m_numConstraints t = m_numMeshIntervals t * m_numDefectsPerMeshInterval t ->
  has_shape (defects c) (Z.to_nat (m_numDefectsPerMeshInterval t))
    (Z.to_nat (m_numMeshIntervals t)) ->
  exists flat,
    flattenConstraints t c = Ok flat
    /\ length flat = Z.to_nat (m_numConstraints t)
    /\ expandConstraints t flat = Ok c.
Proof.
  intros HNS HM Hnum Hshape.
  assert (length (concat (cols (defects c))) = Z.to_nat (m_numConstraints t))
    as Hlen.
  { destruct Hshape as (Hwf & Hr & Hc). rewrite length_concat_wf by done.
    unfold numel. rewrite Hr, Hc. nia. }
  exists (concat (cols (defects c))). split; [|split; [exact Hlen|]].
  - apply (SlidingMass_flattenConstraints_Ok t c
             (Z.to_nat (m_numDefectsPerMeshInterval t))
             (Z.to_nat (m_numMeshIntervals t))); [lia | nia | done].
  - rewrite (SlidingMass_expandConstraints_Ok t _
               (Z.to_nat (m_numDefectsPerMeshInterval t))
               (Z.to_nat (m_numMeshIntervals t))) by (lia || nia).
    destruct Hshape as (Hwf & Hr & Hc). unfold columns in Hc.
    rewrite <- Hc at 1. rewrite <- Hr at 2. rewrite chunks_concat by done.
    rewrite <- Hr. destruct c as [[r cs]]. reflexivity.
Qed.

End SlidingMassConstraints.

Section SlidingMassConstraintsExamples.
Import TranscriptionSlidingMass.

Lemma SlidingMass_flatten_expand_constraints_witness :
  expandConstraints sandbox_example sandbox_short_flat = Ok sandbox_spread_defects
  /\ flattenConstraints sandbox_example sandbox_spread_defects
     = Ok (map Qc_of_Z [1; 2; 3] ++ [Qc_of_Z 3]).
Proof.
  assert (expandConstraints sandbox_example sandbox_short_flat
          = Ok sandbox_spread_defects) as H by (vm_compute; reflexivity).
  split; [exact H|].
  exact (SlidingMass_flatten_expand_constraints _ _ _ H).
Defined.

Lemma SlidingMass_expand_flatten_constraints_witness :
  exists flat,
    flattenConstraints sandbox_example sandbox_defects = Ok flat
    /\ length flat = Z.to_nat (m_numConstraints sandbox_example)
    /\ expandConstraints sandbox_example flat = Ok sandbox_defects.
Proof.
  apply SlidingMass_expand_flatten_constraints.
  - vm_compute. discriminate.
  - vm_compute. discriminate.
  - reflexivity.
  - vm_compute. repeat constructor.
Defined.
End SlidingMassConstraintsExamples.

(** ** sandboxAutodiff.cpp: the trapezoidal defects *)

Lemma trapezoid_column {A : Type} {SA : Scalar A} (hh : A)
    (x_i x_ip1 xdot_i xdot_ip1 : list A) (n : nat) :
  length x_i = n -> length x_ip1 = n -> length xdot_i = n -> length xdot_ip1 = n ->
  exists column,
    (slopes ← DM_binary add (column_vector xdot_ip1) (column_vector xdot_i);
     step ← DM_binary mul (scalar_DM hh) slopes;
     predicted ← DM_binary add (column_vector x_i) step;
     defect ← DM_binary sub (column_vector x_ip1) predicted;
     Ok (veccat (cols defect))) = Ok column
    /\ length column = n
    /\ forall r, (r < n)%nat ->
         column !! r
         = Some (sub (vec_get x_ip1 r)
                   (add (vec_get x_i r)
                      (mul hh (add (vec_get xdot_ip1 r) (vec_get xdot_i r))))).
Proof.
  intros Hx Hx1 Hd Hd1.
  assert (forall v : list A, wf_DM (column_vector v)) as Hwf
    by (intros v; unfold wf_DM, column_vector; simpl; by constructor).
  rewrite DM_binary_same_shape, bind_Ok_l by (done || simpl; lia).
  assert (forall y, DM_binary mul (scalar_DM hh) y = Ok (DM_map (mul hh) y)) as ->
    by reflexivity.
  rewrite bind_Ok_l. simpl.
  rewrite DM_binary_same_shape, bind_Ok_l.
  2: apply Hwf.
  2: { unfold wf_DM. simpl. constructor; [|done].
       rewrite length_map, length_zip_with. lia. }
  2, 3: unfold columns; simpl; lia.
  simpl.
  rewrite DM_binary_same_shape, bind_Ok_l.
  2: apply Hwf.
  2: { unfold wf_DM. simpl. constructor; [|done].
       rewrite length_zip_with, length_map, length_zip_with. lia. }
  2, 3: unfold columns; simpl; lia.
  unfold veccat. simpl. rewrite app_nil_r.
  eexists. split; [reflexivity|].
  split; [rewrite !length_zip_with, length_map, length_zip_with; lia|].
  intros r Hr. unfold vec_get.
  destruct (lookup_lt_is_Some_2 x_i r) as [a Ha]; [lia|].
  destruct (lookup_lt_is_Some_2 x_ip1 r) as [a1 Ha1]; [lia|].
  destruct (lookup_lt_is_Some_2 xdot_i r) as [d Hd']; [lia|].
  destruct (lookup_lt_is_Some_2 xdot_ip1 r) as [d1 Hd1']; [lia|].
  rewrite !lookup_zip_with, list_lookup_fmap, lookup_zip_with.
  rewrite Ha, Ha1, Hd', Hd1'. reflexivity.
Qed.

Lemma vec_get_DM_column {A : Type} {SA : Scalar A} (m : DM A) (r j : nat) :
  vec_get (DM_column m j) r = DM_get m r j.
Proof. unfold vec_get, DM_get, entry, DM_column. by destruct (cols m !! j). Qed.

Section SlidingMassDefects.
Import TranscriptionSlidingMass.
Context {A : Type} {SA : Scalar A}.

(** One pass of the loop writes column [imesh] of the defects and no other. *)
Lemma SlidingMass_calcDefects_interval_spec (t : SlidingMass A) (x xdot : DM A)
    (NS M imesh : nat) (defects : DM A) :
  has_shape x NS (M + 1) -> has_shape xdot NS (M + 1) ->
  (M + 1 <= length (m_times t))%nat ->
  (imesh < M)%nat -> has_shape defects NS M ->
  exists defects',
    calcDefects_interval t x xdot (Z.of_nat imesh) defects = Ok defects'
    /\ has_shape defects' NS M
    /\ (forall r j, j <> imesh -> entry defects' r j = entry defects r j)
    /\ (forall r, (r < NS)%nat ->
          entry defects' r imesh = Some (trapezoidal_defect t x xdot r imesh)).
Proof.
  intros (Hwx & Hrx & Hcx) (Hwd & Hrd & Hcd) Htimes Himesh (Hwf & Hr & Hc).
  unfold calcDefects_interval.
  rewrite !vec_at_get, !bind_Ok_l by lia.
  rewrite !DM_col_Ok, !bind_Ok_l by lia.
  replace (Z.to_nat (Z.of_nat imesh + 1)) with (S imesh) by lia.
  rewrite Nat2Z.id.
  set (h := sub (vec_get (m_times t) (S imesh)) (vec_get (m_times t) imesh)).
  destruct (trapezoid_column (mul half h) (DM_column x imesh)
              (DM_column x (S imesh)) (DM_column xdot imesh)
              (DM_column xdot (S imesh)) NS)
    as (column & Hcolumn & Hlen & Hentries);
    try (rewrite length_DM_column by (done || lia); done).
  apply bind_Ok in Hcolumn as (slopes & -> & Hcolumn). rewrite bind_Ok_l.
  apply bind_Ok in Hcolumn as (step & -> & Hcolumn). rewrite bind_Ok_l.
  apply bind_Ok in Hcolumn as (predicted & -> & Hcolumn). rewrite bind_Ok_l.
  apply bind_Ok in Hcolumn as (defect & -> & Hcolumn). rewrite bind_Ok_l.
  injection Hcolumn as ->.
  unfold DM_set_col. rewrite DM_set_rows_written by lia.
  change (Z.to_nat 0) with 0%nat.
  replace (Z.to_nat (Z.of_nat (rows defects) - 0)) with NS by lia.
  rewrite Nat2Z.id.
  eexists. split; [reflexivity|].
  split; [by apply has_shape_DM_written|].
  split.
  - intros r j Hj. apply entry_DM_written_outside. by left.
  - intros r Hrow. rewrite entry_DM_written_inside by (done || lia).
    rewrite Nat.sub_0_r, Hentries by done. unfold trapezoidal_defect.
    by rewrite !vec_get_DM_column.
Qed.

(** X26: on states and state derivatives of [NS] rows and a column per grid
    point, [calcDefects] returns, and entry [(r, imesh)] of the defects is
    the trapezoidal defect
    [x(r, imesh + 1) - (x(r, imesh) + 0.5 * h * (xdot(r, imesh + 1) + xdot(r, imesh)))]
    with [h] the time between the two grid points. *)
Theorem SlidingMass_calcDefects_trapezoidal (t : SlidingMass A) (x xdot : DM A)
    (NS M : nat) (defects : DM A) :
  m_numMeshIntervals t = Z.of_nat M ->
  has_shape x NS (M + 1) -> has_shape xdot NS (M + 1) ->
  (M + 1 <= length (m_times t))%nat ->
  has_shape defects NS M ->
  exists defects',
    calcDefects t x xdot defects = Ok defects'
    /\ has_shape defects' NS M
    /\ forall r imesh, (r < NS)%nat -> (imesh < M)%nat ->
         entry defects' r imesh = Some (trapezoidal_defect t x xdot r imesh).
Proof.
  intros HM Hx Hxdot Htimes Hdefects. unfold calcDefects. rewrite HM.
  destruct (for_range_invariant
    (fun i (m : DM A) =>
       has_shape m NS M
       /\ forall r imesh, (r < NS)%nat -> Z.of_nat imesh < i ->
            entry m r imesh = Some (trapezoidal_defect t x xdot r imesh))
    (calcDefects_interval t x xdot) (Z.of_nat M) defects)
    as (defects' & Hrun & Hshape & Hentries).
  - lia.
  - split; [done|]. intros; lia.
  - intros i m Hi (Hm & Hdone).
    destruct (SlidingMass_calcDefects_interval_spec t x xdot NS M (Z.to_nat i) m)
      as (m' & Hstep & Hm' & Hother & Hnew); try done; [lia|].
    rewrite Z2Nat.id in Hstep by lia.
    exists m'. split; [done|]. split; [done|].
    intros r imesh Hrow Himesh.
    destruct (decide (imesh = Z.to_nat i)) as [->|Hne].
    + by apply Hnew.
    + rewrite Hother by done. apply Hdone; [done | lia].
  - exists defects'. split; [done|]. split; [done|].
    intros r imesh Hrow Himesh. apply Hentries; [done | lia].
Qed.
End SlidingMassDefects.

Section SlidingMassDefectsExamples.
Import TranscriptionSlidingMass.

Lemma SlidingMass_calcDefects_trapezoidal_witness :
  exists defects',
    calcDefects sandbox_example sandbox_states sandbox_derivatives
      (defects sandbox_defects) = Ok defects'
    /\ has_shape defects' 2 2
    /\ forall r imesh, (r < 2)%nat -> (imesh < 2)%nat ->
         entry defects' r imesh
         = Some (trapezoidal_defect sandbox_example sandbox_states
                   sandbox_derivatives r imesh).
Proof.
  apply SlidingMass_calcDefects_trapezoidal.
  - reflexivity.
  - vm_compute. repeat constructor.
  - vm_compute. repeat constructor.
  - vm_compute. lia.
  - vm_compute. repeat constructor.
Defined.
End SlidingMassDefectsExamples.

(** ** sandboxAutodiff.cpp: the bounds of the sliding mass *)

Lemma DM_set_block_entries (m : DM float) (R C : Index) (x : float)
    (r0 rn c0 cn : nat) (f : nat -> nat -> float) :
  index_range (rows m) R = Ok (r0, rn) ->
  index_range (columns m) C = Ok (c0, cn) ->
  (forall i j, (i < rows m)%nat -> (j < columns m)%nat -> entry m i j = Some (f i j)) ->
  exists m',
    DM_set_block m R C x = Ok m' /\ rows m' = rows m /\ columns m' = columns m
    /\ forall i j, (i < rows m)%nat -> (j < columns m)%nat ->
         entry m' i j
         = Some (if decide ((r0 <= i < r0 + rn)%nat /\ (c0 <= j < c0 + cn)%nat)
                 then x else f i j).
Proof.
  intros HR HC Hf.
  destruct (DM_set_block_Ok m R C x) as [m' Hm']; [by eexists | by eexists |].
  exists m'. split; [exact Hm'|].
  apply DM_set_block_spec in Hm' as (Hrows & Hcols & Hentries).
  split; [done|]. split; [done|].
  intros i j Hi Hj. destruct (Hentries i j) as [Hin Hout].
  case_decide as Hblock.
  - rewrite Hin; [by rewrite Hf|].
    split; eexists _, _; (split; [eassumption | lia]).
  - rewrite Hout; [by rewrite Hf|].
    intros [(a & n & Ha & Hai) (b & k & Hb & Hbj)].
    rewrite HR in Ha. rewrite HC in Hb.
    injection Ha as <- <-. injection Hb as <- <-. by apply Hblock.
Qed.

Section SlidingMassBounds.
Import TranscriptionSlidingMass.

Lemma buffer_is_insert (vars : gmap Var (DM float)) (var key : Var) (m : DM float)
    (r c : nat) (f : nat -> nat -> float) :
  key <> var -> buffer_is vars key r c f -> buffer_is (<[var := m]> vars) key r c f.
Proof.
  intros Hne (m0 & Hm0 & H). exists m0. by rewrite lookup_insert_ne.
Qed.

(** A call with set bounds stores them in the addressed block of the two
    buffers of [var]. *)
Lemma setVariableBounds_buffers (var : Var) (R C : Index) (bounds : Bounds)
    (b : BoundBuffers) (shape : Var -> nat * nat)
    (fl fu : Var -> nat -> nat -> float) (r0 rn c0 cn : nat) :
  isSet bounds = true -> buffers_are b shape fl fu ->
  index_range (fst (shape var)) R = Ok (r0, rn) ->
  index_range (snd (shape var)) C = Ok (c0, cn) ->
  exists b',
    setVariableBounds var R C bounds b = Ok b'
    /\ buffers_are b' shape (block_update fl var r0 rn c0 cn (lower bounds))
         (block_update fu var r0 rn c0 cn (upper bounds)).
Proof.
  intros Hset Hb HR HC. unfold setVariableBounds. rewrite Hset.
  destruct (Hb var) as [(ml & Hml & Hrl & Hcl & Hfl) (mu & Hmu & Hru & Hcu & Hfu)].
  unfold subscript. rewrite Hml, Hmu. simpl.
  assert (index_range (rows ml) R = Ok (r0, rn)) as HRl by (by rewrite Hrl).
  assert (index_range (columns ml) C = Ok (c0, cn)) as HCl by (by rewrite Hcl).
  assert (index_range (rows mu) R = Ok (r0, rn)) as HRu by (by rewrite Hru).
  assert (index_range (columns mu) C = Ok (c0, cn)) as HCu by (by rewrite Hcu).
  destruct (DM_set_block_entries ml R C (lower bounds) r0 rn c0 cn (fl var) HRl HCl)
    as (ml' & -> & Hrl' & Hcl' & Hfl'); [by rewrite Hrl, Hcl|].
  destruct (DM_set_block_entries mu R C (upper bounds) r0 rn c0 cn (fu var) HRu HCu)
    as (mu' & -> & Hru' & Hcu' & Hfu'); [by rewrite Hru, Hcu|].
  simpl. eexists. split; [reflexivity|].
  intros key. simpl. destruct (decide (key = var)) as [->|Hne].
  - split.
    + exists ml'. rewrite lookup_insert_eq. split; [done|].
      split; [lia|]. split; [lia|]. intros i j Hi Hj.
      rewrite Hfl' by lia. unfold block_update. f_equal.
      repeat case_decide; try done; naive_solver.
    + exists mu'. rewrite lookup_insert_eq. split; [done|].
      split; [lia|]. split; [lia|]. intros i j Hi Hj.
      rewrite Hfu' by lia. unfold block_update. f_equal.
      repeat case_decide; try done; naive_solver.
  - destruct (Hb key) as [(kl & Hkl & Hkrl & Hkcl & Hkfl) (ku & Hku & Hkru & Hkcu & Hkfu)].
    split.
    + exists kl. rewrite lookup_insert_ne by done. split; [done|].
      split; [done|]. split; [done|]. intros i j Hi Hj.
      rewrite Hkfl by done. unfold block_update. f_equal.
      rewrite decide_False; [done | naive_solver].
    + exists ku. rewrite lookup_insert_ne by done. split; [done|].
      split; [done|]. split; [done|]. intros i j Hi Hj.
      rewrite Hkfu by done. unfold block_update. f_equal.
      rewrite decide_False; [done | naive_solver].
Qed.

Lemma index_range_last (len : nat) :
  (0 < len)%nat -> index_range len (Int (-1)) = Ok ((len - 1)%nat, 1%nat).
Proof.
  intros Hlen. simpl. unfold scalar_index, wrap.
  rewrite (decide_True (P := -1 < 0)) by lia.
  rewrite decide_True by lia. simpl.
  do 2 f_equal. lia.
Qed.

Lemma index_range_inner (M : nat) :
  index_range (M + 1) (Slice 1 (Z.of_nat M + 1 - 1)) = Ok (1%nat, (M - 1)%nat).
Proof.
  simpl. rewrite slice_index_Ok by lia. do 2 f_equal. lia.
Qed.

Lemma initializeBoundsDM_buffer (vars : gmap Var Shape) (var : Var) (r c : nat) :
  vars !! var = Some (mkShape r c) ->
  buffer_is (initializeBoundsDM vars) var r c (fun _ _ => 0%float).
Proof.
  intros Hvar. exists (DM_fill r c zero).
  unfold initializeBoundsDM. rewrite lookup_fmap, Hvar. simpl.
  split; [done|]. split; [done|].
  split; [unfold columns; simpl; apply length_replicate|].
  intros i j Hi Hj. unfold entry. simpl.
  rewrite lookup_replicate_2 by done. simpl. by rewrite lookup_replicate_2.
Qed.

(** X27: with no grid point (or a negative number of them)
    [createVariablesAndSetBounds] throws.  On [M] mesh intervals it returns,
    and the bounds it leaves are: both times start at 0, the final time is in
    [0, 5]; the position is 1 and the speed 0 at the last grid point; they
    are both 0 at the first grid point when it is not also the last; in
    between the position is in [-5, 5] and the speed in [-50, 50]; the
    control is in [-50, 50] everywhere. *)
Theorem SlidingMass_bounds :
  (forall m_numGridPoints, m_numGridPoints <= 0 ->
     createVariablesAndSetBounds m_numGridPoints = Throw CasadiException)
  /\ forall M : nat,
       exists vars b,
         createVariablesAndSetBounds (Z.of_nat M + 1) = Ok (vars, b)
         /\ bounds_entry b initial_time 0 0 = Some (mkBounds 0 0)
         /\ bounds_entry b final_time 0 0 = Some (mkBounds 0 5)
         /\ bounds_entry b states 0 M = Some (mkBounds 1 1)
         /\ bounds_entry b states 1 M = Some (mkBounds 0 0)
         /\ ((0 < M)%nat ->
               bounds_entry b states 0 0 = Some (mkBounds 0 0)
               /\ bounds_entry b states 1 0 = Some (mkBounds 0 0))
         /\ (forall j, (0 < j < M)%nat ->
               bounds_entry b states 0 j = Some (mkBounds (-5) 5)
               /\ bounds_entry b states 1 j = Some (mkBounds (-50) 50))
         /\ (forall j, (j <= M)%nat ->
               bounds_entry b controls 0 j = Some (mkBounds (-50) 50)).
Proof.
  split.
  - intros G HG. destruct (decide (G = 0)) as [->|Hne]; [by vm_compute|].
    unfold createVariablesAndSetBounds.
    change (MX_sym 1 1) with (Ok (mkShape 1 1)). rewrite !bind_Ok_l.
    assert (MX_sym m_numStates G = Throw CasadiException) as ->
      by (unfold MX_sym; by rewrite decide_False by lia).
    reflexivity.
  - intros M. unfold createVariablesAndSetBounds.
    change (MX_sym 1 1) with (Ok (mkShape 1 1)).
    assert (MX_sym m_numStates (Z.of_nat M + 1) = Ok (mkShape 2 (M + 1))) as ->.
    { unfold MX_sym, m_numStates. rewrite decide_True by lia.
      do 2 f_equal. lia. }
    assert (MX_sym m_numControls (Z.of_nat M + 1) = Ok (mkShape 1 (M + 1))) as ->.
    { unfold MX_sym, m_numControls. rewrite decide_True by lia.
      do 2 f_equal. lia. }
    rewrite !bind_Ok_l. cbv zeta.
    set (vars := <[controls := _]> _).
    set (b0 := mkBoundBuffers _ _).
    assert (buffers_are b0 (sliding_mass_shape M)
              (fun _ _ _ => 0%float) (fun _ _ _ => 0%float)) as H0.
    { intros var. unfold b0. simpl.
      split; apply initializeBoundsDM_buffer; unfold vars; by destruct var. }
    destruct (setVariableBounds_buffers initial_time (Int 0) (Int 0)
                (mkBounds 0 0) b0 _ _ _ 0 1 0 1 eq_refl H0)
      as (b1 & -> & H1); [reflexivity | reflexivity |]. rewrite bind_Ok_l.
    destruct (setVariableBounds_buffers final_time (Int 0) (Int 0)
                (mkBounds 0 5) b1 _ _ _ 0 1 0 1 eq_refl H1)
      as (b2 & -> & H2); [reflexivity | reflexivity |]. rewrite bind_Ok_l.
    destruct (setVariableBounds_buffers states (Int 0) (Int 0)
                (mkBounds 0 0) b2 _ _ _ 0 1 0 1 eq_refl H2)
      as (b3 & -> & H3);
      [reflexivity | simpl; by rewrite scalar_index_Ok by lia |].
    rewrite bind_Ok_l.
    destruct (setVariableBounds_buffers states (Int 0) (Int (-1))
                (mkBounds 1 1) b3 _ _ _ 0 1 (M + 1 - 1) 1 eq_refl H3)
      as (b4 & -> & H4); [reflexivity | apply index_range_last; lia |].
    rewrite bind_Ok_l.
    destruct (setVariableBounds_buffers states (Int 0)
                (Slice 1 (Z.of_nat M + 1 - 1))
                (mkBounds (-5) 5) b4 _ _ _ 0 1 1 (M - 1) eq_refl H4)
      as (b5 & -> & H5); [reflexivity | apply index_range_inner |].
    rewrite bind_Ok_l.
    destruct (setVariableBounds_buffers states (Int 1) (Int 0)
                (mkBounds 0 0) b5 _ _ _ 1 1 0 1 eq_refl H5)
      as (b6 & -> & H6);
      [reflexivity | simpl; by rewrite scalar_index_Ok by lia |].
    rewrite bind_Ok_l.
    destruct (setVariableBounds_buffers states (Int 1) (Int (-1))
                (mkBounds 0 0) b6 _ _ _ 1 1 (M + 1 - 1) 1 eq_refl H6)
      as (b7 & -> & H7); [reflexivity | apply index_range_last; lia |].
    rewrite bind_Ok_l.
    destruct (setVariableBounds_buffers states (Int 1)
                (Slice 1 (Z.of_nat M + 1 - 1))
                (mkBounds (-50) 50) b7 _ _ _ 1 1 1 (M - 1) eq_refl H7)
      as (b8 & -> & H8); [reflexivity | apply index_range_inner |].
    rewrite bind_Ok_l.
    destruct (setVariableBounds_buffers controls SliceAll SliceAll
                (mkBounds (-50) 50) b8 _ _ _ 0 1 0 (M + 1) eq_refl H8)
      as (b9 & -> & H9); [reflexivity | reflexivity |].
    rewrite bind_Ok_l.
    exists vars, b9. split; [reflexivity|].
    match type of H9 with
    | buffers_are _ _ ?fl ?fu =>
        assert (forall var r j,
                  (r < fst (sliding_mass_shape M var))%nat ->
                  (j < snd (sliding_mass_shape M var))%nat ->
                  bounds_entry b9 var r j
                  = Some (mkBounds (fl var r j) (fu var r j))) as Hentry
    end.
    { intros var r j Hr Hj.
      destruct (H9 var) as [(ml & Hml & _ & _ & Hfl) (mu & Hmu & _ & _ & Hfu)].
      unfold bounds_entry, subscript. rewrite Hml, Hmu. simpl.
      by rewrite (Hfl r j Hr Hj), (Hfu r j Hr Hj). }
    clear H0 H1 H2 H3 H4 H5 H6 H7 H8 H9.
    split; [rewrite Hentry by (simpl; lia); f_equal; f_equal; block_entry|].
    split; [rewrite Hentry by (simpl; lia); f_equal; f_equal; block_entry|].
    split; [rewrite Hentry by (simpl; lia); f_equal; f_equal; block_entry|].
    split; [rewrite Hentry by (simpl; lia); f_equal; f_equal; block_entry|].
    split.
    { intros HM.
      split; rewrite Hentry by (simpl; lia); f_equal; f_equal; block_entry. }
    split.
    { intros j Hj.
      split; rewrite Hentry by (simpl; lia); f_equal; f_equal; block_entry. }
    intros j Hj. rewrite Hentry by (simpl; lia). f_equal. f_equal; block_entry.
Qed.
End SlidingMassBounds.

(** ** ActuatorInputController.cpp: aliases and the routing of the inputs *)

Lemma forM_Throw_inv {S : Type} (l : list Z) (body : Z -> S -> result S) (s : S)
    (e : Exception) :
  forM l body s = Throw e -> exists i s1, i ∈ l /\ body i s1 = Throw e.
Proof.
  revert s. induction l as [|i l IH]; intros s H; simpl in H; [discriminate|].
  destruct (body i s) as [s'|e'] eqn:Hbody; simpl in H.
  - destruct (IH s' H) as (i' & s1 & Hin & Hthrow).
    exists i', s1. split; [set_solver | done].
  - injection H as ->. exists i, s. split; [set_solver | done].
Qed.

Lemma elem_of_foldl_snoc {T J : Type} (f : J -> T) (js : list J) (acc : list T)
    (x : T) :
  x ∈ foldl (fun a j => a ++ [f j]) acc js
  <-> x ∈ acc \/ exists j, j ∈ js /\ x = f j.
Proof.
  revert acc. induction js as [|j js IH]; intros acc; simpl.
  - split; [by left | intros [H|(j & Hj & _)]; [done | by apply elem_of_nil in Hj]].
  - rewrite IH, elem_of_app, list_elem_of_singleton. split.
    + intros [[H| ->]|(j' & Hj' & ->)]; [by left | right; exists j | right; exists j'];
        set_solver.
    + intros [H|(j' & [->|Hj']%elem_of_cons & ->)];
        [by left; left | by left; right | right; by exists j'].
Qed.

Section ActuatorInputControllerProperties.
Import ActuatorInputController.
Context {State : Type}.

Lemma expected_aliases_foldl (l : list Actuator) (acc : list string) (alias : string) :
  alias ∈ foldl (fun aliases actu =>
                   if decide (numControls actu > 1) then
                     foldl (fun aliases j =>
                              aliases ++ [format_path_index (getAbsolutePathString actu) j])
                       aliases (seqZ 0 (numControls actu))
                   else aliases ++ [getAbsolutePathString actu])
            acc l
  <-> alias ∈ acc \/ names_control l alias.
Proof.
  revert acc. induction l as [|actu l IH]; intros acc; simpl.
  - split; [by left | intros [H|(a & Ha & _)]; [done | by apply elem_of_nil in Ha]].
  - rewrite IH. unfold names_control. case_decide as Hn.
    + rewrite elem_of_foldl_snoc. split.
      * intros [[H|(j & Hj & ->)]|(a & Ha & Hcase)].
        -- by left.
        -- right. exists actu. split; [set_solver|]. right. exists j.
           apply elem_of_seqZ in Hj. split; [lia|]. split; [lia | done].
        -- right. exists a. split; [set_solver | done].
      * intros [H|(a & [->|Ha]%elem_of_cons & Hcase)].
        -- by left; left.
        -- left. right. destruct Hcase as [[Hle _]|(j & Hj & _ & ->)]; [lia|].
           exists j. split; [apply elem_of_seqZ; lia | done].
        -- right. by exists a.
    + rewrite elem_of_app, list_elem_of_singleton. split.
      * intros [[H| ->]|(a & Ha & Hcase)].
        -- by left.
        -- right. exists actu. split; [set_solver|]. left. split; [lia | done].
        -- right. exists a. split; [set_solver | done].
      * intros [H|(a & [->|Ha]%elem_of_cons & Hcase)].
        -- by left; left.
        -- left. right. destruct Hcase as [[_ ->]|(j & _ & Hlt & _)]; [done | lia].
        -- right. by exists a.
Qed.

(** The expected aliases are the names of the controls of the connected
    actuators. *)
Lemma getExpectedInputChannelAliases_spec (c : Controller State) (alias : string) :
  alias ∈ getExpectedInputChannelAliases c <-> names_control (actuators c) alias.
Proof.
  unfold getExpectedInputChannelAliases. rewrite expected_aliases_foldl.
  split; [intros [H|H]; [by apply elem_of_nil in H | done] | by right].
Qed.

Lemma element_lookup {T : Type} (v : list T) (i : Z) (x : T) :
  element v i = Ok x -> 0 <= i /\ v !! Z.to_nat i = Some x.
Proof.
  unfold element. case_decide; [|discriminate].
  destruct (v !! Z.to_nat i); [|discriminate]. by intros [= ->].
Qed.

(** The first loop of [extendConnectToModel] collects the aliases of the
    inputs, and returns only if all of them are expected. *)
Lemma collect_aliases_Ok (c : Controller State) (aliases : list string) :
  for_range 0 (Z.of_nat (length (inputs c))) (fun i aliasesInConnecteeOrder =>
    channel ← element (inputs c) i;
    let alias := getAlias channel in
    _ ← OPENSIM_THROW_IF
          (bool_decide (alias ∉ getExpectedInputChannelAliases c))
          (unexpected_alias alias);
    Ok (aliasesInConnecteeOrder ++ [alias])) [] = Ok aliases ->
  aliases = map getAlias (inputs c)
  /\ Forall (fun ch => names_control (actuators c) (getAlias ch)) (inputs c).
Proof.
  intros H.
  pose proof (for_range_Ok_invariant
    (fun i (acc : list string) =>
       acc = map getAlias (take (Z.to_nat i) (inputs c))
       /\ Forall (fun ch => names_control (actuators c) (getAlias ch))
            (take (Z.to_nat i) (inputs c)))
    _ _ _ _ (Nat2Z.is_nonneg _) H) as Hinv.
  destruct Hinv as [Haliases Hall].
  - split; [done | constructor].
  - intros i acc acc' Hi [-> Hall] Hbody. cbv zeta in Hbody.
    apply bind_Ok in Hbody as (ch & Hch & Hbody).
    apply element_lookup in Hch as [_ Hch].
    apply bind_Ok in Hbody as (u & Hcheck & Hbody). injection Hbody as <-.
    unfold OPENSIM_THROW_IF in Hcheck. case_bool_decide as Hin; [discriminate|].
    apply getExpectedInputChannelAliases_spec in Hin.
    replace (Z.to_nat (i + 1)) with (S (Z.to_nat i)) by lia.
    rewrite (take_S_r _ _ ch Hch), map_app. split; [done|].
    apply Forall_app. split; [done | by constructor].
  - rewrite Nat2Z.id, take_ge in Haliases, Hall by lia. done.
Qed.

(** X28: when an input is connected whose alias is not the name of a control
    of a connected actuator, [extendConnectToModel] throws, with the message
    that names such an alias (the numbers of controls and of control names
    being equal, as the function asserts). *)
Theorem extendConnectToModel_unexpected_alias (c : Controller State)
    (channel : Channel State) :
  getNumControls c = Z.of_nat (length (getControlNames c)) ->
  channel ∈ inputs c ->
  ~ names_control (actuators c) (getAlias channel) ->
  exists channel',
    channel' ∈ inputs c
    /\ ~ names_control (actuators c) (getAlias channel')
    /\ extendConnectToModel c
       = Throw (OpenSimException (unexpected_alias (getAlias channel'))).
Proof.
  intros Hassert Hin Hbad. unfold extendConnectToModel. cbv zeta.
  assert (OPENSIM_ASSERT
            (bool_decide (getNumControls c = Z.of_nat (length (getControlNames c))))
          = Ok tt) as -> by (by rewrite bool_decide_eq_true_2 by done).
  rewrite bind_Ok_l.
  destruct (for_range 0 _ _ []) as [aliases|e] eqn:Hloop.
  - apply collect_aliases_Ok in Hloop as [_ Hall].
    exfalso. apply Hbad. by apply (proj1 (Forall_forall _ _) Hall).
  - unfold for_range in Hloop.
    apply forM_Throw_inv in Hloop as (i & acc & Hi & Hbody).
    apply elem_of_seqZ in Hi.
    destruct (lookup_lt_is_Some_2 (inputs c) (Z.to_nat i)) as [ch Hch]; [lia|].
    pose proof (element_Ok (inputs c) (Z.to_nat i) ch Hch) as Helement.
    rewrite Z2Nat.id in Helement by lia. rewrite Helement in Hbody.
    cbv zeta in Hbody. rewrite bind_Ok_l in Hbody.
    unfold OPENSIM_THROW_IF in Hbody. case_bool_decide as Hnot; [|discriminate].
    injection Hbody as <-. exists ch.
    split; [by eapply list_elem_of_lookup_2|].
    split; [by rewrite <- getExpectedInputChannelAliases_spec | reflexivity].
Qed.
Lemma find_index_first (v : list string) (x : string) :
  (find_index v x < length v)%nat -> first_position v x (find_index v x).
Proof.
  unfold find_index, first_position.
  destruct (list_find (fun y => y = x) v) as [[k y]|] eqn:Hfind; simpl; [|lia].
  intros _. apply list_find_Some in Hfind as (Hk & -> & Hfirst).
  split; [done|]. intros k' Hk' Hx. by apply (Hfirst k' x).
Qed.

(** The second loop of [extendConnectToModel] looks every alias up. *)
Lemma collect_indexes_Ok (controlNames : list string) (controlIndexes : list Z)
    (aliases : list string) (acc indexes : list Z) :
  for_each aliases (fun alias indexes =>
    let it := find_index controlNames alias in
    index ← element controlIndexes (Z.of_nat it);
    Ok (indexes ++ [index])) acc = Ok indexes ->
  exists found,
    indexes = acc ++ found
    /\ Forall2 (fun alias index =>
                  controlIndexes !! find_index controlNames alias = Some index)
         aliases found.
Proof.
  revert acc. induction aliases as [|alias aliases IH]; intros acc H; simpl in H.
  - injection H as <-. exists []. by rewrite app_nil_r.
  - apply bind_Ok in H as (acc' & Hstep & H).
    apply bind_Ok in Hstep as (index & Hindex & Hstep). injection Hstep as <-.
    apply element_lookup in Hindex as [_ Hindex]. rewrite Nat2Z.id in Hindex.
    destruct (IH _ H) as (found & -> & Hfound).
    exists (index :: found). rewrite <- app_assoc. split; [done|].
    by constructor.
Qed.

Lemma extendConnectToModel_Ok (c c' : Controller State) :
  extendConnectToModel c = Ok c' ->
  inputs c' = inputs c
  /\ getNumControls c' = getNumControls c
  /\ Forall2 (fun channel index =>
                getControlIndexes c
                  !! find_index (getControlNames c) (getAlias channel)
                = Some index)
       (inputs c) (m_controlIndexesInConnecteeOrder c').
Proof.
  intros H. unfold extendConnectToModel in H. cbv zeta in H.
  apply bind_Ok in H as (u & _ & H).
  apply bind_Ok in H as (aliases & Haliases & H).
  apply bind_Ok in H as (indexes & Hindexes & H). injection H as <-. simpl.
  apply collect_aliases_Ok in Haliases as [-> _].
  apply collect_indexes_Ok in Hindexes as (found & -> & Hfound).
  split; [done|]. split; [done|]. simpl.
  by apply Forall2_fmap_l in Hfound.
Qed.

Lemma store_Ok {T : Type} (v v' : list T) (i : Z) (x : T) :
  store v i x = Ok v' ->
  0 <= i < Z.of_nat (length v) /\ v' = <[Z.to_nat i := x]> v.
Proof. unfold store. case_decide; [|discriminate]. by intros [= <-]. Qed.

(** X29: after [extendConnectToModel], when no two inputs are routed to the
    same control, [computeControls] stores the value of every input in the
    entry of [controls] that [getControlIndexes] gives for the first control
    name equal to the input's alias, and changes no other entry (one control
    index per control name). *)
Theorem computeControls_routes (c c' : Controller State) (s : State)
    (controls controls' : list float) :
  length (getControlIndexes c) = length (getControlNames c) ->
  extendConnectToModel c = Ok c' ->
  NoDup (m_controlIndexesInConnecteeOrder c') ->
  computeControls c' s controls = Ok controls' ->
  length controls' = length controls
  /\ (forall channel, channel ∈ inputs c ->
        exists k index,
          first_position (getControlNames c) (getAlias channel) k
          /\ getControlIndexes c !! k = Some index /\ 0 <= index
          /\ controls' !! Z.to_nat index = Some (getValue channel s))
  /\ (forall p, Z.of_nat p ∉ m_controlIndexesInConnecteeOrder c' ->
        controls' !! p = controls !! p).
Proof.
  intros Hlen Hconnect Hnodup Hrun.
  apply extendConnectToModel_Ok in Hconnect as (Hinputs & _ & Hfound).
  unfold computeControls in Hrun. rewrite Hinputs in Hrun.
  apply bind_Ok in Hrun as (u & _ & Hrun).
  set (indexes := m_controlIndexesInConnecteeOrder c') in *.
  pose proof (for_range_Ok_invariant
    (fun i (ctl : list float) =>
       length ctl = length controls
       /\ (forall i' index channel, Z.of_nat i' < i ->
             indexes !! i' = Some index -> inputs c !! i' = Some channel ->
             0 <= index /\ ctl !! Z.to_nat index = Some (getValue channel s))
       /\ (forall p, (forall i', Z.of_nat i' < i ->
                        indexes !! i' <> Some (Z.of_nat p)) ->
             ctl !! p = controls !! p))
    _ _ _ _ (Nat2Z.is_nonneg _) Hrun) as Hinv.
  destruct Hinv as (Hlength & Hstored & Hother).
  - split; [done|]. split; [intros; lia | done].
  - intros i ctl ctl' Hi (Hl & Hs & Ho) Hbody.
    apply bind_Ok in Hbody as (index & Hindex & Hbody).
    apply bind_Ok in Hbody as (channel & Hchannel & Hbody).
    apply element_lookup in Hindex as [_ Hindex].
    apply element_lookup in Hchannel as [_ Hchannel].
    apply store_Ok in Hbody as [Hrange ->].
    split; [by rewrite length_insert|].
    split.
    + intros i' index' channel' Hi' Hindex' Hchannel'.
      destruct (decide (i' = Z.to_nat i)) as [->|Hne].
      * rewrite Hindex in Hindex'. rewrite Hchannel in Hchannel'.
        injection Hindex' as <-. injection Hchannel' as <-.
        split; [lia|]. apply list_lookup_insert_eq. lia.
      * destruct (Hs i' index' channel') as [Hnn Hval]; [lia | done | done |].
        split; [done|]. rewrite list_lookup_insert_ne; [done|].
        intros Heq. apply Hne.
        apply (NoDup_lookup _ _ _ index' Hnodup); [done|].
        rewrite Hindex. f_equal. lia.
    + intros p Hp. rewrite list_lookup_insert_ne.
      * apply Ho. intros i' Hi'. apply Hp. lia.
      * intros <-. apply (Hp (Z.to_nat i)); [lia|].
        rewrite Hindex. f_equal. lia.
  - split; [done|]. split.
    + intros channel Hin. apply list_elem_of_lookup in Hin as [i Hchannel].
      destruct (Forall2_lookup_l _ _ _ _ _ Hfound Hchannel)
        as (index & Hindex & Hlookup).
      apply lookup_lt_Some in Hchannel as Hi.
      destruct (Hstored i index channel) as [Hnn Hval]; [lia | done | done |].
      exists (find_index (getControlNames c) (getAlias channel)), index.
      split; [|done].
      apply find_index_first. apply lookup_lt_Some in Hlookup. lia.
    + intros p Hp. apply Hother. intros i' _ Hin. apply Hp.
      by eapply list_elem_of_lookup_2.
Qed.
End ActuatorInputControllerProperties.

Lemma extendConnectToModel_unexpected_alias_witness :
  exists channel',
    channel' ∈ ActuatorInputController.inputs misnamed_controller
    /\ ~ ActuatorInputController.names_control
           (ActuatorInputController.actuators misnamed_controller)
           (ActuatorInputController.getAlias channel')
    /\ ActuatorInputController.extendConnectToModel misnamed_controller
       = Throw (OpenSimException
                  (ActuatorInputController.unexpected_alias
                     (ActuatorInputController.getAlias channel'))).
Proof.
  apply (extendConnectToModel_unexpected_alias misnamed_controller
           (ActuatorInputController.mkChannel "/forceset/b" (fun s => s))).
  - reflexivity.
  - simpl. set_solver.
  - intros (actu & Hactu & Hcase). simpl in Hactu.
    apply elem_of_cons in Hactu as [->|Hactu].
    + destruct Hcase as [[_ Heq]|(j & Hj & Hlt & _)]; [discriminate Heq|].
      simpl in Hlt. lia.
    + apply list_elem_of_singleton in Hactu as ->.
      destruct Hcase as [[Hle _]|(j & Hj & _ & Heq)]; [simpl in Hle; lia|].
      simpl in Hj. assert (j = 0 \/ j = 1) as [-> | ->] by lia; discriminate Heq.
Defined.

Lemma computeControls_routes_witness :
  exists c' controls',
    ActuatorInputController.extendConnectToModel example_controller = Ok c'
    /\ ActuatorInputController.computeControls c' 10%float
         [0; 0; 0; 0; 0; 0]%float = Ok controls'
    /\ length controls' = 6%nat
    /\ (forall channel,
          channel ∈ ActuatorInputController.inputs example_controller ->
          exists k index,
            ActuatorInputController.first_position
              (ActuatorInputController.getControlNames example_controller)
              (ActuatorInputController.getAlias channel) k
            /\ ActuatorInputController.getControlIndexes example_controller !! k
               = Some index
            /\ 0 <= index
            /\ controls' !! Z.to_nat index
               = Some (ActuatorInputController.getValue channel 10%float))
    /\ (forall p,
          Z.of_nat p
            ∉ ActuatorInputController.m_controlIndexesInConnecteeOrder c' ->
          controls' !! p = [0; 0; 0; 0; 0; 0]%float !! p).
Proof.
  destruct (ActuatorInputController.extendConnectToModel example_controller)
    as [c'|] eqn:Hc; [|vm_compute in Hc; discriminate Hc].
  destruct (ActuatorInputController.computeControls c' 10%float
              [0; 0; 0; 0; 0; 0]%float) as [controls'|] eqn:Hrun.
  - exists c', controls'. split; [reflexivity|]. split; [exact Hrun|].
    apply (computeControls_routes example_controller c' 10%float
             [0; 0; 0; 0; 0; 0]%float controls' eq_refl Hc);
      [|exact Hrun].
    vm_compute in Hc. injection Hc as <-. simpl.
    repeat (apply NoDup_cons; split; [set_solver|]). apply NoDup_nil_2.
  - vm_compute in Hc. injection Hc as <-. vm_compute in Hrun. discriminate Hrun.
Defined.
